(** * Action protocol and session state engine of the Appetize JavaScript SDK

    A shallow embedding of the coordinate mapper, the swipe-gesture builder,
    the error classes, the action dispatcher ([Session.playAction]) and the
    parts of the session state machine that manage channel listeners and
    the pixel-change-detection toggle, together with the properties that
    were checked against them. *)

From Stdlib Require Import QArith Qround Qminmax Qabs Lia Lqa Ascii String.
From stdpp Require Import base tactics option list strings gmap pretty.

Local Open Scope Z_scope.
Local Open Scope Q_scope.

(* ===================================================================== *)
(** ** JavaScript numbers *)
(* ===================================================================== *)

(** JavaScript numbers are modelled as exact rationals extended with [NaN]
    and the two infinities.  Rounding to IEEE doubles and the sign of zero
    are not modelled: every finite operation is exact. *)
Module JsNum.

Inductive num : Type :=
| NaN
| Inf (negative : bool)
| Fin (q : Q).

Definition Infinity : num := Inf false.
Definition of_Z (z : Z) : num := Fin (inject_Z z).

Definition Qzero (q : Q) : bool := Qeq_bool q 0.
Definition Qneg (q : Q) : bool := negb (Qle_bool 0 q).

Definition isNaN (a : num) : bool :=
  match a with NaN => true | _ => false end.

(** [Boolean(a)]: every number but [NaN] and zero is truthy. *)
Definition truthy (a : num) : bool :=
  match a with
  | NaN => false
  | Inf _ => true
  | Fin q => negb (Qzero q)
  end.

(** [a || b] on numbers. *)
Definition or_else (a b : num) : num := if truthy a then a else b.

Definition opp (a : num) : num :=
  match a with
  | NaN => NaN
  | Inf s => Inf (negb s)
  | Fin q => Fin (- q)
  end.

Definition add (a b : num) : num :=
  match a, b with
  | NaN, _ | _, NaN => NaN
  | Inf s, Inf s' => if Bool.eqb s s' then Inf s else NaN
  | Inf s, Fin _ | Fin _, Inf s => Inf s
  | Fin p, Fin q => Fin (p + q)
  end.

Definition sub (a b : num) : num := add a (opp b).

Definition mul (a b : num) : num :=
  match a, b with
  | NaN, _ | _, NaN => NaN
  | Inf s, Inf s' => Inf (xorb s s')
  | Inf s, Fin q | Fin q, Inf s =>
      if Qzero q then NaN else Inf (xorb s (Qneg q))
  | Fin p, Fin q => Fin (p * q)
  end.

Definition div (a b : num) : num :=
  match a, b with
  | NaN, _ | _, NaN => NaN
  | Inf _, Inf _ => NaN
  | Inf s, Fin q => Inf (xorb s (Qneg q))
  | Fin _, Inf _ => Fin 0
  | Fin p, Fin q =>
      if Qzero q then (if Qzero p then NaN else Inf (Qneg p))
      else Fin (p / q)
  end.

(** [a < b]; every comparison with [NaN] is false. *)
Definition lt (a b : num) : bool :=
  match a, b with
  | NaN, _ | _, NaN => false
  | Inf s, Inf s' => s && negb s'
  | Inf s, Fin _ => s
  | Fin _, Inf s => negb s
  | Fin p, Fin q => negb (Qle_bool q p)
  end.

Definition gt (a b : num) : bool := lt b a.

Definition le (a b : num) : bool :=
  match a, b with
  | NaN, _ | _, NaN => false
  | Inf s, Inf s' => s || negb s'
  | Inf s, Fin _ => s
  | Fin _, Inf s => negb s
  | Fin p, Fin q => Qle_bool p q
  end.

Definition ge (a b : num) : bool := le b a.

(** [a === b] *)
Definition strict_eq (a b : num) : bool :=
  match a, b with
  | Inf s, Inf s' => Bool.eqb s s'
  | Fin p, Fin q => Qeq_bool p q
  | _, _ => false
  end.

(** [Math.min] and [Math.max]: [NaN] if either argument is. *)
Definition min (a b : num) : num :=
  match a, b with
  | NaN, _ | _, NaN => NaN
  | _, _ => if lt b a then b else a
  end.

Definition max (a b : num) : num :=
  match a, b with
  | NaN, _ | _, NaN => NaN
  | _, _ => if lt a b then b else a
  end.

(** [Math.floor] *)
Definition floor (a : num) : num :=
  match a with
  | Fin q => Fin (inject_Z (Qfloor q))
  | _ => a
  end.

(** [Math.round]: to the nearest integer, halves towards +Infinity. *)
Definition round (a : num) : num :=
  match a with
  | Fin q => Fin (inject_Z (Qfloor (q + (1 # 2))))
  | _ => a
  end.

(** The same JavaScript value: the same special value, or finite values
    that are equal as rationals. *)
Definition same (a b : num) : Prop :=
  match a, b with
  | NaN, NaN => True
  | Inf s, Inf s' => s = s'
  | Fin p, Fin q => p == q
  | _, _ => False
  end.

End JsNum.
Export JsNum.

Declare Scope num_scope.
Delimit Scope num_scope with num.
Bind Scope num_scope with num.
Infix "+" := JsNum.add : num_scope.
Infix "-" := JsNum.sub : num_scope.
Infix "*" := JsNum.mul : num_scope.
Infix "/" := JsNum.div : num_scope.

Local Open Scope string_scope.

(* ===================================================================== *)
(** ** JavaScript strings *)
(* ===================================================================== *)

(** Strings are byte strings; only the ASCII white space characters are
    recognised by [trimStart]. *)
Module JsString.

Definition is_whitespace (c : ascii) : bool :=
  let n := nat_of_ascii c in
  ((9 <=? n) && (n <=? 13))%nat || (n =? 32)%nat.

Definition is_digit (c : ascii) : bool :=
  let n := nat_of_ascii c in ((48 <=? n) && (n <=? 57))%nat.

Definition digit_value (c : ascii) : Z := Z.of_nat (nat_of_ascii c) - 48.

Fixpoint trimStart (s : string) : string :=
  match s with
  | String c r => if is_whitespace c then trimStart r else s
  | EmptyString => s
  end.

(** The longest prefix of decimal digits. *)
Fixpoint leading_digits (s : string) : list ascii :=
  match s with
  | String c r => if is_digit c then c :: leading_digits r else []
  | EmptyString => []
  end.

Definition decimal_value (ds : list ascii) : Z :=
  fold_left (fun acc c => 10 * acc + digit_value c)%Z ds 0%Z.

(** [parseInt(s, 10)]: leading white space, an optional sign, then the
    longest run of decimal digits; [NaN] when there is none. *)
Definition parseInt10 (s : string) : num :=
  let s1 := trimStart s in
  let '(negative, s2) :=
    match s1 with
    | String "-" r => (true, r)
    | String "+" r => (false, r)
    | _ => (false, s1)
    end in
  match leading_digits s2 with
  | [] => NaN
  | ds => of_Z (if negative then - decimal_value ds else decimal_value ds)
  end.

(** [s.endsWith(c)] for a one-character suffix. *)
Fixpoint endsWithChar (s : string) (c : ascii) : bool :=
  match s with
  | EmptyString => false
  | String d EmptyString => Ascii.eqb d c
  | String _ r => endsWithChar r c
  end.

Fixpoint startsWith (s p : string) : bool :=
  match p, s with
  | EmptyString, _ => true
  | String c p', String d s' => Ascii.eqb c d && startsWith s' p'
  | String _ _, EmptyString => false
  end.

(** [s.includes(p)] *)
Fixpoint includes (s p : string) : bool :=
  startsWith s p ||
  match s with
  | EmptyString => false
  | String _ r => includes r p
  end.

(** The line feed and the double quote, as strings. *)
Definition nl : string := String (ascii_of_nat 10) EmptyString.
Definition dquote : string := String (ascii_of_nat 34) EmptyString.

(** [parts.join(sep)] *)
Fixpoint join (sep : string) (parts : list string) : string :=
  match parts with
  | [] => EmptyString
  | [p] => p
  | p :: rest => p +:+ sep +:+ join sep rest
  end.

Fixpoint drop_digits (s : string) : string :=
  match s with
  | String c r => if is_digit c then drop_digits r else s
  | EmptyString => s
  end.

(** The exponent part of a decimal literal: [e] or [E], an optional sign
    and at least one digit; 0 when there is no well-formed exponent. *)
Definition exponent_part (s : string) : Z :=
  match s with
  | String c r =>
      if Ascii.eqb c "e" || Ascii.eqb c "E" then
        let '(negative, r') :=
          match r with
          | String "-" r' => (true, r')
          | String "+" r' => (false, r')
          | _ => (false, r)
          end in
        match leading_digits r' with
        | [] => 0%Z
        | ds => if negative then (- decimal_value ds)%Z else decimal_value ds
        end
      else 0%Z
  | EmptyString => 0%Z
  end.

Definition pow10 (e : Z) : Q :=
  match e with
  | Z0 => 1
  | Zpos p => inject_Z (10 ^ Zpos p)
  | Zneg p => / inject_Z (10 ^ Zpos p)
  end.

(** [parseFloat(s)]: leading white space, an optional sign, then
    [Infinity] or the longest decimal literal; [NaN] when there is none. *)
Definition parseFloat (s : string) : num :=
  let s1 := trimStart s in
  let '(negative, s2) :=
    match s1 with
    | String "-" r => (true, r)
    | String "+" r => (false, r)
    | _ => (false, s1)
    end in
  if startsWith s2 "Infinity" then Inf negative
  else
    let int_ds := leading_digits s2 in
    let s3 := drop_digits s2 in
    let '(frac_ds, s4) :=
      match s3 with
      | String "." r => (leading_digits r, drop_digits r)
      | _ => ([], s3)
      end in
    match int_ds, frac_ds with
    | [], [] => NaN
    | _, _ =>
        let mantissa :=
          inject_Z (decimal_value (int_ds ++ frac_ds)) *
          pow10 (- Z.of_nat (length frac_ds)) in
        let q := mantissa * pow10 (exponent_part s4) in
        Fin (if negative then - q else q)
    end.

Definition starts_with_digit (s : string) : bool :=
  match s with
  | String c _ => is_digit c
  | EmptyString => false
  end.

Definition all_digits (s : string) : bool :=
  forallb is_digit (list_ascii_of_string s).

(** A non-empty digit string followed by a non-digit parses to its
    decimal value, whatever follows. *)
End JsString.
Export JsString.

(* ===================================================================== *)
(** ** Recorder API data model *)
(* ===================================================================== *)

(** [Platform] and [ScreenBounds] of [api/recorder/common]. *)
Inductive Platform : Type := ios | android.

Record ScreenBounds : Type := {
  width : num;
  height : num;
  devicePixelRatio : option num;
}.

Record Coordinates : Type := { cx : num; cy : num }.

(** A position component of the public API: a number or a string. *)
Inductive posval : Type :=
| PNum (n : num)
| PStr (s : string).

Inductive ActionType : Type := tap | swipe | keypress | findElements.

Inductive attrval : Type :=
| ABool (b : bool)
| AStr (s : string)
| ANum (n : num).

(** The public shape of elements and actions ([api/recorder/public]).
    Accessibility sub-elements and the fields an action carries besides
    the ones the mapper reads are not modelled; an optional field of the
    source is an [option] here, so [cleanObject], which drops the
    [undefined] and [null] fields, is the identity. *)
Module Public.

Record Position : Type := { px : posval; py : posval }.

Record Bounds : Type := { bx : num; by_ : num; bwidth : num; bheight : num }.

(** [rest] holds the properties of the element object other than
    [attributes] and [bounds]. *)
Record Element : Type := {
  attributes : option (list (string * attrval));
  bounds : option Bounds;
  rest : list (string * attrval);
}.

Record Move : Type := { mx : posval; my : posval; mt : num }.

Record Action : Type := {
  type : ActionType;
  element : option Element;
  position : option Position;
  coordinates : option Coordinates;
  localPosition : option Position;
  duration : option num;
  moves : list Move;
  key : option string;
  character : option string;
  shiftKey : option bool;
}.

(** The echoed context of a playback response. *)
Record Playback : Type := {
  id : string;
  action : Action;
  timeout : option num;
}.

Record PlayActionResult : Type := {
  res_playback : option Playback;
  res_matchedElements : list Element;
}.

Record PlayActionErrorResponse : Type := {
  errorId : string;
  err_message : string;
  err_playback : option Playback;
  err_matchedElements : list Element;
}.

End Public.

(** The wire shape ([api/recorder/internal]). *)
Module Internal.

Record Position : Type := { px : num; py : num }.

(** [ObjCNumber]: a number, or one of the strings ['inf'], ['-inf']. *)
Inductive ObjCNumber : Type :=
| ONum (n : num)
| OInf
| ONegInf.

Record Bounds : Type := {
  bx : ObjCNumber; by_ : ObjCNumber; bwidth : ObjCNumber; bheight : ObjCNumber;
}.

Record Element : Type := {
  attributes : option (list (string * attrval));
  bounds : option Bounds;
  rest : list (string * attrval);
}.

Record Move : Type := { mx : num; my : num; mt : num }.

(** [shiftKey] is a boolean, or the number 0 or 1 on iOS. *)
Inductive shiftval : Type :=
| ShiftBool (b : bool)
| ShiftNum (n : num).

Record Action : Type := {
  type : ActionType;
  element : option Element;
  coordinates : option Coordinates;
  localPosition : option Position;
  duration : option num;
  moves : list Move;
  key : option string;
  character : option string;
  shiftKey : option shiftval;
}.

End Internal.

(** What the host environment provides: the rendering of a number inside
    a template literal and [JSON.stringify(_, null, 2)]. *)
Class Host : Type := {
  String_of_num : num -> string;
  JSON_stringify_element : Public.Element -> string;
  JSON_stringify_action : Public.Action -> string;
}.

(** The rendering of a value that is a string or a number. *)
Definition String_of_posval `{Host} (v : posval) : string :=
  match v with
  | PNum n => String_of_num n
  | PStr s => s
  end.

(* ===================================================================== *)
(** ** Errors ([core/errors]) *)
(* ===================================================================== *)

Module Errors.

Inductive errclass : Type :=
| Error
| TypeError
| OperationalError
| ActionError
| ActionElementNotFoundError
| ActionAmbiguousElementError
| ActionInvalidArgumentError
| ActionInternalError
| TimeoutError
| ActionTimeoutError
| RecorderRequiredError.

Global Instance errclass_eq_dec : EqDecision errclass.
Proof. solve_decision. Defined.

(** The [extends] clause of each class. *)
Definition superclass (c : errclass) : option errclass :=
  match c with
  | Error => None
  | TypeError => Some Error
  | OperationalError => Some Error
  | ActionError => Some OperationalError
  | ActionElementNotFoundError
  | ActionAmbiguousElementError
  | ActionInvalidArgumentError
  | ActionInternalError => Some ActionError
  | TimeoutError
  | ActionTimeoutError
  | RecorderRequiredError => Some OperationalError
  end.

Fixpoint prototype_chain (depth : nat) (c : errclass) : list errclass :=
  c :: match depth, superclass c with
       | S d, Some p => prototype_chain d p
       | _, _ => []
       end.

(** An error object: its class and the properties its constructors set.
    [isOperational] is [None] where no constructor assigns it. *)
Record jserror : Type := {
  cls : errclass;
  message : string;
  isOperational : option bool;
  errorId : option string;
  playback : option Public.Playback;
}.

(** [e instanceof c] *)
Definition instanceof (e : jserror) (c : errclass) : bool :=
  bool_decide (c ∈ prototype_chain 3 (cls e)).

(** [new Error(message)] *)
Definition new_Error (msg : string) : jserror :=
  {| cls := Error; message := msg; isOperational := None;
     errorId := None; playback := None |}.

(** The constructor of [OperationalError], run for the class [c] that
    is being instantiated. *)
Definition OperationalError_ctor (c : errclass) (msg : string) : jserror :=
  {| cls := c; message := msg; isOperational := Some true;
     errorId := None; playback := None |}.

Definition new_OperationalError : string -> jserror :=
  OperationalError_ctor OperationalError.

Definition new_TimeoutError : string -> jserror :=
  OperationalError_ctor TimeoutError.

(** The constructor of [ActionError]: [message ?? error.message]. *)
Definition ActionError_ctor (c : errclass)
    (error : Public.PlayActionErrorResponse) (msg : option string) : jserror :=
  let e := OperationalError_ctor c (default (Public.err_message error) msg) in
  {| cls := cls e; message := message e; isOperational := isOperational e;
     errorId := Some (Public.errorId error);
     playback := Public.err_playback error |}.

Definition new_ActionError (error : Public.PlayActionErrorResponse) : jserror :=
  ActionError_ctor ActionError error None.

Definition new_ActionTimeoutError (pb : Public.Playback) (msg : string)
    : jserror :=
  let e := OperationalError_ctor ActionTimeoutError msg in
  {| cls := cls e; message := message e; isOperational := isOperational e;
     errorId := errorId e; playback := Some pb |}.

Definition new_RecorderRequiredError (feature : string) : jserror :=
  OperationalError_ctor RecorderRequiredError
    ("App Recorder must be enabled to use " +:+ feature +:+
     ". Please set " +:+ dquote +:+ "record" +:+ dquote +:+
     " to true in the config.").

(** [formatAmbiguousElements]: the first [maxElements] elements, each
    under a comment line that gives its index, and the number of the
    elements left out. *)
Definition maxElements : nat := 5.

Definition formatElement `{Host} (index : nat) (e : Public.Element) : string :=
  "// " +:+ pretty index +:+ nl +:+ JSON_stringify_element e.

Definition formatAmbiguousElements `{Host} (elements : list Public.Element)
    : string :=
  let truncatedElements := take maxElements elements in
  let truncated := (maxElements <? length elements)%nat in
  let formatted := imap formatElement truncatedElements in
  join (nl +:+ nl) formatted +:+
  (if truncated
   then nl +:+ nl +:+ "...and " +:+
        pretty (length elements - maxElements)%nat +:+ " more"
   else EmptyString).

(** The constructors below read [error.playback.action]; on a response
    without [playback] that property access raises a [TypeError], which
    is the [None] here. *)
Definition new_ActionElementNotFoundError `{Host}
    (error : Public.PlayActionErrorResponse) : option jserror :=
  pb ← Public.err_playback error;
  Some (ActionError_ctor ActionElementNotFoundError error
    (Some ("No element found for selector" +:+ nl +:+
           match Public.element (Public.action pb) with
           | Some e => JSON_stringify_element e
           | None => "undefined"
           end))).

Definition new_ActionAmbiguousElementError `{Host}
    (error : Public.PlayActionErrorResponse) : option jserror :=
  Some (ActionError_ctor ActionAmbiguousElementError error
    (Some ("Action requires 1 unique element but the selector returned " +:+
           pretty (length (Public.err_matchedElements error)) +:+
           ". Provide a `matchIndex` to pick an element below or add additional attributes to your selector." +:+
           nl +:+ nl +:+
           formatAmbiguousElements (Public.err_matchedElements error)))).

Definition new_ActionInvalidArgumentError `{Host}
    (error : Public.PlayActionErrorResponse) : option jserror :=
  msg ← (if includes (Public.err_message error) "outside the screen bounds"
         then
           pb ← Public.err_playback error;
           Some match Public.localPosition (Public.action pb) with
                | Some lp =>
                    "localPosition (" +:+ String_of_posval (Public.px lp) +:+
                    ", " +:+ String_of_posval (Public.py lp) +:+
                    ") for the element evaluates to a coordinate outside of screen bounds."
                | None => "Element is outside of screen bounds."
                end
         else Some (Public.err_message error));
  Some (ActionError_ctor ActionInvalidArgumentError error (Some msg)).

Definition new_ActionInternalError `{Host}
    (error : Public.PlayActionErrorResponse) : option jserror :=
  pb ← Public.err_playback error;
  Some (ActionError_ctor ActionInternalError error
    (Some ("An internal error has occurred for the action:" +:+ nl +:+
           JSON_stringify_action (Public.action pb)))).

End Errors.
Export Errors.

(** The outcome of a synchronous call: a value or a thrown error. *)
Inductive completion (A : Type) : Type :=
| Ok (a : A)
| Throw (e : jserror).
Arguments Ok {A} a.
Arguments Throw {A} e.

Definition cbind {A B} (c : completion A) (k : A -> completion B)
    : completion B :=
  match c with
  | Ok a => k a
  | Throw e => Throw e
  end.

Notation "'let*' x ':=' c 'in' k" := (cbind c (fun x => k))
  (at level 10, x pattern, c at level 100, k at level 200).

(** [if (cond) throw e;] *)
Definition throw_if (cond : bool) (e : jserror) : completion unit :=
  if cond then Throw e else Ok tt.

(** What the call throws, if it throws, carries no [errorId]. *)
Definition unlabelled {A} (c : completion A) : Prop :=
  forall e, c = Throw e -> errorId e = None.

(* ===================================================================== *)
(** ** Position values ([api/recorder/util]) *)
(* ===================================================================== *)

(** [parsePositionValue]: a string must end with [%] and is read with
    [parseInt(value, 10) / 100]; a number is returned as it is. *)
Definition parsePositionValue (value : posval) : completion num :=
  match value with
  | PStr s =>
      if endsWithChar s "%"
      then Ok (parseInt10 s / of_Z 100)%num
      else Throw (new_Error
        ("Invalid position value: " +:+ s +:+
         ". Must be a number between 0 and 1, or a string ending with %"))
  | PNum n => Ok n
  end.

(* ===================================================================== *)
(** ** Element validation ([api/util]) *)
(* ===================================================================== *)

Definition knownAttributeFields : list string :=
  [ "text"; "accessibilityIdentifier"; "accessibilityLabel"; "resource-id";
    "content-desc"; "class"; "baseClass" ].

Definition intersect (a b : list string) : list string :=
  filter (fun v => v ∈ b) a.

(** [validateElementAttributes]: attribute names are not allowed at the
    root of an element.  (That the element is an object and not an array
    holds by its type.) *)
Definition validateElementAttributes (element : Public.Element)
    : completion Public.Element :=
  let rootKeys :=
    (match Public.attributes element with
     | Some _ => ["attributes"] | None => []
     end ++
     match Public.bounds element with
     | Some _ => ["bounds"] | None => []
     end ++
     (Public.rest element).*1)%list in
  let rootAttributes := intersect rootKeys knownAttributeFields in
  if (0 <? length rootAttributes)%nat then
    let list := join ", " ((fun v => "'" +:+ v +:+ "'") <$> rootAttributes) in
    Throw (new_Error
             ("Element has invalid properties: " +:+ list +:+
              ". Did you mean to put these under 'attributes'?"))
  else Ok element.

(* ===================================================================== *)
(** ** Coordinate mapper ([api/mapper]) *)
(* ===================================================================== *)

(** What both mappers capture at construction.  ([app] is only read by
    [mapUI], which is not modelled.) *)
Record MapperArgs : Type := {
  platform : Platform;
  screen : ScreenBounds;
}.

Definition is_android (p : Platform) : bool :=
  match p with android => true | ios => false end.

(** [this.screen.devicePixelRatio || 1] *)
Definition ratio_or_1 (s : ScreenBounds) : num :=
  match devicePixelRatio s with
  | Some r => or_else r (of_Z 1)
  | None => of_Z 1
  end.

Module Validator.

Definition isCoordinatesWithinBounds (c : Coordinates) (bw bh : num) : bool :=
  if lt (cx c) (of_Z 0) || gt (cx c) bw then false
  else if lt (cy c) (of_Z 0) || gt (cy c) bh then false
  else true.

Definition isPositionWithinBounds (position : Public.Position)
    : completion bool :=
  let* x := parsePositionValue (Public.px position) in
  let* y := parsePositionValue (Public.py position) in
  Ok (if lt x (of_Z 0) || gt x (of_Z 1) then false
      else if lt y (of_Z 0) || gt y (of_Z 1) then false
      else true).

(** [typeof value === 'number'] holds by the type of [value]. *)
Definition isValidNumber (value : num) : bool := negb (isNaN value).

End Validator.

Definition booleanToNumber (value : option bool) : num :=
  match value with Some true => of_Z 1 | _ => of_Z 0 end.

Definition numberToBoolean (value : num) : bool := strict_eq value (of_Z 1).

Definition parseObjCNumber (value : Internal.ObjCNumber) : num :=
  match value with
  | Internal.ONum n => n
  | Internal.OInf => Infinity
  | Internal.ONegInf => Inf true
  end.

Definition mapToObjCNumber (value : num) : Internal.ObjCNumber :=
  match value with
  | Inf false => Internal.OInf
  | Inf true => Internal.ONegInf
  | _ => Internal.ONum value
  end.

(** The truthiness of an attribute value. *)
Definition attr_truthy (v : attrval) : bool :=
  match v with
  | ABool b => b
  | AStr s => negb (String.eqb s EmptyString)
  | ANum n => truthy n
  end.

Definition is_ios_boolean_key (k : string) : bool :=
  String.eqb k "userInteractionEnabled" || String.eqb k "isHidden".

(** The outbound mapper: public shape to wire shape. *)
Module InternalAPIMapper.
Section Mapper.
Context `{Host} (this : MapperArgs).

Definition pixelToDip (value : num) : num :=
  (value / ratio_or_1 (screen this))%num.

Definition dipToPixel (value : num) : num :=
  (value * ratio_or_1 (screen this))%num.

Definition getCoordinates (x y : posval) (bw bh : num)
    : completion Coordinates :=
  let* x := parsePositionValue x in
  let* y := parsePositionValue y in
  Ok {| cx := (x * bw)%num; cy := (y * bh)%num |}.

Definition mapHardwareKey (value : option string) : option string :=
  match value with
  | Some "HOME" => Some "home"
  | Some "VOLUME_UP" => Some "volumeUp"
  | Some "VOLUME_DOWN" => Some "volumeDown"
  | _ => value
  end.

Definition mapElement (element : Public.Element) : Internal.Element :=
  let mapBounds (b : Public.Bounds) : Internal.Bounds :=
    if is_android (platform this) then
      {| Internal.bx := Internal.ONum (dipToPixel (Public.bx b));
         Internal.by_ := Internal.ONum (dipToPixel (Public.by_ b));
         Internal.bwidth := Internal.ONum (dipToPixel (Public.bwidth b));
         Internal.bheight := Internal.ONum (dipToPixel (Public.bheight b)) |}
    else
      {| Internal.bx := mapToObjCNumber (Public.bx b);
         Internal.by_ := mapToObjCNumber (Public.by_ b);
         Internal.bwidth := mapToObjCNumber (Public.bwidth b);
         Internal.bheight := mapToObjCNumber (Public.bheight b) |} in
  let mapAttribute (kv : string * attrval) : string * attrval :=
    match platform this with
    | ios =>
        if is_ios_boolean_key kv.1
        then (kv.1, AStr (if attr_truthy kv.2 then "1" else "0"))
        else kv
    | android => kv
    end in
  {| Internal.attributes := fmap (M:=list) mapAttribute <$> Public.attributes element;
     Internal.bounds := mapBounds <$> Public.bounds element;
     Internal.rest := Public.rest element |}.

(** The bounds a position is scaled by: the last pixel of each axis. *)
Definition positionBounds : num * num :=
  if is_android (platform this)
  then ((dipToPixel (width (screen this)) - of_Z 1)%num,
        (dipToPixel (height (screen this)) - of_Z 1)%num)
  else ((width (screen this) - of_Z 1)%num,
        (height (screen this) - of_Z 1)%num).

Definition mapPositionToCoordinates (position : Public.Position)
    : completion Coordinates :=
  let* x := parsePositionValue (Public.px position) in
  let* y := parsePositionValue (Public.py position) in
  let* _ := throw_if
    (negb (Validator.isValidNumber x) || negb (Validator.isValidNumber y))
    (new_OperationalError
       ("Invalid position: (" +:+ String_of_posval (Public.px position) +:+
        ", " +:+ String_of_posval (Public.py position) +:+
        "). Values must be a number or a percentage")) in
  let* within := Validator.isPositionWithinBounds position in
  let* _ := throw_if (negb within)
    (new_Error
       ("Invalid position: (" +:+ String_of_posval (Public.px position) +:+
        ", " +:+ String_of_posval (Public.py position) +:+
        match Public.px position with
        | PStr _ => ") must be within (0%, 0%) and (100%, 100%)"
        | PNum _ => ") must be within (0, 0) and (1, 1)"
        end)) in
  getCoordinates (Public.px position) (Public.py position)
    positionBounds.1 positionBounds.2.

Definition mapCoordinates (c : Coordinates) : completion Coordinates :=
  let* _ := throw_if
    (negb (Validator.isValidNumber (cx c)) ||
     negb (Validator.isValidNumber (cy c)))
    (new_OperationalError
       ("Invalid coordinates: (" +:+ String_of_num (cx c) +:+ ", " +:+
        String_of_num (cy c) +:+ "). Values must be a number")) in
  let bw := (width (screen this) - of_Z 1)%num in
  let bh := (height (screen this) - of_Z 1)%num in
  let* _ := throw_if (negb (Validator.isCoordinatesWithinBounds c bw bh))
    (new_OperationalError
       ("Invalid coordinates: (" +:+ String_of_num (cx c) +:+ ", " +:+
        String_of_num (cy c) +:+ ") exceed screen bounds (" +:+
        String_of_num bw +:+ ", " +:+ String_of_num bh +:+ ")")) in
  Ok (if is_android (platform this)
      then {| cx := dipToPixel (cx c); cy := dipToPixel (cy c) |}
      else c).

Definition mapLocalPosition (lp : Public.Position)
    : completion Internal.Position :=
  let* x := parsePositionValue (Public.px lp) in
  let* y := parsePositionValue (Public.py lp) in
  let* _ := throw_if
    (negb (Validator.isValidNumber x) || negb (Validator.isValidNumber y))
    (new_OperationalError
       ("Invalid localPosition: (" +:+ String_of_posval (Public.px lp) +:+
        ", " +:+ String_of_posval (Public.py lp) +:+
        "). Values must be a number or a percentage")) in
  Ok {| Internal.px := x; Internal.py := y |}.

Definition mapMove (move : Public.Move) : completion Internal.Move :=
  let* c := getCoordinates (Public.mx move) (Public.my move)
              positionBounds.1 positionBounds.2 in
  Ok {| Internal.mx := cx c; Internal.my := cy c;
        Internal.mt := Public.mt move |}.

Fixpoint mapMoves (moves : list Public.Move)
    : completion (list Internal.Move) :=
  match moves with
  | [] => Ok []
  | m :: rest =>
      let* m' := mapMove m in
      let* rest' := mapMoves rest in
      Ok (m' :: rest')
  end.

(** [mapAction].  The fields that the spread of the source copies from
    the public action and that have a different shape on the wire
    (public elements and positions outside the tap, swipe and
    findElements cases, moves outside the swipe case) are not carried. *)
Definition mapAction (action : Public.Action) : completion Internal.Action :=
  let element := mapElement <$> Public.element action in
  let* coordinates :=
    match Public.position action, Public.coordinates action with
    | Some position, _ =>
        let* c := mapPositionToCoordinates position in Ok (Some c)
    | None, Some c =>
        let* c' := mapCoordinates c in Ok (Some c')
    | None, None => Ok None
    end in
  let* localPosition :=
    match Public.localPosition action with
    | Some lp => let* lp' := mapLocalPosition lp in Ok (Some lp')
    | None =>
        Ok (match element with
            | Some _ => Some {| Internal.px := Fin (1 # 2);
                                Internal.py := Fin (1 # 2) |}
            | None => None
            end)
    end in
  let* _ :=
    match Public.duration action with
    | Some d =>
        if truthy d
        then throw_if (negb (Validator.isValidNumber d))
               (new_OperationalError
                  ("Invalid duration: " +:+ String_of_num d +:+
                   ". Value must be a number"))
        else Ok tt
    | None => Ok tt
    end in
  match Public.type action with
  | tap =>
      Ok {| Internal.type := tap;
            Internal.element := element;
            Internal.coordinates := coordinates;
            Internal.localPosition := localPosition;
            Internal.duration := Public.duration action;
            Internal.moves := [];
            Internal.key := Public.key action;
            Internal.character := Public.character action;
            Internal.shiftKey := Internal.ShiftBool <$> Public.shiftKey action |}
  | swipe =>
      let* moves := mapMoves (Public.moves action) in
      Ok {| Internal.type := swipe;
            Internal.element := element;
            Internal.coordinates := coordinates;
            Internal.localPosition := localPosition;
            Internal.duration := Public.duration action;
            Internal.moves := moves;
            Internal.key := Public.key action;
            Internal.character := Public.character action;
            Internal.shiftKey := Internal.ShiftBool <$> Public.shiftKey action |}
  | keypress =>
      Ok {| Internal.type := keypress;
            Internal.element := None;
            Internal.coordinates := Public.coordinates action;
            Internal.localPosition := None;
            Internal.duration := Public.duration action;
            Internal.moves := [];
            Internal.key := mapHardwareKey (Public.key action);
            Internal.character := mapHardwareKey (Public.character action);
            Internal.shiftKey :=
              match platform this with
              | ios => Some (Internal.ShiftNum
                               (booleanToNumber (Public.shiftKey action)))
              | android => Internal.ShiftBool <$> Public.shiftKey action
              end |}
  | findElements =>
      Ok {| Internal.type := findElements;
            Internal.element := element;
            Internal.coordinates := Public.coordinates action;
            Internal.localPosition := None;
            Internal.duration := Public.duration action;
            Internal.moves := [];
            Internal.key := Public.key action;
            Internal.character := Public.character action;
            Internal.shiftKey := Internal.ShiftBool <$> Public.shiftKey action |}
  end.

End Mapper.
End InternalAPIMapper.

(** The inbound mapper: wire shape to public shape. *)
Module PublicAPIMapper.
Section Mapper.
Context (this : MapperArgs).

Definition pixelToDip (value : num) : num :=
  (value / ratio_or_1 (screen this))%num.

Definition dipToPixel (value : num) : num :=
  (value * ratio_or_1 (screen this))%num.

Definition getPosition (c : Coordinates) (bw bh : num) : Public.Position :=
  {| Public.px := PNum (cx c / bw)%num; Public.py := PNum (cy c / bh)%num |}.

Definition mapHardwareKey (value : option string) : option string :=
  match value with
  | Some "home" => Some "HOME"
  | Some "volumeUp" => Some "VOLUME_UP"
  | Some "volumeDown" => Some "VOLUME_DOWN"
  | _ => value
  end.

(** [bounds.x as number] on Android: the strings ['inf'] and ['-inf']
    become [NaN] in the division. *)
Definition objc_as_number (v : Internal.ObjCNumber) : num :=
  match v with
  | Internal.ONum n => n
  | _ => NaN
  end.

Definition mapElement (element : Internal.Element) : Public.Element :=
  let mapBounds (b : Internal.Bounds) : Public.Bounds :=
    if is_android (platform this) then
      {| Public.bx := pixelToDip (objc_as_number (Internal.bx b));
         Public.by_ := pixelToDip (objc_as_number (Internal.by_ b));
         Public.bwidth := pixelToDip (objc_as_number (Internal.bwidth b));
         Public.bheight := pixelToDip (objc_as_number (Internal.bheight b)) |}
    else
      {| Public.bx := parseObjCNumber (Internal.bx b);
         Public.by_ := parseObjCNumber (Internal.by_ b);
         Public.bwidth := parseObjCNumber (Internal.bwidth b);
         Public.bheight := parseObjCNumber (Internal.bheight b) |} in
  let mapAttribute (kv : string * attrval) : string * attrval :=
    if is_ios_boolean_key kv.1
    then (kv.1, ABool match kv.2 with
                      | AStr s => String.eqb s "1"
                      | _ => false
                      end)
    else kv in
  {| Public.attributes := fmap (M:=list) mapAttribute <$> Internal.attributes element;
     Public.bounds := mapBounds <$> Internal.bounds element;
     Public.rest := Internal.rest element |}.

Definition publicPosition (p : Internal.Position) : Public.Position :=
  {| Public.px := PNum (Internal.px p); Public.py := PNum (Internal.py p) |}.

Definition mapMove (move : Internal.Move) : Public.Move :=
  let p := getPosition
    {| cx := pixelToDip (Internal.mx move);
       cy := pixelToDip (Internal.my move) |}
    (width (screen this) - of_Z 1)%num
    (height (screen this) - of_Z 1)%num in
  {| Public.mx := Public.px p; Public.my := Public.py p;
     Public.mt := Internal.mt move |}.

(** [mapAction] never throws.  The spread of the source copies the wire
    action, so the public result keeps the wire [coordinates]; outside
    the keypress case a numeric [shiftKey], which the public shape cannot
    hold, is not carried. *)
Definition mapAction (action : Internal.Action) : Public.Action :=
  let localPosition0 := publicPosition <$> Internal.localPosition action in
  let coordinates :=
    (fun c => {| cx := pixelToDip (cx c); cy := pixelToDip (cy c) |})
      <$> Internal.coordinates action in
  let position :=
    (fun c => getPosition c (width (screen this) - of_Z 1)%num
                            (height (screen this) - of_Z 1)%num)
      <$> coordinates in
  let element := mapElement <$> Internal.element action in
  let localPosition :=
    match element, coordinates with
    | Some el, Some c =>
        match Public.bounds el with
        | Some b =>
            Some (getPosition
                    {| cx := (cx c - Public.bx b)%num;
                       cy := (cy c - Public.by_ b)%num |}
                    (Public.bwidth b) (Public.bheight b))
        | None => localPosition0
        end
    | _, _ => localPosition0
    end in
  let shiftBool (v : option Internal.shiftval) : option bool :=
    match v with
    | Some (Internal.ShiftBool b) => Some b
    | _ => None
    end in
  match Internal.type action with
  | tap =>
      {| Public.type := tap;
         Public.element := element;
         Public.position := position;
         Public.coordinates := Internal.coordinates action;
         Public.localPosition := localPosition;
         Public.duration := Internal.duration action;
         Public.moves := [];
         Public.key := Internal.key action;
         Public.character := Internal.character action;
         Public.shiftKey := shiftBool (Internal.shiftKey action) |}
  | swipe =>
      {| Public.type := swipe;
         Public.element := element;
         Public.position := position;
         Public.coordinates := Internal.coordinates action;
         Public.localPosition := localPosition;
         Public.duration := Internal.duration action;
         Public.moves := mapMove <$> Internal.moves action;
         Public.key := Internal.key action;
         Public.character := Internal.character action;
         Public.shiftKey := shiftBool (Internal.shiftKey action) |}
  | keypress =>
      {| Public.type := keypress;
         Public.element := None;
         Public.position := None;
         Public.coordinates := Internal.coordinates action;
         Public.localPosition := localPosition0;
         Public.duration := Internal.duration action;
         Public.moves := [];
         Public.key := mapHardwareKey (Internal.key action);
         Public.character := mapHardwareKey (Internal.character action);
         Public.shiftKey :=
           Some match Internal.shiftKey action with
                | Some (Internal.ShiftNum n) => numberToBoolean n
                | Some (Internal.ShiftBool b) => b
                | None => false
                end |}
  | findElements =>
      {| Public.type := findElements;
         Public.element := element;
         Public.position := None;
         Public.coordinates := Internal.coordinates action;
         Public.localPosition := localPosition0;
         Public.duration := Internal.duration action;
         Public.moves := [];
         Public.key := Internal.key action;
         Public.character := Internal.character action;
         Public.shiftKey := shiftBool (Internal.shiftKey action) |}
  end.

End Mapper.
End PublicAPIMapper.

(** A tap at a numeric position, with no other field. *)
Definition tapAt (x y : num) : Public.Action :=
  {| Public.type := tap;
     Public.element := None;
     Public.position := Some {| Public.px := PNum x; Public.py := PNum y |};
     Public.coordinates := None;
     Public.localPosition := None;
     Public.duration := None;
     Public.moves := [];
     Public.key := None;
     Public.character := None;
     Public.shiftKey := None |}.

(** The position that comes back when [action] is mapped to the wire
    shape and the result is mapped back. *)
Definition roundtripPosition `{Host} (this : MapperArgs)
    (action : Public.Action) : completion (option Public.Position) :=
  let* wire := InternalAPIMapper.mapAction this action in
  Ok (Public.position (PublicAPIMapper.mapAction this wire)).

(** The round trip of a position [(x, y)] gives it back within [eps] on
    each axis. *)
Definition roundtrip_within `{Host} (eps : Q) (this : MapperArgs) (x y : Q)
    : Prop :=
  exists x' y',
    roundtripPosition this (tapAt (Fin x) (Fin y)) =
      Ok (Some {| Public.px := PNum (Fin x'); Public.py := PNum (Fin y') |}) /\
    Qabs (x' - x) <= eps /\ Qabs (y' - y) <= eps.

(** A host to run the definitions on examples: integers are rendered in
    decimal and the JSON renderings are place holders. *)
Definition exampleHost : Host := {|
  String_of_num := fun n =>
    match n with
    | NaN => "NaN"
    | Inf false => "Infinity"
    | Inf true => "-Infinity"
    | Fin q =>
        pretty (Qnum q) +:+
        (if (Qden q =? 1)%positive then EmptyString
         else "/" +:+ pretty (Zpos (Qden q)))
    end;
  JSON_stringify_element := fun _ => "{...}";
  JSON_stringify_action := fun _ => "{...}";
|}.

Definition screenOf (w h : num) (ratio : option num) : ScreenBounds :=
  {| width := w; height := h; devicePixelRatio := ratio |}.

(** Example screens: an iPhone-sized screen with and without a device
    pixel ratio. *)
Definition exampleScreen : ScreenBounds := screenOf (of_Z 375) (of_Z 812) None.
Definition retinaScreen : ScreenBounds :=
  screenOf (of_Z 101) (of_Z 101) (Some (of_Z 2)).

(* ===================================================================== *)
(** ** Gesture path builder ([builders/swipe-gesture]) *)
(* ===================================================================== *)

Module SwipeGesture.

Record Movement : Type := {
  x : num;
  y : num;
  wait : option num;
}.

(** The moves that [build] returns: numeric positions and the elapsed
    time in seconds. *)
Record SwipeMove : Type := { mx : num; my : num; t : num }.

Record SwipeGesture : Type := {
  moves : list Movement;
  duration : option num;
  stepDuration : num;
}.

(** [new SwipeGesture({ duration, stepDuration })] *)
Definition new (duration stepDuration : option num) : SwipeGesture :=
  {| moves := [ {| x := of_Z 0; y := of_Z 0; wait := None |} ];
     duration := duration;
     stepDuration := default (of_Z 16) stepDuration |}.

(** [to(x, y)] on strings. *)
Definition to (x y : string) (this : SwipeGesture) : completion SwipeGesture :=
  if negb (endsWithChar x "%") || negb (endsWithChar y "%") then
    Throw (new_OperationalError
             ("x and y must be in percentages (e.g. " +:+ dquote +:+ "50%" +:+
              dquote +:+ ")"))
  else
    Ok {| moves := (moves this ++
                    [ {| x := (parseFloat x / of_Z 100)%num;
                         y := (parseFloat y / of_Z 100)%num;
                         wait := None |} ])%list;
          duration := duration this;
          stepDuration := stepDuration this |}.

(** [wait(duration)] adds to the pause of the last waypoint. *)
Definition add_wait (d : num) (m : Movement) : Movement :=
  {| x := x m; y := y m;
     wait := Some (d + default (of_Z 0) (wait m))%num |}.

Fixpoint wait_last (d : num) (ms : list Movement) : list Movement :=
  match ms with
  | [] => []
  | [m] => [add_wait d m]
  | m :: rest => m :: wait_last d rest
  end.

Definition wait_ (d : num) (this : SwipeGesture) : SwipeGesture :=
  {| moves := wait_last d (moves this);
     duration := duration this;
     stepDuration := stepDuration this |}.

(** [lowerCoord.wait] as a condition: defined and truthy. *)
Definition has_wait (m : Movement) : option num :=
  match wait m with
  | Some w => if truthy w then Some w else None
  | None => None
  end.

(** What [build] does: it returns the moves, throws, or, when
    [stepsPerSegment] is [Infinity] and there is a segment, never leaves
    its inner loop. *)
Inductive outcome : Type :=
| Built (result : list SwipeMove)
| Thrown (e : jserror)
| Loops.

(** The number of iterations of [for (step = 0; step <= stepsPerSegment;
    step++)]: none when the bound is negative or [NaN], [None] when it is
    [Infinity]. *)
Definition iterations (stepsPerSegment : num) : option nat :=
  match stepsPerSegment with
  | NaN | Inf true => Some 0%nat
  | Inf false => None
  | Fin q => Some (if Qle_bool 0 q then S (Z.to_nat (Qfloor q)) else 0%nat)
  end.

(** The loop state: the result so far and the accrued wait time. *)
Definition acc : Type := list SwipeMove * num.

(** One iteration of the inner loop. *)
Definition step_body (sd sps : num) (i : nat) (isLastPair : bool)
    (lowerCoord upperCoord : Movement) (a : acc) (step : nat) : acc :=
  let '(result, accruedWaitTime) := a in
  let stepn := of_Z (Z.of_nat step) in
  if negb isLastPair && strict_eq stepn sps then a
  else
    let progress := (stepn / sps)%num in
    let interpolatedX :=
      (x lowerCoord + progress * (x upperCoord - x lowerCoord))%num in
    let interpolatedY :=
      (y lowerCoord + progress * (y upperCoord - y lowerCoord))%num in
    let t0 :=
      (((of_Z (Z.of_nat i) * sps + stepn) * sd + accruedWaitTime)
       / of_Z 1000)%num in
    let result1 :=
      (result ++
       [ {| mx := interpolatedX; my := interpolatedY; t := t0 |} ])%list in
    match (if (step =? 0)%nat then has_wait lowerCoord else None) with
    | Some w =>
        ((result1 ++ [ {| mx := interpolatedX; my := interpolatedY;
                          t := (t0 + w / of_Z 1000)%num |} ])%list,
         (accruedWaitTime + w)%num)
    | None => (result1, accruedWaitTime)
    end.

(** The outer loop, over the pairs of consecutive waypoints. *)
Fixpoint segments (sd sps : num) (n : nat) (i : nat) (ms : list Movement)
    (a : acc) : outcome :=
  match ms with
  | lowerCoord :: ((upperCoord :: _) as rest) =>
      let isLastPair := (S i =? n)%nat in
      match iterations sps with
      | None => Loops
      | Some k =>
          let a1 := fold_left
                      (step_body sd sps i isLastPair lowerCoord upperCoord)
                      (seq 0 k) a in
          match (if isLastPair then has_wait upperCoord else None) with
          | Some w =>
              match last a1.1 with
              | Some lastResult =>
                  segments sd sps n (S i) rest
                    ((a1.1 ++
                      [ {| mx := mx lastResult; my := my lastResult;
                           t := (t lastResult + w / of_Z 1000)%num |} ])%list,
                     a1.2)
              | None =>
                  Thrown {| cls := TypeError;
                            message := "Cannot read properties of undefined";
                            isOperational := None; errorId := None;
                            playback := None |}
              end
          | None => segments sd sps n (S i) rest a1
          end
      end
  | _ => Built a.1
  end.

Definition build `{Host} (this : SwipeGesture) : outcome :=
  let stepDuration := stepDuration this in
  let n := (length (moves this) - 1)%nat in
  let duration :=
    match duration this with
    | Some d => d
    | None => max (of_Z 500) (stepDuration * of_Z (Z.of_nat n))%num
    end in
  let totalSteps := floor (duration / stepDuration)%num in
  let stepsPerSegment := floor (totalSteps / of_Z (Z.of_nat n))%num in
  if strict_eq stepsPerSegment (of_Z 0) then
    let requiredDuration := (of_Z (Z.of_nat n) * stepDuration)%num in
    Thrown (new_Error
              ("Duration is too short for " +:+ pretty n +:+
               " moves, please set duration to at least " +:+
               String_of_num requiredDuration +:+ "ms"))
  else segments stepDuration stepsPerSegment n 0 (moves this) ([], of_Z 0).

(** The elapsed times are in non-decreasing order. *)
Fixpoint nondecreasing (ts : list num) : bool :=
  match ts with
  | a :: ((b :: _) as rest) => le a b && nondecreasing rest
  | _ => true
  end.

(** *** The test of [build] in binary64

    A JavaScript number is a number of binary64, and each of the two
    quotients of [build] is rounded to one before [Math.floor] is taken.
    A finite number of binary64 is [m * 2^e] with [|m| < 2^53] and an
    exponent from -1074 to 971. *)
Definition binary64 (x : Q) : Prop :=
  exists m e : Z,
    (Z.abs m < 2 ^ 53)%Z /\ (-1074 <= e <= 971)%Z /\
    (x == inject_Z m *
          (if (0 <=? e)%Z then inject_Z (2 ^ e)
           else / inject_Z (2 ^ (- e))))%Q.

(** What the test relies on of the rounding of a quotient: it keeps the
    order, and it leaves a number of binary64 as it is. *)
Definition rounding (rnd : Q -> Q) : Prop :=
  (forall x y, (x <= y)%Q -> (rnd x <= rnd y)%Q) /\
  (forall x, binary64 x -> (rnd x == x)%Q).

(** [Math.floor(Math.floor(duration / stepDuration) / (moves.length - 1))]
    with both quotients rounded. *)
Definition stepsPerSegment_rounded (rnd : Q -> Q)
    (duration stepDuration : Q) (n : nat) : Z :=
  Qfloor (rnd (inject_Z (Qfloor (rnd (duration / stepDuration)%Q))
               / inject_Z (Z.of_nat n))%Q).

End SwipeGesture.

(** The gesture [new SwipeGesture({}).to('100%', '0%')]: the waypoints
    (0, 0) and (100%, 0) with the default step duration. *)
Definition exampleSwipe : completion SwipeGesture.SwipeGesture :=
  SwipeGesture.to "100%" "0%" (SwipeGesture.new None None).

Definition final_t (r : list SwipeGesture.SwipeMove) : option num :=
  SwipeGesture.t <$> last r.

(** Three waypoints, two segments, with a duration of 20 ms. *)
Definition shortSwipe : SwipeGesture.SwipeGesture :=
  {| SwipeGesture.moves :=
       [ {| SwipeGesture.x := of_Z 0; SwipeGesture.y := of_Z 0;
            SwipeGesture.wait := None |};
         {| SwipeGesture.x := of_Z 1; SwipeGesture.y := of_Z 0;
            SwipeGesture.wait := None |};
         {| SwipeGesture.x := of_Z 1; SwipeGesture.y := of_Z 1;
            SwipeGesture.wait := None |} ];
     SwipeGesture.duration := Some (Fin 20);
     SwipeGesture.stepDuration := Fin 16 |}.

(* ===================================================================== *)
(** ** Action dispatcher ([Session.playAction]) *)
(* ===================================================================== *)

Module Dispatcher.

(** What [playAction] reads from the session. *)
Record Session : Type := {
  config_record : bool;
  mapper : MapperArgs;
}.

(** [PlayActionOptions], with the internal debug flag [noMap]. *)
Record PlayActionOptions : Type := {
  timeout : option num;
  noMap : bool;
}.

(** The action of a payload: mapped, or the caller's own under [noMap]. *)
Inductive PayloadAction : Type :=
| Mapped (a : Internal.Action)
| Unmapped (a : Public.Action).

(** The payload of the [playAction] command; [options_timeout] is in
    seconds. *)
Record Payload : Type := {
  id : string;
  action : PayloadAction;
  options_timeout : num;
}.

(** The two session events an attempt listens to. *)
Inductive SessionEvent : Type :=
| playbackFoundAndSent (value : Public.PlayActionResult)
| playbackError (error : Public.PlayActionErrorResponse).

(** How the promise of an attempt ends.  [Pending]: it never settles. *)
Inductive settled : Type :=
| Resolved (value : Public.PlayActionResult)
| Rejected (e : jserror)
| Pending.

Definition MAX_APP_RECORDER_TIMEOUT : num := of_Z 10000.

Definition MAX_WAIT_FOR_RESPONSE (timeout : num) : num :=
  (timeout + of_Z 10000)%num.

(** [Math.min(timeout, MAX_APP_RECORDER_TIMEOUT)], the cap of an attempt
    in milliseconds. *)
Definition attemptTimeout (timeout : num) : num :=
  min timeout MAX_APP_RECORDER_TIMEOUT.

(** [handleSuccess]: [None] when the playback id is not the payload's,
    and the listener just returns. *)
Definition handleSuccess (payload_id : string)
    (value : Public.PlayActionResult) : option settled :=
  match Public.res_playback value with
  | Some pb =>
      if String.eqb (Public.id pb) payload_id then Some (Resolved value)
      else None
  | None => None
  end.

(** The [switch] of [handleError]; a constructor that raises leaves the
    promise unsettled, its listeners and timer already removed. *)
Definition classify `{Host} (error : Public.PlayActionErrorResponse)
    : settled :=
  let reject (e : option jserror) :=
    match e with Some e => Rejected e | None => Pending end in
  let errorId := Public.errorId error in
  if String.eqb errorId "internalError"
  then reject (new_ActionInternalError error)
  else if String.eqb errorId "notFound"
  then reject (new_ActionElementNotFoundError error)
  else if String.eqb errorId "ambiguousMatch"
  then reject (new_ActionAmbiguousElementError error)
  else if String.eqb errorId "invalidArgument"
  then reject (new_ActionInvalidArgumentError error)
  else Rejected (new_ActionError error).

Definition handleError `{Host} (payload_id : string)
    (error : Public.PlayActionErrorResponse) : option settled :=
  match Public.err_playback error with
  | Some pb =>
      if String.eqb (Public.id pb) payload_id then Some (classify error)
      else None
  | None => None
  end.

Definition deliver `{Host} (payload_id : string) (ev : SessionEvent)
    : option settled :=
  match ev with
  | playbackFoundAndSent value => handleSuccess payload_id value
  | playbackError error => handleError payload_id error
  end.

(** The session events to come, each with its arrival time in
    milliseconds. *)
Definition timeline : Type := list (Q * SessionEvent).

(** When a timer set at [now] fires.  A delay that is not finite fires
    at once; the upper limit of the host on finite delays is not
    modelled. *)
Definition timer_due (now : Q) (delay : num) : Q :=
  match delay with
  | Fin d => now + d
  | _ => now
  end.

(** The race of one attempt: the events that arrive before the hard
    timeout are handed to the two listeners in order until one of them
    settles the promise; if none does, the timer rejects it.  The result
    is how the promise settled, the events left and the time. *)
Fixpoint await_response `{Host} (payload_id : string) (due : Q)
    (timeoutError : jserror) (inbox : timeline) : settled * timeline * Q :=
  match inbox with
  | [] => (Rejected timeoutError, [], due)
  | (at_, ev) :: rest =>
      if Qle_bool due at_ then (Rejected timeoutError, inbox, due)
      else
        match deliver payload_id ev with
        | Some s => (s, rest, at_)
        | None => await_response payload_id due timeoutError rest
        end
  end.

(** The events that an attempt passes over: they arrive before the hard
    timeout and neither listener settles the promise on them. *)
Definition passed_over `{Host} (payload_id : string) (due : Q)
    (pre : timeline) : Prop :=
  Forall (fun '(at_, ev) => at_ < due /\ deliver payload_id ev = None) pre.

(** The state of a run: the clock, the number of request ids drawn so
    far, the payloads sent, the delays of the hard timers set, how each
    attempt settled, and the events to come. *)
Record World : Type := {
  now : Q;
  drawn : nat;
  sent : list Payload;
  timers : list num;
  settlements : list settled;
  inbox : timeline;
}.

(** How the call ends. *)
Inductive result : Type :=
| Returned (value : Public.PlayActionResult)
| Threw (e : jserror)
| Hangs.

(** What precedes the attempt: the checks and the mapping. *)
Definition prepare `{Host} (this : Session) (action : Public.Action)
    (options : PlayActionOptions) : completion PayloadAction :=
  let timeout_ := default (of_Z 10000) (timeout options) in
  let* _ := throw_if (negb (config_record this))
              (new_RecorderRequiredError "playAction()") in
  let* _ := throw_if (isNaN timeout_)
              (new_OperationalError
                 ("Invalid timeout value: " +:+ String_of_num timeout_)) in
  let* _ := throw_if (lt timeout_ (of_Z 0))
              (new_OperationalError
                 ("Timeout value cannot be negative: " +:+
                  String_of_num timeout_)) in
  let* _ :=
    match Public.element action with
    | Some el => let* _ := validateElementAttributes el in Ok tt
    | None => Ok tt
    end in
  if noMap options then Ok (Unmapped action)
  else
    let* mapped := InternalAPIMapper.mapAction (mapper this) action in
    Ok (Mapped mapped).

(** The payload of an attempt: a request id drawn from [uuid()], the
    mapped action and the cap of the attempt in whole seconds. *)
Definition makePayload (payload_id : string) (mappedAction : PayloadAction)
    (timeout_ : num) : Payload :=
  {| id := payload_id;
     action := mappedAction;
     options_timeout := round (attemptTimeout timeout_ / of_Z 1000)%num |}.

(** The error of the hard timeout. *)
Definition hardTimeoutError (payload : Payload) (action_ : Public.Action)
    : jserror :=
  new_ActionTimeoutError
    {| Public.id := id payload;
       Public.action := action_;
       Public.timeout := Some (options_timeout payload) |}
    "Timed out waiting for response from device".

(** [Math.max(0, timeout - MAX_APP_RECORDER_TIMEOUT)] *)
Definition remainingTimeout (timeout_ : num) : num :=
  max (of_Z 0) (timeout_ - MAX_APP_RECORDER_TIMEOUT)%num.

(** The world after an attempt: the timer was set and the payload sent,
    then the promise settled as [s] at the time [at_]. *)
Definition attempted (w : World) (payload : Payload) (timeout_ : num)
    (s : settled) (rest : timeline) (at_ : Q) : World :=
  {| now := at_;
     drawn := S (drawn w);
     sent := sent w ++ [payload];
     timers := timers w ++ [MAX_WAIT_FOR_RESPONSE timeout_];
     settlements := settlements w ++ [s];
     inbox := rest |}.

(** [playAction].  [uuid n] is the request id that the [n]-th call of
    [uuid()] returns.  The recursion of the source is bounded here by
    [fuel]; [None] means that the fuel ran out. *)
Fixpoint playAction_rec `{Host} (fuel : nat) (uuid : nat -> string)
    (this : Session) (action_ : Public.Action) (options : PlayActionOptions)
    (w : World) : option (result * World) :=
  match fuel with
  | O => None
  | S fuel' =>
      let timeout_ := default (of_Z 10000) (timeout options) in
      match prepare this action_ options with
      | Throw e => Some (Threw e, w)
      | Ok mappedAction =>
          let payload := makePayload (uuid (drawn w)) mappedAction timeout_ in
          let due := timer_due (now w) (MAX_WAIT_FOR_RESPONSE timeout_) in
          let '(s, rest, at_) :=
            await_response (id payload) due
              (hardTimeoutError payload action_) (inbox w) in
          let w' := attempted w payload timeout_ s rest at_ in
          match s with
          | Resolved value => Some (Returned value, w')
          | Pending => Some (Hangs, w')
          | Rejected e =>
              if gt (remainingTimeout timeout_) (of_Z 0) &&
                 negb (instanceof e ActionTimeoutError) &&
                 negb (instanceof e ActionInternalError)
              then playAction_rec fuel' uuid this action_
                     {| timeout := Some (remainingTimeout timeout_);
                        noMap := noMap options |} w'
              else Some (Threw e, w')
          end
      end
  end.

Definition result_of (s : settled) : result :=
  match s with
  | Resolved value => Returned value
  | Rejected e => Threw e
  | Pending => Hangs
  end.

(** A retry follows an error response, which the attempt took from the
    inbox, so one more round than there are events is enough. *)
Definition playAction `{Host} (uuid : nat -> string) (this : Session)
    (action_ : Public.Action) (options : PlayActionOptions) (w : World)
    : option (result * World) :=
  playAction_rec (S (length (inbox w))) uuid this action_ options w.

(** A fresh run at time 0 with the given events to come. *)
Definition start (events : timeline) : World :=
  {| now := 0; drawn := 0; sent := []; timers := []; settlements := [];
     inbox := events |}.

End Dispatcher.

(** Example data for the dispatcher: a recording session on an iPhone, a
    tap on the element with the text ["OK"], request ids [request-0],
    [request-1], ..., and error and success responses to a request. *)
Definition exampleSession : Dispatcher.Session :=
  {| Dispatcher.config_record := true;
     Dispatcher.mapper := {| platform := ios; screen := exampleScreen |} |}.

Definition exampleUuid (n : nat) : string := "request-" +:+ pretty n.

Definition okButton : Public.Element :=
  {| Public.attributes := Some [("text", AStr "OK")];
     Public.bounds := None;
     Public.rest := [] |}.

Definition tapOkButton : Public.Action :=
  {| Public.type := tap;
     Public.element := Some okButton;
     Public.position := None;
     Public.coordinates := None;
     Public.localPosition := None;
     Public.duration := None;
     Public.moves := [];
     Public.key := None;
     Public.character := None;
     Public.shiftKey := None |}.

Definition errorResponse (errorId : string) (message : string) (n : nat)
    (matched : list Public.Element) : Public.PlayActionErrorResponse :=
  {| Public.errorId := errorId;
     Public.err_message := message;
     Public.err_playback :=
       Some {| Public.id := exampleUuid n;
               Public.action := tapOkButton;
               Public.timeout := None |};
     Public.err_matchedElements := matched |}.

Definition successResponse (n : nat) : Public.PlayActionResult :=
  {| Public.res_playback :=
       Some {| Public.id := exampleUuid n;
               Public.action := tapOkButton;
               Public.timeout := None |};
     Public.res_matchedElements := [okButton] |}.

(** The element is not found three times in a row. *)
Definition threeNotFound : Dispatcher.timeline :=
  [ (100, Dispatcher.playbackError (errorResponse "notFound" "not found" 0 []));
    (200, Dispatcher.playbackError (errorResponse "notFound" "not found" 1 []));
    (300, Dispatcher.playbackError (errorResponse "notFound" "not found" 2 [])) ].

(** The reading of "errors of the class [c] are terminal": in every run
    from a fresh world, an attempt that is rejected with an error of the
    class [c] is the last attempt and its error is thrown to the caller. *)
Definition terminal `{Host} (c : errclass) : Prop :=
  forall uuid this action_ options events res w',
    Dispatcher.playAction uuid this action_ options
      (Dispatcher.start events) = Some (res, w') ->
    forall (i : nat) e,
      Dispatcher.settlements w' !! i = Some (Dispatcher.Rejected e) ->
      cls e = c ->
      res = Dispatcher.Threw e /\ length (Dispatcher.sent w') = S i.

(** An invalid argument is reported for the first request, and the
    second request succeeds. *)
Definition invalidThenSuccess : Dispatcher.timeline :=
  [ (100, Dispatcher.playbackError
            (errorResponse "invalidArgument" "bad argument" 0 []));
    (200, Dispatcher.playbackFoundAndSent (successResponse 1)) ].

(** The message of an [ActionInvalidArgumentError]. *)
Definition invalidArgumentMessage `{Host}
    (error : Public.PlayActionErrorResponse) (pb : Public.Playback) : string :=
  if includes (Public.err_message error) "outside the screen bounds" then
    match Public.localPosition (Public.action pb) with
    | Some lp =>
        "localPosition (" +:+ String_of_posval (Public.px lp) +:+ ", " +:+
        String_of_posval (Public.py lp) +:+
        ") for the element evaluates to a coordinate outside of screen bounds."
    | None => "Element is outside of screen bounds."
    end
  else Public.err_message error.

(** The reading of "the hard timeout of an attempt is its cap plus
    10000 ms": in every run, the delay of the timer of each attempt is the
    timeout sent with that attempt, in milliseconds, plus 10000. *)
Definition hard_timeout_is_cap_plus_slack `{Host} : Prop :=
  forall uuid this action_ options events res w',
    Dispatcher.playAction uuid this action_ options
      (Dispatcher.start events) = Some (res, w') ->
    forall (i : nat) p d,
      Dispatcher.sent w' !! i = Some p ->
      Dispatcher.timers w' !! i = Some d ->
      same d (Dispatcher.options_timeout p * of_Z 1000 + of_Z 10000)%num.

(** The budget that the [i]-th round of a call is entered with. *)
Definition budget (timeout_ : num) (i : nat) : num :=
  Nat.iter i Dispatcher.remainingTimeout timeout_.

(** A success that arrives 30 s after the request. *)
Definition lateSuccess : Dispatcher.timeline :=
  [ (30000, Dispatcher.playbackFoundAndSent (successResponse 0)) ].

Definition invalidOnce : Dispatcher.timeline :=
  [ (100, Dispatcher.playbackError
            (errorResponse "invalidArgument"
               "position is outside the screen bounds" 0 [])) ].

(* ===================================================================== *)
(** ** Session state machine: channel listeners and animation waits *)
(* ===================================================================== *)

(** The part of [Session] that reacts to the channel: the handler that
    the constructor installs on the socket, the listener that detaches it
    on disconnect, [end] and [waitForAnimations].  A channel carries the
    listeners of every session that was constructed on it.

    Event payloads are kept abstract: [V] is their type,
    [mapEventValue] is what [mapAppetizerEvent] does to the payload of an
    event that it renames, [withAdbCommand] adds the [command] property
    to the payload of [adbOverTcp], and [percentage] and [timestamp]
    read the payload of [pixelsChanged]. *)
Module SessionEngine.
Local Open Scope list_scope.
Section Engine.
Context {V : Type}.
Context (mapEventValue : string -> V -> V).
Context (withAdbCommand : V -> V).
Context (percentage timestamp : V -> num).
Context `{Host}.

(** The result of [mapAppetizerEvent]: an event under its public name,
    [null] for a suppressed event, [undefined] otherwise. *)
Inductive MappedEvent : Type :=
| Mapped (type : string) (value : V)
| Suppressed
| NotMapped.

(** The cases of the [switch] of [mapAppetizerEvent] that return an
    event, with the public name of each. *)
Definition publicNames : list (string * string) :=
  [ ("debug", "log");
    ("interceptResponse", "network");
    ("interceptRequest", "network");
    ("interceptError", "network");
    ("userError", "error");
    ("recordedAction", "action");
    ("playbackFoundAndSent", "playbackFoundAndSent");
    ("playbackError", "playbackError");
    ("uiDump", "uiDump");
    ("userInteractionReceived", "interaction");
    ("countdownWarning", "inactivityWarning");
    ("h264Data", "video");
    ("frameData", "video");
    ("audioData", "audio") ].

Fixpoint assoc (k : string) (table : list (string * string)) : option string :=
  match table with
  | [] => None
  | (k', v) :: rest => if String.eqb k k' then Some v else assoc k rest
  end.

Definition mapAppetizerEvent (event : string) (data : V) : MappedEvent :=
  if String.eqb event "deleteEvent" then Suppressed
  else match assoc event publicNames with
       | Some name => Mapped name (mapEventValue event data)
       | None => NotMapped
       end.

(** What a session emits to its subscribers: [emit(name, value)] and
    [emit('*', { type, value })]. *)
Inductive Emission : Type :=
| Named (name : string) (value : V)
| Star (type : string) (value : V).

(** The variables of one [waitForAnimations] call that its listener and
    its timer close over. *)
Record Wait : Type := {
  imageThreshold : num;
  wait_timeout : num;
  imageThresholdDuration : num;
  lowestImageThreshold : num;
  lastTimeUnderThreshold : option num;
}.

Inductive WaitOutcome : Type :=
| WaitResolved
| WaitRejected (e : jserror).

(** A session instance.  [invocations] counts the calls of its socket
    handler; [emitted] and [warnings] log what it emits and what it
    writes to the logger; [settledWaits] logs how its animation waits
    ended. *)
Record Session : Type := {
  ready : bool;
  countdownWarning : bool;
  isEndingManually : bool;
  device : V;
  adbConnection : option V;
  networkInspectorUrl : option V;
  emitted : list Emission;
  warnings : list string;
  invocations : nat;
  waitForAnimationsPromises : gset nat;
  waits : gmap nat Wait;
  settledWaits : list (nat * WaitOutcome);
}.

(** The channel and the sessions constructed on it: the listeners of
    ['*'] (the socket handler of a session, named by the session), the
    listeners of ['pixelsChanged'] (one per animation wait, named by the
    session and the promise), and the commands sent, each with the
    session that sent it. *)
Record System : Type := {
  star : list nat;
  pixelsChanged : list (nat * nat);
  outbox : list (nat * string);
  sessions : gmap nat Session;
  nextSession : nat;
  nextPromise : nat;
}.

Definition init : System :=
  {| star := []; pixelsChanged := []; outbox := []; sessions := ∅;
     nextSession := 0; nextPromise := 0 |}.

(** [removeListener]: the most recently added occurrence is removed. *)
Fixpoint remove_first `{EqDecision A} (x : A) (l : list A) : list A :=
  match l with
  | [] => []
  | y :: rest => if decide (x = y) then rest else y :: remove_first x rest
  end.

Definition remove_last `{EqDecision A} (x : A) (l : list A) : list A :=
  reverse (remove_first x (reverse l)).

Definition set_star (f : list nat -> list nat) (sys : System) : System :=
  {| star := f (star sys); pixelsChanged := pixelsChanged sys;
     outbox := outbox sys; sessions := sessions sys;
     nextSession := nextSession sys; nextPromise := nextPromise sys |}.

Definition set_pixelsChanged (f : list (nat * nat) -> list (nat * nat))
    (sys : System) : System :=
  {| star := star sys; pixelsChanged := f (pixelsChanged sys);
     outbox := outbox sys; sessions := sessions sys;
     nextSession := nextSession sys; nextPromise := nextPromise sys |}.

(** [this.socket.send(command)] by the session [sid]. *)
Definition send (sid : nat) (command : string) (sys : System) : System :=
  {| star := star sys; pixelsChanged := pixelsChanged sys;
     outbox := outbox sys ++ [(sid, command)]; sessions := sessions sys;
     nextSession := nextSession sys; nextPromise := nextPromise sys |}.

Definition update_session (sid : nat) (f : Session -> Session)
    (sys : System) : System :=
  {| star := star sys; pixelsChanged := pixelsChanged sys;
     outbox := outbox sys; sessions := alter f sid (sessions sys);
     nextSession := nextSession sys; nextPromise := nextPromise sys |}.

(** The assignments of the [switch] of [handleSocketEvent], and the
    count of the call. *)
Definition applyEvent (type : string) (value : V) (s : Session) : Session :=
  {| ready := if String.eqb type "ready" then true else ready s;
     countdownWarning :=
       if String.eqb type "countdownWarning" then true
       else if String.eqb type "timeoutReset" then false
       else countdownWarning s;
     isEndingManually := isEndingManually s;
     device := if String.eqb type "deviceInfo" then value else device s;
     adbConnection :=
       if String.eqb type "adbOverTcp" then Some (withAdbCommand value)
       else adbConnection s;
     networkInspectorUrl :=
       if String.eqb type "networkInspectorUrl" then Some value
       else networkInspectorUrl s;
     emitted := emitted s;
     warnings := warnings s;
     invocations := S (invocations s);
     waitForAnimationsPromises := waitForAnimationsPromises s;
     waits := waits s;
     settledWaits := settledWaits s |}.

Definition log_emission (e : Emission) (s : Session) : Session :=
  {| ready := ready s; countdownWarning := countdownWarning s;
     isEndingManually := isEndingManually s; device := device s;
     adbConnection := adbConnection s;
     networkInspectorUrl := networkInspectorUrl s;
     emitted := emitted s ++ [e];
     warnings := warnings s;
     invocations := invocations s;
     waitForAnimationsPromises := waitForAnimationsPromises s;
     waits := waits s;
     settledWaits := settledWaits s |}.

(** The warning of the disconnect listener, unless the session is being
    ended by [end]. *)
Definition warn_disconnect (s : Session) : Session :=
  {| ready := ready s; countdownWarning := countdownWarning s;
     isEndingManually := isEndingManually s; device := device s;
     adbConnection := adbConnection s;
     networkInspectorUrl := networkInspectorUrl s;
     emitted := emitted s;
     warnings :=
       if isEndingManually s then warnings s
       else warnings s ++
            [ if countdownWarning s
              then "Appetize session has ended due to inactivity"
              else "Session disconnected" ];
     invocations := invocations s;
     waitForAnimationsPromises := waitForAnimationsPromises s;
     waits := waits s;
     settledWaits := settledWaits s |}.

(** The listener of ['disconnect'] that the constructor adds to the
    session: it takes the socket handler of the session off the socket. *)
Definition on_disconnect (sid : nat) (sys : System) : System :=
  update_session sid warn_disconnect (set_star (remove_last sid) sys).

(** [this.emit(name, value)] of the session [sid], then
    [this.emit('*', { type: name, value })]. *)
Definition emit (sid : nat) (name : string) (value : V) (sys : System)
    : System :=
  let sys1 := update_session sid (log_emission (Named name value)) sys in
  let sys2 :=
    if String.eqb name "disconnect" then on_disconnect sid sys1 else sys1 in
  update_session sid (log_emission (Star name value)) sys2.

(** [handleSocketEvent] of the session [sid]. *)
Definition handleSocketEvent (sid : nat) (type : string) (value : V)
    (sys : System) : System :=
  match sessions sys !! sid with
  | None => sys
  | Some _ =>
      let event := mapAppetizerEvent type value in
      let sys1 := update_session sid (applyEvent type value) sys in
      match event with
      | Mapped type' value' => emit sid type' value' sys1
      | NotMapped => emit sid type value sys1
      | Suppressed => sys1
      end
  end.

(** The constructor: a new instance whose handler listens to ['*']. *)
Definition newSession (device_ : V) (sys : System) : System :=
  let sid := nextSession sys in
  {| star := star sys ++ [sid];
     pixelsChanged := pixelsChanged sys;
     outbox := outbox sys;
     sessions :=
       <[sid := {| ready := false; countdownWarning := false;
                   isEndingManually := false; device := device_;
                   adbConnection := None; networkInspectorUrl := None;
                   emitted := []; warnings := []; invocations := 0;
                   waitForAnimationsPromises := ∅; waits := ∅;
                   settledWaits := [] |}]> (sessions sys);
     nextSession := S sid;
     nextPromise := nextPromise sys |}.

(** [end()]: the flag is set, then the socket is asked to disconnect. *)
Definition end_ (sid : nat) (sys : System) : System :=
  match sessions sys !! sid with
  | None => sys
  | Some _ =>
      send sid "disconnect"
        (update_session sid
           (fun s =>
              {| ready := ready s; countdownWarning := countdownWarning s;
                 isEndingManually := true; device := device s;
                 adbConnection := adbConnection s;
                 networkInspectorUrl := networkInspectorUrl s;
                 emitted := emitted s; warnings := warnings s;
                 invocations := invocations s;
                 waitForAnimationsPromises := waitForAnimationsPromises s;
                 waits := waits s; settledWaits := settledWaits s |}) sys)
  end.

(** The options of [waitForAnimations]. *)
Record WaitOptions : Type := {
  opt_imageThreshold : option num;
  opt_timeout : option num;
  opt_imageThresholdDuration : option num;
}.

Definition newWait (options : WaitOptions) : Wait :=
  {| imageThreshold := default (Fin (1 # 1000)) (opt_imageThreshold options);
     wait_timeout := default (of_Z 10000) (opt_timeout options);
     imageThresholdDuration :=
       match opt_imageThresholdDuration options with
       | Some d => if truthy d then d else of_Z 1000
       | None => of_Z 1000
       end;
     lowestImageThreshold := of_Z 1;
     lastTimeUnderThreshold := None |}.

Definition set_waits (promises : gset nat) (ws : gmap nat Wait)
    (settled : list (nat * WaitOutcome)) (s : Session) : Session :=
  {| ready := ready s; countdownWarning := countdownWarning s;
     isEndingManually := isEndingManually s; device := device s;
     adbConnection := adbConnection s;
     networkInspectorUrl := networkInspectorUrl s;
     emitted := emitted s; warnings := warnings s;
     invocations := invocations s;
     waitForAnimationsPromises := promises;
     waits := ws;
     settledWaits := settled |}.

(** [waitForAnimations], up to its [await]: the command that enables
    the detection is sent, the listener is added to the socket and the
    promise to the set of the session. *)
Definition waitForAnimations (sid : nat) (options : WaitOptions)
    (sys : System) : System :=
  match sessions sys !! sid with
  | None => sys
  | Some _ =>
      let promise := nextPromise sys in
      let sys1 := send sid "enablePixelChangeDetection" sys in
      let sys2 := set_pixelsChanged (fun l => l ++ [(sid, promise)]) sys1 in
      let sys3 :=
        update_session sid
          (fun s =>
             set_waits ({[promise]} ∪ waitForAnimationsPromises s)
               (<[promise := newWait options]> (waits s))
               (settledWaits s) s) sys2 in
      {| star := star sys3; pixelsChanged := pixelsChanged sys3;
         outbox := outbox sys3; sessions := sessions sys3;
         nextSession := nextSession sys3; nextPromise := S promise |}
  end.

(** [handlePixelsChanged] on the variables of a call; the boolean tells
    whether [resolve()] is called. *)
Definition pixelsChangedStep (value : V) (w : Wait) : Wait * bool :=
  let percentage_ := percentage value in
  let timestamp_ := timestamp value in
  let lowest :=
    if lt percentage_ (lowestImageThreshold w) then percentage_
    else lowestImageThreshold w in
  if le percentage_ (imageThreshold w) then
    let last :=
      match lastTimeUnderThreshold w with
      | Some l => if truthy l then l else timestamp_
      | None => timestamp_
      end in
    ({| imageThreshold := imageThreshold w; wait_timeout := wait_timeout w;
        imageThresholdDuration := imageThresholdDuration w;
        lowestImageThreshold := lowest;
        lastTimeUnderThreshold := Some last |},
     truthy last && ge (timestamp_ - last)%num (imageThresholdDuration w))
  else
    ({| imageThreshold := imageThreshold w; wait_timeout := wait_timeout w;
        imageThresholdDuration := imageThresholdDuration w;
        lowestImageThreshold := lowest;
        lastTimeUnderThreshold := None |},
     false).

(** The ['pixelsChanged'] listener of the call [promise] of [sid]. *)
Definition handlePixelsChanged (listener : nat * nat) (value : V)
    (sys : System) : System * bool :=
  let '(sid, promise) := listener in
  match sessions sys !! sid with
  | Some s =>
      match waits s !! promise with
      | Some w =>
          let '(w', resolved) := pixelsChangedStep value w in
          (update_session sid
             (fun s => set_waits (waitForAnimationsPromises s)
                         (<[promise := w']> (waits s)) (settledWaits s) s)
             sys,
           resolved)
      | None => (sys, false)
      end
  | None => (sys, false)
  end.

(** The callback of [promise.finally]: the listener is taken off the
    socket and the promise out of the set, and the detection is disabled
    if the set is then empty. *)
Definition finish (sid promise : nat) (outcome : WaitOutcome) (sys : System)
    : System :=
  match sessions sys !! sid with
  | None => sys
  | Some s =>
      let promises := waitForAnimationsPromises s ∖ {[promise]} in
      let sys1 := set_pixelsChanged (remove_last (sid, promise)) sys in
      let sys2 :=
        update_session sid
          (fun s => set_waits (waitForAnimationsPromises s ∖ {[promise]})
                      (delete promise (waits s))
                      (settledWaits s ++ [(promise, outcome)]) s) sys1 in
      if (size promises =? 0)%nat
      then send sid "disablePixelChangeDetection" sys2
      else sys2
  end.

(** The error of the timer of a call. *)
Definition waitTimeoutError (w : Wait) : jserror :=
  new_TimeoutError
    ("Timed out after " +:+ String_of_num (wait_timeout w) +:+
     "ms waiting for animation to end." +:+
     (if lt (imageThreshold w) (lowestImageThreshold w)
      then " Waited for imageThreshold of " +:+
           String_of_num (imageThreshold w) +:+ " but lowest was " +:+
           String_of_num
             (round (lowestImageThreshold w * of_Z 10000) / of_Z 10000)%num
      else EmptyString)).

(** The timer of the call [promise] of [sid] fires; it was cleared if
    the call has finished. *)
Definition timeoutFires (sid promise : nat) (sys : System) : System :=
  match sessions sys !! sid with
  | Some s =>
      match waits s !! promise with
      | Some w =>
          if bool_decide (promise ∈ waitForAnimationsPromises s)
          then finish sid promise (WaitRejected (waitTimeoutError w)) sys
          else sys
      | None => sys
      end
  | None => sys
  end.

(** The socket emits an event: the listeners of its name are called,
    then the listeners of ['*'], each list as it is when its [emit]
    starts; the [finally] callbacks of the promises that were resolved
    run after that. *)
Definition deliver (type : string) (value : V) (sys : System) : System :=
  let '(sys1, resolved) :=
    if String.eqb type "pixelsChanged" then
      fold_left
        (fun '(sys, acc) listener =>
           let '(sys', r) := handlePixelsChanged listener value sys in
           (sys', if r then acc ++ [listener] else acc))
        (pixelsChanged sys) (sys, [])
    else (sys, []) in
  let sys2 :=
    fold_left (fun sys sid => handleSocketEvent sid type value sys)
      (star sys1) sys1 in
  fold_left (fun sys '(sid, promise) => finish sid promise WaitResolved sys)
    resolved sys2.

(** What can happen to the system. *)
Inductive Op : Type :=
| NewSession (device_ : V)
| Deliver (type : string) (value : V)
| End (sid : nat)
| WaitForAnimations (sid : nat) (options : WaitOptions)
| TimeoutFires (sid promise : nat).

Definition step (sys : System) (op : Op) : System :=
  match op with
  | NewSession device_ => newSession device_ sys
  | Deliver type value => deliver type value sys
  | End sid => end_ sid sys
  | WaitForAnimations sid options => waitForAnimations sid options sys
  | TimeoutFires sid promise => timeoutFires sid promise sys
  end.

Definition run (ops : list Op) (sys : System) : System :=
  fold_left step ops sys.

(** What the socket handler of a session and its disconnect listener
    write: the state that follows the channel, what was emitted and
    logged, and the number of calls of the handler. *)
Definition handlerView (s : Session)
    : bool * bool * V * option V * option V * list Emission * list string * nat :=
  (ready s, countdownWarning s, device s, adbConnection s,
   networkInspectorUrl s, emitted s, warnings s, invocations s).

(** The pixel change detection as the session [sid] left it: enabled
    when the last of its two commands that the session sent is the
    enabling one. *)
Fixpoint detectionEnabled (sid : nat) (commands : list (nat * string))
    (enabled : bool) : bool :=
  match commands with
  | [] => enabled
  | (sender, command) :: rest =>
      detectionEnabled sid rest
        (if (sender =? sid)%nat then
           if String.eqb command "enablePixelChangeDetection" then true
           else if String.eqb command "disablePixelChangeDetection" then false
           else enabled
         else enabled)
  end.

(** A step frames the session [id]: it adds no listener to ['*'], and
    it leaves the other sessions, the listeners of ['pixelsChanged'],
    the commands and the animation waits of [id] as they are. *)
Definition frames (id : nat) (sys sys' : System) : Prop :=
  (forall x, x ∈ star sys' -> x ∈ star sys) /\
  (NoDup (star sys) -> NoDup (star sys')) /\
  (forall x, x <> id -> sessions sys' !! x = sessions sys !! x) /\
  (forall x, is_Some (sessions sys' !! x) <-> is_Some (sessions sys !! x)) /\
  nextSession sys' = nextSession sys /\
  nextPromise sys' = nextPromise sys /\
  outbox sys' = outbox sys /\
  pixelsChanged sys' = pixelsChanged sys /\
  (forall s', sessions sys' !! id = Some s' ->
     exists s, sessions sys !! id = Some s /\
       waitForAnimationsPromises s' = waitForAnimationsPromises s /\
       waits s' = waits s /\ settledWaits s' = settledWaits s).

(** A step keeps the views: the listeners of ['*'] and what the socket
    handlers write stay as they are. *)
Definition keeps_views (sys sys' : System) : Prop :=
  star sys' = star sys /\
  nextSession sys' = nextSession sys /\
  (forall x, is_Some (sessions sys' !! x) <-> is_Some (sessions sys !! x)) /\
  (forall x, (handlerView <$> (sessions sys' !! x)) =
             (handlerView <$> (sessions sys !! x))).

(** The channel is well formed: no session listens twice, and every
    listener is a session that was constructed. *)
Definition well_formed (sys : System) : Prop :=
  NoDup (star sys) /\
  (forall sid, sid ∈ star sys -> is_Some (sessions sys !! sid)) /\
  (forall sid, is_Some (sessions sys !! sid) -> (sid < nextSession sys)%nat).

(** The toggle follows the set: for every session, the detection is
    enabled, as far as the commands of the session go, exactly when its
    set of promises in flight is not empty. *)
Definition toggle_follows_set (sys : System) : Prop :=
  forall sid s,
    sessions sys !! sid = Some s ->
    detectionEnabled sid (outbox sys) false =
    bool_decide (waitForAnimationsPromises s <> ∅).

(** A step keeps the sets: the commands sent and the set of promises of
    every session stay as they are. *)
Definition keeps_sets (sys sys' : System) : Prop :=
  outbox sys' = outbox sys /\
  nextSession sys' = nextSession sys /\
  (forall x, (waitForAnimationsPromises <$> (sessions sys' !! x)) =
             (waitForAnimationsPromises <$> (sessions sys !! x))).

(** The invariant of the toggle: it follows the set of every session,
    and every session that exists or has sent a command was constructed
    on this channel. *)
Definition pixel_invariant (sys : System) : Prop :=
  toggle_follows_set sys /\
  (forall sid command, (sid, command) ∈ outbox sys ->
     (sid < nextSession sys)%nat) /\
  (forall sid, is_Some (sessions sys !! sid) -> (sid < nextSession sys)%nat).

(** The session [sid] is stale: it was constructed, its handler is off
    the socket, and what the handler writes is [view]. *)
Definition stale (sid : nat) (view : option _) (sys : System) : Prop :=
  (sid < nextSession sys)%nat /\ (sid ∉ star sys) /\
  (handlerView <$> (sessions sys !! sid)) = view.

(** An operation of the channel, as opposed to a call by the user of a
    session: an event is delivered, or a session is constructed. *)
Definition channel_op (op : Op) : bool :=
  match op with
  | NewSession _ | Deliver _ _ => true
  | _ => false
  end.

(** The reading of "an instance that has observed its disconnect is not
    changed by later events": whatever happened before, once an event
    [disconnect] has been delivered to a session that listens, the
    session stays as it is through all later channel operations. *)
Definition isolated_after_disconnect : Prop :=
  forall ops1 sid value ops2,
    sid ∈ star (run ops1 init) ->
    forallb channel_op ops2 = true ->
    let sys2 := deliver "disconnect" value (run ops1 init) in
    sessions (run ops2 sys2) !! sid = sessions sys2 !! sid.

End Engine.
End SessionEngine.

(** Example payloads: none, a text, or the payload of [pixelsChanged]. *)
Inductive ExamplePayload : Type :=
| NoPayload
| Text (s : string)
| Pixels (percentage timestamp : num).

Definition examplePercentage (v : ExamplePayload) : num :=
  match v with Pixels p _ => p | _ => NaN end.

Definition exampleTimestamp (v : ExamplePayload) : num :=
  match v with Pixels _ t => t | _ => NaN end.

Definition exampleStep :=
  SessionEngine.step (fun _ v => v) (fun v => v)
    examplePercentage exampleTimestamp (H:=exampleHost).

Definition exampleRun (ops : list SessionEngine.Op) :=
  SessionEngine.run (fun _ v => v) (fun v => v)
    examplePercentage exampleTimestamp (H:=exampleHost) ops.

Definition defaultWait : SessionEngine.WaitOptions :=
  {| SessionEngine.opt_imageThreshold := None;
     SessionEngine.opt_timeout := None;
     SessionEngine.opt_imageThresholdDuration := None |}.

(** A session starts to wait for the animations to end and is
    disconnected. *)
Definition waitThenDisconnect : list (SessionEngine.Op (V:=ExamplePayload)) :=
  [ SessionEngine.NewSession NoPayload;
    SessionEngine.WaitForAnimations 0 defaultWait ].

(** After that the channel is used again: a still screen is reported
    twice, 1200 ms apart. *)
Definition stillScreen : list (SessionEngine.Op (V:=ExamplePayload)) :=
  [ SessionEngine.Deliver "pixelsChanged" (Pixels (of_Z 0) (of_Z 5000));
    SessionEngine.Deliver "pixelsChanged" (Pixels (of_Z 0) (of_Z 6200)) ].

(** Two calls of [waitForAnimations] are in flight on one session. *)
Definition twoWaits : list (SessionEngine.Op (V:=ExamplePayload)) :=
  [ SessionEngine.NewSession NoPayload;
    SessionEngine.WaitForAnimations 0 defaultWait;
    SessionEngine.WaitForAnimations 0 defaultWait ].

(** A session is constructed on a channel; later another one is, and
    the device reports that it is ready. *)
Definition oneSession : list (SessionEngine.Op (V:=ExamplePayload)) :=
  [ SessionEngine.NewSession NoPayload ].

Definition reconnection : list (SessionEngine.Op (V:=ExamplePayload)) :=
  [ SessionEngine.NewSession NoPayload;
    SessionEngine.Deliver "ready" NoPayload;
    SessionEngine.Deliver "deviceInfo" (Text "iPhone") ].

(** Seven elements match the selector of a tap. *)
Definition sevenMatches : Public.PlayActionErrorResponse :=
  errorResponse "ambiguousMatch" "ambiguous" 0
    [okButton; okButton; okButton; okButton; okButton; okButton; okButton].

(* ===================================================================== *)
(** ** Utilities ([core/util]) *)
(* ===================================================================== *)

From Stdlib Require Import HexadecimalString.

Module Util.

(** [clamp(value, min, max)] *)
Definition clamp (value min_ max_ : num) : num :=
  JsNum.min (JsNum.max value min_) max_.

(** *** [retry] *)

(** How [retry] ends: with the value of [fn], with the error that [fn]
    threw, or with the [throw null] that follows the loop. *)
Inductive retried (T E : Type) : Type :=
| RetryReturned (v : T)
| RetryThrew (e : E)
| RetryThrewNull.
Arguments RetryReturned {T E} v.
Arguments RetryThrew {T E} e.
Arguments RetryThrewNull {T E}.

(** A run of [retry]: how it ended, how often [fn] was called, and the
    delays of the timers it waited for. *)
Record RetryRun (T E : Type) : Type := {
  ended : retried T E;
  calls : nat;
  sleeps : list num;
}.
Arguments ended {T E} r.
Arguments calls {T E} r.
Arguments sleeps {T E} r.

(** The options of [retry]; an option that is left out takes its default
    value. *)
Record RetryOptions (E : Type) : Type := {
  opt_retries : option num;
  opt_timeout : option num;
  opt_predicate : option (E -> nat -> bool);
}.
Arguments opt_retries {E} r.
Arguments opt_timeout {E} r.
Arguments opt_predicate {E} r.

Section Retry.
Context {T E : Type}.

(** [fn i] is what the [i]-th call of [fn] returns ([inl]) or throws
    ([inr]); the calls are numbered from 1, like the loop counter. *)
Context (fn : nat -> T + E).

(** The loop [for (let i = 1; i <= retries; i++)], entered at [i].  The
    loop need not end when [retries] is [Infinity]; [None] means that
    the fuel ran out. *)
Fixpoint retry_from (retries timeout : num) (predicate : E -> nat -> bool)
    (fuel : nat) (i : nat) (slept : list num) : option (RetryRun T E) :=
  match fuel with
  | O => None
  | S fuel' =>
      if le (of_Z (Z.of_nat i)) retries then
        match fn i with
        | inl v =>
            Some {| ended := RetryReturned v; calls := i; sleeps := slept |}
        | inr e =>
            if strict_eq (of_Z (Z.of_nat i)) retries || negb (predicate e i)
            then Some {| ended := RetryThrew e; calls := i; sleeps := slept |}
            else retry_from retries timeout predicate fuel' (S i)
                   (slept ++ [timeout])%list
        end
      else Some {| ended := RetryThrewNull; calls := Nat.pred i;
                   sleeps := slept |}
  end.

Definition retry (options : RetryOptions E) (fuel : nat)
    : option (RetryRun T E) :=
  retry_from (default (of_Z 3) (opt_retries options))
             (default (of_Z 1000) (opt_timeout options))
             (default (fun _ _ => true) (opt_predicate options))
             fuel 1 [].

(** The calls before the [i]-th all failed and were retried. *)
Definition retried_before (predicate : E -> nat -> bool) (i : nat) : Prop :=
  forall j, (1 <= j < i)%nat ->
    exists e, fn j = inr e /\ predicate e j = true.

End Retry.

(** The number of calls that a count of [retries] allows. *)
Definition allowed_calls (retries : num) : nat :=
  match retries with
  | Fin q => Z.to_nat (Qfloor q)
  | _ => 0%nat
  end.

(** *** [uuid] *)

(** [ToInt32], which [x | 0] applies to [x]: the integer part, wrapped
    to 32 bits; 0 for a value that is not finite. *)
Definition ToInt32 (x : num) : Z :=
  match x with
  | Fin q =>
      let n := if Qle_bool 0 q then Qfloor q else Qceiling q in
      ((n + 2 ^ 31) mod 2 ^ 32 - 2 ^ 31)%Z
  | _ => 0%Z
  end.

(** [v.toString(16)] on an integer. *)
Definition toString16 (v : Z) : string :=
  NilZero.string_of_int (Z.to_hex_int v).

Definition uuid_template : string := "xxxxxxxx-xxxx-4xxx-yxxx-xxxxxxxxxxxx".

(** The callback of the [replace]: [random] is the value that
    [Math.random()] returns. *)
Definition uuid_digit (c : ascii) (random : num) : string :=
  let r := ToInt32 (random * of_Z 16)%num in
  let v := if Ascii.eqb c "x" then r else Z.lor (Z.land r 3) 8 in
  toString16 v.

(** [template.replace(/[xy]/g, callback)]: [random n] is what the [n]-th
    call of [Math.random()] returns, and [drawn] counts the calls. *)
Fixpoint replace_xy (random : nat -> num) (drawn : nat) (template : string)
    : string * nat :=
  match template with
  | EmptyString => (EmptyString, drawn)
  | String c rest =>
      if Ascii.eqb c "x" || Ascii.eqb c "y" then
        let '(out, n) := replace_xy random (S drawn) rest in
        (uuid_digit c (random drawn) +:+ out, n)
      else
        let '(out, n) := replace_xy random drawn rest in
        (String c out, n)
  end.

Definition uuid (random : nat -> num) (drawn : nat) : string * nat :=
  replace_xy random drawn uuid_template.

(** A lower-case hexadecimal digit. *)
Definition is_hex (c : ascii) : bool :=
  is_digit c ||
  (let n := nat_of_ascii c in ((97 <=? n) && (n <=? 102))%nat).

(** The shape of a version 4 identifier: [s] follows the template, with
    a hexadecimal digit for each [x] and one of [8], [9], [a], [b] for
    the [y]. *)
Fixpoint matches_template (template s : string) : bool :=
  match template, s with
  | EmptyString, EmptyString => true
  | String t template', String c s' =>
      (if Ascii.eqb t "x" then is_hex c
       else if Ascii.eqb t "y"
       then Ascii.eqb c "8" || Ascii.eqb c "9" ||
            Ascii.eqb c "a" || Ascii.eqb c "b"
       else Ascii.eqb t c) &&
      matches_template template' s'
  | _, _ => false
  end.

(** *** [cleanObject] *)

(** The values [cleanObject] is applied to: the JSON values and
    [undefined].  An object is the list of its own enumerable entries in
    the order of [Object.entries]; its prototype is not modelled, nor
    are objects with a prototype of their own (typed arrays, dates). *)
#[local] Unset Elimination Schemes.
Inductive jsvalue : Type :=
| VUndefined
| VNull
| VBool (b : bool)
| VNum (n : num)
| VStr (s : string)
| VArr (items : list jsvalue)
| VObj (entries : list (string * jsvalue)).
#[local] Set Elimination Schemes.

(** [v === null || v === undefined] *)
Definition nullish (v : jsvalue) : bool :=
  match v with
  | VUndefined | VNull => true
  | _ => false
  end.

(** An own member is written: the value of an entry that exists is
    replaced where it is, a new entry goes to the end. *)
Fixpoint define (key : string) (v : jsvalue) (acc : list (string * jsvalue))
    : list (string * jsvalue) :=
  match acc with
  | [] => [(key, v)]
  | (k, w) :: rest =>
      if String.eqb k key then (k, v) :: rest
      else (k, w) :: define key v rest
  end.

(** [acc[key] = value] on an object that was made by [{}] and by such
    assignments.  The key [__proto__] names the accessor that the object
    inherits from [Object.prototype]: the assignment sets the prototype
    of [acc] when the value is an object and does nothing otherwise; in
    neither case does [acc] get an own member.  Every other key writes
    an own member. *)
Definition assign (key : string) (v : jsvalue) (acc : list (string * jsvalue))
    : list (string * jsvalue) :=
  if String.eqb key "__proto__" then acc else define key v acc.

Fixpoint cleanObject (obj : jsvalue) : jsvalue :=
  match obj with
  | VArr items =>
      VArr (List.filter (fun item => negb (nullish item))
              (List.map cleanObject items))
  | VObj entries =>
      VObj (fold_left
              (fun acc '(key, value) =>
                 let cleanedValue := cleanObject value in
                 if negb (nullish cleanedValue)
                 then assign key cleanedValue acc
                 else acc)
              entries [])
  | _ => obj
  end.

(** No member of [v], at any depth, is [null] or [undefined]. *)
Fixpoint clean (v : jsvalue) : bool :=
  match v with
  | VArr items => forallb (fun item => negb (nullish item) && clean item) items
  | VObj entries =>
      forallb (fun '(_, value) => negb (nullish value) && clean value) entries
  | _ => true
  end.

(** The keys of every object in [v] are distinct, as the own keys of a
    JavaScript object are. *)
Fixpoint distinct_keys (v : jsvalue) : Prop :=
  match v with
  | VArr items => fold_right (fun item P => distinct_keys item /\ P) True items
  | VObj entries =>
      NoDup entries.*1 /\
      fold_right (fun '(_, value) P => distinct_keys value /\ P) True entries
  | _ => True
  end.

(** No object in [v], at any depth, has an own member [__proto__]. *)
Fixpoint no_proto_key (v : jsvalue) : Prop :=
  match v with
  | VArr items => fold_right (fun item P => no_proto_key item /\ P) True items
  | VObj entries =>
      ("__proto__" ∉ entries.*1) /\
      fold_right (fun '(_, value) P => no_proto_key value /\ P) True entries
  | _ => True
  end.

(** The own member of an object under [key], if it has one. *)
Fixpoint get (key : string) (entries : list (string * jsvalue))
    : option jsvalue :=
  match entries with
  | [] => None
  | (k, v) :: rest => if String.eqb k key then Some v else get key rest
  end.

End Util.

(** A call that fails twice and then returns 7. *)
Definition failTwice (i : nat) : Z + string :=
  if (i <=? 2)%nat then inr "failed" else inl 7%Z.

(** Draws of [Math.random()] for the examples: all 0, and all 15/16. *)
Definition zeroRandom (n : nat) : num := Fin 0.
Definition highRandom (n : nat) : num := Fin (15 # 16).

(** An object with members that [cleanObject] removes. *)
Definition sparseConfig : Util.jsvalue :=
  Util.VObj
    [ ("device", Util.VStr "iphone15");
      ("osVersion", Util.VNull);
      ("params", Util.VObj [("a", Util.VUndefined)]);
      ("launchArgs", Util.VArr [Util.VNum (of_Z 1); Util.VNull;
                                Util.VNum (of_Z 2)]) ].

Definition cleanedConfig : Util.jsvalue :=
  Util.VObj
    [ ("device", Util.VStr "iphone15");
      ("params", Util.VObj []);
      ("launchArgs", Util.VArr [Util.VNum (of_Z 1); Util.VNum (of_Z 2)]) ].

(** An object with an own member [__proto__], as [JSON.parse] makes
    them. *)
Definition protoConfig : Util.jsvalue :=
  Util.VObj
    [ ("__proto__", Util.VObj [("admin", Util.VBool true)]);
      ("device", Util.VStr "iphone15") ].

(* ===================================================================== *)
(** ** Waiting ([core/waitFor]) *)
(* ===================================================================== *)

Module WaitFor.

(** *** [waitFor] *)

(** One call of [fn]: how long it took, whether it called [bail] with
    an error, and what it returned ([inl]) or threw ([inr]). *)
Record Attempt (T E : Type) : Type := {
  took : Q;
  bailed : bool;
  outcome : T + E;
}.
Arguments took {T E} a.
Arguments bailed {T E} a.
Arguments outcome {T E} a.

(** A run of [waitFor]: what it returned or threw, when, and how often
    [fn] was called. *)
Record WaitRun (T E : Type) : Type := {
  result : T + E;
  ended_at : Q;
  calls : nat;
}.
Arguments result {T E} _.
Arguments ended_at {T E} _.
Arguments calls {T E} _.

Section WaitFor.
Context {T E : Type}.

(** [fn k now] is the [k]-th call of [fn], made at the time [now];
    [sleep k] is how long the timer of 100 ms that follows it takes;
    times are in milliseconds. *)
Context (fn : nat -> Q -> Attempt T E).
Context (sleep : nat -> Q).

(** [Date.now() - start > timeout], which never holds for [null]. *)
Definition expired (timeout : option num) (start now : Q) : bool :=
  match timeout with
  | Some t => gt (Fin (now - start)) t
  | None => false
  end.

(** The loop, entered for the [k]-th call at the time [now].  [None]
    means that the fuel ran out: the loop is still running. *)
Fixpoint waitFor_from (timeout : option num) (start : Q) (fuel : nat)
    (k : nat) (now : Q) : option (WaitRun T E) :=
  match fuel with
  | O => None
  | S fuel' =>
      let a := fn k now in
      let returned := now + took a in
      match outcome a with
      | inl v =>
          Some {| result := inl v; ended_at := returned; calls := S k |}
      | inr e =>
          let woken := returned + sleep k in
          if bailed a || expired timeout start woken
          then Some {| result := inr e; ended_at := woken; calls := S k |}
          else waitFor_from timeout start fuel' (S k) woken
      end
  end.

(** [waitFor(fn, timeout)], called at the time [start]; a timeout that
    is left out is 5000 ms, and [Some None] is [null]. *)
Definition waitFor (timeout : option (option num)) (start : Q) (fuel : nat)
    : option (WaitRun T E) :=
  waitFor_from (default (Some (of_Z 5000)) timeout) start fuel 0 start.

(** What the run [r] ended with is what the last call of [fn] returned
    or threw; [by_bail] tells whether that call called [bail]. *)
Definition ended_by_last_call (r : WaitRun T E) (by_bail : bool) : Prop :=
  exists now,
    outcome (fn (Nat.pred (calls r)) now) = result r /\
    bailed (fn (Nat.pred (calls r)) now) = by_bail.

End WaitFor.

(** The number of calls that a timeout of [t] ms leaves room for, the
    timer between two calls taking 100 ms or more. *)
Definition max_calls (t : Q) : nat := S (Z.to_nat (Qfloor (t / 100))).

(** *** [waitForEvent] *)

Section WaitForEvent.
Context {V : Type} `{Host}.

(** The third argument: left out, an options object (whose [timeout] is
    left out, [null] or a number), or a predicate. *)
Inductive OptionsOrPredicate : Type :=
| NoOptions
| Options (timeout : option (option num)) (predicate : option (V -> bool))
| Predicate (p : V -> bool).

Definition timeout_of (o : OptionsOrPredicate) : option num :=
  match o with
  | Options (Some t) _ => t
  | _ => Some (of_Z 10000)
  end.

Definition predicate_of (o : OptionsOrPredicate) : option (V -> bool) :=
  match o with
  | Options _ p => p
  | Predicate p => Some p
  | NoOptions => None
  end.

(** How the promise ends, and when.  [StillWaiting]: it never settles. *)
Inductive waited : Type :=
| EventResolved (data : V) (at_ : Q)
| EventRejected (e : jserror) (at_ : Q)
| StillWaiting.

Definition eventTimeoutError (timeout : num) (event : string) : jserror :=
  new_TimeoutError
    ("Timeout " +:+ String_of_num timeout +:+
     "ms exceeded while waiting for event " +:+ dquote +:+ event +:+ dquote).

(** [listener(data)]: does it resolve the promise? *)
Definition accepts (predicate : option (V -> bool)) (data : V) : bool :=
  match predicate with
  | Some p => p data
  | None => true
  end.

(** The events that the emitter emits after the call, each with its
    time, its name and its value, in the order of their emission. *)
Definition emissions : Type := list (Q * string * V).

(** The time the timer fires at, if it does before an event of the
    time [at_] is emitted. *)
Definition fires_before (due : option Q) (at_ : Q) : option Q :=
  match due with
  | Some d => if Qle_bool d at_ then Some d else None
  | None => None
  end.

(** The listener is called on the events of the name [event] that are
    emitted before the timer fires, until it resolves the promise. *)
Fixpoint listen (event : string) (predicate : option (V -> bool))
    (due : option Q) (timeoutError : jserror) (events : emissions)
    : waited :=
  match events with
  | [] =>
      match due with
      | Some d => EventRejected timeoutError d
      | None => StillWaiting
      end
  | (at_, name, data) :: rest =>
      match fires_before due at_ with
      | Some d => EventRejected timeoutError d
      | None =>
          if String.eqb name event && accepts predicate data
          then EventResolved data at_
          else listen event predicate due timeoutError rest
      end
  end.

(** The events that the listener passes over: they are emitted before
    the timer fires, and they have another name or the predicate does not
    hold of their value. *)
Definition passed_over (event : string) (predicate : option (V -> bool))
    (due : option Q) (pre : emissions) : Prop :=
  Forall (fun '(at_, name, data) =>
            fires_before due at_ = None /\
            String.eqb name event && accepts predicate data = false) pre.

(** [waitForEvent(emitter, event, optionsOrPredicate)], called at the
    time [now]. *)
Definition waitForEvent (events : emissions) (now : Q) (event : string)
    (optionsOrPredicate : OptionsOrPredicate) : waited :=
  let timeout := timeout_of optionsOrPredicate in
  listen event (predicate_of optionsOrPredicate)
    (Dispatcher.timer_due now <$> timeout)
    (eventTimeoutError (default NaN timeout) event)
    events.

End WaitForEvent.

End WaitFor.

(** A function that always throws, at once and without calling [bail],
    and timers that take exactly their 100 ms. *)
Definition alwaysFails (k : nat) (now : Q) : WaitFor.Attempt unit string :=
  {| WaitFor.took := 0; WaitFor.bailed := false;
     WaitFor.outcome := inr "not yet" |}.

Definition exactTimer (k : nat) : Q := 100.

(** The emitter emits an [orientationChanged] after 200 ms and an
    [appLaunch] after 700 ms. *)
Definition twoEmissions : WaitFor.emissions (V:=string) :=
  [ (200, "orientationChanged", "landscape");
    (700, "appLaunch", EmptyString) ].

(* ===================================================================== *)
(** ** Logger ([core/logger]) *)
(* ===================================================================== *)

Module Logger.

(** A log function as [createLogFn] makes it: the set of the messages
    that its [once] has logged, and the messages it has written to the
    console, each after the context [[Appetize]]. *)
Record LogFn : Type := {
  loggedMessages : gset string;
  written : list string;
}.

Definition createLogFn : LogFn := {| loggedMessages := ∅; written := [] |}.

(** [fn(msg)] *)
Definition call (msg : string) (fn : LogFn) : LogFn :=
  {| loggedMessages := loggedMessages fn; written := written fn ++ [msg] |}.

(** [fn.once(msg)] *)
Definition once (msg : string) (fn : LogFn) : LogFn :=
  if bool_decide (msg ∈ loggedMessages fn) then fn
  else call msg {| loggedMessages := {[msg]} ∪ loggedMessages fn;
                   written := written fn |}.

(** The uses of a log function. *)
Inductive Use : Type :=
| Call (msg : string)
| Once (msg : string).

Definition use (fn : LogFn) (u : Use) : LogFn :=
  match u with
  | Call msg => call msg fn
  | Once msg => once msg fn
  end.

(** How often [msg] is in a list of messages. *)
Definition occurrences (msg : string) (l : list string) : nat :=
  length (List.filter (String.eqb msg) l).

Definition is_call (msg : string) (u : Use) : bool :=
  match u with Call m => String.eqb msg m | Once _ => false end.

Definition is_once (msg : string) (u : Use) : bool :=
  match u with Once m => String.eqb msg m | Call _ => false end.

End Logger.

(** The warning of [mapConfig] about [autoplay]. *)
Definition autoplayWarning : string :=
  "autoplay=true may cause the session to start before the SDK is ready. You should start the session programmatically using client.startSession() instead.".

(* ===================================================================== *)
(** ** Actions for the properties of the mapper *)
(* ===================================================================== *)



(** *** The check of the duration on a value of any type

    The type of a public action has the duration as a number; a caller
    may still pass a value of another type, which [typeof] tells apart. *)

(** [Boolean(v)] *)
Definition truthy_value (v : Util.jsvalue) : bool :=
  match v with
  | Util.VUndefined | Util.VNull => false
  | Util.VBool b => b
  | Util.VNum n => truthy n
  | Util.VStr s => negb (String.eqb s EmptyString)
  | Util.VArr _ | Util.VObj _ => true
  end.

(** [Validator.isValidNumber] on a value of any type:
    [typeof value === 'number'] and not [NaN]. *)
Definition isValidNumber_value (v : Util.jsvalue) : bool :=
  match v with
  | Util.VNum n => negb (isNaN n)
  | _ => false
  end.

Section DurationCheck.

(** The text of a value in a template literal. *)
Variable String_of_value : Util.jsvalue -> string.

(** [if ('duration' in action && action.duration) { ... }]: [None] is an
    action without the key. *)
Definition checkDuration (duration : option Util.jsvalue)
    : completion unit :=
  match duration with
  | Some d =>
      if truthy_value d
      then throw_if (negb (isValidNumber_value d))
             (new_OperationalError
                ("Invalid duration: " +:+ String_of_value d +:+
                 ". Value must be a number"))
      else Ok tt
  | None => Ok tt
  end.

End DurationCheck.

(** The action [a] with another [localPosition]. *)
Definition with_localPosition (lp : option Public.Position)
    (a : Public.Action) : Public.Action :=
  {| Public.type := Public.type a;
     Public.element := Public.element a;
     Public.position := Public.position a;
     Public.coordinates := Public.coordinates a;
     Public.localPosition := lp;
     Public.duration := Public.duration a;
     Public.moves := Public.moves a;
     Public.key := Public.key a;
     Public.character := Public.character a;
     Public.shiftKey := Public.shiftKey a |}.

Definition wire_with_localPosition (lp : option Internal.Position)
    (a : Internal.Action) : Internal.Action :=
  {| Internal.type := Internal.type a;
     Internal.element := Internal.element a;
     Internal.coordinates := Internal.coordinates a;
     Internal.localPosition := lp;
     Internal.duration := Internal.duration a;
     Internal.moves := Internal.moves a;
     Internal.key := Internal.key a;
     Internal.character := Internal.character a;
     Internal.shiftKey := Internal.shiftKey a |}.

(** The action [a] with other [coordinates]. *)
Definition with_coordinates (c : option Coordinates) (a : Public.Action)
    : Public.Action :=
  {| Public.type := Public.type a;
     Public.element := Public.element a;
     Public.position := Public.position a;
     Public.coordinates := c;
     Public.localPosition := Public.localPosition a;
     Public.duration := Public.duration a;
     Public.moves := Public.moves a;
     Public.key := Public.key a;
     Public.character := Public.character a;
     Public.shiftKey := Public.shiftKey a |}.

(** A keypress, with no other field. *)
Definition keypressOf (key character : option string)
    (shiftKey : option bool) : Public.Action :=
  {| Public.type := keypress;
     Public.element := None;
     Public.position := None;
     Public.coordinates := None;
     Public.localPosition := None;
     Public.duration := None;
     Public.moves := [];
     Public.key := key;
     Public.character := character;
     Public.shiftKey := shiftKey |}.

(** The names that the wire has for the hardware keys. *)
Definition wireKeyNames : list string := ["home"; "volumeUp"; "volumeDown"].

(** A key of the public API: absent, or a name other than the ones the
    wire has for the hardware keys. *)
Definition public_key (k : option string) : Prop :=
  match k with
  | Some name => name ∉ wireKeyNames
  | None => True
  end.

(** A swipe at a position, with the given moves and no other field. *)
Definition swipeAt (position : Public.Position) (moves : list Public.Move)
    : Public.Action :=
  {| Public.type := swipe;
     Public.element := None;
     Public.position := Some position;
     Public.coordinates := None;
     Public.localPosition := None;
     Public.duration := None;
     Public.moves := moves;
     Public.key := None;
     Public.character := None;
     Public.shiftKey := None |}.

(** A move at a numeric offset. *)
Definition moveTo (x y t : num) : Public.Move :=
  {| Public.mx := PNum x; Public.my := PNum y; Public.mt := t |}.


(** An element with bounds and a flag, and a tap on it. *)
Definition hiddenButton : Public.Element :=
  {| Public.attributes :=
       Some [("text", AStr "OK"); ("isHidden", ABool true)];
     Public.bounds :=
       Some {| Public.bx := of_Z 10; Public.by_ := of_Z 20;
               Public.bwidth := of_Z 100; Public.bheight := Infinity |};
     Public.rest := [("matchIndex", ANum (of_Z 0))] |}.

Definition tapElement (e : Public.Element) (lp : option Public.Position)
    : Public.Action :=
  {| Public.type := tap;
     Public.element := Some e;
     Public.position := None;
     Public.coordinates := None;
     Public.localPosition := lp;
     Public.duration := None;
     Public.moves := [];
     Public.key := None;
     Public.character := None;
     Public.shiftKey := None |}.

(** A tap at absolute coordinates, with no other field. *)
Definition tapCoordinates (x y : num) : Public.Action :=
  {| Public.type := tap;
     Public.element := None;
     Public.position := None;
     Public.coordinates := Some {| cx := x; cy := y |};
     Public.localPosition := None;
     Public.duration := None;
     Public.moves := [];
     Public.key := None;
     Public.character := None;
     Public.shiftKey := None |}.

(* ===================================================================== *)
(** ** Quantities of the gesture path builder *)
(* ===================================================================== *)

(** The values that [build] computes before its loops: the number of
    segments, the duration, and the steps per segment. *)
Definition segmentCount (g : SwipeGesture.SwipeGesture) : nat :=
  (length (SwipeGesture.moves g) - 1)%nat.

Definition durationOf (g : SwipeGesture.SwipeGesture) : num :=
  match SwipeGesture.duration g with
  | Some d => d
  | None =>
      JsNum.max (of_Z 500)
        (SwipeGesture.stepDuration g * of_Z (Z.of_nat (segmentCount g)))%num
  end.

Definition stepsPerSegment (g : SwipeGesture.SwipeGesture) : num :=
  floor (floor (durationOf g / SwipeGesture.stepDuration g)
         / of_Z (Z.of_nat (segmentCount g)))%num.

(** The waypoints are finite, and none but the last has a wait. *)
Definition finite_waypoint (m : SwipeGesture.Movement) : Prop :=
  exists a b, SwipeGesture.x m = Fin a /\ SwipeGesture.y m = Fin b.

Fixpoint waits_only_at_end (ms : list SwipeGesture.Movement) : Prop :=
  match ms with
  | m :: ((_ :: _) as rest) =>
      SwipeGesture.has_wait m = None /\ waits_only_at_end rest
  | _ => True
  end.

(** The move of [build] that holds the end point: the last move, [w] ms
    later. *)
Definition held (w : num) (m : SwipeGesture.SwipeMove)
    : SwipeGesture.SwipeMove :=
  {| SwipeGesture.mx := SwipeGesture.mx m;
     SwipeGesture.my := SwipeGesture.my m;
     SwipeGesture.t := (SwipeGesture.t m + w / of_Z 1000)%num |}.

(** The move that the inner loop of [build] adds at [step] of the
    segment [i] from [lower] to [upper], with [k] steps per segment and
    no wait accrued. *)
Definition pathPoint (sd : num) (k i : nat)
    (lower upper : SwipeGesture.Movement) (step : nat)
    : SwipeGesture.SwipeMove :=
  let stepn := of_Z (Z.of_nat step) in
  let sps := of_Z (Z.of_nat k) in
  let progress := (stepn / sps)%num in
  {| SwipeGesture.mx :=
       (SwipeGesture.x lower +
        progress * (SwipeGesture.x upper - SwipeGesture.x lower))%num;
     SwipeGesture.my :=
       (SwipeGesture.y lower +
        progress * (SwipeGesture.y upper - SwipeGesture.y lower))%num;
     SwipeGesture.t :=
       (((of_Z (Z.of_nat i) * sps + stepn) * sd + of_Z 0) / of_Z 1000)%num |}.

(** The moves of the segments from the [i]-th on: all steps of a
    segment but its last, and the last step too on the last segment. *)
Fixpoint path (sd : num) (k n i : nat) (ms : list SwipeGesture.Movement)
    : list SwipeGesture.SwipeMove :=
  match ms with
  | lower :: ((upper :: _) as rest) =>
      (pathPoint sd k i lower upper
         <$> seq 0 (if (S i =? n)%nat then S k else k)) ++
      path sd k n (S i) rest
  | _ => []
  end.

(** The move that holds the end point, when the last waypoint has a
    wait. *)
Definition trailing (ms : list SwipeGesture.Movement)
    (r : list SwipeGesture.SwipeMove) : list SwipeGesture.SwipeMove :=
  match last ms ≫= SwipeGesture.has_wait, last r with
  | Some w, Some m => [held w m]
  | _, _ => []
  end.

(** A gesture through three waypoints in 96 ms, and the same with a wait
    of 250 ms at the end. *)
Definition cornerSwipe : SwipeGesture.SwipeGesture :=
  {| SwipeGesture.moves :=
       [ {| SwipeGesture.x := of_Z 0; SwipeGesture.y := of_Z 0;
            SwipeGesture.wait := None |};
         {| SwipeGesture.x := of_Z 1; SwipeGesture.y := of_Z 0;
            SwipeGesture.wait := None |};
         {| SwipeGesture.x := of_Z 1; SwipeGesture.y := of_Z 1;
            SwipeGesture.wait := None |} ];
     SwipeGesture.duration := Some (Fin 96);
     SwipeGesture.stepDuration := Fin 16 |}.

(** The four directions of a gesture: [up], [down], [left] and [right],
    each with the distance it is given, ['50%'] when none is. *)
Module Directions.
Section Directions.
Context `{Host}.

(** [`-${value}%`] and [`${value}%`] *)
Definition negative (value : num) : string :=
  "-" +:+ String_of_num value +:+ "%".
Definition positive (value : num) : string :=
  String_of_num value +:+ "%".

Definition up (distance : option string) (this : SwipeGesture.SwipeGesture)
    : completion SwipeGesture.SwipeGesture :=
  let value := parseFloat (default "50%" distance) in
  SwipeGesture.to "0%" (negative value) this.

Definition down (distance : option string) (this : SwipeGesture.SwipeGesture)
    : completion SwipeGesture.SwipeGesture :=
  let value := parseFloat (default "50%" distance) in
  SwipeGesture.to "0%" (positive value) this.

Definition left (distance : option string) (this : SwipeGesture.SwipeGesture)
    : completion SwipeGesture.SwipeGesture :=
  let value := parseFloat (default "50%" distance) in
  SwipeGesture.to (negative value) "0%" this.

Definition right (distance : option string)
    (this : SwipeGesture.SwipeGesture)
    : completion SwipeGesture.SwipeGesture :=
  let value := parseFloat (default "50%" distance) in
  SwipeGesture.to (positive value) "0%" this.

End Directions.
End Directions.

(* ===================================================================== *)
(** ** Quantities of the action dispatcher *)
(* ===================================================================== *)

(** The sum of the delays of hard timers, in milliseconds. *)
Definition total_delay (timers : list num) : Q :=
  fold_right (fun t acc => match t with Fin d => d + acc | _ => acc end)
    0 timers.

(** A timeout in whole seconds, from 0 to 10. *)
Definition whole_seconds_up_to_10 (t : num) : Prop :=
  exists z : Z, t = Fin (inject_Z z) /\ (0 <= z <= 10)%Z.

(** An element with an attribute at its root, and a tap on it. *)
Definition misplacedText : Public.Element :=
  {| Public.attributes := None;
     Public.bounds := None;
     Public.rest := [("text", AStr "OK")] |}.

(* ===================================================================== *)
(** ** The logs of a session *)
(* ===================================================================== *)

Module SessionLogs.
Section Logs.
Context {V : Type}.

(** The emissions of a list of events: each under its name, then under
    ['*']. *)
Definition pairs (events : list (string * V))
    : list (@SessionEngine.Emission V) :=
  flat_map (fun '(name, value) =>
              [SessionEngine.Named name value; SessionEngine.Star name value])
    events.

(** The two warnings of the disconnect listener. *)
Definition disconnectWarnings : list string :=
  ["Session disconnected"; "Appetize session has ended due to inactivity"].

(** The logs of a session are in order: what it has emitted are the
    [events], each twice, none of them a [deleteEvent], at most one for
    each call of its socket handler; it has written at most one warning;
    and while its handler listens to the socket, it has written none and
    has not emitted [disconnect]. *)
Definition logs_of (listening : Prop) (s : @SessionEngine.Session V)
    (events : list (string * V)) : Prop :=
  SessionEngine.emitted s = pairs events /\
  Forall (fun '(name, _) => name <> "deleteEvent") events /\
  (length events <= SessionEngine.invocations s)%nat /\
  (SessionEngine.warnings s = [] \/
   exists m, m ∈ disconnectWarnings /\ SessionEngine.warnings s = [m]) /\
  (listening ->
   SessionEngine.warnings s = [] /\
   Forall (fun '(name, _) => name <> "disconnect") events).

Definition logs_in_order (sys : @SessionEngine.System V) : Prop :=
  forall sid s,
    SessionEngine.sessions sys !! sid = Some s ->
    exists events, logs_of (sid ∈ SessionEngine.star sys) s events.

End Logs.
End SessionLogs.

(** A session is disconnected twice, and an event is deleted. *)
Definition disconnectedTwice : list (SessionEngine.Op (V:=ExamplePayload)) :=
  [ SessionEngine.NewSession NoPayload;
    SessionEngine.Deliver "deleteEvent" NoPayload;
    SessionEngine.Deliver "countdownWarning" NoPayload;
    SessionEngine.Deliver "disconnect" NoPayload;
    SessionEngine.Deliver "disconnect" NoPayload ].

(* ===================================================================== *)
(** ** The listener of [waitForAnimations] over a sequence of events *)
(* ===================================================================== *)

Module Animations.
Section Animations.
Context {V : Type} (percentage timestamp : V -> num).

(** The variables of a call after its listener has handled the
    [events], in this order. *)
Definition handled (events : list V) (w : SessionEngine.Wait)
    : SessionEngine.Wait :=
  fold_left
    (fun w value =>
       (SessionEngine.pixelsChangedStep percentage timestamp value w).1)
    events w.

(** Whether the listener of a call with the [options] calls [resolve()]
    on the event [value], after it has handled the [events]. *)
Definition resolves (options : SessionEngine.WaitOptions) (events : list V)
    (value : V) : bool :=
  (SessionEngine.pixelsChangedStep percentage timestamp value
     (handled events (SessionEngine.newWait options))).2.

(** The event reports a change within the threshold of the call. *)
Definition still (options : SessionEngine.WaitOptions) (value : V) : bool :=
  le (percentage value)
     (SessionEngine.imageThreshold (SessionEngine.newWait options)).

(** The time from [first] to [last] is at least the duration that the
    call asks for, and the time stamp of [first] is not falsy. *)
Definition long_enough (options : SessionEngine.WaitOptions)
    (first last : V) : bool :=
  truthy (timestamp first) &&
  ge (timestamp last - timestamp first)%num
     (SessionEngine.imageThresholdDuration (SessionEngine.newWait options)).

End Animations.
End Animations.

(** A screen that moves, then is still for 1200 ms. *)
Definition settling : list ExamplePayload :=
  [ Pixels (Fin (1 # 2)) (of_Z 4000);
    Pixels (of_Z 0) (of_Z 5000);
    Pixels (Fin (1 # 2000)) (of_Z 5600) ].

(* ===================================================================== *)
(** ** [playAction] on responses as they arrive ([Session.playAction]) *)
(* ===================================================================== *)

(** [playAction] once more, without two things that the model above
    holds fixed.  An error response is taken as the inbound mapper
    delivers it: each of its fields may be absent, and the constructor
    of an error that reads an absent field raises, inside the handler
    and after its [cleanup()].  And the configuration and the device of
    the session are read anew by every round: [read k] is the session as
    the round that follows [k] requests finds it. *)
Module LiveDispatcher.

(** [error.playback] *)
Record Playback : Type := {
  raw_id : option string;
  raw_action : option Public.Action;
  raw_timeout : option num;
}.

(** The value of a [playbackError] event. *)
Record ErrorResponse : Type := {
  raw_errorId : option string;
  raw_message : option string;
  raw_playback : option Playback;
  raw_matchedElements : option (list (option Public.Element));
}.

(** An error object, with the [playback] of a response. *)
Record thrown : Type := {
  thrown_cls : errclass;
  thrown_message : string;
  thrown_isOperational : option bool;
  thrown_errorId : option string;
  thrown_playback : option Playback;
}.

(** An error whose [playback], if it has one, is whole. *)
Definition of_jserror (e : jserror) : thrown :=
  {| thrown_cls := cls e;
     thrown_message := Errors.message e;
     thrown_isOperational := isOperational e;
     thrown_errorId := Errors.errorId e;
     thrown_playback :=
       (fun pb => {| raw_id := Some (Public.id pb);
                     raw_action := Some (Public.action pb);
                     raw_timeout := Public.timeout pb |})
       <$> Errors.playback e |}.

(** [e instanceof c] *)
Definition instance_of (e : thrown) (c : errclass) : bool :=
  bool_decide (c ∈ prototype_chain 3 (thrown_cls e)).

(** How the promise of an attempt ends.  [Pending]: it never settles. *)
Inductive settled : Type :=
| Resolved (value : Public.PlayActionResult)
| Rejected (e : thrown)
| Pending.

(** The two session events an attempt listens to. *)
Inductive SessionEvent : Type :=
| playbackFoundAndSent (value : Public.PlayActionResult)
| playbackError (error : ErrorResponse).

Definition timeline : Type := list (Q * SessionEvent).

(** How the call ends. *)
Inductive result : Type :=
| Returned (value : Public.PlayActionResult)
| Threw (e : thrown)
| Hangs.

Record World : Type := {
  now : Q;
  drawn : nat;
  sent : list Dispatcher.Payload;
  timers : list num;
  settlements : list settled;
  inbox : timeline;
}.

Section Live.
Context `{Host}.

(** The constructor of [ActionError]: [super(message ?? error.message)],
    where the message of an [Error] made without one is empty. *)
Definition ActionError_ctor (c : errclass) (error : ErrorResponse)
    (msg : option string) : thrown :=
  {| thrown_cls := c;
     thrown_message := default (default EmptyString (raw_message error)) msg;
     thrown_isOperational := Some true;
     thrown_errorId := raw_errorId error;
     thrown_playback := raw_playback error |}.

Definition new_ActionError (error : ErrorResponse) : thrown :=
  ActionError_ctor ActionError error None.

(** [JSON.stringify(e, null, 2)] inside a template literal. *)
Definition stringify_element (e : option Public.Element) : string :=
  match e with
  | Some e => JSON_stringify_element e
  | None => "undefined"
  end.

Definition formatElement (index : nat) (e : option Public.Element) : string :=
  "// " +:+ pretty index +:+ nl +:+ stringify_element e.

Definition formatAmbiguousElements (elements : list (option Public.Element))
    : string :=
  let truncatedElements := take maxElements elements in
  let truncated := (maxElements <? length elements)%nat in
  let formatted := imap formatElement truncatedElements in
  join (nl +:+ nl) formatted +:+
  (if truncated
   then nl +:+ nl +:+ "...and " +:+
        pretty (length elements - maxElements)%nat +:+ " more"
   else EmptyString).

(** The constructors below read properties of [error.playback.action],
    of [error.matchedElements] and of [error.message]; where the object
    that is read is absent the property access raises a [TypeError],
    which is the [None] here. *)
Definition new_ActionElementNotFoundError (error : ErrorResponse)
    : option thrown :=
  pb ← raw_playback error;
  a ← raw_action pb;
  Some (ActionError_ctor ActionElementNotFoundError error
    (Some ("No element found for selector" +:+ nl +:+
           stringify_element (Public.element a)))).

Definition new_ActionAmbiguousElementError (error : ErrorResponse)
    : option thrown :=
  elements ← raw_matchedElements error;
  Some (ActionError_ctor ActionAmbiguousElementError error
    (Some ("Action requires 1 unique element but the selector returned " +:+
           pretty (length elements) +:+
           ". Provide a `matchIndex` to pick an element below or add additional attributes to your selector." +:+
           nl +:+ nl +:+ formatAmbiguousElements elements))).

Definition new_ActionInvalidArgumentError (error : ErrorResponse)
    : option thrown :=
  message ← raw_message error;
  msg ← (if includes message "outside the screen bounds"
         then
           pb ← raw_playback error;
           a ← raw_action pb;
           Some match Public.localPosition a with
                | Some lp =>
                    "localPosition (" +:+ String_of_posval (Public.px lp) +:+
                    ", " +:+ String_of_posval (Public.py lp) +:+
                    ") for the element evaluates to a coordinate outside of screen bounds."
                | None => "Element is outside of screen bounds."
                end
         else Some message);
  Some (ActionError_ctor ActionInvalidArgumentError error (Some msg)).

Definition new_ActionInternalError (error : ErrorResponse) : option thrown :=
  pb ← raw_playback error;
  Some (ActionError_ctor ActionInternalError error
    (Some ("An internal error has occurred for the action:" +:+ nl +:+
           match raw_action pb with
           | Some a => JSON_stringify_action a
           | None => "undefined"
           end))).

(** [error.errorId === name] *)
Definition errorId_is (error : ErrorResponse) (name : string) : bool :=
  match raw_errorId error with
  | Some errorId => String.eqb errorId name
  | None => false
  end.

(** The [switch] of [handleError].  The listeners and the timer of the
    attempt are removed before it: a constructor that raises leaves the
    promise unsettled for good. *)
Definition classify (error : ErrorResponse) : settled :=
  let reject (e : option thrown) :=
    match e with Some e => Rejected e | None => Pending end in
  if errorId_is error "internalError"
  then reject (new_ActionInternalError error)
  else if errorId_is error "notFound"
  then reject (new_ActionElementNotFoundError error)
  else if errorId_is error "ambiguousMatch"
  then reject (new_ActionAmbiguousElementError error)
  else if errorId_is error "invalidArgument"
  then reject (new_ActionInvalidArgumentError error)
  else Rejected (new_ActionError error).

(** [error.playback?.id !== payload.id]: the listener returns. *)
Definition handleError (payload_id : string) (error : ErrorResponse)
    : option settled :=
  match raw_playback error with
  | Some pb =>
      match raw_id pb with
      | Some id => if String.eqb id payload_id then Some (classify error)
                   else None
      | None => None
      end
  | None => None
  end.

Definition handleSuccess (payload_id : string)
    (value : Public.PlayActionResult) : option settled :=
  match Public.res_playback value with
  | Some pb =>
      if String.eqb (Public.id pb) payload_id then Some (Resolved value)
      else None
  | None => None
  end.

Definition deliver (payload_id : string) (ev : SessionEvent)
    : option settled :=
  match ev with
  | playbackFoundAndSent value => handleSuccess payload_id value
  | playbackError error => handleError payload_id error
  end.

(** The race of one attempt, as in [Dispatcher.await_response]. *)
Fixpoint await_response (payload_id : string) (due : Q)
    (timeoutError : thrown) (inbox : timeline) : settled * timeline * Q :=
  match inbox with
  | [] => (Rejected timeoutError, [], due)
  | (at_, ev) :: rest =>
      if Qle_bool due at_ then (Rejected timeoutError, inbox, due)
      else
        match deliver payload_id ev with
        | Some s => (s, rest, at_)
        | None => await_response payload_id due timeoutError rest
        end
  end.

Definition attempted (w : World) (payload : Dispatcher.Payload)
    (timeout_ : num) (s : settled) (rest : timeline) (at_ : Q) : World :=
  {| now := at_;
     drawn := S (drawn w);
     sent := sent w ++ [payload];
     timers := timers w ++ [Dispatcher.MAX_WAIT_FOR_RESPONSE timeout_];
     settlements := settlements w ++ [s];
     inbox := rest |}.

(** [playAction].  The checks and the mapping of a round read the
    session as it is then; the recursion is bounded by [fuel]. *)
Fixpoint playAction_rec (fuel : nat) (uuid : nat -> string)
    (read : nat -> Dispatcher.Session) (action_ : Public.Action)
    (options : Dispatcher.PlayActionOptions) (w : World)
    : option (result * World) :=
  match fuel with
  | O => None
  | S fuel' =>
      let timeout_ := default (of_Z 10000) (Dispatcher.timeout options) in
      match Dispatcher.prepare (read (drawn w)) action_ options with
      | Throw e => Some (Threw (of_jserror e), w)
      | Ok mappedAction =>
          let payload :=
            Dispatcher.makePayload (uuid (drawn w)) mappedAction timeout_ in
          let due :=
            Dispatcher.timer_due (now w)
              (Dispatcher.MAX_WAIT_FOR_RESPONSE timeout_) in
          let '(s, rest, at_) :=
            await_response (Dispatcher.id payload) due
              (of_jserror (Dispatcher.hardTimeoutError payload action_))
              (inbox w) in
          let w' := attempted w payload timeout_ s rest at_ in
          match s with
          | Resolved value => Some (Returned value, w')
          | Pending => Some (Hangs, w')
          | Rejected e =>
              if gt (Dispatcher.remainingTimeout timeout_) (of_Z 0) &&
                 negb (instance_of e ActionTimeoutError) &&
                 negb (instance_of e ActionInternalError)
              then playAction_rec fuel' uuid read action_
                     {| Dispatcher.timeout :=
                          Some (Dispatcher.remainingTimeout timeout_);
                        Dispatcher.noMap := Dispatcher.noMap options |} w'
              else Some (Threw e, w')
          end
      end
  end.

Definition playAction (uuid : nat -> string)
    (read : nat -> Dispatcher.Session) (action_ : Public.Action)
    (options : Dispatcher.PlayActionOptions) (w : World)
    : option (result * World) :=
  playAction_rec (S (length (inbox w))) uuid read action_ options w.

(** The response carries what the constructor of its error reads of it:
    the action for [notFound], the matched elements for
    [ambiguousMatch], the message for [invalidArgument] and, when the
    message names the screen bounds, the action. *)
Definition complete (error : ErrorResponse) : bool :=
  let has_action :=
    match raw_playback error with
    | Some pb => bool_decide (is_Some (raw_action pb))
    | None => false
    end in
  if errorId_is error "internalError" then true
  else if errorId_is error "notFound" then has_action
  else if errorId_is error "ambiguousMatch"
  then bool_decide (is_Some (raw_matchedElements error))
  else if errorId_is error "invalidArgument"
  then match raw_message error with
       | Some message =>
           if includes message "outside the screen bounds" then has_action
           else true
       | None => false
       end
  else true.

End Live.

(** A fresh run at time 0 with the given events to come. *)
Definition start (events : timeline) : World :=
  {| now := 0; drawn := 0; sent := []; timers := []; settlements := [];
     inbox := events |}.

(** The events in which every error response is complete. *)
Definition complete_responses `{Host} (events : timeline) : Prop :=
  forall at_ error,
    (at_, playbackError error) ∈ events -> complete error = true.

End LiveDispatcher.

(** A response that reports that the element of the first request was
    not found, without the action of the request; the same with it. *)
Definition bareNotFound : LiveDispatcher.ErrorResponse :=
  {| LiveDispatcher.raw_errorId := Some "notFound";
     LiveDispatcher.raw_message := Some "not found";
     LiveDispatcher.raw_playback :=
       Some {| LiveDispatcher.raw_id := Some (exampleUuid 0);
               LiveDispatcher.raw_action := None;
               LiveDispatcher.raw_timeout := None |};
     LiveDispatcher.raw_matchedElements := None |}.

Definition wholeNotFound : LiveDispatcher.ErrorResponse :=
  {| LiveDispatcher.raw_errorId := Some "notFound";
     LiveDispatcher.raw_message := Some "not found";
     LiveDispatcher.raw_playback :=
       Some {| LiveDispatcher.raw_id := Some (exampleUuid 0);
               LiveDispatcher.raw_action := Some tapOkButton;
               LiveDispatcher.raw_timeout := None |};
     LiveDispatcher.raw_matchedElements := None |}.

(** A session whose device reports a smaller screen after the first
    request, and a tap near the corner of the larger screen. *)
Definition shrinkingSession (k : nat) : Dispatcher.Session :=
  match k with
  | O => exampleSession
  | S _ =>
      {| Dispatcher.config_record := true;
         Dispatcher.mapper :=
           {| platform := ios;
              screen := screenOf (of_Z 320) (of_Z 568) None |} |}
  end.

(* ===================================================================== *)
(** * Properties *)
(* ===================================================================== *)

(** ** Numbers and strings *)

Lemma same_refl a : same a a.
Proof. destruct a; simpl; auto. reflexivity. Qed.

Lemma same_sym a b : same a b -> same b a.
Proof. destruct a, b; simpl; auto. intros H; symmetry; exact H. Qed.

Lemma same_trans a b c : same a b -> same b c -> same a c.
Proof.
  destruct a, b, c; simpl; try tauto; try congruence.
  intros H1 H2. rewrite H1. exact H2.
Qed.

Lemma Qzero_true q : Qzero q = true <-> q == 0.
Proof. unfold Qzero. apply Qeq_bool_iff. Qed.

Lemma Qzero_false q : Qzero q = false <-> ~ q == 0.
Proof.
  unfold Qzero. split.
  - intros H E. apply Qeq_bool_iff in E. congruence.
  - intros H. destruct (Qeq_bool q 0) eqn:E; auto.
    apply Qeq_bool_iff in E. contradiction.
Qed.

Lemma lt_Fin p q : lt (Fin p) (Fin q) = true <-> p < q.
Proof.
  simpl. rewrite Bool.negb_true_iff. split.
  - intros H. apply Qnot_le_lt. intros L.
    apply Qle_bool_iff in L. congruence.
  - intros H. destruct (Qle_bool q p) eqn:E; auto.
    apply Qle_bool_iff in E. apply Qle_not_lt in E. contradiction.
Qed.

Lemma lt_Fin_false p q : lt (Fin p) (Fin q) = false <-> q <= p.
Proof.
  simpl. rewrite Bool.negb_false_iff. apply Qle_bool_iff.
Qed.

Lemma leading_digits_app ds rest :
  all_digits ds = true ->
  starts_with_digit rest = false ->
  leading_digits (ds +:+ rest) = list_ascii_of_string ds.
Proof.
  intros Hd Hr. induction ds as [|c ds IH]; simpl.
  - destruct rest as [|c r]; simpl in *; [reflexivity | now rewrite Hr].
  - unfold all_digits in Hd. simpl in Hd.
    apply andb_prop in Hd as [Hc Hds]. rewrite Hc. f_equal. now apply IH.
Qed.

Lemma trimStart_digit s :
  starts_with_digit s = true -> trimStart s = s.
Proof.
  destruct s as [|c r]; simpl; [discriminate|]. intros H.
  assert (is_whitespace c = false) as ->; [|reflexivity].
  unfold is_digit, is_whitespace in *. cbv zeta in *.
  apply andb_prop in H as [H1 H2].
  apply Nat.leb_le in H1.
  apply orb_false_intro.
  - apply andb_false_intro2. apply Nat.leb_gt. lia.
  - apply Nat.eqb_neq. lia.
Qed.

Lemma parseInt10_digits ds rest :
  all_digits ds = true -> ds <> EmptyString ->
  starts_with_digit rest = false ->
  parseInt10 (ds +:+ rest) = of_Z (decimal_value (list_ascii_of_string ds)).
Proof.
  intros Hd Hne Hr. unfold parseInt10.
  destruct ds as [|c ds]; [congruence|].
  assert (Hc : is_digit c = true).
  { unfold all_digits in Hd. simpl in Hd. now apply andb_prop in Hd as [? _]. }
  rewrite trimStart_digit by exact Hc.
  assert (Hsign : forall r, (String c ds +:+ rest) = r ->
    match r with
    | String "-" r' => (true, r')
    | String "+" r' => (false, r')
    | _ => (false, r)
    end = (false, r)).
  { intros r <-. simpl.
    destruct c as [[] [] [] [] [] [] [] []]; try reflexivity; discriminate Hc. }
  rewrite (Hsign _ eq_refl).
  rewrite leading_digits_app by assumption. reflexivity.
Qed.

Example parseInt10_fraction : parseInt10 "12.75%" = of_Z 12.
Proof. reflexivity. Qed.

Example parseInt10_signed : parseInt10 "  -7px" = of_Z (-7).
Proof. reflexivity. Qed.

Example parseInt10_none : parseInt10 "abc%" = NaN.
Proof. reflexivity. Qed.

Lemma endsWithChar_app a b c :
  b <> EmptyString -> endsWithChar (a +:+ b) c = endsWithChar b c.
Proof.
  intros Hb. induction a as [|d a IH]; [reflexivity|].
  change (String d a +:+ b) with (String d (a +:+ b)).
  simpl. destruct (a +:+ b) eqn:E.
  - destruct a; [exact (False_ind _ (Hb E)) | discriminate E].
  - exact IH.
Qed.

Lemma append_nonempty_r a b : b <> EmptyString -> a +:+ b <> EmptyString.
Proof. destruct a; [trivial | discriminate]. Qed.

Lemma endsWithChar_percent a : endsWithChar (a +:+ "%") "%" = true.
Proof. rewrite endsWithChar_app; [reflexivity | discriminate]. Qed.

(** ** Position values *)

(** C10: a percentage string is read with [parseInt(value, 10) / 100], so
    the digits after a decimal point are discarded (["12.75%"] gives 0.12,
    and in general a digit string followed by a fraction gives the value of
    the digit string over 100), and a string that does not end with [%] is
    rejected with an error. *)
Theorem parsePositionValue_truncates_percentage :
  (forall s, endsWithChar s "%" = true ->
     parsePositionValue (PStr s) = Ok (parseInt10 s / of_Z 100)%num) /\
  parsePositionValue (PStr "12.75%") = Ok (Fin (12 # 100)) /\
  (forall ds frac, all_digits ds = true -> ds <> EmptyString ->
     parsePositionValue (PStr (ds +:+ "." +:+ frac +:+ "%")) =
     Ok (Fin (inject_Z (decimal_value (list_ascii_of_string ds)) / 100))) /\
  (forall s, endsWithChar s "%" = false ->
     exists msg, parsePositionValue (PStr s) = Throw (new_Error msg)).
Proof.
  repeat split.
  - intros s Hs. simpl. now rewrite Hs.
  - intros ds frac Hd Hne. simpl.
    rewrite (endsWithChar_app ds)
      by (apply append_nonempty_r, append_nonempty_r; discriminate).
    rewrite (endsWithChar_app ".")
      by (apply append_nonempty_r; discriminate).
    rewrite endsWithChar_percent.
    rewrite parseInt10_digits by (assumption || reflexivity).
    reflexivity.
  - intros s Hs. simpl. rewrite Hs. eauto.
Qed.

Lemma parsePositionValue_truncates_percentage_witness :
  parsePositionValue (PStr "50%") = Ok (parseInt10 "50%" / of_Z 100)%num /\
  parsePositionValue (PStr "7.9%") = Ok (Fin (inject_Z 7 / 100)) /\
  (exists msg, parsePositionValue (PStr "0.5") = Throw (new_Error msg)).
Proof.
  destruct parsePositionValue_truncates_percentage as (H1 & _ & H3 & H4).
  split; [apply (H1 "50%"); reflexivity|].
  split; [apply (H3 "7" "9"); [reflexivity | discriminate]|].
  apply (H4 "0.5"); reflexivity.
Defined.

(** ** Error messages *)

(** The message of an [ActionAmbiguousElementError] built from a
    response with 7 matched elements lists exactly the first 5 of them and
    ends with "...and 2 more"; in general the first [min 5 n] elements are
    listed, and the suffix naming the [n - 5] omitted ones is present
    exactly when more than 5 matched. *)
Lemma ambiguous_message_format `{Host} :
  (forall error e0 e1 e2 e3 e4 e5 e6,
     Public.err_matchedElements error = [e0; e1; e2; e3; e4; e5; e6] ->
     exists e,
       new_ActionAmbiguousElementError error = Some e /\
       cls e = ActionAmbiguousElementError /\
       message e =
         "Action requires 1 unique element but the selector returned 7. Provide a `matchIndex` to pick an element below or add additional attributes to your selector." +:+
         nl +:+ nl +:+
         join (nl +:+ nl)
           [formatElement 0 e0; formatElement 1 e1; formatElement 2 e2;
            formatElement 3 e3; formatElement 4 e4] +:+
         nl +:+ nl +:+ "...and 2 more") /\
  (forall elements : list Public.Element,
     exists formatted : list string,
       length formatted = Nat.min 5 (length elements) /\
       (forall i s, formatted !! i = Some s <->
          exists e, (i < 5)%nat /\ elements !! i = Some e /\
                    s = formatElement i e) /\
       formatAmbiguousElements elements =
         join (nl +:+ nl) formatted +:+
         (if (5 <? length elements)%nat
          then nl +:+ nl +:+ "...and " +:+
               pretty (length elements - 5)%nat +:+ " more"
          else EmptyString)).
Proof.
  split.
  - intros error e0 e1 e2 e3 e4 e5 e6 Hm.
    eexists. split; [reflexivity|]. split; [reflexivity|].
    unfold ActionError_ctor, OperationalError_ctor. cbn [message default].
    rewrite Hm. reflexivity.
  - intros elements.
    exists (imap formatElement (take maxElements elements)).
    split; [|split].
    + rewrite length_imap, length_take. reflexivity.
    + intros i s. rewrite list_lookup_imap. unfold maxElements.
      split.
      * intros Hs. destruct (take 5 elements !! i) as [e|] eqn:E;
          [|discriminate Hs].
        apply lookup_take_Some in E as [E Hi].
        exists e. simpl in Hs. split; [exact Hi|]. split; [exact E|congruence].
      * intros (e & Hi & He & ->).
        rewrite lookup_take_lt by exact Hi. now rewrite He.
    + reflexivity.
Qed.

(** ** Coordinate mapper *)

Lemma div_Fin p q : ~ q == 0 -> (Fin p / Fin q)%num = Fin (p / q).
Proof. intros Hq. simpl. apply Qzero_false in Hq. now rewrite Hq. Qed.

Lemma le_lt_false p q : p <= q -> JsNum.lt (Fin q) (Fin p) = false.
Proof. intros. now apply lt_Fin_false. Qed.

Lemma ratio_or_1_unit w h dpr :
  (dpr = None \/ exists r, dpr = Some (Fin r) /\ r == 1) ->
  exists r, ratio_or_1 (screenOf w h dpr) = Fin r /\ r == 1.
Proof.
  intros [-> | (r & -> & Hr)].
  - exists 1. split; reflexivity.
  - exists r. split; [|exact Hr]. unfold ratio_or_1, or_else. simpl.
    assert (Qzero r = false) as ->; [|reflexivity].
    apply Qzero_false. rewrite Hr. discriminate.
Qed.

Lemma Qabs_diff_eq a b : a == b -> Qabs (a - b) <= 0.
Proof.
  intros E. rewrite E. unfold Qminus. rewrite Qplus_opp_r. apply Qle_refl.
Qed.

Lemma mapPosition_in_range `{Host} (this : MapperArgs) (x y : Q) :
  0 <= x <= 1 -> 0 <= y <= 1 ->
  InternalAPIMapper.mapPositionToCoordinates this
    {| Public.px := PNum (Fin x); Public.py := PNum (Fin y) |} =
  Ok {| cx := (Fin x * (InternalAPIMapper.positionBounds this).1)%num;
        cy := (Fin y * (InternalAPIMapper.positionBounds this).2)%num |}.
Proof.
  intros [Hx0 Hx1] [Hy0 Hy1].
  unfold InternalAPIMapper.mapPositionToCoordinates,
    InternalAPIMapper.getCoordinates, Validator.isPositionWithinBounds,
    Validator.isValidNumber.
  cbn [Public.px Public.py parsePositionValue cbind isNaN negb orb throw_if].
  unfold gt, of_Z. change (inject_Z 0) with 0. change (inject_Z 1) with 1.
  rewrite (le_lt_false 0 x Hx0), (le_lt_false x 1 Hx1),
    (le_lt_false 0 y Hy0), (le_lt_false y 1 Hy1).
  reflexivity.
Qed.

Lemma positionBounds_unit (p : Platform) (w h : Q) (dpr : option num) :
  (dpr = None \/ exists r, dpr = Some (Fin r) /\ r == 1) ->
  exists bw bh,
    InternalAPIMapper.positionBounds
      {| platform := p; screen := screenOf (Fin w) (Fin h) dpr |} =
      (Fin bw, Fin bh) /\
    bw == w - 1 /\ bh == h - 1.
Proof.
  intros Hdpr.
  destruct (ratio_or_1_unit (Fin w) (Fin h) dpr Hdpr) as (r & Hr & Hr1).
  unfold InternalAPIMapper.positionBounds, InternalAPIMapper.dipToPixel.
  cbn [platform screen]. rewrite Hr. destruct p; simpl.
  - eexists _, _. split; [reflexivity|]. split; unfold Qminus; reflexivity.
  - eexists _, _. split; [reflexivity|]. rewrite Hr1. split; ring.
Qed.

(** C3, as the code has it: when the screen has no [devicePixelRatio], or
    has the ratio 1, and is more than one pixel wide and high, mapping a
    tap at a position in the unit square to the wire shape and back gives
    the position again, exactly, on both platforms. *)
Theorem position_roundtrip_unit_ratio `{Host} (p : Platform) (w h : Q)
    (dpr : option num) (x y : Q) :
  0 <= x <= 1 -> 0 <= y <= 1 -> ~ w == 1 -> ~ h == 1 ->
  (dpr = None \/ exists r, dpr = Some (Fin r) /\ r == 1) ->
  roundtrip_within 0
    {| platform := p; screen := screenOf (Fin w) (Fin h) dpr |} x y.
Proof.
  intros Hx Hy Hw Hh Hdpr.
  destruct (ratio_or_1_unit (Fin w) (Fin h) dpr Hdpr) as (r & Hr & Hr1).
  destruct (positionBounds_unit p w h dpr Hdpr) as (bw & bh & Hb & Hbw & Hbh).
  assert (Hr0 : ~ r == 0) by (rewrite Hr1; discriminate).
  assert (Hw0 : ~ w + - (1) == 0) by (intros E; apply Hw; lra).
  assert (Hh0 : ~ h + - (1) == 0) by (intros E; apply Hh; lra).
  unfold roundtrip_within, roundtripPosition, tapAt,
    InternalAPIMapper.mapAction.
  cbn [Public.position Public.coordinates Public.localPosition
       Public.element Public.duration Public.type fmap option_fmap
       option_map].
  rewrite (mapPosition_in_range _ x y Hx Hy), Hb.
  cbn [cbind fst snd JsNum.mul].
  unfold PublicAPIMapper.mapAction, PublicAPIMapper.getPosition,
    PublicAPIMapper.pixelToDip.
  cbn [Internal.type Internal.coordinates fmap option_fmap option_map
       Public.position cx cy screen width height].
  rewrite Hr. unfold of_Z, JsNum.sub, screenOf.
  cbn [opp add width height].
  rewrite !div_Fin by assumption.
  eexists _, _. split; [reflexivity|].
  change (- inject_Z 1) with (- (1)).
  split; apply Qabs_diff_eq; rewrite ?Hbw, ?Hbh, Hr1; field; lra.
Qed.

Lemma position_roundtrip_unit_ratio_witness :
  roundtrip_within (H:=exampleHost) 0
    {| platform := android; screen := screenOf (Fin 375) (Fin 812) None |}
    (1 # 2) (1 # 4).
Proof.
  apply position_roundtrip_unit_ratio; [lra | lra | lra | lra |].
  left. reflexivity.
Defined.

(** C3 as stated fails: on iOS the outbound mapper does not scale by the
    device pixel ratio but the inbound mapper divides by it, so with the
    ratio 2 the position (1, 1) comes back as (1/2, 1/2), which is not
    within 1/4 of (1, 1), let alone within a rounding error. *)
Lemma position_roundtrip_fails_ios_ratio_2 :
  ~ roundtrip_within (H:=exampleHost) (1 # 4)
      {| platform := ios; screen := retinaScreen |} 1 1.
Proof.
  intros (x' & y' & Heq & Hx & _).
  vm_compute in Heq. injection Heq as <- <-.
  vm_compute in Hx. apply Hx. reflexivity.
Qed.

(** On Android the bounds are scaled before 1 is subtracted, and the
    inbound mapper divides the pixel by the ratio and by the unscaled
    bounds minus 1: with the ratio 2 the position (1, 1) comes back as
    (201/200, 201/200). *)
Example position_roundtrip_android_ratio_2 :
  exists x' y',
    roundtripPosition (H:=exampleHost)
      {| platform := android; screen := retinaScreen |}
      (tapAt (Fin 1) (Fin 1)) =
      Ok (Some {| Public.px := PNum (Fin x'); Public.py := PNum (Fin y') |}) /\
    x' == 201 # 200 /\ y' == 201 # 200.
Proof. eexists _, _. split; [vm_compute; reflexivity|]. split; reflexivity. Qed.

(** C8, on the code: a tap at the position (2, 0), which is outside the
    unit square, is rejected and not clamped, but the error that is thrown
    is a plain [Error]: it is not an [OperationalError] and has no
    [isOperational] property. *)
Theorem mapAction_out_of_range_plain_error :
  exists e,
    InternalAPIMapper.mapAction (H:=exampleHost)
      {| platform := ios; screen := exampleScreen |}
      (tapAt (of_Z 2) (of_Z 0)) = Throw e /\
    cls e = Error /\
    isOperational e = None /\
    instanceof e OperationalError = false /\
    message e = "Invalid position: (2, 0) must be within (0, 0) and (1, 1)".
Proof.
  eexists. split; [vm_compute; reflexivity|].
  repeat split; reflexivity.
Qed.

(** The sibling check on absolute coordinates throws an
    [OperationalError] in the same situation. *)
Example mapAction_coordinates_out_of_bounds_operational :
  exists e,
    InternalAPIMapper.mapAction (H:=exampleHost)
      {| platform := ios; screen := exampleScreen |}
      {| Public.type := tap; Public.element := None;
         Public.position := None;
         Public.coordinates := Some {| cx := of_Z 400; cy := of_Z 10 |};
         Public.localPosition := None; Public.duration := None;
         Public.moves := []; Public.key := None; Public.character := None;
         Public.shiftKey := None |} = Throw e /\
    cls e = OperationalError /\ isOperational e = Some true.
Proof. eexists. split; [vm_compute; reflexivity|]. split; reflexivity. Qed.

(** A position string that does not end with [%] is rejected by
    [parsePositionValue], also with a plain [Error]. *)
Example mapAction_malformed_plain_error :
  exists e,
    InternalAPIMapper.mapAction (H:=exampleHost)
      {| platform := ios; screen := exampleScreen |}
      {| Public.type := tap; Public.element := None;
         Public.position := Some {| Public.px := PStr "half";
                                    Public.py := PNum (Fin (1 # 2)) |};
         Public.coordinates := None;
         Public.localPosition := None; Public.duration := None;
         Public.moves := []; Public.key := None; Public.character := None;
         Public.shiftKey := None |} = Throw e /\
    cls e = Error /\ isOperational e = None.
Proof. eexists. split; [vm_compute; reflexivity|]. split; reflexivity. Qed.

(** The mapper never clamps: a numeric position outside the unit square
    makes [mapAction] throw, whatever else the action holds. *)
Lemma mapAction_rejects_out_of_range `{Host} (this : MapperArgs)
    (action : Public.Action) (x y : Q) :
  Public.position action =
    Some {| Public.px := PNum (Fin x); Public.py := PNum (Fin y) |} ->
  x < 0 \/ 1 < x \/ y < 0 \/ 1 < y ->
  exists e, InternalAPIMapper.mapAction this action = Throw e.
Proof.
  intros Hp Hout. unfold InternalAPIMapper.mapAction. rewrite Hp.
  unfold InternalAPIMapper.mapPositionToCoordinates,
    Validator.isPositionWithinBounds, Validator.isValidNumber.
  cbn [Public.px Public.py parsePositionValue cbind isNaN negb orb throw_if].
  unfold gt, of_Z. change (inject_Z 0) with 0. change (inject_Z 1) with 1.
  assert (Hb : (if JsNum.lt (Fin x) (Fin 0) || JsNum.lt (Fin 1) (Fin x)
                then false
                else if JsNum.lt (Fin y) (Fin 0) || JsNum.lt (Fin 1) (Fin y)
                     then false else true) = false).
  { destruct (JsNum.lt (Fin x) (Fin 0)) eqn:E1; [reflexivity|].
    destruct (JsNum.lt (Fin 1) (Fin x)) eqn:E2; [reflexivity|].
    destruct (JsNum.lt (Fin y) (Fin 0)) eqn:E3; [reflexivity|].
    destruct (JsNum.lt (Fin 1) (Fin y)) eqn:E4; [reflexivity|].
    apply lt_Fin_false in E1, E2, E3, E4. lra. }
  rewrite Hb. cbn [negb throw_if cbind]. eauto.
Qed.

Example parseFloat_percent : same (parseFloat "100%") (of_Z 100).
Proof. reflexivity. Qed.
Example parseFloat_fraction : same (parseFloat "-12.5%") (Fin (- (25 # 2))).
Proof. reflexivity. Qed.
Example parseFloat_exponent : same (parseFloat "1.5e2px") (of_Z 150).
Proof. reflexivity. Qed.
Example parseFloat_none : parseFloat "%" = NaN.
Proof. reflexivity. Qed.

(** ** Gesture path builder *)

Lemma Qfloor_unit q : 0 <= q -> q < 1 -> Qfloor q = 0%Z.
Proof.
  intros H0 H1.
  pose proof (Qfloor_le q) as Hle. pose proof (Qlt_floor q) as Hlt.
  assert (Ha : (Qfloor q < 1)%Z).
  { rewrite Zlt_Qlt. eapply Qle_lt_trans; [exact Hle | exact H1]. }
  assert (Hb : (0 < Qfloor q + 1)%Z).
  { rewrite Zlt_Qlt. eapply Qle_lt_trans; [exact H0 | exact Hlt]. }
  lia.
Qed.

Lemma Qfloor_nonneg q : 0 <= q -> (0 <= Qfloor q)%Z.
Proof. intros H. change 0%Z with (Qfloor 0). now apply Qfloor_resp_le. Qed.

(** With a duration below [sd * n] the steps per segment are 0. *)
Lemma stepsPerSegment_zero (d sd : Q) (n : nat) :
  0 < sd -> 0 <= d -> d < sd * inject_Z (Z.of_nat n) ->
  Qfloor (inject_Z (Qfloor (d / sd)) / inject_Z (Z.of_nat n)) = 0%Z /\
  ~ inject_Z (Z.of_nat n) == 0.
Proof.
  intros Hsd Hd Hlt.
  assert (Hn : 0 < inject_Z (Z.of_nat n)).
  { destruct (Qlt_le_dec 0 (inject_Z (Z.of_nat n))) as [|Hle]; [assumption|].
    exfalso. assert (sd * inject_Z (Z.of_nat n) <= 0); [|lra]. nra. }
  assert (Hq : d / sd < inject_Z (Z.of_nat n)).
  { apply Qlt_shift_div_r; [exact Hsd|]. lra. }
  assert (Hq0 : 0 <= d / sd).
  { apply Qle_shift_div_l; [exact Hsd|]. lra. }
  pose proof (Qfloor_le (d / sd)) as Hfl.
  pose proof (Qfloor_nonneg _ Hq0) as Hf0.
  split; [|lra].
  apply Qfloor_unit.
  - apply Qle_shift_div_l; [exact Hn|]. rewrite Qmult_0_l.
    change 0 with (inject_Z 0). rewrite <- Zle_Qle. exact Hf0.
  - apply Qlt_shift_div_r; [exact Hn|]. lra.
Qed.

(** *** The test of [build] under rounding *)

Lemma binary64_0 : SwipeGesture.binary64 0.
Proof. exists 0%Z, 0%Z. repeat split; try lia. Qed.

(** Below a whole number [a] there is a number of SwipeGesture.binary64 that is at
    least [a - 1 / b], when [a * b] is at most [2^52]. *)
Lemma binary64_below (a b : Z) :
  (1 <= a)%Z -> (1 <= b)%Z -> (a * b <= 2 ^ 52)%Z ->
  exists f, SwipeGesture.binary64 f /\ f < inject_Z a /\
            inject_Z a - 1 / inject_Z b <= f.
Proof.
  intros Ha Hb Hab.
  set (j := Z.log2_up b).
  assert (Hj0 : (0 <= j)%Z) by apply Z.log2_up_nonneg.
  assert (Hj : (b <= 2 ^ j < 2 * b)%Z).
  { destruct (Z.eq_dec b 1%Z) as [->|Hb1]; [subst j; change (Z.log2_up 1) with 0%Z; simpl; lia|].
    pose proof (Z.log2_up_spec b ltac:(lia)) as [Hlo Hhi]. fold j in Hlo, Hhi.
    split; [exact Hhi|].
    assert (Hj1 : (0 < j)%Z) by (apply Z.log2_up_pos; lia).
    assert (E : (2 ^ j = 2 * 2 ^ Z.pred j)%Z).
    { rewrite <- Z.pow_succ_r by lia. f_equal. lia. }
    lia. }
  assert (Hj52 : (j <= 52)%Z).
  { destruct (Z_le_gt_dec j 52%Z) as [|Hgt]; [assumption|]. exfalso.
    assert (2 ^ 53 <= 2 ^ j)%Z by (apply Z.pow_le_mono_r; lia). nia. }
  clearbody j.
  assert (Hp : (0 < 2 ^ j)%Z) by (apply Z.pow_pos_nonneg; lia).
  exists (inject_Z (a * 2 ^ j - 1) / inject_Z (2 ^ j)).
  assert (Hpq : 0 < inject_Z (2 ^ j)).
  { change 0 with (inject_Z 0). now rewrite <- Zlt_Qlt. }
  assert (Hbq : 0 < inject_Z b).
  { change 0 with (inject_Z 0). rewrite <- Zlt_Qlt. lia. }
  split; [|split].
  - exists (a * 2 ^ j - 1)%Z, (- j)%Z.
    split; [nia|]. split; [lia|].
    destruct (0 <=? - j)%Z eqn:E.
    + apply Z.leb_le in E. assert (Hz : j = 0%Z) by lia. subst j.
      change (2 ^ 0)%Z with 1%Z. change (2 ^ (- 0))%Z with 1%Z.
      unfold Qdiv. reflexivity.
    + rewrite Z.opp_involutive. reflexivity.
  - apply Qlt_shift_div_r; [exact Hpq|].
    rewrite <- inject_Z_mult, <- Zlt_Qlt. lia.
  - unfold Zminus. rewrite inject_Z_plus, inject_Z_mult.
    change (inject_Z (- (1))) with (- (1)).
    assert (Hle : 1 / inject_Z (2 ^ j) <= 1 / inject_Z b).
    { apply Qle_shift_div_l; [exact Hbq|].
      unfold Qdiv. rewrite Qmult_1_l, Qmult_comm.
      apply Qle_shift_div_r; [exact Hpq|]. rewrite Qmult_1_l.
      rewrite <- Zle_Qle. lia. }
    assert (E : (inject_Z a * inject_Z (2 ^ j) + - (1)) / inject_Z (2 ^ j)
                == inject_Z a - 1 / inject_Z (2 ^ j)).
    { field. lra. }
    rewrite E. lra.
Qed.

Lemma rounding_proper rnd x y : SwipeGesture.rounding rnd -> x == y -> rnd x == rnd y.
Proof.
  intros [Hmono _] E. apply Qle_antisym; apply Hmono; rewrite E; apply Qle_refl.
Qed.

(** A quotient of whole numbers that is below a whole number stays below
    it when it is rounded, and does not become negative. *)
Lemma rounded_quotient_below rnd (p q a : Z) :
  SwipeGesture.rounding rnd ->
  (0 <= p)%Z -> (1 <= q)%Z -> (p < a * q)%Z -> (a * q <= 2 ^ 52)%Z ->
  0 <= rnd (inject_Z p / inject_Z q) /\
  rnd (inject_Z p / inject_Z q) < inject_Z a.
Proof.
  intros Hr Hp Hq Hlt Hbound.
  assert (Ha : (1 <= a)%Z) by nia.
  assert (Hqq : 0 < inject_Z q).
  { change 0 with (inject_Z 0). rewrite <- Zlt_Qlt. lia. }
  destruct Hr as [Hmono Hfix].
  split.
  - rewrite <- (Hfix 0 binary64_0). apply Hmono.
    apply Qle_shift_div_l; [exact Hqq|]. rewrite Qmult_0_l.
    change 0 with (inject_Z 0). rewrite <- Zle_Qle. exact Hp.
  - destruct (binary64_below a q Ha Hq Hbound) as (f & Hf & Hfa & Hfb).
    eapply Qle_lt_trans; [|exact Hfa].
    rewrite <- (Hfix f Hf). apply Hmono.
    eapply Qle_trans; [|exact Hfb].
    apply Qle_shift_div_r; [exact Hqq|].
    assert (E : (inject_Z a - 1 / inject_Z q) * inject_Z q
                == inject_Z a * inject_Z q - 1) by (field; lra).
    rewrite E. rewrite <- inject_Z_mult.
    change 1 with (inject_Z 1). unfold Qminus.
    rewrite <- inject_Z_opp, <- inject_Z_plus, <- Zle_Qle. lia.
Qed.

(** The test of [build] is decided in SwipeGesture.binary64 as it is in exact
    arithmetic, for whole numbers of this size. *)
Lemma stepsPerSegment_rounded_zero rnd (d sd : Z) (n : nat) :
  SwipeGesture.rounding rnd ->
  (0 < sd)%Z -> (0 <= d)%Z -> (d < sd * Z.of_nat n)%Z ->
  (sd * Z.of_nat n <= 2 ^ 52)%Z ->
  SwipeGesture.stepsPerSegment_rounded rnd (inject_Z d) (inject_Z sd) n = 0%Z.
Proof.
  intros Hr Hsd Hd Hlt Hbound.
  assert (Hn : (1 <= Z.of_nat n)%Z) by nia.
  unfold SwipeGesture.stepsPerSegment_rounded.
  destruct (rounded_quotient_below rnd d sd (Z.of_nat n) Hr Hd) as [H0 H1];
    [lia | lia | lia |].
  set (m := Qfloor (rnd (inject_Z d / inject_Z sd))) in *.
  assert (Hm : (0 <= m < Z.of_nat n)%Z).
  { split; [now apply Qfloor_nonneg|].
    rewrite Zlt_Qlt. eapply Qle_lt_trans; [apply Qfloor_le | exact H1]. }
  destruct (rounded_quotient_below rnd m (Z.of_nat n) 1%Z Hr) as [H2 H3];
    [lia | lia | lia | |].
  { assert (Z.of_nat n <= sd * Z.of_nat n)%Z by nia. lia. }
  apply Qfloor_unit; [exact H2 | exact H3].
Qed.

(** C5, as the code has it: the default swipe from (0, 0) to (100%, 0)
    yields 32 moves whose times are non-decreasing and end at 31 steps of
    16 ms, that is 0.496 s, which does not exceed the duration of 500 ms;
    and a gesture whose step duration is a positive whole number of
    milliseconds and whose duration argument is a whole number that is
    non-negative and smaller than [stepDuration * segmentCount], the
    product being at most [2^52], makes [build] throw the error that
    names the number of segments and the minimum duration
    [segmentCount * stepDuration]; the steps per segment are 0 also when
    both quotients are rounded to binary64. *)
Theorem build_times_and_minimum_duration `{Host} :
  (exists g r tl,
     exampleSwipe = Ok g /\
     SwipeGesture.build g = SwipeGesture.Built r /\
     length r = 32%nat /\
     SwipeGesture.nondecreasing (SwipeGesture.t <$> r) = true /\
     final_t r = Some (Fin tl) /\
     tl == 496 # 1000 /\ tl <= 500 / 1000) /\
  (forall (g : SwipeGesture.SwipeGesture) (d sd : Z),
     let n := (length (SwipeGesture.moves g) - 1)%nat in
     SwipeGesture.duration g = Some (of_Z d) ->
     SwipeGesture.stepDuration g = of_Z sd ->
     (0 < sd)%Z -> (0 <= d)%Z -> (d < sd * Z.of_nat n)%Z ->
     (sd * Z.of_nat n <= 2 ^ 52)%Z ->
     SwipeGesture.build g =
       SwipeGesture.Thrown
         (new_Error
            ("Duration is too short for " +:+ pretty n +:+
             " moves, please set duration to at least " +:+
             String_of_num (of_Z (Z.of_nat n) * of_Z sd)%num +:+ "ms")) /\
     forall rnd, SwipeGesture.rounding rnd ->
       SwipeGesture.stepsPerSegment_rounded rnd (inject_Z d) (inject_Z sd) n
       = 0%Z).
Proof.
  split.
  - eexists _, _, _. split; [reflexivity|].
    split; [vm_compute; reflexivity|].
    split; [reflexivity|]. split; [vm_compute; reflexivity|].
    split; [vm_compute; reflexivity|]. split; [reflexivity | discriminate].
  - intros g d sd n Hd Hsd Hpos Hd0 Hlt Hbound. split.
    + assert (Hposq : 0 < inject_Z sd).
      { change 0 with (inject_Z 0). now rewrite <- Zlt_Qlt. }
      assert (Hd0q : 0 <= inject_Z d).
      { change 0 with (inject_Z 0). now rewrite <- Zle_Qle. }
      assert (Hltq : inject_Z d < inject_Z sd * inject_Z (Z.of_nat n)).
      { now rewrite <- inject_Z_mult, <- Zlt_Qlt. }
      destruct (stepsPerSegment_zero _ _ n Hposq Hd0q Hltq) as [Hz Hn].
      unfold SwipeGesture.build. fold n. rewrite Hd, Hsd. unfold of_Z at 1 2.
      rewrite div_Fin by lra. cbn [floor]. unfold of_Z at 1 2.
      rewrite div_Fin by exact Hn. cbn [floor]. rewrite Hz.
      reflexivity.
    + intros rnd Hr.
      now apply stepsPerSegment_rounded_zero.
Qed.

Lemma build_times_and_minimum_duration_witness :
  SwipeGesture.build (H:=exampleHost) shortSwipe =
  SwipeGesture.Thrown
    (new_Error
       ("Duration is too short for " +:+ pretty 2%nat +:+
        " moves, please set duration to at least " +:+
        @String_of_num exampleHost (of_Z 2 * Fin 16)%num +:+ "ms")).
Proof.
  destruct (build_times_and_minimum_duration (H:=exampleHost)) as [_ Hmin].
  apply (Hmin shortSwipe 20%Z 16%Z); [reflexivity | reflexivity | lia | lia | |].
  - vm_compute. reflexivity.
  - vm_compute. discriminate.
Defined.

Example build_short_duration_message :
  SwipeGesture.build (H:=exampleHost) shortSwipe =
  SwipeGesture.Thrown
    (new_Error
       "Duration is too short for 2 moves, please set duration to at least 32ms").
Proof. vm_compute. reflexivity. Qed.

(** C5 as stated fails: the default swipe does not end at
    [duration / 1000 = 0.5] seconds. *)
Lemma default_swipe_does_not_end_at_duration :
  ~ (exists g r tl,
       exampleSwipe = Ok g /\
       SwipeGesture.build (H:=exampleHost) g = SwipeGesture.Built r /\
       SwipeGesture.nondecreasing (SwipeGesture.t <$> r) = true /\
       final_t r = Some tl /\
       same tl (Fin 500 / of_Z 1000)%num).
Proof.
  intros (g & r & tl & Hg & Hr & _ & Ht & Hs).
  injection Hg as <-. vm_compute in Hr. injection Hr as <-.
  vm_compute in Ht. injection Ht as <-.
  vm_compute in Hs. discriminate Hs.
Qed.

(** A negative duration argument is below every minimum and is not
    rejected: the loops do not run and [build] returns no move. *)
Example build_negative_duration :
  exists g,
    SwipeGesture.to "100%" "0%"
      (SwipeGesture.new (Some (of_Z (-100))) None) = Ok g /\
    SwipeGesture.build (H:=exampleHost) g = SwipeGesture.Built [].
Proof. eexists. split; [reflexivity|]. vm_compute. reflexivity. Qed.

(** ** Action dispatcher *)

Import Dispatcher.
Local Open Scope list_scope.

Lemma Qle_bool_false a b : Qle_bool a b = false <-> b < a.
Proof.
  split.
  - intros E. apply Qnot_le_lt. intros L. apply Qle_bool_iff in L. congruence.
  - intros L. destruct (Qle_bool a b) eqn:E; [|reflexivity].
    apply Qle_bool_iff in E. lra.
Qed.

(** The race of an attempt, case by case: it is settled by the first
    event that a listener accepts, if that event arrives before the hard
    timeout, and by the timer otherwise. *)
Lemma await_response_spec `{Host} payload_id due te inbox s rest at_ :
  await_response payload_id due te inbox = (s, rest, at_) ->
  (exists pre ev,
     inbox = pre ++ (at_, ev) :: rest /\ passed_over payload_id due pre /\
     at_ < due /\ deliver payload_id ev = Some s) \/
  (exists pre,
     inbox = pre ++ rest /\ passed_over payload_id due pre /\
     s = Rejected te /\ at_ = due /\
     match rest with [] => True | (a, _) :: _ => due <= a end).
Proof.
  revert s rest at_. induction inbox as [|[a ev] inbox IH]; intros s rest at_.
  - simpl. intros [= <- <- <-]. right. exists []. repeat split. constructor.
  - simpl. destruct (Qle_bool due a) eqn:Ed.
    + intros [= <- <- <-]. right. exists []. repeat split; [constructor|].
      now apply Qle_bool_iff.
    + apply Qle_bool_false in Ed.
      destruct (deliver payload_id ev) as [s'|] eqn:Edel.
      * intros [= <- <- <-]. left. exists [], ev.
        repeat split; try assumption. constructor.
      * intros Hrec. destruct (IH _ _ _ Hrec) as
          [(pre & ev' & -> & Hpre & Hlt & Hd) | (pre & -> & Hpre & Hs)].
        -- left. exists ((a, ev) :: pre), ev'. repeat split; try assumption.
           constructor; [split; assumption | exact Hpre].
        -- right. exists ((a, ev) :: pre). repeat split; try tauto.
           constructor; [split; assumption | exact Hpre].
Qed.

Lemma await_response_shrinks `{Host} payload_id due te inbox s rest at_ :
  await_response payload_id due te inbox = (s, rest, at_) ->
  s = Rejected te \/ (length rest < length inbox)%nat.
Proof.
  intros Hr. destruct (await_response_spec _ _ _ _ _ _ _ Hr) as
    [(pre & ev & -> & _) | (pre & _ & _ & -> & _)]; [right | now left].
  rewrite length_app. simpl. lia.
Qed.

(** One round of [playAction]: the checks or the mapping throw, or an
    attempt is made, and the call ends with how it settled unless the
    error is retried with the remaining timeout. *)
Lemma playAction_rec_step `{Host} fuel uuid this action_ options w res w' :
  playAction_rec fuel uuid this action_ options w = Some (res, w') ->
  let timeout_ := default (of_Z 10000) (timeout options) in
  (exists e, prepare this action_ options = Throw e /\
             res = Threw e /\ w' = w) \/
  (exists mappedAction s rest at_,
     prepare this action_ options = Ok mappedAction /\
     let payload := makePayload (uuid (drawn w)) mappedAction timeout_ in
     await_response (id payload)
       (timer_due (now w) (MAX_WAIT_FOR_RESPONSE timeout_))
       (hardTimeoutError payload action_) (inbox w) = (s, rest, at_) /\
     let w1 := attempted w payload timeout_ s rest at_ in
     match s with
     | Resolved value => res = Returned value /\ w' = w1
     | Pending => res = Hangs /\ w' = w1
     | Rejected e =>
         if gt (remainingTimeout timeout_) (of_Z 0) &&
            negb (instanceof e ActionTimeoutError) &&
            negb (instanceof e ActionInternalError)
         then exists fuel',
                playAction_rec fuel' uuid this action_
                  {| timeout := Some (remainingTimeout timeout_);
                     noMap := noMap options |} w1 = Some (res, w')
         else res = Threw e /\ w' = w1
     end).
Proof.
  destruct fuel as [|fuel]; [discriminate|]. simpl.
  destruct (prepare this action_ options) as [mappedAction|e].
  - destruct (await_response _ _ _ _) as [[s rest] at_] eqn:Ea.
    intros Hrun. right. exists mappedAction, s, rest, at_.
    split; [reflexivity|]. split; [exact Ea|].
    destruct s as [value|e|].
    + now injection Hrun as <- <-.
    + destruct (_ && _ && _); [eauto | now injection Hrun as <- <-].
    + now injection Hrun as <- <-.
  - intros [= <- <-]. left. eauto.
Qed.

Lemma hardTimeoutError_instanceof payload action_ :
  instanceof (hardTimeoutError payload action_) ActionTimeoutError = true.
Proof. reflexivity. Qed.

(** [playAction] is total: with more fuel than there are events to come
    the recursion always ends. *)
Lemma playAction_rec_total `{Host} fuel uuid this action_ options w :
  (length (inbox w) < fuel)%nat ->
  is_Some (playAction_rec fuel uuid this action_ options w).
Proof.
  revert options w. induction fuel as [|fuel IH]; intros options w Hf; [lia|].
  simpl. destruct (prepare this action_ options) as [mappedAction|e]; [|eauto].
  destruct (await_response _ _ _ _) as [[s rest] at_] eqn:Ea.
  destruct s as [value|e|]; [eauto| |eauto].
  destruct (_ && negb (instanceof e ActionTimeoutError) && _) eqn:Er;
    [|eauto].
  apply IH. simpl.
  destruct (await_response_shrinks _ _ _ _ _ _ _ Ea) as [[= ->]|Hlt]; [|lia].
  rewrite hardTimeoutError_instanceof in Er.
  rewrite andb_false_r in Er. discriminate.
Qed.

Lemma playAction_total `{Host} uuid this action_ options w :
  is_Some (playAction uuid this action_ options w).
Proof. apply playAction_rec_total. lia. Qed.

(** A round that is entered with a timeout of at most 10 s is the last
    one: whatever the attempt ends with is the result of the call. *)
Lemma playAction_rec_last_round `{Host} fuel uuid this action_ options w
    res w' :
  gt (remainingTimeout (default (of_Z 10000) (timeout options))) (of_Z 0)
    = false ->
  playAction_rec fuel uuid this action_ options w = Some (res, w') ->
  let timeout_ := default (of_Z 10000) (timeout options) in
  (exists e, res = Threw e /\ w' = w) \/
  (exists mappedAction s rest at_,
     let payload := makePayload (uuid (drawn w)) mappedAction timeout_ in
     await_response (id payload)
       (timer_due (now w) (MAX_WAIT_FOR_RESPONSE timeout_))
       (hardTimeoutError payload action_) (inbox w) = (s, rest, at_) /\
     res = result_of s /\
     w' = attempted w payload timeout_ s rest at_).
Proof.
  intros Hlast Hrun. apply playAction_rec_step in Hrun.
  destruct Hrun as [(e & _ & -> & ->) | (ma & s & rest & at_ & _ & Ea & Hs)];
    [left; eauto|].
  right. exists ma, s, rest, at_. split; [exact Ea|].
  cbv zeta in Hs. rewrite Hlast in Hs.
  destruct s; simpl in Hs; destruct Hs as [-> ->]; split; reflexivity.
Qed.

(** A round that is entered with a longer timeout ends the call in the
    same two ways, or goes on with the remaining timeout. *)
Lemma playAction_rec_round `{Host} fuel uuid this action_ options w res w' :
  playAction_rec fuel uuid this action_ options w = Some (res, w') ->
  let timeout_ := default (of_Z 10000) (timeout options) in
  (exists e, res = Threw e /\ w' = w) \/
  (exists mappedAction s rest at_,
     let payload := makePayload (uuid (drawn w)) mappedAction timeout_ in
     let w1 := attempted w payload timeout_ s rest at_ in
     (res = result_of s /\ w' = w1) \/
     (exists e fuel',
        s = Rejected e /\
        playAction_rec fuel' uuid this action_
          {| timeout := Some (remainingTimeout timeout_);
             noMap := noMap options |} w1 = Some (res, w'))).
Proof.
  intros Hrun. apply playAction_rec_step in Hrun.
  destruct Hrun as [(e & _ & -> & ->) | (ma & s & rest & at_ & _ & Ea & Hs)];
    [left; eauto|].
  right. exists ma, s, rest, at_. cbv zeta in Hs |- *.
  destruct s as [value|e|]; [left; tauto| |left; tauto].
  destruct (_ && _ && _); [|left; tauto].
  destruct Hs as (fuel' & Hrec). right. eauto.
Qed.

(** C1: a call of [playAction] with a timeout of 25000 ms ends, and it
    makes at most 3 attempts; the timeouts sent to the remote executor
    are 10, 10 and 5 seconds; the hard timers show the budgets 25000,
    15000 and 5000 ms; every attempt draws its own request id; and a
    rejection of the third attempt is thrown to the caller, a [notFound]
    response being rejected with an [ActionElementNotFoundError]. *)
Theorem playAction_25000_three_attempts `{Host} (uuid : nat -> string)
    (this : Session) (action_ : Public.Action) (noMap_ : bool)
    (events : timeline) :
  exists res w',
    playAction uuid this action_
      {| timeout := Some (of_Z 25000); noMap := noMap_ |} (start events) =
      Some (res, w') /\
    (length (sent w') <= 3)%nat /\
    options_timeout <$> sent w' `prefix_of` [of_Z 10; of_Z 10; of_Z 5] /\
    timers w' `prefix_of` [of_Z 35000; of_Z 25000; of_Z 15000] /\
    id <$> sent w' = uuid <$> seq 0 (length (sent w')) /\
    length (settlements w') = length (sent w') /\
    (forall e, settlements w' !! 2%nat = Some (Rejected e) -> res = Threw e) /\
    (forall error pb,
       Public.errorId error = "notFound" ->
       Public.err_playback error = Some pb ->
       exists e,
         handleError (Public.id pb) error = Some (Rejected e) /\
         cls e = ActionElementNotFoundError).
Proof.
  destruct (playAction_total uuid this action_
              {| timeout := Some (of_Z 25000); noMap := noMap_ |}
              (start events)) as [[res w'] Hrun].
  exists res, w'. split; [exact Hrun|].
  assert (Hnf : forall error pb,
    Public.errorId error = "notFound" ->
    Public.err_playback error = Some pb ->
    exists e, handleError (Public.id pb) error = Some (Rejected e) /\
              cls e = ActionElementNotFoundError).
  { intros error pb Hid Hpb. unfold handleError, classify.
    rewrite Hpb, String.eqb_refl, Hid. simpl.
    unfold new_ActionElementNotFoundError. rewrite Hpb. simpl. eauto. }
  unfold playAction in Hrun.
  apply playAction_rec_round in Hrun. cbn [timeout default noMap] in Hrun.
  destruct Hrun as [(e & -> & ->) |
    (ma1 & s1 & r1 & t1 & [[-> ->] | (e1 & f1 & -> & Hrun)])].
  { repeat split; simpl; try lia; try apply prefix_nil; try discriminate.
    exact Hnf. }
  { repeat split; simpl; try lia; try discriminate; try exact Hnf.
    - exists [of_Z 10; of_Z 5]. reflexivity.
    - exists [of_Z 25000; of_Z 15000]. reflexivity. }
  apply playAction_rec_round in Hrun. cbn [timeout default noMap] in Hrun.
  destruct Hrun as [(e & -> & ->) |
    (ma2 & s2 & r2 & t2 & [[-> ->] | (e2 & f2 & -> & Hrun)])].
  { repeat split; simpl; try lia; try discriminate; try exact Hnf.
    - exists [of_Z 10; of_Z 5]. reflexivity.
    - exists [of_Z 25000; of_Z 15000]. reflexivity. }
  { repeat split; simpl; try lia; try discriminate; try exact Hnf.
    - exists [of_Z 5]. reflexivity.
    - exists [of_Z 15000]. reflexivity. }
  apply playAction_rec_last_round in Hrun; [|reflexivity].
  cbn [timeout default noMap] in Hrun.
  destruct Hrun as [(e & -> & ->) | (ma3 & s3 & r3 & t3 & _ & -> & ->)].
  { repeat split; simpl; try lia; try discriminate; try exact Hnf.
    - exists [of_Z 5]. reflexivity.
    - exists [of_Z 15000]. reflexivity. }
  repeat split; simpl; try lia; try exact Hnf.
  - exists []. reflexivity.
  - exists []. reflexivity.
  - intros e [= ->]. reflexivity.
Qed.

Lemma playAction_25000_three_attempts_witness :
  exists res w' e,
    playAction (H:=exampleHost) exampleUuid exampleSession tapOkButton
      {| timeout := Some (of_Z 25000); noMap := false |}
      (start threeNotFound) = Some (res, w') /\
    length (sent w') = 3%nat /\
    res = Threw e /\ cls e = ActionElementNotFoundError.
Proof.
  destruct (playAction_25000_three_attempts (H:=exampleHost) exampleUuid
              exampleSession tapOkButton false threeNotFound)
    as (res & w' & Hrun & _ & _ & _ & _ & _ & Hlast & _).
  pose proof Hrun as Hrun'.
  vm_compute in Hrun'. injection Hrun' as Hres Hw. subst w'.
  eexists res, _, _. split; [exact Hrun|].
  split; [reflexivity|].
  split; [apply Hlast; reflexivity|]. reflexivity.
Defined.

(** A run only adds to what was sent, set and settled. *)
Lemma playAction_rec_extends `{Host} fuel uuid this action_ options w res w' :
  playAction_rec fuel uuid this action_ options w = Some (res, w') ->
  exists ps ts ss,
    sent w' = sent w ++ ps /\ timers w' = timers w ++ ts /\
    settlements w' = settlements w ++ ss /\
    length ts = length ps /\ length ss = length ps.
Proof.
  revert options w. induction fuel as [|fuel IH]; intros options w;
    [discriminate|].
  simpl. destruct (prepare this action_ options) as [ma|e0].
  2:{ intros [= <- <-]. exists [], [], []. rewrite !app_nil_r. repeat split. }
  destruct (await_response _ _ _ _) as [[s rest] at_].
  assert (Hone : forall r,
    Some (r, attempted w (makePayload (uuid (drawn w)) ma
                        (default (of_Z 10000) (timeout options)))
           (default (of_Z 10000) (timeout options)) s rest at_) =
    Some (res, w') ->
    exists ps ts ss,
      sent w' = sent w ++ ps /\ timers w' = timers w ++ ts /\
      settlements w' = settlements w ++ ss /\
      length ts = length ps /\ length ss = length ps).
  { intros r [= _ <-]. eexists [_], [_], [_]. repeat split. }
  destruct s as [value|e|]; try apply Hone.
  destruct (_ && _ && _); [|apply Hone].
  intros Hrun.
  destruct (IH _ _ Hrun) as (ps & ts & ss & Hp & Ht & Hss & Hl1 & Hl2).
  simpl in Hp, Ht, Hss.
  eexists (_ :: ps), (_ :: ts), (_ :: ss).
  rewrite Hp, Ht, Hss, <- !app_assoc. simpl. repeat split; congruence.
Qed.

Lemma remainingTimeout_none q :
  q <= 10000 -> gt (remainingTimeout (Fin q)) (of_Z 0) = false.
Proof.
  intros Hq. unfold remainingTimeout, MAX_APP_RECORDER_TIMEOUT, of_Z, JsNum.sub.
  cbn [opp add max].
  assert (JsNum.lt (Fin (inject_Z 0)) (Fin (q + - inject_Z 10000)) = false)
    as ->; [|reflexivity].
  apply lt_Fin_false. change (inject_Z 0) with 0.
  change (inject_Z 10000) with 10000. lra.
Qed.

Lemma remainingTimeout_some q :
  10000 < q -> gt (remainingTimeout (Fin q)) (of_Z 0) = true.
Proof.
  intros Hq. unfold remainingTimeout, MAX_APP_RECORDER_TIMEOUT, of_Z, JsNum.sub.
  cbn [opp add max].
  assert (Hlt : JsNum.lt (Fin (inject_Z 0)) (Fin (q + - inject_Z 10000)) = true).
  { apply lt_Fin. change (inject_Z 0) with 0.
    change (inject_Z 10000) with 10000. lra. }
  rewrite Hlt. exact Hlt.
Qed.

Lemma gt_zero_valid r :
  gt r (of_Z 0) = true -> isNaN r = false /\ JsNum.lt r (of_Z 0) = false.
Proof.
  destruct r as [|[]|q]; simpl; try discriminate; auto.
  intros Hq. split; [reflexivity|].
  apply Bool.negb_true_iff in Hq. apply Bool.negb_false_iff.
  apply Qle_bool_iff. apply Qle_bool_false in Hq.
  change (inject_Z 0) with 0 in *. lra.
Qed.

(** The checks and the mapping do not depend on the timeout beyond its
    validity, so they succeed again when a call is retried. *)
Lemma prepare_retry `{Host} this action_ options r ma :
  prepare this action_ options = Ok ma ->
  gt r (of_Z 0) = true ->
  prepare this action_ {| timeout := Some r; noMap := noMap options |} = Ok ma.
Proof.
  intros Hp Hr. destruct (gt_zero_valid r Hr) as [Hnan Hlt].
  unfold prepare in *. cbn [timeout default noMap].
  destruct (config_record this); [|discriminate Hp].
  destruct (isNaN (default (of_Z 10000) (timeout options))); [discriminate Hp|].
  destruct (JsNum.lt (default (of_Z 10000) (timeout options)) (of_Z 0));
    [discriminate Hp|].
  unfold Datatypes.id. rewrite Hnan, Hlt. exact Hp.
Qed.

(** C2, as the code has it: an [invalidArgument] response is rejected
    with an [ActionInvalidArgumentError], whose message is special-cased
    when the response reports a position outside the screen bounds; the
    error ends the call, without another attempt, when the timeout of the
    call is at most 10000 ms; with a longer timeout the call is retried
    with the remaining timeout like any error that is neither a hard
    timeout nor an internal error. *)
Theorem invalidArgument_terminal_without_budget `{Host} :
  (forall error pb,
     Public.errorId error = "invalidArgument" ->
     Public.err_playback error = Some pb ->
     exists e,
       handleError (Public.id pb) error = Some (Rejected e) /\
       cls e = ActionInvalidArgumentError /\
       Errors.errorId e = Some "invalidArgument" /\
       message e = invalidArgumentMessage error pb) /\
  (forall uuid this action_ options events q res w' (i : nat) e,
     default (of_Z 10000) (timeout options) = Fin q -> q <= 10000 ->
     playAction uuid this action_ options (start events) = Some (res, w') ->
     settlements w' !! i = Some (Rejected e) ->
     cls e = ActionInvalidArgumentError ->
     res = Threw e /\ length (sent w') = 1%nat) /\
  (forall uuid this action_ options events q res w' e,
     default (of_Z 10000) (timeout options) = Fin q -> 10000 < q ->
     playAction uuid this action_ options (start events) = Some (res, w') ->
     settlements w' !! 0%nat = Some (Rejected e) ->
     cls e = ActionInvalidArgumentError ->
     (2 <= length (sent w'))%nat /\
     timers w' !! 1%nat =
       Some (MAX_WAIT_FOR_RESPONSE (remainingTimeout (Fin q)))).
Proof.
  split; [|split].
  - intros error pb Hid Hpb.
    unfold handleError, classify, new_ActionInvalidArgumentError,
      invalidArgumentMessage, ActionError_ctor.
    rewrite Hpb, String.eqb_refl, Hid. simpl.
    destruct (includes _ _); simpl; eexists; repeat split.
  - intros uuid this action_ options events q res w' i e HT Hq Hrun Hi Hc.
    unfold playAction in Hrun.
    apply playAction_rec_last_round in Hrun;
      [|rewrite HT; now apply remainingTimeout_none].
    destruct Hrun as [(e0 & -> & ->) | (ma & s & rest & at_ & _ & -> & ->)];
      [discriminate Hi|].
    simpl in Hi |- *. destruct i as [|i]; [|discriminate Hi].
    injection Hi as ->. split; reflexivity.
  - intros uuid this action_ options events q res w' e HT Hq Hrun Hi Hc.
    unfold playAction in Hrun.
    apply playAction_rec_step in Hrun. cbv zeta in Hrun. rewrite HT in Hrun.
    destruct Hrun as
      [(e0 & _ & -> & ->) | (ma & s & rest & at_ & Hp & Ea & Hs)];
      [discriminate Hi|].
    assert (Hse : s = Rejected e).
    { destruct s as [value|e1|].
      - destruct Hs as [_ ->]. simpl in Hi. congruence.
      - destruct (_ && _ && _).
        + destruct Hs as (fuel' & Hrec).
          apply playAction_rec_extends in Hrec as (? & ? & ss & _ & _ & Hss & _).
          rewrite Hss in Hi. simpl in Hi. congruence.
        + destruct Hs as [_ ->]. simpl in Hi. congruence.
      - destruct Hs as [_ ->]. simpl in Hi. congruence. }
    subst s.
    rewrite (remainingTimeout_some q Hq) in Hs.
    assert (He : instanceof e ActionTimeoutError = false /\
                 instanceof e ActionInternalError = false).
    { unfold instanceof. rewrite Hc. split; reflexivity. }
    destruct He as [He1 He2]. rewrite He1, He2 in Hs. cbn [negb andb] in Hs.
    destruct Hs as (fuel' & Hrec).
    pose proof Hrec as Hrec2.
    apply playAction_rec_step in Hrec2. cbv zeta in Hrec2.
    cbn [timeout default noMap] in Hrec2.
    rewrite (prepare_retry _ _ _ _ _ Hp (remainingTimeout_some q Hq)) in Hrec2.
    destruct Hrec2 as
      [(e0 & [=] & _) | (ma2 & s2 & rest2 & at2 & _ & _ & Hs2)].
    assert (Hext : exists p1 p2 ps ts,
      sent w' = [p1] ++ p2 :: ps /\
      timers w' = [MAX_WAIT_FOR_RESPONSE (Fin q)] ++
                  MAX_WAIT_FOR_RESPONSE (remainingTimeout (Fin q)) :: ts).
    { destruct s2 as [value|e2|].
      - destruct Hs2 as [_ ->]. eexists _, _, [], []. split; reflexivity.
      - destruct (_ && _ && _).
        + destruct Hs2 as (fuel2 & Hrec3).
          apply playAction_rec_extends in Hrec3
            as (ps & ts & ? & Hps & Hts & _).
          eexists _, _, ps, ts. rewrite Hps, Hts. split; reflexivity.
        + destruct Hs2 as [_ ->]. eexists _, _, [], []. split; reflexivity.
      - destruct Hs2 as [_ ->]. eexists _, _, [], []. split; reflexivity. }
    destruct Hext as (p1 & p2 & ps & ts & -> & ->). simpl.
    split; [lia|reflexivity].
Qed.

Lemma invalidArgument_terminal_without_budget_witness :
  (exists e,
     handleError (H:=exampleHost) (exampleUuid 0)
       (errorResponse "invalidArgument"
          "position is outside the screen bounds" 0 []) =
       Some (Rejected e) /\
     message e = "Element is outside of screen bounds.") /\
  (exists res w' e,
     playAction (H:=exampleHost) exampleUuid exampleSession tapOkButton
       {| timeout := None; noMap := false |} (start invalidOnce) =
       Some (res, w') /\
     res = Threw e /\ length (sent w') = 1%nat) /\
  (exists res w',
     playAction (H:=exampleHost) exampleUuid exampleSession tapOkButton
       {| timeout := Some (of_Z 25000); noMap := false |}
       (start invalidThenSuccess) = Some (res, w') /\
     (2 <= length (sent w'))%nat).
Proof.
  destruct (invalidArgument_terminal_without_budget (H:=exampleHost))
    as (HA & HB & HC).
  split; [|split].
  - destruct (HA (errorResponse "invalidArgument"
                    "position is outside the screen bounds" 0 []) _
                eq_refl eq_refl) as (e & He & _ & _ & Hm).
    exists e. split; [exact He|]. rewrite Hm. reflexivity.
  - destruct (playAction (H:=exampleHost) exampleUuid exampleSession
                tapOkButton {| timeout := None; noMap := false |}
                (start invalidOnce)) as [[res w']|] eqn:Hrun;
      [|vm_compute in Hrun; discriminate Hrun].
    pose proof Hrun as Hc. vm_compute in Hc. injection Hc as Hres Hw.
    eexists res, w', _. split; [reflexivity|].
    eapply (HB exampleUuid exampleSession tapOkButton
              {| timeout := None; noMap := false |} invalidOnce 10000
              res w' 0%nat);
      [reflexivity | lra | exact Hrun | rewrite <- Hw; reflexivity
      | reflexivity].
  - destruct (playAction (H:=exampleHost) exampleUuid exampleSession
                tapOkButton
                {| timeout := Some (of_Z 25000); noMap := false |}
                (start invalidThenSuccess)) as [[res w']|] eqn:Hrun;
      [|vm_compute in Hrun; discriminate Hrun].
    pose proof Hrun as Hc. vm_compute in Hc. injection Hc as Hres Hw.
    exists res, w'. split; [reflexivity|].
    eapply (HC exampleUuid exampleSession tapOkButton
              {| timeout := Some (of_Z 25000); noMap := false |}
              invalidThenSuccess 25000 res w');
      [reflexivity | lra | exact Hrun | rewrite <- Hw; reflexivity
      | reflexivity].
Defined.

(** C2 as stated fails: with a timeout of 25000 ms, an [invalidArgument]
    response to the first request does not end the call; a second
    request is sent, and its success is what the call returns. *)
Lemma invalidArgument_is_retried :
  ~ terminal (H:=exampleHost) ActionInvalidArgumentError.
Proof.
  intros Ht.
  destruct (playAction (H:=exampleHost) exampleUuid exampleSession
              tapOkButton
              {| timeout := Some (of_Z 25000); noMap := false |}
              (start invalidThenSuccess)) as [[res w']|] eqn:Hrun;
    [|vm_compute in Hrun; discriminate Hrun].
  pose proof Hrun as Hc. vm_compute in Hc. injection Hc as Hres Hw.
  edestruct (Ht _ _ _ _ _ _ _ Hrun 0%nat) as [Hthrew _];
    [rewrite <- Hw; reflexivity | reflexivity |].
  rewrite <- Hres in Hthrew. discriminate Hthrew.
Qed.

(** The hard timer of the [i]-th attempt of a run is set to the budget
    that its round was entered with, plus 10000 ms. *)
Lemma timers_budget `{Host} fuel uuid this action_ options w res w' :
  playAction_rec fuel uuid this action_ options w = Some (res, w') ->
  forall (i : nat) d,
    timers w' !! (length (timers w) + i)%nat = Some d ->
    d = MAX_WAIT_FOR_RESPONSE
          (budget (default (of_Z 10000) (timeout options)) i).
Proof.
  revert options w. induction fuel as [|fuel IH]; intros options w;
    [discriminate|].
  simpl. destruct (prepare this action_ options) as [ma|e0].
  2:{ intros [= <- <-] i d Hd. apply lookup_lt_Some in Hd. lia. }
  destruct (await_response _ _ _ _) as [[s rest] at_].
  set (T := default (of_Z 10000) (timeout options)).
  set (w1 := attempted w (makePayload (uuid (drawn w)) ma T) T s rest at_).
  assert (Hfinal : forall r, Some (r, w1) = Some (res, w') ->
    forall (i : nat) d,
      timers w' !! (length (timers w) + i)%nat = Some d ->
      d = MAX_WAIT_FOR_RESPONSE (budget T i)).
  { intros r [= _ <-] i d Hd. simpl in Hd. destruct i as [|i].
    - rewrite Nat.add_0_r, list_lookup_middle in Hd by reflexivity.
      now injection Hd as <-.
    - apply lookup_lt_Some in Hd. rewrite length_app in Hd. simpl in Hd. lia. }
  destruct s as [value|e|]; try apply Hfinal.
  destruct (_ && _ && _); [|apply Hfinal].
  intros Hrun i d Hd.
  pose proof (playAction_rec_extends _ _ _ _ _ _ _ _ Hrun)
    as (ps & ts & ss & _ & Hts & _).
  subst w1. simpl in Hts. destruct i as [|i].
  - rewrite Hts, Nat.add_0_r, <- app_assoc in Hd. simpl in Hd.
    rewrite list_lookup_middle in Hd by reflexivity.
    now injection Hd as <-.
  - specialize (IH _ _ Hrun i d). simpl in IH.
    rewrite length_app in IH. simpl in IH.
    replace (length (timers w) + 1 + i)%nat
      with (length (timers w) + S i)%nat in IH by lia.
    rewrite (IH Hd). unfold budget. fold T. now rewrite Nat.iter_succ_r.
Qed.

(** An error response that carries its playback context is rejected
    with an error of a class of [ActionError]. *)
Lemma classify_rejects `{Host} error pb :
  Public.err_playback error = Some pb ->
  exists e, classify error = Rejected e /\ instanceof e ActionError = true.
Proof.
  intros Hpb. unfold classify, new_ActionInternalError,
    new_ActionElementNotFoundError, new_ActionAmbiguousElementError,
    new_ActionInvalidArgumentError.
  rewrite Hpb. simpl.
  repeat (destruct (String.eqb (Public.errorId error) _);
          [eexists; split; reflexivity|]).
  destruct (String.eqb (Public.errorId error) "invalidArgument").
  - destruct (includes _ _); eexists; split; reflexivity.
  - eexists; split; reflexivity.
Qed.

Lemma attemptTimeout_small q :
  q <= 10000 -> attemptTimeout (Fin q) = Fin q.
Proof.
  intros Hq. unfold attemptTimeout, MAX_APP_RECORDER_TIMEOUT, of_Z. cbn [min].
  assert (JsNum.lt (Fin (inject_Z 10000)) (Fin q) = false) as ->;
    [|reflexivity].
  apply lt_Fin_false. change (inject_Z 10000) with 10000. exact Hq.
Qed.

(** C6, as the code has it: an attempt is settled by the first of three
    things: a success event with the request id of the attempt, which
    resolves it; an error event with that request id, which rejects it
    with the error of its [errorId]; or the hard timeout, which rejects
    it with an [ActionTimeoutError].  Events with another request id are
    passed over.  The hard timer of the [i]-th attempt is set to the
    budget that the call has left when the attempt starts, plus
    10000 ms; that is the cap of the attempt plus 10000 ms when the
    budget is at most 10000 ms. *)
Theorem attempt_races_three_outcomes `{Host} :
  (forall payload action_ timeout_ now_ inbox_ s rest at_,
     let due := timer_due now_ (MAX_WAIT_FOR_RESPONSE timeout_) in
     await_response (id payload) due (hardTimeoutError payload action_)
       inbox_ = (s, rest, at_) ->
     (exists pre value pb,
        inbox_ = pre ++ (at_, playbackFoundAndSent value) :: rest /\
        passed_over (id payload) due pre /\ at_ < due /\
        Public.res_playback value = Some pb /\
        Public.id pb = id payload /\
        s = Resolved value) \/
     (exists pre error pb,
        inbox_ = pre ++ (at_, playbackError error) :: rest /\
        passed_over (id payload) due pre /\ at_ < due /\
        Public.err_playback error = Some pb /\
        Public.id pb = id payload /\
        s = classify error /\
        exists e, s = Rejected e /\ instanceof e ActionError = true) \/
     (exists pre,
        inbox_ = pre ++ rest /\
        passed_over (id payload) due pre /\
        match rest with [] => True | (a, _) :: _ => due <= a end /\
        at_ = due /\
        s = Rejected (hardTimeoutError payload action_) /\
        cls (hardTimeoutError payload action_) = ActionTimeoutError)) /\
  (forall uuid this action_ options events res w' (i : nat) d,
     playAction uuid this action_ options (start events) = Some (res, w') ->
     timers w' !! i = Some d ->
     d = (budget (default (of_Z 10000) (timeout options)) i + of_Z 10000)%num) /\
  (forall q, q <= 10000 ->
     MAX_WAIT_FOR_RESPONSE (Fin q) =
     (attemptTimeout (Fin q) + of_Z 10000)%num).
Proof.
  split; [|split].
  - intros payload action_ timeout_ now_ inbox_ s rest at_ due Hr.
    apply await_response_spec in Hr.
    destruct Hr as [(pre & ev & -> & Hpre & Hlt & Hd) |
                    (pre & -> & Hpre & -> & -> & Hrest)].
    + destruct ev as [value|error]; simpl in Hd.
      * left. unfold handleSuccess in Hd.
        destruct (Public.res_playback value) as [pb|] eqn:Epb;
          [|discriminate Hd].
        destruct (String.eqb (Public.id pb) (id payload)) eqn:Eid;
          [|discriminate Hd].
        apply String.eqb_eq in Eid. injection Hd as <-.
        exists pre, value, pb. repeat split; assumption.
      * right. left. unfold handleError in Hd.
        destruct (Public.err_playback error) as [pb|] eqn:Epb;
          [|discriminate Hd].
        destruct (String.eqb (Public.id pb) (id payload)) eqn:Eid;
          [|discriminate Hd].
        apply String.eqb_eq in Eid. injection Hd as <-.
        exists pre, error, pb. repeat split; try assumption.
        exact (classify_rejects error pb Epb).
    + right. right. exists pre. repeat split; assumption.
  - intros uuid this action_ options events res w' i d Hrun Hd.
    unfold playAction in Hrun.
    exact (timers_budget _ _ _ _ _ _ _ _ Hrun i d Hd).
  - intros q Hq. now rewrite attemptTimeout_small.
Qed.

Lemma attempt_races_three_outcomes_witness :
  (exists s rest at_,
     await_response (H:=exampleHost) (exampleUuid 0)
       (timer_due 0 (MAX_WAIT_FOR_RESPONSE (of_Z 25000)))
       (hardTimeoutError
          (makePayload (exampleUuid 0) (Unmapped tapOkButton) (of_Z 25000))
          tapOkButton)
       lateSuccess = (s, rest, at_) /\
     s = Resolved (successResponse 0) /\ at_ == 30000) /\
  (exists res w',
     playAction (H:=exampleHost) exampleUuid exampleSession tapOkButton
       {| timeout := Some (of_Z 25000); noMap := false |}
       (start threeNotFound) = Some (res, w') /\
     timers w' !! 2%nat = Some (budget (of_Z 25000) 2 + of_Z 10000)%num) /\
  MAX_WAIT_FOR_RESPONSE (Fin 5000) =
    (attemptTimeout (Fin 5000) + of_Z 10000)%num.
Proof.
  destruct (attempt_races_three_outcomes (H:=exampleHost)) as (HA & HB & HC).
  split; [|split].
  - destruct (await_response (H:=exampleHost) (exampleUuid 0)
       (timer_due 0 (MAX_WAIT_FOR_RESPONSE (of_Z 25000)))
       (hardTimeoutError
          (makePayload (exampleUuid 0) (Unmapped tapOkButton) (of_Z 25000))
          tapOkButton)
       lateSuccess) as [[s rest] at_] eqn:Ea.
    exists s, rest, at_. split; [reflexivity|].
    pose proof Ea as Ec. vm_compute in Ec. injection Ec as Hs Hrest Hat.
    destruct (HA (makePayload (exampleUuid 0) (Unmapped tapOkButton)
                    (of_Z 25000)) tapOkButton (of_Z 25000) 0 lateSuccess
                 s rest at_ Ea)
      as [(pre & value & pb & _) | [(pre & error & pb & _) | (pre & _)]];
      (split; [rewrite <- Hs; reflexivity | rewrite <- Hat; reflexivity]).
  - destruct (playAction (H:=exampleHost) exampleUuid exampleSession
                tapOkButton
                {| timeout := Some (of_Z 25000); noMap := false |}
                (start threeNotFound)) as [[res w']|] eqn:Hrun;
      [|vm_compute in Hrun; discriminate Hrun].
    pose proof Hrun as Hc. vm_compute in Hc. injection Hc as Hres Hw.
    exists res, w'. split; [reflexivity|].
    assert (Hd : exists d, timers w' !! 2%nat = Some d).
    { rewrite <- Hw. eexists. reflexivity. }
    destruct Hd as (d & Hd). rewrite Hd. f_equal.
    exact (HB exampleUuid exampleSession tapOkButton
             {| timeout := Some (of_Z 25000); noMap := false |}
             threeNotFound res w' 2%nat d Hrun Hd).
  - apply HC. lra.
Defined.

(** C6 as stated fails: with a timeout of 25000 ms and no response, the
    first attempt is sent with a cap of 10 s and its hard timer is set to
    35000 ms, not to 10000 ms + 10000 ms. *)
Lemma hard_timeout_is_budget_plus_slack :
  ~ hard_timeout_is_cap_plus_slack (H:=exampleHost).
Proof.
  intros Hc.
  destruct (playAction (H:=exampleHost) exampleUuid exampleSession
              tapOkButton
              {| timeout := Some (of_Z 25000); noMap := false |}
              (start [])) as [[res w']|] eqn:Hrun;
    [|vm_compute in Hrun; discriminate Hrun].
  pose proof Hrun as Hv. vm_compute in Hv. injection Hv as Hres Hw.
  assert (Hp : exists p d,
    sent w' !! 0%nat = Some p /\ timers w' !! 0%nat = Some d /\
    options_timeout p = of_Z 10 /\ d = of_Z 35000).
  { rewrite <- Hw. eexists _, _. repeat split; reflexivity. }
  destruct Hp as (p & d & Hp & Hd & Hcap & Hdelay).
  specialize (Hc _ _ _ _ _ _ _ Hrun 0%nat p d Hp Hd).
  rewrite Hcap, Hdelay in Hc. vm_compute in Hc. discriminate Hc.
Qed.

(** With that timeout, a success that arrives after 30 s, later than the
    cap of the attempt plus 10000 ms, is still in time and is returned. *)
Example late_success_is_returned :
  exists w',
    playAction (H:=exampleHost) exampleUuid exampleSession tapOkButton
      {| timeout := Some (of_Z 25000); noMap := false |}
      (start lateSuccess) = Some (Returned (successResponse 0), w') /\
    length (sent w') = 1%nat.
Proof. eexists. split; [vm_compute; reflexivity | reflexivity]. Qed.

(** Hard timeouts and internal errors are never retried, whatever budget
    remains: an attempt that is rejected with one is the last of its
    call. *)
Lemma never_retried_rec `{Host} c fuel uuid this action_ options w res w' :
  c = ActionTimeoutError \/ c = ActionInternalError ->
  playAction_rec fuel uuid this action_ options w = Some (res, w') ->
  forall (i : nat) e,
    settlements w' !! (length (settlements w) + i)%nat = Some (Rejected e) ->
    cls e = c ->
    res = Threw e /\ length (sent w') = (length (sent w) + S i)%nat.
Proof.
  intros Hc. revert options w. induction fuel as [|fuel IH];
    intros options w; [discriminate|].
  simpl. destruct (prepare this action_ options) as [ma|e0].
  2:{ intros [= <- <-] i e Hi. apply lookup_lt_Some in Hi. lia. }
  destruct (await_response _ _ _ _) as [[s rest] at_].
  set (T := default (of_Z 10000) (timeout options)).
  set (w1 := attempted w (makePayload (uuid (drawn w)) ma T) T s rest at_).
  assert (Hfinal : Some (result_of s, w1) = Some (res, w') ->
    forall (i : nat) e,
      settlements w' !! (length (settlements w) + i)%nat
        = Some (Rejected e) ->
      cls e = c ->
      res = Threw e /\ length (sent w') = (length (sent w) + S i)%nat).
  { intros [= <- <-] i e Hi _. simpl in Hi. destruct i as [|i].
    - rewrite Nat.add_0_r, list_lookup_middle in Hi by reflexivity.
      injection Hi as ->. simpl. rewrite length_app. simpl. split; [easy | lia].
    - apply lookup_lt_Some in Hi. rewrite length_app in Hi. simpl in Hi. lia. }
  destruct s as [value|e1|]; try exact Hfinal.
  destruct (_ && _ && _) eqn:Er; [|exact Hfinal].
  intros Hrun i e Hi Hcls.
  pose proof (playAction_rec_extends _ _ _ _ _ _ _ _ Hrun)
    as (ps & ts & ss & _ & _ & Hss & _).
  subst w1. simpl in Hss. destruct i as [|i].
  - rewrite Hss, Nat.add_0_r, <- app_assoc in Hi. simpl in Hi.
    rewrite list_lookup_middle in Hi by reflexivity.
    injection Hi as ->. exfalso.
    assert (instanceof e ActionTimeoutError = true \/
            instanceof e ActionInternalError = true) as [Hi1 | Hi1].
    { unfold instanceof. rewrite Hcls.
      destruct Hc as [-> | ->]; [left | right]; reflexivity. }
    + rewrite Hi1 in Er. rewrite andb_false_r in Er. discriminate Er.
    + rewrite Hi1 in Er. rewrite andb_false_r in Er. discriminate Er.
  - specialize (IH _ _ Hrun i e). simpl in IH.
    rewrite !length_app in IH. simpl in IH.
    replace (length (settlements w) + 1 + i)%nat
      with (length (settlements w) + S i)%nat in IH by lia.
    destruct (IH Hi Hcls) as [-> Hlen]. split; [reflexivity | lia].
Qed.

Lemma timeout_and_internal_errors_terminal `{Host} :
  terminal ActionTimeoutError /\ terminal ActionInternalError.
Proof.
  split; intros uuid this action_ options events res w' Hrun i e Hi Hc.
  - exact (never_retried_rec ActionTimeoutError _ _ _ _ _ _ _ _
             (or_introl eq_refl) Hrun i e Hi Hc).
  - exact (never_retried_rec ActionInternalError _ _ _ _ _ _ _ _
             (or_intror eq_refl) Hrun i e Hi Hc).
Qed.

(** On responses that carry all their fields, as the records of this
    model do, the promise of an attempt always settles: every attempt
    ends with a response or with the hard timeout. *)
Lemma await_response_settles `{Host} payload_id due te inbox s rest at_ :
  await_response payload_id due te inbox = (s, rest, at_) -> s <> Pending.
Proof.
  intros Hr. apply await_response_spec in Hr.
  destruct Hr as [(pre & ev & _ & _ & _ & Hd) | (pre & _ & _ & -> & _)];
    [|discriminate].
  destruct ev as [value|error]; simpl in Hd.
  - unfold handleSuccess in Hd. destruct (Public.res_playback value);
      [|discriminate Hd].
    destruct (String.eqb _ _); [|discriminate Hd].
    injection Hd as <-. discriminate.
  - unfold handleError in Hd.
    destruct (Public.err_playback error) as [pb|] eqn:Epb; [|discriminate Hd].
    destruct (String.eqb _ _); [|discriminate Hd].
    injection Hd as <-.
    destruct (classify_rejects error pb Epb) as (e & -> & _). discriminate.
Qed.

Lemma playAction_rec_never_hangs `{Host} fuel uuid this action_ options w
    res w' :
  playAction_rec fuel uuid this action_ options w = Some (res, w') ->
  res <> Hangs.
Proof.
  revert options w. induction fuel as [|fuel IH]; intros options w;
    [discriminate|].
  simpl. destruct (prepare this action_ options) as [ma|e0];
    [|intros [= <- _]; discriminate].
  destruct (await_response _ _ _ _) as [[s rest] at_] eqn:Ea.
  apply await_response_settles in Ea.
  destruct s as [value|e|]; [intros [= <- _]; discriminate | |contradiction].
  destruct (_ && _ && _); [apply IH | intros [= <- _]; discriminate].
Qed.

(** *** The error of an ambiguous match *)

(** The errors of the checks and of the mapper carry no [errorId]. *)
Lemma unlabelled_Ok {A} (a : A) : unlabelled (Ok a).
Proof. intros e [=]. Qed.

Lemma unlabelled_bind {A B} (c : completion A) (k : A -> completion B) :
  unlabelled c -> (forall a, unlabelled (k a)) ->
  unlabelled (cbind c k).
Proof.
  intros Hc Hk e. destruct c as [a|e0]; cbn [cbind].
  - apply Hk.
  - intros [= <-]. now apply Hc.
Qed.

Lemma unlabelled_throw_if b msg :
  unlabelled (throw_if b (new_Error msg)) /\
  unlabelled (throw_if b (new_OperationalError msg)).
Proof. split; intros e; destruct b; simpl; intros [=]; now subst. Qed.

Lemma unlabelled_parsePositionValue v :
  unlabelled (parsePositionValue v).
Proof.
  intros e. destruct v as [n|s]; simpl; [discriminate|].
  destruct (endsWithChar s "%"); intros [=]; now subst.
Qed.

Ltac solve_unlabelled :=
  repeat first
    [ apply unlabelled_Ok
    | apply unlabelled_parsePositionValue
    | apply (proj1 (unlabelled_throw_if _ _))
    | apply (proj2 (unlabelled_throw_if _ _))
    | apply unlabelled_bind; [|intros ?] ].

Lemma unlabelled_mapMoves `{Host} this moves :
  unlabelled (InternalAPIMapper.mapMoves this moves).
Proof.
  induction moves as [|m moves IH]; cbn [InternalAPIMapper.mapMoves].
  - apply unlabelled_Ok.
  - apply unlabelled_bind.
    + unfold InternalAPIMapper.mapMove, InternalAPIMapper.getCoordinates.
      solve_unlabelled.
    + intros m'. apply unlabelled_bind; [exact IH|]. intros.
      solve_unlabelled.
Qed.

Lemma unlabelled_mapAction `{Host} this action_ :
  unlabelled (InternalAPIMapper.mapAction this action_).
Proof.
  unfold InternalAPIMapper.mapAction.
  apply unlabelled_bind.
  { destruct (Public.position action_) as [position|].
    - unfold InternalAPIMapper.mapPositionToCoordinates,
        Validator.isPositionWithinBounds, InternalAPIMapper.getCoordinates.
      solve_unlabelled.
    - destruct (Public.coordinates action_) as [c|]; [|solve_unlabelled].
      unfold InternalAPIMapper.mapCoordinates. solve_unlabelled. }
  intros coordinates. apply unlabelled_bind.
  { destruct (Public.localPosition action_) as [lp|]; [|solve_unlabelled].
    unfold InternalAPIMapper.mapLocalPosition. solve_unlabelled. }
  intros localPosition. apply unlabelled_bind.
  { destruct (Public.duration action_) as [d|]; [|solve_unlabelled].
    destruct (truthy d); solve_unlabelled. }
  intros _. destruct (Public.type action_); try apply unlabelled_Ok.
  apply unlabelled_bind; [apply unlabelled_mapMoves|]. intros.
  solve_unlabelled.
Qed.

Lemma unlabelled_prepare `{Host} this action_ options :
  unlabelled (prepare this action_ options).
Proof.
  unfold prepare.
  apply unlabelled_bind.
  { intros e. destruct (negb (config_record this)); simpl; intros [=].
    now subst. }
  intros _. apply unlabelled_bind; [solve_unlabelled|]. intros _.
  apply unlabelled_bind; [solve_unlabelled|]. intros _.
  apply unlabelled_bind.
  { destruct (Public.element action_) as [el|]; [|solve_unlabelled].
    apply unlabelled_bind; [|intros; solve_unlabelled].
    intros e. unfold validateElementAttributes.
    destruct (0 <? _)%nat; intros [=]. now subst. }
  intros _. destruct (noMap options); [solve_unlabelled|].
  apply unlabelled_bind; [apply unlabelled_mapAction|]. intros.
  solve_unlabelled.
Qed.

Lemma hardTimeoutError_unlabelled payload action_ :
  errorId (hardTimeoutError payload action_) = None.
Proof. reflexivity. Qed.

(** An error that carries the [errorId] of an ambiguous match was made
    by the constructor of [ActionAmbiguousElementError]. *)
Lemma classify_ambiguous `{Host} error e :
  classify error = Rejected e ->
  errorId e = Some "ambiguousMatch" ->
  Public.errorId error = "ambiguousMatch" /\
  new_ActionAmbiguousElementError error = Some e.
Proof.
  unfold classify, new_ActionInternalError,
    new_ActionElementNotFoundError, new_ActionInvalidArgumentError.
  destruct (String.eqb (Public.errorId error) "internalError") eqn:E1.
  { apply String.eqb_eq in E1.
    destruct (Public.err_playback error); cbn [mbind option_bind];
      [|discriminate].
    intros [= <-]. cbn [errorId ActionError_ctor]. rewrite E1.
    discriminate. }
  destruct (String.eqb (Public.errorId error) "notFound") eqn:E2.
  { apply String.eqb_eq in E2.
    destruct (Public.err_playback error); cbn [mbind option_bind];
      [|discriminate].
    intros [= <-]. cbn [errorId ActionError_ctor]. rewrite E2.
    discriminate. }
  destruct (String.eqb (Public.errorId error) "ambiguousMatch") eqn:E3.
  { apply String.eqb_eq in E3.
    destruct (new_ActionAmbiguousElementError error) as [e'|];
      [|discriminate].
    intros [= <-] _. now split. }
  apply String.eqb_neq in E3.
  destruct (String.eqb (Public.errorId error) "invalidArgument").
  { destruct (includes _ _); cbn [mbind option_bind].
    - destruct (Public.err_playback error); cbn [mbind option_bind];
        [|discriminate].
      intros [= <-]. cbn [errorId ActionError_ctor]. congruence.
    - intros [= <-]. cbn [errorId ActionError_ctor]. congruence. }
  intros [= <-]. cbn [errorId new_ActionError ActionError_ctor]. congruence.
Qed.

Lemma deliver_classify `{Host} payload_id ev e :
  deliver payload_id ev = Some (Rejected e) ->
  exists error, ev = playbackError error /\ classify error = Rejected e.
Proof.
  destruct ev as [value|error]; cbn [deliver].
  - unfold handleSuccess. destruct (Public.res_playback value);
      [|discriminate]. destruct (String.eqb _ _); discriminate.
  - unfold handleError. destruct (Public.err_playback error);
      [|discriminate]. destruct (String.eqb _ _); [|discriminate].
    intros [= Hc]. eauto.
Qed.

(** An error with an [errorId] that a call throws was made from an
    error response that the call found among the events. *)
Lemma thrown_with_errorId `{Host} fuel uuid this action_ :
  forall options w e w',
    playAction_rec fuel uuid this action_ options w = Some (Threw e, w') ->
    errorId e <> None ->
    exists at_ error,
      (at_, playbackError error) ∈ inbox w /\ classify error = Rejected e.
Proof.
  induction fuel as [|fuel IH]; intros options w e w'; [discriminate|].
  cbn [playAction_rec].
  destruct (prepare this action_ options) as [ma|e0] eqn:Ep.
  2:{ intros [= <- _] Hid.
      now rewrite (unlabelled_prepare _ _ _ _ Ep) in Hid. }
  destruct (await_response _ _ _ _) as [[s rest] at_] eqn:Ea.
  apply await_response_spec in Ea.
  assert (Hrest : forall x, x ∈ rest -> x ∈ inbox w).
  { destruct Ea as [(pre & ev & -> & _) | (pre & -> & _)]; intros x Hx;
      rewrite elem_of_app; right; [now apply elem_of_cons; right | exact Hx]. }
  assert (Hone : forall e1, s = Rejected e1 -> e = e1 -> errorId e <> None ->
    exists at_ error,
      (at_, playbackError error) ∈ inbox w /\ classify error = Rejected e).
  { intros e1 -> -> Hid.
    destruct Ea as [(pre & ev & Hinbox & _ & _ & Hd) |
                    (pre & _ & _ & [= ->] & _)];
      [|now rewrite hardTimeoutError_unlabelled in Hid].
    apply deliver_classify in Hd as (error & -> & Hc).
    exists at_, error. split; [|exact Hc].
    rewrite Hinbox, elem_of_app. right. now left. }
  destruct s as [value|e1|]; try discriminate.
  destruct (_ && _ && _).
  - intros Hrun Hid.
    destruct (IH _ _ _ _ Hrun Hid) as (a & error & Hin & Hc).
    exists a, error. split; [now apply Hrest | exact Hc].
  - intros [= <- _]. now apply (Hone e1).
Qed.

(** C7: a [playAction] that fails on an [ambiguousMatch] response.  The
    handler of the attempt rejects the response to its request with the
    [ActionAmbiguousElementError] made from it, and an error with the
    [errorId] of an ambiguous match that the call throws is the one made
    from such a response among the events.  The message of the error
    made from a response with 7 matched elements lists exactly the first
    5 of them and ends with "...and 2 more"; in general the first
    [min 5 n] elements are listed, and the suffix naming the [n - 5]
    omitted ones is present exactly when more than 5 matched. *)
Theorem ambiguous_message_lists_five `{Host} :
  (forall error e0 e1 e2 e3 e4 e5 e6,
     Public.err_matchedElements error = [e0; e1; e2; e3; e4; e5; e6] ->
     exists e,
       new_ActionAmbiguousElementError error = Some e /\
       cls e = ActionAmbiguousElementError /\
       message e =
         "Action requires 1 unique element but the selector returned 7. Provide a `matchIndex` to pick an element below or add additional attributes to your selector." +:+
         nl +:+ nl +:+
         join (nl +:+ nl)
           [formatElement 0 e0; formatElement 1 e1; formatElement 2 e2;
            formatElement 3 e3; formatElement 4 e4] +:+
         nl +:+ nl +:+ "...and 2 more") /\
  (forall elements : list Public.Element,
     exists formatted : list string,
       length formatted = Nat.min 5 (length elements) /\
       (forall i s, formatted !! i = Some s <->
          exists e, (i < 5)%nat /\ elements !! i = Some e /\
                    s = formatElement i e) /\
       formatAmbiguousElements elements =
         join (nl +:+ nl) formatted +:+
         (if (5 <? length elements)%nat
          then nl +:+ nl +:+ "...and " +:+
               pretty (length elements - 5)%nat +:+ " more"
          else EmptyString)) /\
  (forall error,
     exists e,
       new_ActionAmbiguousElementError error = Some e /\
       cls e = ActionAmbiguousElementError /\
       message e =
         "Action requires 1 unique element but the selector returned " +:+
         pretty (length (Public.err_matchedElements error)) +:+
         ". Provide a `matchIndex` to pick an element below or add additional attributes to your selector." +:+
         nl +:+ nl +:+
         formatAmbiguousElements (Public.err_matchedElements error)) /\
  (forall payload_id error pb,
     Public.errorId error = "ambiguousMatch" ->
     Public.err_playback error = Some pb ->
     Public.id pb = payload_id ->
     exists e,
       handleError payload_id error = Some (Rejected e) /\
       new_ActionAmbiguousElementError error = Some e) /\
  (forall uuid this action_ options events e w',
     playAction uuid this action_ options (start events)
       = Some (Threw e, w') ->
     errorId e = Some "ambiguousMatch" ->
     exists at_ error,
       (at_, playbackError error) ∈ events /\
       Public.errorId error = "ambiguousMatch" /\
       new_ActionAmbiguousElementError error = Some e /\
       instanceof e ActionAmbiguousElementError = true).
Proof.
  destruct ambiguous_message_format as [Hseven Hformat].
  split; [exact Hseven|]. split; [exact Hformat|]. split; [|split].
  - intros error. eexists. split; [reflexivity|]. split; reflexivity.
  - intros payload_id error pb Hid Hpb <-.
    unfold handleError, classify. rewrite Hpb, String.eqb_refl, Hid.
    cbn [String.eqb Ascii.eqb Bool.eqb andb]. eexists. split; reflexivity.
  - intros uuid this action_ options events e w' Hrun Hid.
    destruct (thrown_with_errorId _ _ _ _ _ _ _ _ Hrun)
      as (at_ & error & Hin & Hc); [now rewrite Hid|].
    destruct (classify_ambiguous error e Hc Hid) as [Herr Hnew].
    exists at_, error. split; [exact Hin|]. split; [exact Herr|].
    split; [exact Hnew|].
    unfold new_ActionAmbiguousElementError in Hnew. now injection Hnew as <-.
Qed.

Lemma ambiguous_message_lists_five_witness :
  exists e w',
    playAction (H:=exampleHost) exampleUuid exampleSession tapOkButton
      {| timeout := None; noMap := false |}
      (start [(100, playbackError sevenMatches)]) = Some (Threw e, w') /\
    cls e = ActionAmbiguousElementError /\
    message e =
      "Action requires 1 unique element but the selector returned 7. Provide a `matchIndex` to pick an element below or add additional attributes to your selector." +:+
      nl +:+ nl +:+
      "// 0" +:+ nl +:+ "{...}" +:+ nl +:+ nl +:+
      "// 1" +:+ nl +:+ "{...}" +:+ nl +:+ nl +:+
      "// 2" +:+ nl +:+ "{...}" +:+ nl +:+ nl +:+
      "// 3" +:+ nl +:+ "{...}" +:+ nl +:+ nl +:+
      "// 4" +:+ nl +:+ "{...}" +:+ nl +:+ nl +:+
      "...and 2 more".
Proof.
  destruct (ambiguous_message_lists_five (H:=exampleHost))
    as (Hseven & _ & _ & _ & Hcall).
  assert (Hrun : exists e w',
    playAction (H:=exampleHost) exampleUuid exampleSession tapOkButton
      {| timeout := None; noMap := false |}
      (start [(100, playbackError sevenMatches)]) = Some (Threw e, w') /\
    errorId e = Some "ambiguousMatch").
  { eexists _, _. split; [vm_compute; reflexivity | reflexivity]. }
  destruct Hrun as (e & w' & Hrun & Hid).
  destruct (Hcall exampleUuid exampleSession tapOkButton
              {| timeout := None; noMap := false |}
              [(100, playbackError sevenMatches)] e w' Hrun Hid)
    as (at_ & error & Hin & _ & Hnew & _).
  apply list_elem_of_singleton in Hin. injection Hin as _ ->.
  destruct (Hseven sevenMatches okButton okButton okButton okButton okButton
              okButton okButton eq_refl) as (e' & He' & Hcls & Hm).
  rewrite Hnew in He'. injection He' as <-.
  exists e, w'. split; [exact Hrun|]. split; [exact Hcls|].
  rewrite Hm. vm_compute. reflexivity.
Defined.

(** ** Session state machine *)

Section EngineFacts.
Import SessionEngine.
Context {V : Type}.
Context (mapEventValue : string -> V -> V).
Context (withAdbCommand : V -> V).
Context (percentage timestamp : V -> num).
Context `{Host}.

Local Abbreviation handleSocketEvent :=
  (SessionEngine.handleSocketEvent mapEventValue withAdbCommand).
Local Abbreviation deliver :=
  (SessionEngine.deliver mapEventValue withAdbCommand percentage timestamp).
Local Abbreviation handlePixelsChanged :=
  (SessionEngine.handlePixelsChanged percentage timestamp).
Local Abbreviation step :=
  (SessionEngine.step mapEventValue withAdbCommand percentage timestamp).
Local Abbreviation run :=
  (SessionEngine.run mapEventValue withAdbCommand percentage timestamp).
Local Abbreviation isolated_after_disconnect :=
  (SessionEngine.isolated_after_disconnect mapEventValue withAdbCommand
     percentage timestamp).

Lemma elem_of_remove_first {A} `{EqDecision A} (x y : A) l :
  x ∈ remove_first y l -> x ∈ l.
Proof.
  induction l as [|z l IH]; simpl; [easy|].
  destruct (decide (y = z)); [rewrite elem_of_cons; now right|].
  rewrite !elem_of_cons. intros [->|Hx]; [now left | right; now apply IH].
Qed.

Lemma NoDup_remove_first {A} `{EqDecision A} (y : A) l :
  NoDup l -> NoDup (remove_first y l).
Proof.
  induction 1 as [|z l Hz Hl IH]; simpl; [constructor|].
  destruct (decide (y = z)); [exact Hl|].
  constructor; [|exact IH]. intros Hin. apply Hz.
  now apply elem_of_remove_first in Hin.
Qed.

Lemma not_elem_of_remove_first {A} `{EqDecision A} (y : A) l :
  NoDup l -> y ∉ remove_first y l.
Proof.
  induction 1 as [|z l Hz Hl IH]; simpl; [apply not_elem_of_nil|].
  destruct (decide (y = z)) as [->|Hne]; [exact Hz|].
  rewrite elem_of_cons. intros [?|?]; [congruence | contradiction].
Qed.

Lemma elem_of_remove_last {A} `{EqDecision A} (x y : A) l :
  x ∈ remove_last y l -> x ∈ l.
Proof.
  unfold remove_last. rewrite elem_of_reverse. intros Hx.
  apply elem_of_remove_first in Hx. now rewrite elem_of_reverse in Hx.
Qed.

Lemma NoDup_remove_last {A} `{EqDecision A} (y : A) l :
  NoDup l -> NoDup (remove_last y l).
Proof.
  intros Hl. unfold remove_last. rewrite reverse_Permutation.
  apply NoDup_remove_first. now rewrite reverse_Permutation.
Qed.

Lemma not_elem_of_remove_last {A} `{EqDecision A} (y : A) l :
  NoDup l -> y ∉ remove_last y l.
Proof.
  intros Hl. unfold remove_last. rewrite elem_of_reverse.
  apply not_elem_of_remove_first. now rewrite reverse_Permutation.
Qed.

Lemma frames_refl id (sys : @System V) : frames id sys sys.
Proof.
  unfold frames. repeat split; try tauto. intros s' Hs'. exists s'. tauto.
Qed.

Lemma frames_trans id (sys1 sys2 sys3 : @System V) :
  frames id sys1 sys2 -> frames id sys2 sys3 -> frames id sys1 sys3.
Proof.
  intros (A1 & A2 & A3 & A4 & A5 & A6 & A7 & A8 & A9)
         (B1 & B2 & B3 & B4 & B5 & B6 & B7 & B8 & B9).
  unfold frames. split; [auto|]. split; [auto|].
  split; [intros x Hx; rewrite B3, A3 by exact Hx; reflexivity|].
  split; [intros x; rewrite B4; apply A4|].
  repeat (split; [congruence|]).
  intros s3 Hs3. destruct (B9 _ Hs3) as (s2 & Hs2 & E1 & E2 & E3).
  destruct (A9 _ Hs2) as (s1 & Hs1 & F1 & F2 & F3).
  exists s1. repeat split; congruence.
Qed.

(** Changing what the handler writes in the session [id] frames it. *)
Lemma update_session_frames id f (sys : @System V) :
  (forall s, waitForAnimationsPromises (f s) = waitForAnimationsPromises s /\
             waits (f s) = waits s /\ settledWaits (f s) = settledWaits s) ->
  frames id sys (update_session id f sys).
Proof.
  intros Hf. unfold frames. simpl. repeat split; try tauto.
  - intros x Hx. now rewrite lookup_alter_ne by congruence.
  - rewrite lookup_alter. destruct (decide (id = x)) as [->|]; [|easy].
    rewrite fmap_is_Some. easy.
  - rewrite lookup_alter. destruct (decide (id = x)) as [->|]; [|easy].
    rewrite fmap_is_Some. easy.
  - intros s'. rewrite lookup_alter_eq.
    destruct (sessions sys !! id) as [s|]; [|discriminate].
    simpl. intros [= <-]. exists s. split; [reflexivity|]. apply Hf.
Qed.

Lemma set_star_remove_frames id (sys : @System V) :
  frames id sys (set_star (remove_last id) sys).
Proof.
  unfold frames. simpl. repeat split; try tauto.
  - intros x. apply elem_of_remove_last.
  - apply NoDup_remove_last.
  - intros s' Hs'. exists s'. tauto.
Qed.

Lemma emit_frames id name (value : V) sys :
  frames id sys (emit id name value sys).
Proof.
  unfold emit, on_disconnect.
  set (sys1 := update_session id (log_emission (Named name value)) sys).
  assert (H1 : frames id sys sys1)
    by (apply update_session_frames; now intros).
  eapply frames_trans; [|apply update_session_frames; now intros].
  destruct (String.eqb name "disconnect"); [|exact H1].
  eapply frames_trans; [exact H1|].
  eapply frames_trans; [apply set_star_remove_frames|].
  apply update_session_frames. now intros.
Qed.

Lemma handleSocketEvent_frames id type value sys :
  frames id sys (handleSocketEvent id type value sys).
Proof.
  unfold SessionEngine.handleSocketEvent.
  destruct (sessions sys !! id); [|apply frames_refl].
  set (sys1 := update_session id (applyEvent withAdbCommand type value) sys).
  assert (H1 : frames id sys sys1)
    by (apply update_session_frames; now intros).
  destruct (mapAppetizerEvent mapEventValue type value); [|exact H1|];
    (eapply frames_trans; [exact H1 | apply emit_frames]).
Qed.

Lemma keeps_views_refl (sys : @System V) : keeps_views sys sys.
Proof. unfold keeps_views. repeat split; tauto. Qed.

Lemma keeps_views_trans (sys1 sys2 sys3 : @System V) :
  keeps_views sys1 sys2 -> keeps_views sys2 sys3 -> keeps_views sys1 sys3.
Proof.
  intros (A1 & A2 & A3 & A4) (B1 & B2 & B3 & B4). unfold keeps_views.
  split; [congruence|]. split; [congruence|].
  split; [intros x; rewrite B3; apply A3|].
  intros x. now rewrite B4.
Qed.

(** A change of a session that leaves what the handler writes alone
    keeps the views. *)
Lemma update_session_keeps_views id f (sys : @System V) :
  (forall s, handlerView (f s) = handlerView s) ->
  keeps_views sys (update_session id f sys).
Proof.
  intros Hf. unfold keeps_views. simpl. repeat split.
  - rewrite lookup_alter. destruct (decide (id = x)) as [->|]; [|easy].
    rewrite fmap_is_Some. easy.
  - rewrite lookup_alter. destruct (decide (id = x)) as [->|]; [|easy].
    rewrite fmap_is_Some. easy.
  - intros x. rewrite lookup_alter. destruct (decide (id = x)) as [->|];
      [|reflexivity].
    destruct (sessions sys !! x); simpl; [|reflexivity]. now rewrite Hf.
Qed.

Lemma send_keeps_views id command (sys : @System V) :
  keeps_views sys (send id command sys).
Proof. unfold keeps_views. simpl. repeat split; tauto. Qed.

Lemma set_pixelsChanged_keeps_views f (sys : @System V) :
  keeps_views sys (set_pixelsChanged f sys).
Proof. unfold keeps_views. simpl. repeat split; tauto. Qed.

Lemma handlePixelsChanged_keeps_views listener value sys :
  keeps_views sys (handlePixelsChanged listener value sys).1.
Proof.
  unfold SessionEngine.handlePixelsChanged. destruct listener as [sid promise].
  destruct (sessions sys !! sid) as [s|]; [|apply keeps_views_refl].
  destruct (waits s !! promise) as [w|]; [|apply keeps_views_refl].
  destruct (pixelsChangedStep percentage timestamp value w) as [w' r]. simpl.
  apply update_session_keeps_views. now intros.
Qed.

Lemma finish_keeps_views sid promise outcome (sys : @System V) :
  keeps_views sys (finish sid promise outcome sys).
Proof.
  unfold finish. destruct (sessions sys !! sid) as [s|];
    [|apply keeps_views_refl].
  assert (H1 : keeps_views sys
    (update_session sid
       (fun s => set_waits (waitForAnimationsPromises s ∖ {[promise]})
                   (delete promise (waits s))
                   (settledWaits s ++ [(promise, outcome)]) s)
       (set_pixelsChanged (remove_last (sid, promise)) sys))).
  { eapply keeps_views_trans; [apply set_pixelsChanged_keeps_views|].
    apply update_session_keeps_views. now intros. }
  destruct (_ =? _)%nat; [|exact H1].
  eapply keeps_views_trans; [exact H1 | apply send_keeps_views].
Qed.

Lemma waitForAnimations_keeps_views sid options (sys : @System V) :
  keeps_views sys (waitForAnimations sid options sys).
Proof.
  unfold waitForAnimations. destruct (sessions sys !! sid) as [s|];
    [|apply keeps_views_refl].
  cbv zeta.
  match goal with
  | |- keeps_views _ {| star := star ?x; pixelsChanged := _; outbox := _;
                        sessions := _; nextSession := _; nextPromise := _ |} =>
      assert (H1 : keeps_views sys x)
  end.
  { eapply keeps_views_trans; [apply send_keeps_views|].
    eapply keeps_views_trans; [apply set_pixelsChanged_keeps_views|].
    apply update_session_keeps_views. now intros. }
  exact H1.
Qed.

Lemma timeoutFires_keeps_views sid promise (sys : @System V) :
  keeps_views sys (timeoutFires sid promise sys).
Proof.
  unfold timeoutFires. destruct (sessions sys !! sid) as [s|];
    [|apply keeps_views_refl].
  destruct (waits s !! promise); [|apply keeps_views_refl].
  destruct (bool_decide _); [apply finish_keeps_views | apply keeps_views_refl].
Qed.

Lemma end_keeps_views sid (sys : @System V) :
  keeps_views sys (end_ sid sys).
Proof.
  unfold end_. destruct (sessions sys !! sid) as [s|];
    [|apply keeps_views_refl].
  eapply keeps_views_trans; [|apply send_keeps_views].
  apply update_session_keeps_views. now intros.
Qed.

Lemma keeps_views_stale sid view (sys sys' : @System V) :
  keeps_views sys sys' -> stale sid view sys -> stale sid view sys'.
Proof.
  intros (A1 & A2 & A3 & A4) (B1 & B2 & B3). unfold stale.
  rewrite A1, A2, A4. tauto.
Qed.

(** The socket handler of another session leaves a stale session as it
    is. *)
Lemma handleSocketEvent_stale sid view id type value sys :
  id <> sid -> stale sid view sys ->
  stale sid view (handleSocketEvent id type value sys).
Proof.
  intros Hne (B1 & B2 & B3).
  destruct (handleSocketEvent_frames id type value sys)
    as (A1 & _ & A3 & _ & A5 & _).
  unfold stale. rewrite A5, A3 by congruence.
  split; [exact B1|]. split; [|exact B3]. intros Hin. apply B2. now apply A1.
Qed.

Lemma pixel_listeners_keep_views value l (sys : @System V) acc :
  keeps_views sys
    (fold_left
       (fun '(sys, acc) listener =>
          let '(sys', r) := handlePixelsChanged listener value sys in
          (sys', if r then acc ++ [listener] else acc))
       l (sys, acc)).1.
Proof.
  revert sys acc. induction l as [|listener l IH]; intros sys acc;
    [apply keeps_views_refl|].
  simpl.
  pose proof (handlePixelsChanged_keeps_views listener value sys) as Hk.
  destruct (handlePixelsChanged listener value sys) as [sys' r].
  eapply keeps_views_trans; [exact Hk | apply IH].
Qed.

Lemma finishes_keep_views l (sys : @System V) :
  keeps_views sys
    (fold_left (fun sys '(sid, promise) => finish sid promise WaitResolved sys)
       l sys).
Proof.
  revert sys. induction l as [|[sid promise] l IH]; intros sys;
    [apply keeps_views_refl|].
  simpl. eapply keeps_views_trans; [apply finish_keeps_views | apply IH].
Qed.

Lemma socket_handlers_stale sid view type value l sys :
  sid ∉ l -> stale sid view sys ->
  stale sid view
    (fold_left (fun sys id => handleSocketEvent id type value sys) l sys).
Proof.
  revert sys. induction l as [|id l IH]; intros sys Hl Hs; [exact Hs|].
  apply not_elem_of_cons in Hl as [Hne Hl]. simpl.
  apply IH; [exact Hl|]. apply handleSocketEvent_stale; [congruence | exact Hs].
Qed.

(** The events of the channel do not reach a stale session. *)
Lemma deliver_stale sid view type value sys :
  stale sid view sys -> stale sid view (deliver type value sys).
Proof.
  intros Hs. unfold SessionEngine.deliver.
  pose proof (pixel_listeners_keep_views value (pixelsChanged sys) sys [])
    as Hk.
  destruct (if String.eqb type "pixelsChanged" then _ else _)
    as [sys1 resolved] eqn:E.
  assert (Hk1 : keeps_views sys sys1).
  { destruct (String.eqb type "pixelsChanged").
    - rewrite E in Hk. exact Hk.
    - injection E as <- <-. apply keeps_views_refl. }
  eapply keeps_views_stale; [apply finishes_keep_views|].
  apply socket_handlers_stale.
  - destruct Hk1 as (-> & _). apply Hs.
  - eapply keeps_views_stale; [exact Hk1 | exact Hs].
Qed.

Lemma newSession_stale sid view device_ (sys : @System V) :
  stale sid view sys -> stale sid view (newSession device_ sys).
Proof.
  intros (B1 & B2 & B3). unfold stale. simpl.
  split; [lia|]. split.
  - rewrite elem_of_app, list_elem_of_singleton. intros [?|?];
      [contradiction | lia].
  - rewrite lookup_insert_ne by lia. exact B3.
Qed.

Lemma step_stale sid view sys op :
  stale sid view sys -> stale sid view (step sys op).
Proof.
  intros Hs. destruct op as [d|type value|id|id options|id promise]; simpl.
  - now apply newSession_stale.
  - now apply deliver_stale.
  - eapply keeps_views_stale; [apply end_keeps_views | exact Hs].
  - eapply keeps_views_stale; [apply waitForAnimations_keeps_views | exact Hs].
  - eapply keeps_views_stale; [apply timeoutFires_keeps_views | exact Hs].
Qed.

Lemma run_stale sid view ops sys :
  stale sid view sys -> stale sid view (run ops sys).
Proof.
  revert sys. induction ops as [|op ops IH]; intros sys Hs; [exact Hs|].
  simpl. apply IH. now apply step_stale.
Qed.

Lemma init_well_formed : well_formed (@init V).
Proof.
  unfold well_formed. simpl. split; [constructor|].
  split; [intros sid Hin; now apply elem_of_nil in Hin|].
  intros sid [s Hs]. rewrite lookup_empty in Hs. discriminate.
Qed.

Lemma frames_well_formed id (sys sys' : @System V) :
  frames id sys sys' -> well_formed sys -> well_formed sys'.
Proof.
  intros (A1 & A2 & _ & A4 & A5 & _) (B1 & B2 & B3). unfold well_formed.
  split; [auto|]. split.
  - intros sid Hin. apply A4, B2, A1, Hin.
  - intros sid Hs. rewrite A5. apply B3, A4, Hs.
Qed.

Lemma keeps_views_well_formed (sys sys' : @System V) :
  keeps_views sys sys' -> well_formed sys -> well_formed sys'.
Proof.
  intros (A1 & A2 & A3 & _) (B1 & B2 & B3). unfold well_formed.
  rewrite A1, A2. split; [exact B1|]. split.
  - intros sid Hin. apply A3, B2, Hin.
  - intros sid Hs. apply B3, A3, Hs.
Qed.

Lemma socket_handlers_well_formed type value l sys :
  well_formed sys ->
  well_formed
    (fold_left (fun sys id => handleSocketEvent id type value sys) l sys).
Proof.
  revert sys. induction l as [|id l IH]; intros sys Hw; [exact Hw|].
  simpl. apply IH.
  eapply frames_well_formed; [apply handleSocketEvent_frames | exact Hw].
Qed.

Lemma deliver_well_formed type value sys :
  well_formed sys -> well_formed (deliver type value sys).
Proof.
  intros Hw. unfold SessionEngine.deliver.
  pose proof (pixel_listeners_keep_views value (pixelsChanged sys) sys [])
    as Hk.
  destruct (if String.eqb type "pixelsChanged" then _ else _)
    as [sys1 resolved] eqn:E.
  assert (Hk1 : keeps_views sys sys1).
  { destruct (String.eqb type "pixelsChanged").
    - rewrite E in Hk. exact Hk.
    - injection E as <- <-. apply keeps_views_refl. }
  eapply keeps_views_well_formed; [apply finishes_keep_views|].
  apply socket_handlers_well_formed.
  eapply keeps_views_well_formed; [exact Hk1 | exact Hw].
Qed.

Lemma newSession_well_formed device_ (sys : @System V) :
  well_formed sys -> well_formed (newSession device_ sys).
Proof.
  intros (B1 & B2 & B3). unfold well_formed. simpl. split; [|split].
  - apply NoDup_app. split; [exact B1|]. split; [|apply NoDup_singleton].
    intros x Hx. rewrite list_elem_of_singleton. intros ->.
    specialize (B3 _ (B2 _ Hx)). lia.
  - intros sid. rewrite elem_of_app, list_elem_of_singleton.
    rewrite lookup_insert_is_Some. intros [Hin | ->]; [|now left].
    destruct (decide (nextSession sys = sid)); [now left | right].
    split; [assumption | now apply B2].
  - intros sid. rewrite lookup_insert_is_Some.
    intros [<- | [_ Hs]]; [lia|]. specialize (B3 _ Hs). lia.
Qed.

Lemma step_well_formed sys op : well_formed sys -> well_formed (step sys op).
Proof.
  intros Hw. destruct op as [d|type value|id|id options|id promise]; simpl.
  - now apply newSession_well_formed.
  - now apply deliver_well_formed.
  - eapply keeps_views_well_formed; [apply end_keeps_views | exact Hw].
  - eapply keeps_views_well_formed;
      [apply waitForAnimations_keeps_views | exact Hw].
  - eapply keeps_views_well_formed;
      [apply timeoutFires_keeps_views | exact Hw].
Qed.

Lemma run_well_formed ops sys : well_formed sys -> well_formed (run ops sys).
Proof.
  revert sys. induction ops as [|op ops IH]; intros sys Hw; [exact Hw|].
  simpl. apply IH. now apply step_well_formed.
Qed.

(** On the event [disconnect] the handler of a session emits it, and the
    listener of the session takes the handler off the socket. *)
Lemma handleSocketEvent_disconnect id value sys s :
  sessions sys !! id = Some s ->
  star (handleSocketEvent id "disconnect" value sys) =
    remove_last id (star sys) /\
  exists s',
    sessions (handleSocketEvent id "disconnect" value sys) !! id = Some s' /\
    Named "disconnect" value ∈ emitted s'.
Proof.
  intros Hs. unfold SessionEngine.handleSocketEvent. rewrite Hs.
  change (mapAppetizerEvent mapEventValue "disconnect" value)
    with (@NotMapped V).
  unfold emit, on_disconnect. simpl. split; [reflexivity|].
  rewrite !lookup_alter_eq, Hs. simpl. eexists. split; [reflexivity|].
  simpl. rewrite !elem_of_app, !list_elem_of_singleton. tauto.
Qed.

Lemma socket_handlers_frame sid type value l sys :
  sid ∉ l ->
  let sys' :=
    fold_left (fun sys id => handleSocketEvent id type value sys) l sys in
  sessions sys' !! sid = sessions sys !! sid /\
  (forall x, x ∈ star sys' -> x ∈ star sys).
Proof.
  revert sys. induction l as [|id l IH]; intros sys Hl; [easy|].
  apply not_elem_of_cons in Hl as [Hne Hl]. simpl.
  destruct (handleSocketEvent_frames id type value sys)
    as (A1 & _ & A3 & _).
  destruct (IH (handleSocketEvent id type value sys) Hl) as [E1 E2].
  split; [rewrite E1; apply A3; congruence|].
  intros x Hx. apply A1, E2, Hx.
Qed.

Lemma socket_handlers_disconnect sid value l sys :
  well_formed sys -> NoDup l -> sid ∈ l ->
  (forall x, x ∈ l -> is_Some (sessions sys !! x)) ->
  let sys' :=
    fold_left (fun sys id => handleSocketEvent id "disconnect" value sys)
      l sys in
  (sid ∉ star sys') /\
  exists s', sessions sys' !! sid = Some s' /\
             Named "disconnect" value ∈ emitted s'.
Proof.
  revert sys. induction l as [|id l IH]; intros sys Hw Hnd Hin Hall;
    [now apply elem_of_nil in Hin|].
  apply NoDup_cons in Hnd as [Hid Hnd]. simpl.
  pose proof (handleSocketEvent_frames id "disconnect" value sys) as Hf.
  destruct (decide (sid = id)) as [->|Hne].
  - destruct (Hall id) as [s Hs]; [now left|].
    destruct (handleSocketEvent_disconnect id value sys s Hs)
      as (Hstar & s' & Hs' & Hem).
    destruct (socket_handlers_frame id "disconnect" value l
                (handleSocketEvent id "disconnect" value sys) Hid)
      as [E1 E2].
    split.
    + intros Hx. apply E2 in Hx. rewrite Hstar in Hx.
      revert Hx. apply not_elem_of_remove_last. apply Hw.
    + exists s'. rewrite E1. tauto.
  - apply IH.
    + eapply frames_well_formed; [exact Hf | exact Hw].
    + exact Hnd.
    + apply elem_of_cons in Hin as [?|?]; [contradiction | assumption].
    + intros x Hx. destruct Hf as (_ & _ & _ & A4 & _). apply A4, Hall.
      now right.
Qed.

Lemma deliver_disconnect_detaches sid value sys :
  well_formed sys -> sid ∈ star sys ->
  let sys' := deliver "disconnect" value sys in
  (sid ∉ star sys') /\ (sid < nextSession sys')%nat /\
  exists s', sessions sys' !! sid = Some s' /\
             Named "disconnect" value ∈ emitted s'.
Proof.
  intros Hw Hin sys'.
  pose proof (deliver_well_formed "disconnect" value sys Hw) as Hw'.
  fold sys' in Hw'.
  assert (Hd : (sid ∉ star sys') /\
    exists s', sessions sys' !! sid = Some s' /\
               Named "disconnect" value ∈ emitted s').
  { subst sys'. unfold SessionEngine.deliver. simpl.
    apply socket_handlers_disconnect; try assumption; apply Hw. }
  destruct Hd as (Hout & s' & Hs' & Hem).
  split; [exact Hout|]. split; [|eauto].
  apply Hw'. rewrite Hs'. eauto.
Qed.

(** C4, as the code has it: once an event [disconnect] has been
    delivered to a session that listens, the session has emitted it, its
    socket handler is off the socket, and through every later operation
    on the channel, whatever it is, the handler is not called again:
    the state that follows the channel, what the session has emitted and
    logged and the number of calls of the handler stay as they are. *)
Theorem stale_session_handler_detached ops1 sid value ops2 :
  sid ∈ star (run ops1 init) ->
  let sys2 := deliver "disconnect" value (run ops1 init) in
  let sys3 := run ops2 sys2 in
  (exists s2, sessions sys2 !! sid = Some s2 /\
              Named "disconnect" value ∈ emitted s2) /\
  (sid ∉ star sys2) /\
  (sid ∉ star sys3) /\
  (handlerView <$> (sessions sys3 !! sid)) =
  (handlerView <$> (sessions sys2 !! sid)).
Proof.
  intros Hin sys2 sys3.
  destruct (deliver_disconnect_detaches sid value (run ops1 init)
              (run_well_formed ops1 init init_well_formed) Hin)
    as (Hout & Hlt & Hobs).
  fold sys2 in Hout, Hlt, Hobs.
  assert (Hs : stale sid (handlerView <$> (sessions sys2 !! sid)) sys2).
  { unfold stale. tauto. }
  apply (run_stale _ _ ops2) in Hs. fold sys3 in Hs.
  destruct Hs as (_ & Hout3 & Hview). tauto.
Qed.

(** *** The pixel change detection toggle *)

Lemma detectionEnabled_app sid l sender command enabled :
  detectionEnabled sid (l ++ [(sender, command)]) enabled =
  if (sender =? sid)%nat then
    if String.eqb command "enablePixelChangeDetection" then true
    else if String.eqb command "disablePixelChangeDetection" then false
    else detectionEnabled sid l enabled
  else detectionEnabled sid l enabled.
Proof.
  revert enabled. induction l as [|[x c] l IH]; intros enabled; simpl.
  - destruct (sender =? sid)%nat; [|reflexivity].
    destruct (String.eqb command _); [reflexivity|].
    destruct (String.eqb command _); reflexivity.
  - apply IH.
Qed.

Lemma detectionEnabled_absent sid l enabled :
  (forall command, (sid, command) ∉ l) ->
  detectionEnabled sid l enabled = enabled.
Proof.
  revert enabled. induction l as [|[x c] l IH]; intros enabled Hl;
    [reflexivity|].
  simpl. destruct (x =? sid)%nat eqn:E.
  - apply Nat.eqb_eq in E as ->. exfalso. apply (Hl c). now left.
  - apply IH. intros command Hin. apply (Hl command). now right.
Qed.

Lemma keeps_sets_refl (sys : @System V) : keeps_sets sys sys.
Proof. unfold keeps_sets. tauto. Qed.

Lemma keeps_sets_trans (sys1 sys2 sys3 : @System V) :
  keeps_sets sys1 sys2 -> keeps_sets sys2 sys3 -> keeps_sets sys1 sys3.
Proof.
  intros (A1 & A2 & A3) (B1 & B2 & B3). unfold keeps_sets.
  split; [congruence|]. split; [congruence|]. intros x. now rewrite B3.
Qed.

Lemma keeps_sets_invariant (sys sys' : @System V) :
  keeps_sets sys sys' -> pixel_invariant sys -> pixel_invariant sys'.
Proof.
  intros (A1 & A2 & A3) (B1 & B2 & B3). unfold pixel_invariant.
  rewrite A1, A2. split; [|split; [exact B2|]].
  - intros sid s' Hs'. rewrite A1.
    specialize (A3 sid). rewrite Hs' in A3. simpl in A3.
    destruct (sessions sys !! sid) as [s|] eqn:Es; [|discriminate A3].
    injection A3 as ->. now apply B1.
  - intros sid Hs. apply B3. specialize (A3 sid).
    destruct Hs as [s' Hs']. rewrite Hs' in A3.
    destruct (sessions sys !! sid); [eauto | discriminate A3].
Qed.

Lemma frames_keeps_sets id (sys sys' : @System V) :
  frames id sys sys' -> keeps_sets sys sys'.
Proof.
  intros (_ & _ & A3 & A4 & A5 & _ & A7 & _ & A9). unfold keeps_sets.
  split; [exact A7|]. split; [exact A5|].
  intros x. destruct (decide (x = id)) as [->|Hne]; [|now rewrite A3].
  destruct (sessions sys' !! id) as [s'|] eqn:Es'.
  - destruct (A9 _ eq_refl) as (s & Hs & Hp & _). rewrite Hs. simpl.
    now rewrite Hp.
  - destruct (sessions sys !! id) as [s|] eqn:Es; [|reflexivity].
    assert (Hs : is_Some (sessions sys' !! id)) by (apply A4; eauto).
    rewrite Es' in Hs. now destruct Hs.
Qed.

Lemma update_session_keeps_sets id f (sys : @System V) :
  (forall s, waitForAnimationsPromises (f s) = waitForAnimationsPromises s) ->
  keeps_sets sys (update_session id f sys).
Proof.
  intros Hf. unfold keeps_sets. simpl. repeat split.
  intros x. rewrite lookup_alter. destruct (decide (id = x)) as [->|];
    [|reflexivity].
  destruct (sessions sys !! x); simpl; [|reflexivity]. now rewrite Hf.
Qed.

Lemma handlePixelsChanged_keeps_sets listener value sys :
  keeps_sets sys (handlePixelsChanged listener value sys).1.
Proof.
  unfold SessionEngine.handlePixelsChanged. destruct listener as [sid promise].
  destruct (sessions sys !! sid) as [s|]; [|apply keeps_sets_refl].
  destruct (waits s !! promise) as [w|]; [|apply keeps_sets_refl].
  destruct (pixelsChangedStep percentage timestamp value w) as [w' r]. simpl.
  apply update_session_keeps_sets. now intros.
Qed.

Lemma pixel_listeners_keep_sets value l (sys : @System V) acc :
  keeps_sets sys
    (fold_left
       (fun '(sys, acc) listener =>
          let '(sys', r) := handlePixelsChanged listener value sys in
          (sys', if r then acc ++ [listener] else acc))
       l (sys, acc)).1.
Proof.
  revert sys acc. induction l as [|listener l IH]; intros sys acc;
    [apply keeps_sets_refl|].
  simpl.
  pose proof (handlePixelsChanged_keeps_sets listener value sys) as Hk.
  destruct (handlePixelsChanged listener value sys) as [sys' r].
  eapply keeps_sets_trans; [exact Hk | apply IH].
Qed.

Lemma socket_handlers_keep_sets type value l sys :
  keeps_sets sys
    (fold_left (fun sys id => handleSocketEvent id type value sys) l sys).
Proof.
  revert sys. induction l as [|id l IH]; intros sys; [apply keeps_sets_refl|].
  simpl. eapply keeps_sets_trans; [|apply IH].
  apply (frames_keeps_sets id), handleSocketEvent_frames.
Qed.

(** What the [finally] callback of a call does: it takes the promise of
    the call, and no other, out of the set of its session, and it sends
    the disabling command exactly when the set is then empty. *)
Lemma finish_spec sid promise outcome (sys : @System V) s :
  sessions sys !! sid = Some s ->
  let sys' := finish sid promise outcome sys in
  (waitForAnimationsPromises <$> (sessions sys' !! sid)) =
    Some (waitForAnimationsPromises s ∖ {[promise]}) /\
  outbox sys' =
    outbox sys ++
    (if decide (waitForAnimationsPromises s ∖ {[promise]} = ∅)
     then [(sid, "disablePixelChangeDetection")] else []) /\
  (forall x, x <> sid -> sessions sys' !! x = sessions sys !! x) /\
  nextSession sys' = nextSession sys.
Proof.
  intros Hs. unfold finish. rewrite Hs. cbv zeta.
  destruct (size (waitForAnimationsPromises s ∖ {[promise]}) =? 0)%nat eqn:E.
  - apply Nat.eqb_eq, size_empty_iff in E. apply leibniz_equiv in E.
    destruct (decide _) as [_|Hne]; [|contradiction]. simpl.
    rewrite lookup_alter_eq, Hs. simpl. repeat split.
    intros x Hx. now rewrite lookup_alter_ne by congruence.
  - apply Nat.eqb_neq in E.
    destruct (decide _) as [He|_].
    + rewrite He in E. now rewrite size_empty in E.
    + simpl. rewrite lookup_alter_eq, Hs, app_nil_r. simpl. repeat split.
      intros x Hx. now rewrite lookup_alter_ne by congruence.
Qed.

Lemma finish_invariant sid promise outcome (sys : @System V) :
  pixel_invariant sys -> pixel_invariant (finish sid promise outcome sys).
Proof.
  intros (B1 & B2 & B3).
  destruct (sessions sys !! sid) as [s|] eqn:Es.
  2:{ unfold finish. rewrite Es. unfold pixel_invariant. tauto. }
  destruct (finish_spec sid promise outcome sys s Es) as (F1 & F2 & F3 & F4).
  set (sys' := finish sid promise outcome sys) in *.
  assert (Hsid : (sid < nextSession sys)%nat) by (apply B3; eauto).
  assert (Hsome : forall x, is_Some (sessions sys' !! x) ->
                            is_Some (sessions sys !! x)).
  { intros x Hx. destruct (decide (x = sid)) as [->|Hne]; [eauto|].
    now rewrite <- F3. }
  unfold pixel_invariant. rewrite F4. split; [|split].
  - intros x s' Hs'. rewrite F2.
    destruct (decide (x = sid)) as [->|Hne].
    + rewrite Hs' in F1. simpl in F1. injection F1 as Hset. rewrite Hset.
      destruct (decide (waitForAnimationsPromises s ∖ {[promise]} = ∅))
        as [He|He].
      * rewrite detectionEnabled_app, Nat.eqb_refl, He. simpl.
        rewrite bool_decide_eq_false_2; [reflexivity | tauto].
      * rewrite app_nil_r, (B1 sid s Es).
        rewrite !bool_decide_eq_true_2; [reflexivity | exact He |].
        intros Hempty. apply He. rewrite Hempty. apply leibniz_equiv.
        intros x. rewrite elem_of_difference, elem_of_empty. tauto.
    + rewrite F3 in Hs' by exact Hne.
      destruct (decide _); [|rewrite app_nil_r; now apply B1].
      rewrite detectionEnabled_app.
      assert ((sid =? x)%nat = false) as -> by (apply Nat.eqb_neq; congruence).
      now apply B1.
  - intros y c. rewrite F2, elem_of_app. intros [Hin | Hin]; [eauto|].
    destruct (decide _); [|now apply elem_of_nil in Hin].
    apply list_elem_of_singleton in Hin. injection Hin as -> _. exact Hsid.
  - intros x Hx. apply B3, Hsome, Hx.
Qed.

Lemma finishes_invariant l (sys : @System V) :
  pixel_invariant sys ->
  pixel_invariant
    (fold_left (fun sys '(sid, promise) => finish sid promise WaitResolved sys)
       l sys).
Proof.
  revert sys. induction l as [|[sid promise] l IH]; intros sys Hi;
    [exact Hi|].
  simpl. apply IH. now apply finish_invariant.
Qed.

Lemma deliver_invariant type value sys :
  pixel_invariant sys -> pixel_invariant (deliver type value sys).
Proof.
  intros Hi. unfold SessionEngine.deliver.
  pose proof (pixel_listeners_keep_sets value (pixelsChanged sys) sys [])
    as Hk.
  destruct (if String.eqb type "pixelsChanged" then _ else _)
    as [sys1 resolved] eqn:E.
  assert (Hk1 : keeps_sets sys sys1).
  { destruct (String.eqb type "pixelsChanged").
    - rewrite E in Hk. exact Hk.
    - injection E as <- <-. apply keeps_sets_refl. }
  apply finishes_invariant.
  eapply keeps_sets_invariant; [apply socket_handlers_keep_sets|].
  eapply keeps_sets_invariant; [exact Hk1 | exact Hi].
Qed.

Lemma newSession_invariant device_ (sys : @System V) :
  pixel_invariant sys -> pixel_invariant (newSession device_ sys).
Proof.
  intros (B1 & B2 & B3). unfold pixel_invariant. simpl. split; [|split].
  - intros x s'. simpl. rewrite lookup_insert.
    destruct (decide (nextSession sys = x)) as [<-|Hne].
    + intros [= <-]. simpl.
      rewrite detectionEnabled_absent.
      * rewrite bool_decide_eq_false_2; [reflexivity | tauto].
      * intros c Hin. specialize (B2 _ _ Hin). lia.
    + apply B1.
  - intros y c Hin. specialize (B2 _ _ Hin). lia.
  - intros x. rewrite lookup_insert_is_Some.
    intros [<- | [_ Hx]]; [lia|]. specialize (B3 _ Hx). lia.
Qed.

Lemma end_invariant sid (sys : @System V) :
  pixel_invariant sys -> pixel_invariant (end_ sid sys).
Proof.
  intros Hi. unfold end_. destruct (sessions sys !! sid) as [s|] eqn:Es;
    [|exact Hi].
  match goal with
  | |- pixel_invariant (send sid _ ?x) =>
      assert (H1 : pixel_invariant x)
  end.
  { eapply keeps_sets_invariant; [|exact Hi].
    apply update_session_keeps_sets. now intros. }
  destruct H1 as (B1 & B2 & B3). unfold pixel_invariant.
  split; [|split; [|exact B3]].
  - intros x s' Hs'. simpl. rewrite detectionEnabled_app. simpl.
    destruct (sid =? x)%nat; now apply B1.
  - intros y c. simpl. rewrite elem_of_app, list_elem_of_singleton.
    intros [Hin | [= -> _]]; [eauto|].
    apply B3. simpl. rewrite lookup_alter_eq, Es. simpl. eauto.
Qed.

Lemma waitForAnimations_invariant sid options (sys : @System V) :
  pixel_invariant sys -> pixel_invariant (waitForAnimations sid options sys).
Proof.
  intros (B1 & B2 & B3). unfold waitForAnimations.
  destruct (sessions sys !! sid) as [s|] eqn:Es;
    [|unfold pixel_invariant; tauto].
  assert (Hsid : (sid < nextSession sys)%nat) by (apply B3; eauto).
  unfold pixel_invariant. simpl. split; [|split].
  - intros x s'. simpl. rewrite detectionEnabled_app. simpl.
    rewrite lookup_alter. destruct (decide (sid = x)) as [<-|Hne].
    + rewrite Es, Nat.eqb_refl. simpl. intros [= <-]. simpl.
      rewrite bool_decide_eq_true_2; [reflexivity | set_solver].
    + assert ((sid =? x)%nat = false) as -> by (now apply Nat.eqb_neq).
      apply B1.
  - intros y c. rewrite elem_of_app, list_elem_of_singleton.
    intros [Hin | [= -> _]]; [eauto | exact Hsid].
  - intros x. rewrite lookup_alter. destruct (decide (sid = x)) as [<-|Hne];
      [intros _; exact Hsid | apply B3].
Qed.

Lemma timeoutFires_invariant sid promise (sys : @System V) :
  pixel_invariant sys -> pixel_invariant (timeoutFires sid promise sys).
Proof.
  intros Hi. unfold timeoutFires.
  destruct (sessions sys !! sid) as [s|]; [|exact Hi].
  destruct (waits s !! promise); [|exact Hi].
  destruct (bool_decide _); [now apply finish_invariant | exact Hi].
Qed.

Lemma step_invariant sys op :
  pixel_invariant sys -> pixel_invariant (step sys op).
Proof.
  intros Hi. destruct op as [d|type value|id|id options|id promise]; simpl.
  - now apply newSession_invariant.
  - now apply deliver_invariant.
  - now apply end_invariant.
  - now apply waitForAnimations_invariant.
  - now apply timeoutFires_invariant.
Qed.

Lemma run_invariant ops sys :
  pixel_invariant sys -> pixel_invariant (run ops sys).
Proof.
  revert sys. induction ops as [|op ops IH]; intros sys Hi; [exact Hi|].
  simpl. apply IH. now apply step_invariant.
Qed.

Lemma init_invariant : pixel_invariant (@init V).
Proof.
  unfold pixel_invariant, toggle_follows_set. simpl. split; [|split].
  - intros sid s Hs. rewrite lookup_empty in Hs. discriminate.
  - intros sid c Hin. now apply elem_of_nil in Hin.
  - intros sid [s Hs]. rewrite lookup_empty in Hs. discriminate.
Qed.

(** C9: the [finally] callback of a [waitForAnimations] call, however
    the call ended, takes the promise of the call and no other out of
    the set of its session, and sends the disabling command exactly when
    the set is empty after that, so never while another call of the
    session is in flight; the timer of a call in flight ends the call
    through this callback; and in every run the detection is enabled, as
    far as the commands of a session go, exactly while the set of the
    session is not empty. *)
Theorem detection_disabled_by_last_waiter :
  (forall (sys : @System V) sid s promise outcome,
     sessions sys !! sid = Some s ->
     let sys' := finish sid promise outcome sys in
     (waitForAnimationsPromises <$> (sessions sys' !! sid)) =
       Some (waitForAnimationsPromises s ∖ {[promise]}) /\
     outbox sys' =
       outbox sys ++
       (if decide (waitForAnimationsPromises s ∖ {[promise]} = ∅)
        then [(sid, "disablePixelChangeDetection")] else []) /\
     (forall other,
        other ∈ waitForAnimationsPromises s -> other <> promise ->
        outbox sys' = outbox sys)) /\
  (forall (sys : @System V) sid promise s w,
     sessions sys !! sid = Some s ->
     waits s !! promise = Some w ->
     promise ∈ waitForAnimationsPromises s ->
     step sys (TimeoutFires sid promise) =
     finish sid promise (WaitRejected (waitTimeoutError w)) sys) /\
  (forall ops sid s,
     sessions (run ops init) !! sid = Some s ->
     detectionEnabled sid (outbox (run ops init)) false =
     bool_decide (waitForAnimationsPromises s <> ∅)).
Proof.
  split; [|split].
  - intros sys sid s promise outcome Hs sys'.
    destruct (finish_spec sid promise outcome sys s Hs) as (F1 & F2 & _).
    fold sys' in F1, F2. split; [exact F1|]. split; [exact F2|].
    intros other Hin Hne. rewrite F2.
    destruct (decide _) as [He|_]; [|apply app_nil_r].
    exfalso. assert (Hd : other ∈ waitForAnimationsPromises s ∖ {[promise]}).
    { apply elem_of_difference. split; [exact Hin|].
      rewrite elem_of_singleton. exact Hne. }
    rewrite He in Hd. now apply not_elem_of_empty in Hd.
  - intros sys sid promise s w Hs Hw Hin. simpl. unfold timeoutFires.
    rewrite Hs, Hw. now rewrite bool_decide_eq_true_2.
  - intros ops sid s Hs.
    destruct (run_invariant ops init init_invariant) as (Ht & _).
    now apply Ht.
Qed.

End EngineFacts.

Lemma stale_session_handler_detached_witness :
  let sys2 :=
    SessionEngine.deliver (fun _ v => v) (fun v => v)
      examplePercentage exampleTimestamp "disconnect" NoPayload
      (exampleRun oneSession SessionEngine.init) in
  (0%nat ∉ SessionEngine.star (exampleRun reconnection sys2)) /\
  (SessionEngine.handlerView <$>
     (SessionEngine.sessions (exampleRun reconnection sys2) !! 0%nat)) =
  (SessionEngine.handlerView <$> (SessionEngine.sessions sys2 !! 0%nat)).
Proof.
  assert (Hin : 0%nat ∈
    SessionEngine.star (exampleRun oneSession SessionEngine.init)).
  { vm_compute. constructor. }
  destruct (stale_session_handler_detached (fun _ v => v) (fun v => v)
              examplePercentage exampleTimestamp (H:=exampleHost)
              oneSession 0%nat NoPayload reconnection Hin)
    as (_ & _ & Hout & Hview).
  split; [exact Hout | exact Hview].
Defined.

(** C4 as stated fails: a session that is waiting for the animations to
    end when it is disconnected keeps its [pixelsChanged] listener on
    the socket, and later events on the channel reach it: they end the
    wait, which takes the promise out of the set of the stale session
    and makes it send the command that disables the detection. *)
Lemma stale_session_pending_wait_reacts :
  ~ SessionEngine.isolated_after_disconnect (fun _ v => v) (fun v => v)
      examplePercentage exampleTimestamp (H:=exampleHost).
Proof.
  intros Hiso.
  specialize (Hiso waitThenDisconnect 0%nat NoPayload stillScreen).
  assert (Hin : 0%nat ∈
    SessionEngine.star
      (SessionEngine.run (fun _ v => v) (fun v => v) examplePercentage
         exampleTimestamp (H:=exampleHost) waitThenDisconnect
         SessionEngine.init)).
  { vm_compute. constructor. }
  specialize (Hiso Hin eq_refl). cbv zeta in Hiso.
  apply (f_equal (fmap (fun s =>
    size (SessionEngine.waitForAnimationsPromises s)))) in Hiso.
  vm_compute in Hiso. discriminate Hiso.
Qed.

Example stale_session_disables_detection :
  SessionEngine.outbox
    (exampleRun stillScreen
       (SessionEngine.deliver (fun _ v => v) (fun v => v)
          examplePercentage exampleTimestamp "disconnect" NoPayload
          (exampleRun waitThenDisconnect SessionEngine.init))) =
  [ (0%nat, "enablePixelChangeDetection");
    (0%nat, "disablePixelChangeDetection") ].
Proof. vm_compute. reflexivity. Qed.

Lemma detection_disabled_by_last_waiter_witness :
  let sys := exampleRun twoWaits SessionEngine.init in
  SessionEngine.outbox
    (SessionEngine.finish 0 0 SessionEngine.WaitResolved sys) =
  SessionEngine.outbox sys.
Proof.
  intros sys.
  destruct (detection_disabled_by_last_waiter (fun _ v => v) (fun v => v)
              examplePercentage exampleTimestamp (H:=exampleHost))
    as (Hfinish & _ & _).
  destruct (SessionEngine.sessions sys !! 0%nat) as [s|] eqn:Es;
    [|vm_compute in Es; discriminate Es].
  destruct (Hfinish sys 0%nat s 0%nat SessionEngine.WaitResolved Es)
    as (_ & _ & Hother).
  apply (Hother 1%nat); [|discriminate].
  assert (Hs : SessionEngine.waitForAnimationsPromises <$>
                 (SessionEngine.sessions sys !! 0%nat) = Some {[1%nat; 0%nat]}).
  { vm_compute. reflexivity. }
  rewrite Es in Hs. injection Hs as ->. set_solver.
Defined.

Example last_waiter_disables_detection :
  SessionEngine.outbox
    (exampleRun (twoWaits ++
                 [SessionEngine.TimeoutFires 0 0;
                  SessionEngine.TimeoutFires 0 1]) SessionEngine.init) =
  [ (0%nat, "enablePixelChangeDetection");
    (0%nat, "enablePixelChangeDetection");
    (0%nat, "disablePixelChangeDetection") ].
Proof. vm_compute. reflexivity. Qed.

(* ===================================================================== *)
(** * Further properties of the code *)
(* ===================================================================== *)

(** ** The order of JavaScript numbers *)

Lemma lt_not_le a b :
  isNaN a = false -> isNaN b = false -> JsNum.lt a b = negb (JsNum.le b a).
Proof.
  destruct a as [|[]|p], b as [|[]|q]; simpl; try discriminate; reflexivity.
Qed.

Lemma le_Fin p q : JsNum.le (Fin p) (Fin q) = true <-> p <= q.
Proof. simpl. apply Qle_bool_iff. Qed.

Lemma le_Fin_false p q : JsNum.le (Fin p) (Fin q) = false <-> q < p.
Proof. simpl. apply Qle_bool_false. Qed.

Lemma le_total a b :
  isNaN a = false -> isNaN b = false ->
  JsNum.le a b = false -> JsNum.le b a = true.
Proof.
  destruct a as [|[]|p], b as [|[]|q]; simpl; try discriminate; auto.
  intros _ _ Hf. apply Qle_bool_false in Hf. apply Qle_bool_iff. lra.
Qed.

Lemma le_trans_num a b c :
  JsNum.le a b = true -> JsNum.le b c = true -> JsNum.le a c = true.
Proof.
  destruct a as [|[]|p], b as [|[]|q], c as [|[]|r]; simpl;
    try discriminate; auto.
  rewrite !Qle_bool_iff. lra.
Qed.

Lemma le_refl_num a : isNaN a = false -> JsNum.le a a = true.
Proof.
  destruct a as [|[]|p]; simpl; try discriminate; auto.
  intros _. apply Qle_bool_iff. lra.
Qed.

(** ** Utilities *)

(** X6: [clamp].  With a lower bound that does not exceed the upper
    bound the result lies between the two, and a value that already does
    is returned as it is; with bounds that are crossed the result is the
    upper bound; and the result is [NaN] as soon as one argument is. *)
Theorem clamp_within_bounds (value lo hi : num) :
  (isNaN value = false -> isNaN lo = false -> isNaN hi = false ->
   JsNum.le lo hi = true ->
   JsNum.le lo (Util.clamp value lo hi) = true /\
   JsNum.le (Util.clamp value lo hi) hi = true /\
   (JsNum.le lo value = true -> JsNum.le value hi = true ->
    Util.clamp value lo hi = value)) /\
  (isNaN value = false -> isNaN lo = false -> isNaN hi = false ->
   JsNum.le lo hi = false -> Util.clamp value lo hi = hi) /\
  (isNaN value || isNaN lo || isNaN hi = true ->
   Util.clamp value lo hi = NaN).
Proof.
  assert (Hmax : forall a b, isNaN a = false -> isNaN b = false ->
            JsNum.max a b = if JsNum.le b a then a else b).
  { intros a b Ha Hb. unfold JsNum.max.
    rewrite (lt_not_le a b Ha Hb).
    destruct a, b; try discriminate; destruct (JsNum.le _ _); reflexivity. }
  assert (Hmin : forall a b, isNaN a = false -> isNaN b = false ->
            JsNum.min a b = if JsNum.le a b then a else b).
  { intros a b Ha Hb. unfold JsNum.min.
    rewrite (lt_not_le b a Hb Ha).
    destruct a, b; try discriminate; destruct (JsNum.le _ _); reflexivity. }
  split; [|split].
  - intros Hv Hlo Hhi Hle. unfold Util.clamp.
    rewrite (Hmax value lo Hv Hlo).
    destruct (JsNum.le lo value) eqn:Elv.
    + rewrite (Hmin value hi Hv Hhi).
      destruct (JsNum.le value hi) eqn:Evh.
      * repeat split; auto.
      * repeat split; [exact Hle | now apply le_refl_num | discriminate].
    + rewrite (Hmin lo hi Hlo Hhi), Hle.
      repeat split; [now apply le_refl_num | exact Hle | discriminate].
  - intros Hv Hlo Hhi Hle. unfold Util.clamp.
    rewrite (Hmax value lo Hv Hlo).
    assert (Hm : forall m, isNaN m = false -> JsNum.le lo m = true ->
              JsNum.min m hi = hi).
    { intros m Hm Hlm. rewrite (Hmin m hi Hm Hhi).
      destruct (JsNum.le m hi) eqn:Emh; [|reflexivity].
      rewrite (le_trans_num _ _ _ Hlm Emh) in Hle. discriminate. }
    destruct (JsNum.le lo value) eqn:Elv.
    + now apply Hm.
    + apply Hm; [exact Hlo | now apply le_refl_num].
  - unfold Util.clamp.
    destruct value as [|[]|v], lo as [|[]|l], hi as [|[]|h]; simpl;
      try discriminate; try reflexivity;
      intros _; repeat (destruct (negb _) || destruct (Qle_bool _ _));
      reflexivity.
Qed.

Lemma clamp_within_bounds_witness :
  Util.clamp (Fin (1 # 2)) (of_Z 0) (of_Z 1) = Fin (1 # 2) /\
  Util.clamp (of_Z 5) (of_Z 1) (of_Z 0) = of_Z 0.
Proof.
  destruct (clamp_within_bounds (Fin (1 # 2)) (of_Z 0) (of_Z 1))
    as [Hin _].
  destruct (clamp_within_bounds (of_Z 5) (of_Z 1) (of_Z 0))
    as [_ [Hcrossed _]].
  split.
  - apply Hin; reflexivity.
  - apply Hcrossed; reflexivity.
Defined.

(** *** [retry] *)

Lemma of_nat_le (i n : nat) :
  JsNum.le (of_Z (Z.of_nat i)) (of_Z (Z.of_nat n)) = true <-> (i <= n)%nat.
Proof.
  unfold of_Z. rewrite le_Fin, <- Zle_Qle. lia.
Qed.

Lemma of_nat_strict_eq (i n : nat) :
  strict_eq (of_Z (Z.of_nat i)) (of_Z (Z.of_nat n)) = true <-> i = n.
Proof.
  unfold of_Z. simpl. rewrite Qeq_bool_iff, inject_Z_injective. lia.
Qed.

Section RetryFacts.
Context {T E : Type} (fn : nat -> T + E).
Context (timeout : num) (predicate : E -> nat -> bool).

Local Abbreviation retried_before := (Util.retried_before fn predicate).
Local Abbreviation allowed_calls := Util.allowed_calls.

Lemma retry_from_integer (n fuel i : nat) :
  (1 <= i <= n)%nat -> (n - i < fuel)%nat -> retried_before i ->
  exists r,
    Util.retry_from fn (of_Z (Z.of_nat n)) timeout predicate fuel i
      (repeat timeout (i - 1)) = Some r /\
    (i <= Util.calls r <= n)%nat /\
    Util.sleeps r = repeat timeout (Util.calls r - 1) /\
    retried_before (Util.calls r) /\
    match Util.ended r with
    | Util.RetryReturned v => fn (Util.calls r) = inl v
    | Util.RetryThrew e =>
        fn (Util.calls r) = inr e /\
        (Util.calls r = n \/ predicate e (Util.calls r) = false)
    | Util.RetryThrewNull => False
    end.
Proof.
  revert i. induction fuel as [|fuel IH]; intros i Hi Hf Hbefore; [lia|].
  cbn [Util.retry_from].
  assert (Hle : JsNum.le (of_Z (Z.of_nat i)) (of_Z (Z.of_nat n)) = true)
    by (apply of_nat_le; lia).
  rewrite Hle.
  destruct (fn i) as [v|e] eqn:Efn.
  - eexists. split; [reflexivity|]. simpl.
    repeat split; try lia; try assumption.
  - destruct (strict_eq _ _) eqn:Eeq; simpl.
    + apply of_nat_strict_eq in Eeq. subst i.
      eexists. split; [reflexivity|]. simpl.
      repeat split; try lia; try assumption; left; reflexivity.
    + destruct (predicate e i) eqn:Ep; simpl.
      * assert (Hne : i <> n).
        { intros ->. assert (strict_eq (of_Z (Z.of_nat n))
                               (of_Z (Z.of_nat n)) = true)
            by now apply of_nat_strict_eq. congruence. }
        assert (Hrep : (repeat timeout (i - 1) ++ [timeout])%list =
                       repeat timeout (S i - 1)).
        { replace (S i - 1)%nat with (S (i - 1)) by lia.
          simpl. symmetry. apply repeat_cons. }
        rewrite Hrep.
        destruct (IH (S i)) as (r & Hr & Hc & Hs & Hb & He); [lia | lia | |].
        { intros j Hj. destruct (decide (j = i)) as [->|Hji].
          - eauto.
          - apply Hbefore. lia. }
        exists r. split; [exact Hr|]. repeat split; try lia; assumption.
      * eexists. split; [reflexivity|]. simpl.
        repeat split; try lia; try assumption; now right.
Qed.

(** X4: with a positive whole number [n] of [retries], [retry] ends
    after at most [n] calls of [fn], which it makes one after the other
    with a wait of [timeout] before each call but the first.  It returns
    the value of the first call that succeeds; otherwise it throws the
    error of its last call, which is the [n]-th or one that the
    predicate refused to retry.  It never ends with the [throw null]
    that follows the loop. *)
Theorem retry_at_most_n_calls (n fuel : nat) :
  (1 <= n)%nat -> (n <= fuel)%nat ->
  exists r,
    Util.retry_from fn (of_Z (Z.of_nat n)) timeout predicate fuel 1 []
      = Some r /\
    (1 <= Util.calls r <= n)%nat /\
    Util.sleeps r = repeat timeout (Util.calls r - 1) /\
    retried_before (Util.calls r) /\
    match Util.ended r with
    | Util.RetryReturned v => fn (Util.calls r) = inl v
    | Util.RetryThrew e =>
        fn (Util.calls r) = inr e /\
        (Util.calls r = n \/ predicate e (Util.calls r) = false)
    | Util.RetryThrewNull => False
    end.
Proof.
  intros Hn Hf.
  apply (retry_from_integer n fuel 1); [lia | lia |].
  intros j Hj. lia.
Qed.

Lemma retry_from_fraction (q : Q) (fuel i : nat) slept :
  ~ (exists n : nat, q == inject_Z (Z.of_nat n)) ->
  (1 <= i)%nat -> (i <= S (allowed_calls (Fin q)))%nat ->
  (S (allowed_calls (Fin q)) - i < fuel)%nat ->
  retried_before (S (allowed_calls (Fin q))) ->
  Util.retry_from fn (Fin q) timeout predicate fuel i slept =
  Some {| Util.ended := Util.RetryThrewNull;
          Util.calls := allowed_calls (Fin q);
          Util.sleeps :=
            (slept ++ repeat timeout (S (allowed_calls (Fin q)) - i))%list |}.
Proof.
  intros Hfrac. revert i slept.
  induction fuel as [|fuel IH]; intros i slept Hi Hmax Hf Hbefore; [lia|].
  cbn [Util.retry_from Util.allowed_calls] in *.
  pose proof (Qfloor_le q) as Hfl. pose proof (Qlt_floor q) as Hfu.
  destruct (decide (i = S (Z.to_nat (Qfloor q)))) as [->|Hne].
  - assert (Hle : JsNum.le (of_Z (Z.of_nat (S (Z.to_nat (Qfloor q)))))
                    (Fin q) = false).
    { unfold of_Z. apply le_Fin_false.
      eapply Qlt_le_trans; [exact Hfu|].
      rewrite <- Zle_Qle. lia. }
    rewrite Hle. rewrite Nat.sub_diag. simpl. rewrite app_nil_r.
    reflexivity.
  - assert (Hiq : (Z.of_nat i <= Qfloor q)%Z) by lia.
    assert (Hle : JsNum.le (of_Z (Z.of_nat i)) (Fin q) = true).
    { unfold of_Z. apply le_Fin.
      eapply Qle_trans; [|exact Hfl]. now rewrite <- Zle_Qle. }
    rewrite Hle.
    destruct (Hbefore i) as (e & -> & Hp); [lia|].
    assert (Heq : strict_eq (of_Z (Z.of_nat i)) (Fin q) = false).
    { unfold of_Z. simpl. destruct (Qeq_bool _ _) eqn:Eq; [|reflexivity].
      apply Qeq_bool_iff in Eq. exfalso. apply Hfrac. exists i.
      now symmetry. }
    rewrite Heq, Hp. simpl.
    rewrite (IH (S i)); [| lia | lia | lia | exact Hbefore].
    f_equal. f_equal. rewrite <- app_assoc. f_equal.
    replace (S (Z.to_nat (Qfloor q)) - i)%nat
      with (S (S (Z.to_nat (Qfloor q)) - S i)) by lia.
    reflexivity.
Qed.

(** X5: with a count of [retries] that is not a whole number the test
    [i === retries] never holds, so when every call that the count
    allows fails and is retried, [retry] waits once more after the last
    of them and ends with [throw null]: the error of [fn] is lost.  A
    count below 1, or [NaN], makes no call at all. *)
Theorem retry_fraction_loses_error (retries : num) (fuel : nat) :
  match retries with
  | Fin q => ~ (exists n : nat, q == inject_Z (Z.of_nat n))
  | Inf negative => negative = true
  | NaN => True
  end ->
  (allowed_calls retries < fuel)%nat ->
  retried_before (S (allowed_calls retries)) ->
  Util.retry_from fn retries timeout predicate fuel 1 [] =
  Some {| Util.ended := Util.RetryThrewNull;
          Util.calls := allowed_calls retries;
          Util.sleeps := repeat timeout (allowed_calls retries) |}.
Proof.
  intros Hr Hf Hbefore. destruct retries as [|negative|q].
  - destruct fuel; [simpl in Hf; lia | reflexivity].
  - subst negative. destruct fuel; [simpl in Hf; lia | reflexivity].
  - rewrite (retry_from_fraction q fuel 1 [] Hr); try lia; try assumption.
    simpl. rewrite Nat.sub_0_r. reflexivity.
Qed.

End RetryFacts.

Lemma retry_at_most_n_calls_witness :
  exists r,
    Util.retry_from failTwice (of_Z (Z.of_nat 3)) (of_Z 1000)
      (fun _ _ => true) 3 1 [] = Some r /\
    Util.calls r = 3%nat /\ Util.ended r = Util.RetryReturned 7%Z.
Proof.
  destruct (retry_at_most_n_calls failTwice (of_Z 1000) (fun _ _ => true)
              3 3) as (r & Hr & Hc & Hs & Hb & He); [lia | lia |].
  exists r. split; [exact Hr|].
  vm_compute in Hr. injection Hr as <-. split; reflexivity.
Defined.

Lemma retry_fraction_loses_error_witness :
  Util.retry_from failTwice (Fin (5 # 2)) (of_Z 1000) (fun _ _ => true)
    3 1 [] =
  Some {| Util.ended := Util.RetryThrewNull; Util.calls := 2;
          Util.sleeps := [of_Z 1000; of_Z 1000] |}.
Proof.
  apply (retry_fraction_loses_error failTwice (of_Z 1000) (fun _ _ => true)
           (Fin (5 # 2)) 3).
  - intros (n & Hn). unfold Qeq in Hn. simpl in Hn. lia.
  - vm_compute. lia.
  - intros j Hj. exists "failed". split; [|reflexivity].
    assert (Hj' : (j = 1 \/ j = 2)%nat).
    { change (Util.allowed_calls (Fin (5 # 2))) with 2%nat in Hj. lia. }
    destruct Hj' as [-> | ->]; reflexivity.
Defined.

(** *** [uuid] *)

(** A draw of [Math.random()] gives one of the 16 digits. *)
Lemma ToInt32_random q :
  0 <= q -> q < 1 ->
  (0 <= Util.ToInt32 (Fin q * of_Z 16)%num <= 15)%Z.
Proof.
  intros H0 H1. unfold of_Z. cbn [JsNum.mul Util.ToInt32].
  assert (H0' : 0 <= q * inject_Z 16).
  { change (inject_Z 16) with 16. lra. }
  assert (Hle : Qle_bool 0 (q * inject_Z 16) = true)
    by now apply Qle_bool_iff.
  rewrite Hle.
  pose proof (Qfloor_nonneg _ H0') as Hf0.
  assert (Hf1 : (Qfloor (q * inject_Z 16) < 16)%Z).
  { rewrite Zlt_Qlt. eapply Qle_lt_trans; [apply Qfloor_le|].
    change (inject_Z 16) with 16. lra. }
  rewrite Z.mod_small by lia. lia.
Qed.

Lemma toString16_digit (z : Z) :
  (0 <= z <= 15)%Z ->
  exists c, Util.toString16 z = String c EmptyString /\ Util.is_hex c = true.
Proof.
  intros Hz.
  assert (Hcases : (z = 0 \/ z = 1 \/ z = 2 \/ z = 3 \/ z = 4 \/ z = 5 \/
                    z = 6 \/ z = 7 \/ z = 8 \/ z = 9 \/ z = 10 \/ z = 11 \/
                    z = 12 \/ z = 13 \/ z = 14 \/ z = 15)%Z) by lia.
  repeat (destruct Hcases as [-> | Hcases];
          [eexists; split; reflexivity|]).
  subst z. eexists; split; reflexivity.
Qed.

Lemma toString16_variant (r : Z) :
  (0 <= r <= 15)%Z ->
  exists c,
    Util.toString16 (Z.lor (Z.land r 3) 8) = String c EmptyString /\
    Ascii.eqb c "8" || Ascii.eqb c "9" || Ascii.eqb c "a" || Ascii.eqb c "b"
      = true.
Proof.
  intros Hr.
  assert (Hcases : (r = 0 \/ r = 1 \/ r = 2 \/ r = 3 \/ r = 4 \/ r = 5 \/
                    r = 6 \/ r = 7 \/ r = 8 \/ r = 9 \/ r = 10 \/ r = 11 \/
                    r = 12 \/ r = 13 \/ r = 14 \/ r = 15)%Z) by lia.
  repeat (destruct Hcases as [-> | Hcases];
          [eexists; split; reflexivity|]).
  subst r. eexists; split; reflexivity.
Qed.

Lemma matches_template_length template s :
  Util.matches_template template s = true ->
  String.length s = String.length template.
Proof.
  revert s. induction template as [|t template IH]; intros [|c s]; simpl;
    try discriminate; [reflexivity|].
  intros Hm. apply andb_prop in Hm as [_ Hm]. f_equal. now apply IH.
Qed.

(** Whatever the template, each [x] or [y] costs one draw and is
    replaced by one digit of its kind. *)
Lemma replace_xy_matches (random : nat -> num) template :
  (forall n, exists q, random n = Fin q /\ 0 <= q /\ q < 1) ->
  forall drawn,
    Util.matches_template template
      (Util.replace_xy random drawn template).1 = true /\
    (Util.replace_xy random drawn template).2 =
      (drawn + length (List.filter
                         (fun c => Ascii.eqb c "x" || Ascii.eqb c "y")
                         (list_ascii_of_string template)))%nat.
Proof.
  intros Hrandom. induction template as [|t template IH]; intros drawn.
  - simpl. split; [reflexivity | lia].
  - cbn [Util.replace_xy list_ascii_of_string List.filter].
    destruct (Ascii.eqb t "x") eqn:Ex; [|destruct (Ascii.eqb t "y") eqn:Ey];
      cbn [orb].
    + destruct (IH (S drawn)) as [Hm Hn].
      destruct (Util.replace_xy random (S drawn) template) as [out n].
      cbn [fst snd] in *.
      destruct (Hrandom drawn) as (q & -> & H0 & H1).
      unfold Util.uuid_digit. rewrite Ex.
      destruct (toString16_digit _ (ToInt32_random q H0 H1))
        as (c & -> & Hc).
      change (String c EmptyString +:+ out) with (String c out).
      simpl. rewrite Ex, Hc, Hm. split; [reflexivity | lia].
    + destruct (IH (S drawn)) as [Hm Hn].
      destruct (Util.replace_xy random (S drawn) template) as [out n].
      cbn [fst snd] in *.
      destruct (Hrandom drawn) as (q & -> & H0 & H1).
      unfold Util.uuid_digit. rewrite Ex.
      destruct (toString16_variant _ (ToInt32_random q H0 H1))
        as (c & -> & Hc).
      change (String c EmptyString +:+ out) with (String c out).
      simpl. rewrite Ex, Ey, Hc, Hm. split; [reflexivity | lia].
    + destruct (IH drawn) as [Hm Hn].
      destruct (Util.replace_xy random drawn template) as [out n].
      cbn [fst snd] in *.
      simpl. rewrite Ex, Ey, Ascii.eqb_refl, Hm. split; [reflexivity | lia].
Qed.

(** X7: whatever [Math.random()] returns in [0, 1), [uuid()] makes 31
    draws and returns a string of 36 characters of the shape of a
    version 4 identifier: hyphens after 8, 13, 18 and 23 characters, the
    digit [4] as the version, one of [8], [9], [a], [b] as the variant,
    and a lower-case hexadecimal digit everywhere else. *)
Theorem uuid_is_version_4 (random : nat -> num) (drawn : nat) :
  (forall n, exists q, random n = Fin q /\ 0 <= q /\ q < 1) ->
  exists s,
    Util.uuid random drawn = (s, (drawn + 31)%nat) /\
    Util.matches_template "xxxxxxxx-xxxx-4xxx-yxxx-xxxxxxxxxxxx" s = true /\
    String.length s = 36%nat.
Proof.
  intros Hrandom.
  destruct (replace_xy_matches random Util.uuid_template Hrandom drawn)
    as [Hm Hn].
  unfold Util.uuid. destruct (Util.replace_xy random drawn _) as [s n].
  cbn [fst snd] in *. exists s. split; [|split].
  - rewrite Hn. reflexivity.
  - exact Hm.
  - now rewrite (matches_template_length _ _ Hm).
Qed.

Lemma uuid_is_version_4_witness :
  exists s,
    Util.uuid highRandom 0 = (s, 31%nat) /\
    Util.matches_template "xxxxxxxx-xxxx-4xxx-yxxx-xxxxxxxxxxxx" s = true /\
    String.length s = 36%nat.
Proof.
  apply (uuid_is_version_4 highRandom 0).
  intros n. exists (15 # 16). split; [reflexivity|]. split; lra.
Defined.

(** *** [cleanObject] *)

(** Induction on values, with the members of arrays and objects. *)
Lemma jsvalue_induction (P : Util.jsvalue -> Prop) :
  P Util.VUndefined -> P Util.VNull -> (forall b, P (Util.VBool b)) ->
  (forall n, P (Util.VNum n)) -> (forall s, P (Util.VStr s)) ->
  (forall items, Forall P items -> P (Util.VArr items)) ->
  (forall entries, Forall (fun kv => P kv.2) entries ->
     P (Util.VObj entries)) ->
  forall v, P v.
Proof.
  intros HU HN HB HNum HS HA HO. fix IH 1.
  intros [| |b|n|s|items|entries];
    [exact HU | exact HN | apply HB | apply HNum | apply HS | | ].
  - apply HA. revert items. fix IHl 1.
    intros [|x xs]; constructor; [apply IH | apply IHl].
  - apply HO. revert entries. fix IHl 1.
    intros [|[k x] xs]; constructor; [apply IH | apply IHl].
Qed.

(** The step of the [reduce] over the entries of an object. *)
Local Abbreviation clean_entry :=
  (fun (acc : list (string * Util.jsvalue)) (pat : string * Util.jsvalue) =>
     let '(key, value) := pat in
     let cleanedValue := Util.cleanObject value in
     if negb (Util.nullish cleanedValue)
     then Util.assign key cleanedValue acc
     else acc).

(** A member that is kept: it is not nullish and it is clean. *)
Local Abbreviation kept :=
  (fun v : Util.jsvalue => negb (Util.nullish v) && Util.clean v = true).

Lemma define_Forall (P : string * Util.jsvalue -> Prop) key v acc :
  P (key, v) -> Forall P acc -> Forall P (Util.define key v acc).
Proof.
  intros Hv. induction acc as [|[k w] acc IH]; intros Hacc; simpl.
  - constructor; [exact Hv | constructor].
  - apply Forall_cons in Hacc as [Hw Hacc].
    destruct (String.eqb k key) eqn:Ek.
    + apply String.eqb_eq in Ek. subst k. now constructor.
    + constructor; [exact Hw | now apply IH].
Qed.

Lemma assign_Forall (P : string * Util.jsvalue -> Prop) key v acc :
  (key <> "__proto__" -> P (key, v)) -> Forall P acc ->
  Forall P (Util.assign key v acc).
Proof.
  intros Hv Hacc. unfold Util.assign.
  destruct (String.eqb key "__proto__") eqn:E; [exact Hacc|].
  apply String.eqb_neq in E. apply define_Forall; [now apply Hv | exact Hacc].
Qed.

Lemma define_keys key v acc :
  (Util.define key v acc).*1 =
  if bool_decide (key ∈ acc.*1) then acc.*1 else acc.*1 ++ [key].
Proof.
  induction acc as [|[k w] acc IH]; [reflexivity|].
  cbn [Util.define]. rewrite fmap_cons. cbn [fst].
  destruct (String.eqb k key) eqn:Ek.
  - apply String.eqb_eq in Ek. subst k.
    rewrite bool_decide_eq_true_2 by (apply elem_of_cons; now left).
    reflexivity.
  - apply String.eqb_neq in Ek. rewrite fmap_cons, IH. cbn [fst].
    destruct (bool_decide (key ∈ acc.*1)) eqn:Ein.
    + apply bool_decide_eq_true_1 in Ein.
      rewrite bool_decide_eq_true_2 by (apply elem_of_cons; now right).
      reflexivity.
    + apply bool_decide_eq_false_1 in Ein.
      rewrite bool_decide_eq_false_2; [reflexivity|].
      rewrite elem_of_cons. intros [-> | Hin]; [now apply Ek | now apply Ein].
Qed.

Lemma assign_NoDup key v acc :
  NoDup acc.*1 -> NoDup (Util.assign key v acc).*1.
Proof.
  intros Hnd. unfold Util.assign.
  destruct (String.eqb key "__proto__"); [exact Hnd|].
  rewrite define_keys.
  destruct (bool_decide (key ∈ acc.*1)) eqn:Ein; [exact Hnd|].
  apply bool_decide_eq_false_1 in Ein.
  apply NoDup_app. split; [exact Hnd|]. split.
  - intros x Hx Hx'. apply list_elem_of_singleton in Hx'. now subst x.
  - apply NoDup_singleton.
Qed.

Lemma assign_fresh key v acc :
  key <> "__proto__" -> key ∉ acc.*1 ->
  Util.assign key v acc = acc ++ [(key, v)].
Proof.
  intros Hp. unfold Util.assign.
  apply String.eqb_neq in Hp. rewrite Hp. clear Hp.
  induction acc as [|[k w] acc IH]; simpl; intros Hk; [reflexivity|].
  rewrite not_elem_of_cons in Hk. destruct Hk as [Hne Hk].
  destruct (String.eqb k key) eqn:Ek.
  - apply String.eqb_eq in Ek. now subst k.
  - now rewrite IH.
Qed.

(** No assignment gives the object an own member [__proto__]. *)
Lemma assign_no_proto key v acc :
  "__proto__" ∉ acc.*1 -> "__proto__" ∉ (Util.assign key v acc).*1.
Proof.
  intros Hacc. unfold Util.assign.
  destruct (String.eqb key "__proto__") eqn:E; [exact Hacc|].
  apply String.eqb_neq in E. rewrite define_keys.
  destruct (bool_decide (key ∈ acc.*1)); [exact Hacc|].
  rewrite elem_of_app, list_elem_of_singleton. intros [Hin | Heq];
    [now apply Hacc | now apply E].
Qed.

Lemma cleanObject_entries_kept entries :
  Forall (fun kv => Util.clean (Util.cleanObject kv.2) = true) entries ->
  forall acc,
    Forall (fun kv => kept kv.2) acc ->
    Forall (fun kv => kept kv.2) (fold_left clean_entry entries acc).
Proof.
  induction 1 as [|[k v] entries Hv _ IH]; intros acc Hacc; [exact Hacc|].
  cbn [fold_left]. apply IH. simpl in Hv.
  destruct (Util.nullish (Util.cleanObject v)) eqn:En; [exact Hacc|].
  apply assign_Forall; [|exact Hacc]. intros _. simpl. now rewrite En.
Qed.

(** X1: whatever the value, no member of [cleanObject(value)] is [null]
    or [undefined], at any depth. *)
Theorem cleanObject_removes_nullish_members (v : Util.jsvalue) :
  Util.clean (Util.cleanObject v) = true.
Proof.
  induction v as [| | | | |items IH|entries IH] using jsvalue_induction;
    try reflexivity.
  - cbn [Util.cleanObject Util.clean]. apply forallb_forall.
    intros x Hx. apply filter_In in Hx as [Hx Hn].
    apply in_map_iff in Hx as (y & <- & Hy).
    rewrite Hn. apply list_elem_of_In in Hy.
    rewrite Forall_forall in IH. now rewrite (IH y Hy).
  - cbn [Util.cleanObject Util.clean]. apply forallb_forall.
    intros [k x] Hx. apply list_elem_of_In in Hx.
    pose proof (cleanObject_entries_kept entries IH [] (Forall_nil_2 _))
      as Hkept.
    rewrite Forall_forall in Hkept. exact (Hkept _ Hx).
Qed.

Lemma distinct_keys_arr items :
  Util.distinct_keys (Util.VArr items) <-> Forall Util.distinct_keys items.
Proof.
  cbn [Util.distinct_keys]. induction items as [|x xs IH]; simpl.
  - split; [constructor | trivial].
  - rewrite Forall_cons, IH. reflexivity.
Qed.

Lemma distinct_keys_obj entries :
  Util.distinct_keys (Util.VObj entries) <->
  NoDup entries.*1 /\ Forall (fun kv => Util.distinct_keys kv.2) entries.
Proof.
  cbn [Util.distinct_keys].
  assert (H : fold_right
            (fun '(_, value) (P : Prop) => Util.distinct_keys value /\ P)
            True entries <->
          Forall (fun kv => Util.distinct_keys kv.2) entries).
  { induction entries as [|[k x] xs IH]; simpl.
    - split; [constructor | trivial].
    - rewrite Forall_cons, IH. reflexivity. }
  rewrite H. reflexivity.
Qed.

Lemma no_proto_key_arr items :
  Util.no_proto_key (Util.VArr items) <-> Forall Util.no_proto_key items.
Proof.
  cbn [Util.no_proto_key]. induction items as [|x xs IH]; simpl.
  - split; [constructor | trivial].
  - rewrite Forall_cons, IH. reflexivity.
Qed.

Lemma no_proto_key_obj entries :
  Util.no_proto_key (Util.VObj entries) <->
  ("__proto__" ∉ entries.*1) /\
  Forall (fun kv => Util.no_proto_key kv.2) entries.
Proof.
  cbn [Util.no_proto_key].
  assert (H : fold_right
            (fun '(_, value) (P : Prop) => Util.no_proto_key value /\ P)
            True entries <->
          Forall (fun kv => Util.no_proto_key kv.2) entries).
  { induction entries as [|[k x] xs IH]; simpl.
    - split; [constructor | trivial].
    - rewrite Forall_cons, IH. reflexivity. }
  rewrite H. reflexivity.
Qed.

Lemma cleanObject_entries_distinct entries :
  Forall (fun kv => Util.distinct_keys (Util.cleanObject kv.2)) entries ->
  forall acc,
    NoDup acc.*1 -> Forall (fun kv => Util.distinct_keys kv.2) acc ->
    NoDup (fold_left clean_entry entries acc).*1 /\
    Forall (fun kv => Util.distinct_keys kv.2)
      (fold_left clean_entry entries acc).
Proof.
  induction 1 as [|[k v] entries Hv _ IH]; intros acc Hnd Hacc;
    [now split|].
  cbn [fold_left]. simpl in Hv.
  destruct (Util.nullish (Util.cleanObject v)); [now apply IH|].
  apply IH; [now apply assign_NoDup | now apply assign_Forall].
Qed.

(** The keys of the objects of a result are distinct. *)
Lemma cleanObject_distinct_keys (v : Util.jsvalue) :
  Util.distinct_keys (Util.cleanObject v).
Proof.
  induction v as [| | | | |items IH|entries IH] using jsvalue_induction;
    try exact I.
  - cbn [Util.cleanObject]. apply distinct_keys_arr.
    apply Forall_forall. intros x Hx. apply list_elem_of_In in Hx.
    apply filter_In in Hx as [Hx _].
    apply in_map_iff in Hx as (y & <- & Hy). apply list_elem_of_In in Hy.
    rewrite Forall_forall in IH. now apply IH.
  - cbn [Util.cleanObject]. apply distinct_keys_obj.
    apply (cleanObject_entries_distinct entries IH []);
      [apply NoDup_nil_2 | constructor].
Qed.

(** No object of a result has an own member [__proto__]. *)
Lemma cleanObject_entries_no_proto entries acc :
  "__proto__" ∉ acc.*1 ->
  "__proto__" ∉ (fold_left clean_entry entries acc).*1.
Proof.
  revert acc. induction entries as [|[k v] entries IH]; intros acc Hacc;
    [exact Hacc|].
  cbn [fold_left]. apply IH.
  destruct (negb (Util.nullish (Util.cleanObject v))); [|exact Hacc].
  now apply assign_no_proto.
Qed.

(** Members that [cleanObject] leaves as they are, under keys that are
    written as own members, are added to the result in their order. *)
Lemma cleanObject_entries_identity entries :
  Forall (fun kv => Util.cleanObject kv.2 = kv.2 /\
                    Util.nullish kv.2 = false) entries ->
  "__proto__" ∉ entries.*1 ->
  forall acc,
    NoDup (acc.*1 ++ entries.*1) ->
    fold_left clean_entry entries acc = acc ++ entries.
Proof.
  induction 1 as [|[k v] entries [Hv Hn] _ IH]; intros Hp acc Hnd.
  - now rewrite app_nil_r.
  - cbn [fold_left]. simpl in Hv, Hn. rewrite Hv, Hn. cbn [negb].
    rewrite fmap_cons, not_elem_of_cons in Hp. cbn [fst] in Hp.
    destruct Hp as [Hk0 Hp].
    assert (Hk : k ∉ acc.*1).
    { apply NoDup_app in Hnd as (_ & Hdisj & _). intros Hin.
      apply (Hdisj k Hin). simpl. apply elem_of_cons. now left. }
    rewrite (assign_fresh k v acc) by (congruence || exact Hk).
    rewrite (IH Hp).
    + now rewrite <- app_assoc.
    + rewrite fmap_app. simpl. rewrite <- app_assoc. exact Hnd.
Qed.

(** X3: a value without [null] and [undefined] members, in which no
    object has an own member [__proto__], is returned as it is: nothing
    else is removed, changed or moved, be it [false], 0, [NaN], the
    empty string, or an array or object that is empty. *)
Theorem cleanObject_keeps_clean_values (v : Util.jsvalue) :
  Util.distinct_keys v -> Util.no_proto_key v -> Util.clean v = true ->
  Util.cleanObject v = v.
Proof.
  induction v as [| | | | |items IH|entries IH] using jsvalue_induction;
    try reflexivity.
  - intros Hd Hp Hc. apply distinct_keys_arr in Hd.
    apply no_proto_key_arr in Hp.
    cbn [Util.cleanObject Util.clean] in *. f_equal.
    induction items as [|x xs IHxs]; [reflexivity|].
    apply Forall_cons in IH as [IHx IH].
    apply Forall_cons in Hd as [Hdx Hd].
    apply Forall_cons in Hp as [Hpx Hp].
    simpl in Hc. apply andb_prop in Hc as [Hx Hc].
    apply andb_prop in Hx as [Hnx Hcx].
    simpl. rewrite (IHx Hdx Hpx Hcx), Hnx. f_equal. now apply IHxs.
  - intros Hd Hp Hc. apply distinct_keys_obj in Hd as [Hnd Hd].
    apply no_proto_key_obj in Hp as [Hp0 Hp].
    cbn [Util.cleanObject Util.clean] in *. f_equal.
    rewrite cleanObject_entries_identity;
      [reflexivity| |exact Hp0|exact Hnd].
    rewrite forallb_forall in Hc.
    rewrite Forall_forall in IH, Hd, Hp |- *.
    intros [k x] Hx. specialize (Hc (k, x)). simpl in Hc.
    apply andb_prop in Hc as [Hnx Hcx]; [|now apply list_elem_of_In].
    split.
    + exact (IH _ Hx (Hd _ Hx) (Hp _ Hx) Hcx).
    + simpl. now apply negb_true_iff in Hnx.
Qed.

Lemma cleanObject_keeps_clean_values_witness :
  Util.cleanObject cleanedConfig = cleanedConfig.
Proof.
  apply (cleanObject_keeps_clean_values cleanedConfig).
  - simpl. repeat split;
      try (apply (bool_decide_unpack _); vm_compute; exact I).
  - simpl. repeat split;
      try (apply (bool_decide_unpack _); vm_compute; exact I).
  - reflexivity.
Defined.

(** An own member [__proto__] is lost, and nothing else. *)
Example cleanObject_loses_proto_member :
  Util.cleanObject protoConfig =
  Util.VObj [("device", Util.VStr "iphone15")].
Proof. reflexivity. Qed.

Lemma cleanObject_entries_fixed entries :
  Forall (fun kv => Util.cleanObject (Util.cleanObject kv.2)
                    = Util.cleanObject kv.2) entries ->
  forall acc,
    Forall (fun kv => Util.cleanObject kv.2 = kv.2 /\
                      Util.nullish kv.2 = false) acc ->
    Forall (fun kv => Util.cleanObject kv.2 = kv.2 /\
                      Util.nullish kv.2 = false)
      (fold_left clean_entry entries acc).
Proof.
  induction 1 as [|[k v] entries Hv _ IH]; intros acc Hacc; [exact Hacc|].
  cbn [fold_left]. apply IH. simpl in Hv.
  destruct (Util.nullish (Util.cleanObject v)) eqn:En; [exact Hacc|].
  apply assign_Forall; [|exact Hacc]. intros _. simpl. now split.
Qed.

(** X2: [cleanObject] is idempotent: a second pass changes nothing. *)
Theorem cleanObject_idempotent (v : Util.jsvalue) :
  Util.cleanObject (Util.cleanObject v) = Util.cleanObject v.
Proof.
  induction v as [| | | | |items IH|entries IH] using jsvalue_induction;
    try reflexivity.
  - cbn [Util.cleanObject]. f_equal.
    induction items as [|x xs IHxs]; [reflexivity|].
    apply Forall_cons in IH as [IHx IH]. simpl.
    destruct (Util.nullish (Util.cleanObject x)) eqn:En; simpl.
    + now apply IHxs.
    + rewrite IHx, En. simpl. f_equal. now apply IHxs.
  - pose proof (cleanObject_distinct_keys (Util.VObj entries)) as Hd.
    cbn [Util.cleanObject] in Hd |- *.
    apply distinct_keys_obj in Hd as [Hnd _]. f_equal.
    rewrite cleanObject_entries_identity; [reflexivity| | |exact Hnd].
    + apply (cleanObject_entries_fixed entries IH []). constructor.
    + apply cleanObject_entries_no_proto. apply not_elem_of_nil.
Qed.

Lemma get_define_eq key v acc : Util.get key (Util.define key v acc) = Some v.
Proof.
  induction acc as [|[k w] acc IH]; simpl.
  - now rewrite String.eqb_refl.
  - destruct (String.eqb k key) eqn:Ek; simpl; rewrite Ek; [reflexivity|].
    exact IH.
Qed.

Lemma get_define_ne key key' v acc :
  key <> key' -> Util.get key (Util.define key' v acc) = Util.get key acc.
Proof.
  intros Hne. induction acc as [|[k w] acc IH]; simpl.
  - apply String.eqb_neq in Hne. rewrite String.eqb_sym in Hne.
    now rewrite Hne.
  - destruct (String.eqb k key') eqn:Ek; simpl.
    + apply String.eqb_eq in Ek. subst k.
      assert (E : String.eqb key' key = false).
      { apply String.eqb_neq. congruence. }
      now rewrite E.
    + destruct (String.eqb k key); [reflexivity | exact IH].
Qed.

Lemma get_assign_eq key v acc :
  key <> "__proto__" -> Util.get key (Util.assign key v acc) = Some v.
Proof.
  intros Hp. unfold Util.assign. apply String.eqb_neq in Hp. rewrite Hp.
  apply get_define_eq.
Qed.

Lemma get_assign_ne key key' v acc :
  key <> key' -> Util.get key (Util.assign key' v acc) = Util.get key acc.
Proof.
  intros Hne. unfold Util.assign.
  destruct (String.eqb key' "__proto__"); [reflexivity|].
  now apply get_define_ne.
Qed.

Lemma get_assign_proto key v acc :
  Util.get "__proto__" (Util.assign key v acc) = Util.get "__proto__" acc.
Proof.
  unfold Util.assign. destruct (String.eqb key "__proto__") eqn:E;
    [reflexivity|].
  apply String.eqb_neq in E. apply get_define_ne. congruence.
Qed.

Lemma get_None key entries : key ∉ entries.*1 -> Util.get key entries = None.
Proof.
  induction entries as [|[k w] entries IH]; [reflexivity|].
  rewrite fmap_cons, not_elem_of_cons. cbn [fst Util.get]. intros [Hne Hk].
  assert (E : String.eqb k key = false).
  { apply String.eqb_neq. congruence. }
  rewrite E. now apply IH.
Qed.

(** What [cleanObject] makes of a member: nothing if it cleans to
    [null] or [undefined], its cleaned value otherwise. *)
Local Abbreviation cleaned_member :=
  (fun m : option Util.jsvalue =>
     match m with
     | Some value =>
         if Util.nullish (Util.cleanObject value) then None
         else Some (Util.cleanObject value)
     | None => None
     end).

Lemma get_cleaned_entries key entries :
  key <> "__proto__" -> NoDup entries.*1 ->
  forall acc,
    Util.get key (fold_left clean_entry entries acc) =
    match Util.get key entries with
    | Some value =>
        if Util.nullish (Util.cleanObject value) then Util.get key acc
        else Some (Util.cleanObject value)
    | None => Util.get key acc
    end.
Proof.
  intros Hp.
  induction entries as [|[k v] entries IH]; intros Hnd acc; [reflexivity|].
  rewrite fmap_cons in Hnd. apply NoDup_cons in Hnd as [Hk Hnd].
  cbn [fold_left Util.get]. rewrite (IH Hnd).
  destruct (String.eqb k key) eqn:Ek.
  - apply String.eqb_eq in Ek. subst k.
    rewrite (get_None key entries Hk).
    destruct (Util.nullish (Util.cleanObject v)); cbn [negb];
      [reflexivity | now apply get_assign_eq].
  - apply String.eqb_neq in Ek.
    assert (Hacc : Util.get key
              (if negb (Util.nullish (Util.cleanObject v))
               then Util.assign k (Util.cleanObject v) acc else acc) =
            Util.get key acc).
    { destruct (negb _); [|reflexivity]. apply get_assign_ne. congruence. }
    rewrite Hacc. reflexivity.
Qed.

Lemma get_proto_cleaned_entries entries acc :
  Util.get "__proto__" (fold_left clean_entry entries acc) =
  Util.get "__proto__" acc.
Proof.
  revert acc. induction entries as [|[k v] entries IH]; intros acc;
    [reflexivity|].
  cbn [fold_left]. rewrite IH.
  destruct (negb (Util.nullish (Util.cleanObject v))); [|reflexivity].
  apply get_assign_proto.
Qed.

(** X8: the own members of a cleaned object.  For an object with
    distinct keys, the result has an own member under a key other than
    [__proto__] exactly when the object has a member under that key that
    does not clean to [null] or [undefined], and it is the cleaned value
    of that member; the result never has an own member [__proto__]. *)
Theorem cleanObject_member (entries : list (string * Util.jsvalue))
    (key : string) :
  NoDup entries.*1 ->
  exists cleaned,
    Util.cleanObject (Util.VObj entries) = Util.VObj cleaned /\
    Util.get key cleaned =
      if String.eqb key "__proto__" then None
      else cleaned_member (Util.get key entries).
Proof.
  intros Hnd. exists (fold_left clean_entry entries []).
  split; [reflexivity|].
  destruct (String.eqb key "__proto__") eqn:Ep.
  - apply String.eqb_eq in Ep. subst key.
    now rewrite get_proto_cleaned_entries.
  - apply String.eqb_neq in Ep.
    rewrite (get_cleaned_entries key entries Ep Hnd []). simpl.
    destruct (Util.get key entries) as [value|]; [|reflexivity].
    destruct (Util.nullish _); reflexivity.
Qed.

Lemma cleanObject_member_witness :
  exists cleaned,
    Util.cleanObject sparseConfig = Util.VObj cleaned /\
    Util.get "launchArgs" cleaned =
      Some (Util.VArr [Util.VNum (of_Z 1); Util.VNum (of_Z 2)]).
Proof.
  destruct (cleanObject_member
              [ ("device", Util.VStr "iphone15");
                ("osVersion", Util.VNull);
                ("params", Util.VObj [("a", Util.VUndefined)]);
                ("launchArgs",
                 Util.VArr [Util.VNum (of_Z 1); Util.VNull;
                            Util.VNum (of_Z 2)]) ] "launchArgs")
    as (cleaned & Hc & Hg).
  - apply (bool_decide_unpack _). vm_compute. exact I.
  - exists cleaned. split; [exact Hc | exact Hg].
Defined.

(** ** Waiting *)

Section WaitForFacts.
Context {T E : Type} (fn : nat -> Q -> WaitFor.Attempt T E).
Context (sleep : nat -> Q).

Lemma expired_Fin t start now :
  WaitFor.expired (Some (Fin t)) start now = false <-> now - start <= t.
Proof.
  unfold WaitFor.expired, gt. rewrite lt_Fin_false. reflexivity.
Qed.

Lemma waitFor_from_bounded (t start : Q) (fuel k : nat) (now : Q) :
  (forall j, 100 <= sleep j) ->
  (forall j at_, 0 <= WaitFor.took (fn j at_)) ->
  start + 100 * inject_Z (Z.of_nat k) <= now ->
  (k < WaitFor.max_calls t)%nat ->
  (WaitFor.max_calls t - k <= fuel)%nat ->
  exists r,
    WaitFor.waitFor_from fn sleep (Some (Fin t)) start fuel k now = Some r /\
    (k < WaitFor.calls r <= WaitFor.max_calls t)%nat /\
    now <= WaitFor.ended_at r /\
    match WaitFor.result r with
    | inl _ => WaitFor.ended_by_last_call fn r false \/
               WaitFor.ended_by_last_call fn r true
    | inr _ => WaitFor.ended_by_last_call fn r true \/
               (WaitFor.ended_by_last_call fn r false /\
                t < WaitFor.ended_at r - start)
    end.
Proof.
  intros Hsleep Htook. revert k now.
  induction fuel as [|fuel IH]; intros k now Hnow Hk Hf; [lia|].
  cbn [WaitFor.waitFor_from].
  pose proof (Htook k now) as Ht. pose proof (Hsleep k) as Hs.
  destruct (WaitFor.outcome (fn k now)) as [v|e] eqn:Eo.
  - eexists. split; [reflexivity|]. cbn. split; [lia|]. split; [lra|].
    destruct (WaitFor.bailed (fn k now)) eqn:Eb; [right | left];
      exists now; cbn; split; assumption.
  - destruct (WaitFor.bailed (fn k now)) eqn:Eb; cbn [orb].
    + eexists. split; [reflexivity|]. cbn. split; [lia|]. split; [lra|].
      left. exists now. cbn. split; assumption.
    + destruct (WaitFor.expired _ _ _) eqn:Ex.
      * eexists. split; [reflexivity|]. cbn. split; [lia|]. split; [lra|].
        right. split; [exists now; cbn; split; assumption|].
        unfold WaitFor.expired, gt in Ex. apply lt_Fin in Ex. exact Ex.
      * apply expired_Fin in Ex.
        assert (Hk' : (S k < WaitFor.max_calls t)%nat).
        { unfold WaitFor.max_calls in *.
          assert (Hq : inject_Z (Z.of_nat (S k)) <= t / 100).
          { apply Qle_shift_div_l; [lra|].
            rewrite Nat2Z.inj_succ. unfold Z.succ. rewrite inject_Z_plus.
            change (inject_Z 1) with 1. lra. }
          apply Qfloor_resp_le in Hq. rewrite Qfloor_Z in Hq. lia. }
        destruct (IH (S k) (now + WaitFor.took (fn k now) + sleep k))
          as (r & Hr & Hc & He & Hres); [| exact Hk' | lia |].
        { rewrite Nat2Z.inj_succ. unfold Z.succ. rewrite inject_Z_plus.
          change (inject_Z 1) with 1. lra. }
        exists r. split; [exact Hr|]. split; [lia|]. split; [lra|].
        exact Hres.
Qed.

(** X9: [waitFor] with a timeout of [t] ms.  The timer between two
    calls takes 100 ms or more, so the run ends after at most
    [floor(t / 100) + 1] calls of [fn], and after at least one, however
    small the timeout.  It returns what the last call returned; or it
    throws what the last call threw, and then that call had called
    [bail], or more than [t] ms have passed when the timer that follows
    it ends. *)
Theorem waitFor_calls_bounded (t start : Q) (fuel : nat) :
  (forall j, 100 <= sleep j) ->
  (forall j at_, 0 <= WaitFor.took (fn j at_)) ->
  (WaitFor.max_calls t <= fuel)%nat ->
  exists r,
    WaitFor.waitFor fn sleep (Some (Some (Fin t))) start fuel = Some r /\
    (1 <= WaitFor.calls r <= WaitFor.max_calls t)%nat /\
    start <= WaitFor.ended_at r /\
    match WaitFor.result r with
    | inl _ => WaitFor.ended_by_last_call fn r false \/
               WaitFor.ended_by_last_call fn r true
    | inr _ => WaitFor.ended_by_last_call fn r true \/
               (WaitFor.ended_by_last_call fn r false /\
                t < WaitFor.ended_at r - start)
    end.
Proof.
  intros Hsleep Htook Hf. unfold WaitFor.waitFor. cbn [default].
  destruct (waitFor_from_bounded t start fuel 0 start Hsleep Htook)
    as (r & Hr & Hc & He & Hres).
  - change (inject_Z (Z.of_nat 0)) with 0. lra.
  - unfold WaitFor.max_calls. lia.
  - lia.
  - exists r. split; [exact Hr|]. split; [lia|]. split; assumption.
Qed.

Lemma waitFor_from_null start fuel k now r :
  WaitFor.waitFor_from fn sleep None start fuel k now = Some r ->
  match WaitFor.result r with
  | inl _ => True
  | inr _ => WaitFor.ended_by_last_call fn r true
  end.
Proof.
  revert k now. induction fuel as [|fuel IH]; intros k now; [discriminate|].
  cbn [WaitFor.waitFor_from].
  destruct (WaitFor.outcome (fn k now)) as [v|e] eqn:Eo.
  - intros [= <-]. exact I.
  - destruct (WaitFor.bailed (fn k now)) eqn:Eb; cbn [orb WaitFor.expired].
    + intros [= <-]. cbn. exists now. cbn. split; assumption.
    + apply IH.
Qed.

(** X10: [waitFor] with the timeout [null] throws only what a call of
    [fn] threw that called [bail]; as long as [fn] throws without
    calling [bail] it is called again, without end. *)
Theorem waitFor_null_timeout_needs_bail (start : Q) :
  (forall fuel r,
     WaitFor.waitFor fn sleep (Some None) start fuel = Some r ->
     match WaitFor.result r with
     | inl _ => True
     | inr _ => WaitFor.ended_by_last_call fn r true
     end) /\
  ((forall k now, exists e,
      WaitFor.outcome (fn k now) = inr e /\
      WaitFor.bailed (fn k now) = false) ->
   forall fuel, WaitFor.waitFor fn sleep (Some None) start fuel = None).
Proof.
  split.
  - intros fuel r. apply waitFor_from_null.
  - intros Hfail fuel. unfold WaitFor.waitFor. cbn [default].
    generalize 0%nat at 1. generalize start at 2.
    induction fuel as [|fuel IH]; intros now k; [reflexivity|].
    cbn [WaitFor.waitFor_from].
    destruct (Hfail k now) as (e & -> & ->). cbn [orb WaitFor.expired].
    apply IH.
Qed.

End WaitForFacts.

Lemma waitFor_calls_bounded_witness :
  exists r,
    WaitFor.waitFor alwaysFails exactTimer (Some (Some (Fin 250))) 0 3
      = Some r /\
    WaitFor.calls r = 3%nat /\ WaitFor.ended_at r == 300 /\
    WaitFor.result r = inr "not yet".
Proof.
  destruct (waitFor_calls_bounded alwaysFails exactTimer 250 0 3)
    as (r & Hr & Hc & He & Hres).
  - intros j. unfold exactTimer. lra.
  - intros j at_. simpl. lra.
  - vm_compute. lia.
  - exists r. split; [exact Hr|].
    vm_compute in Hr. injection Hr as <-.
    split; [reflexivity|]. split; reflexivity.
Defined.

Lemma waitFor_null_timeout_needs_bail_witness :
  WaitFor.waitFor alwaysFails exactTimer (Some None) 0 1000 = None.
Proof.
  destruct (waitFor_null_timeout_needs_bail alwaysFails exactTimer 0)
    as [_ Hforever].
  apply Hforever. intros k now. exists "not yet". split; reflexivity.
Defined.

Section WaitForEventFacts.
Context {V : Type} `{Host}.

Lemma listen_spec event (predicate : option (V -> bool)) due te events :
  match WaitFor.listen event predicate due te events with
  | WaitFor.EventResolved data at_ =>
      exists pre rest,
        events = pre ++ (at_, event, data) :: rest /\
        WaitFor.passed_over event predicate due pre /\
        WaitFor.fires_before due at_ = None /\
        WaitFor.accepts predicate data = true
  | WaitFor.EventRejected e at_ =>
      e = te /\ due = Some at_ /\
      exists pre rest,
        events = pre ++ rest /\
        WaitFor.passed_over event predicate due pre /\
        match rest with
        | [] => True
        | (a, _, _) :: _ => at_ <= a
        end
  | WaitFor.StillWaiting =>
      due = None /\ WaitFor.passed_over event predicate due events
  end.
Proof.
  induction events as [|[[a name] data] events IH]; cbn [WaitFor.listen].
  - destruct due as [d|].
    + split; [reflexivity|]. split; [reflexivity|].
      exists [], []. repeat split. constructor.
    + split; [reflexivity | constructor].
  - destruct (WaitFor.fires_before due a) as [d|] eqn:Ef.
    + unfold WaitFor.fires_before in Ef. destruct due as [d'|];
        [|discriminate].
      destruct (Qle_bool d' a) eqn:Ed; [|discriminate].
      injection Ef as <-. split; [reflexivity|]. split; [reflexivity|].
      exists [], ((a, name, data) :: events).
      repeat split; [constructor | now apply Qle_bool_iff].
    + destruct (String.eqb name event && WaitFor.accepts predicate data)
        eqn:Ea.
      * apply andb_prop in Ea as [En Ea]. apply String.eqb_eq in En.
        subst name. exists [], events. repeat split; try assumption.
        constructor.
      * destruct (WaitFor.listen event predicate due te events)
          as [data' at_|e at_|].
        -- destruct IH as (pre & rest & -> & Hpre & Hf & Hacc).
           exists ((a, name, data) :: pre), rest.
           repeat split; try assumption. constructor; [now split | exact Hpre].
        -- destruct IH as (-> & -> & pre & rest & -> & Hpre & Hrest).
           split; [reflexivity|]. split; [reflexivity|].
           exists ((a, name, data) :: pre), rest.
           repeat split; try assumption. constructor; [now split | exact Hpre].
        -- destruct IH as [-> Hpre]. split; [reflexivity|].
           constructor; [now split | exact Hpre].
Qed.

(** X11: [waitForEvent] resolves with the value of the first event of
    the given name, accepted by the predicate if there is one, that the
    emitter emits before the timer fires; the events before it are
    passed over.  The timer is set to the [timeout] of the options, and
    to 10000 ms when the options are left out, have no [timeout], or are
    a predicate; when it fires first the promise is rejected with a
    [TimeoutError], which is operational and names the timeout and the
    event.  With the timeout [null] the promise is never rejected. *)
Theorem waitForEvent_first_match (events : WaitFor.emissions (V:=V))
    (now : Q) (event : string) (o : WaitFor.OptionsOrPredicate) :
  let timeout := WaitFor.timeout_of o in
  let predicate := WaitFor.predicate_of o in
  let due := Dispatcher.timer_due now <$> timeout in
  (match o with
   | WaitFor.Options (Some t) _ => timeout = t
   | _ => timeout = Some (of_Z 10000)
   end) /\
  match WaitFor.waitForEvent events now event o with
  | WaitFor.EventResolved data at_ =>
      exists pre rest,
        events = pre ++ (at_, event, data) :: rest /\
        WaitFor.passed_over event predicate due pre /\
        WaitFor.fires_before due at_ = None /\
        WaitFor.accepts predicate data = true
  | WaitFor.EventRejected e at_ =>
      exists t,
        timeout = Some t /\ at_ = Dispatcher.timer_due now t /\
        instanceof e TimeoutError = true /\
        isOperational e = Some true /\
        message e =
          "Timeout " +:+ String_of_num t +:+
          "ms exceeded while waiting for event " +:+ dquote +:+ event +:+
          dquote /\
        exists pre rest,
          events = pre ++ rest /\
          WaitFor.passed_over event predicate due pre /\
          match rest with
          | [] => True
          | (a, _, _) :: _ => at_ <= a
          end
  | WaitFor.StillWaiting =>
      timeout = None /\ WaitFor.passed_over event predicate due events
  end.
Proof.
  intros timeout predicate due. split.
  - destruct o as [|[t|] p|p]; reflexivity.
  - unfold WaitFor.waitForEvent. fold timeout predicate due.
    pose proof (listen_spec event predicate due
                  (WaitFor.eventTimeoutError (default NaN timeout) event)
                  events) as Hspec.
    destruct (WaitFor.listen _ _ _ _ _) as [data at_|e at_|].
    + exact Hspec.
    + destruct Hspec as (-> & Hdue & Hrest).
      unfold due in Hdue. destruct timeout as [t|]; [|discriminate].
      injection Hdue as <-. exists t. repeat split. exact Hrest.
    + destruct Hspec as [Hdue Hpre]. split; [|exact Hpre].
      unfold due in Hdue. destruct timeout; [discriminate | reflexivity].
Qed.

End WaitForEventFacts.

(** Waiting for [appLaunch] with a timeout of 60 s, as [restartApp] does
    on iOS, and for an event that does not come. *)
Example waitForEvent_examples :
  WaitFor.waitForEvent (H:=exampleHost) twoEmissions 0 "appLaunch"
    (WaitFor.Options (Some (Some (of_Z 60000))) None) =
    WaitFor.EventResolved EmptyString 700 /\
  WaitFor.waitForEvent (H:=exampleHost) twoEmissions 0 "screenshot"
    WaitFor.NoOptions =
    WaitFor.EventRejected
      (new_TimeoutError
         ("Timeout 10000ms exceeded while waiting for event " +:+ dquote +:+
          "screenshot" +:+ dquote)) 10000.
Proof. split; vm_compute; reflexivity. Qed.

(** ** Logger *)

Lemma occurrences_app msg l l' :
  Logger.occurrences msg (l ++ l') =
  (Logger.occurrences msg l + Logger.occurrences msg l')%nat.
Proof.
  unfold Logger.occurrences. now rewrite List.filter_app, length_app.
Qed.

Lemma fold_use_written msg uses : forall fn,
  Logger.occurrences msg
    (Logger.written (fold_left Logger.use uses fn)) =
  (Logger.occurrences msg (Logger.written fn) +
   length (List.filter (Logger.is_call msg) uses) +
   if bool_decide (msg ∈ Logger.loggedMessages fn) then 0
   else if existsb (Logger.is_once msg) uses then 1 else 0)%nat.
Proof.
  induction uses as [|u uses IH]; intros fn.
  - simpl. destruct (bool_decide _); lia.
  - cbn [fold_left]. rewrite IH. destruct u as [m|m].
    + cbn [Logger.use Logger.call Logger.written Logger.loggedMessages
           List.filter Logger.is_call Logger.is_once existsb orb].
      rewrite occurrences_app. unfold Logger.occurrences at 2.
      cbn [List.filter].
      destruct (String.eqb msg m); simpl; lia.
    + cbn [Logger.use List.filter Logger.is_call Logger.is_once existsb].
      unfold Logger.once.
      destruct (bool_decide (m ∈ Logger.loggedMessages fn)) eqn:Em.
      * apply bool_decide_eq_true_1 in Em.
        destruct (String.eqb msg m) eqn:Emm; cbn [orb]; [|reflexivity].
        apply String.eqb_eq in Emm. subst m.
        rewrite bool_decide_eq_true_2 by exact Em. reflexivity.
      * apply bool_decide_eq_false_1 in Em.
        cbn [Logger.call Logger.written Logger.loggedMessages].
        rewrite occurrences_app. unfold Logger.occurrences at 2.
        cbn [List.filter].
        destruct (String.eqb msg m) eqn:Emm; cbn [orb].
        -- apply String.eqb_eq in Emm. subst m.
           rewrite bool_decide_eq_true_2 by set_solver.
           rewrite (bool_decide_eq_false_2 _ Em). simpl. lia.
        -- apply String.eqb_neq in Emm.
           assert (Hiff : bool_decide (msg ∈ {[m]} ∪ Logger.loggedMessages fn)
                          = bool_decide (msg ∈ Logger.loggedMessages fn)).
           { apply bool_decide_ext.
             rewrite elem_of_union, elem_of_singleton. tauto. }
           rewrite Hiff. simpl. lia.
Qed.

(** X12: a log function writes a message once for every plain call
    with it, and once more if [once] was ever called with it, however
    often: [once] logs each message only once, and a plain call neither
    counts for [once] nor is held back by it. *)
Theorem once_logs_each_message_once (uses : list Logger.Use) (msg : string) :
  Logger.occurrences msg
    (Logger.written (fold_left Logger.use uses Logger.createLogFn)) =
  (length (List.filter (Logger.is_call msg) uses) +
   if existsb (Logger.is_once msg) uses then 1 else 0)%nat.
Proof.
  rewrite fold_use_written.
  cbn [Logger.createLogFn Logger.written Logger.loggedMessages].
  rewrite bool_decide_eq_false_2 by apply not_elem_of_empty.
  reflexivity.
Qed.

Example once_logs_autoplay_warning_once :
  Logger.written
    (fold_left Logger.use
       [ Logger.Once autoplayWarning; Logger.Once autoplayWarning;
         Logger.Call "Session disconnected"; Logger.Once autoplayWarning ]
       Logger.createLogFn) =
  [ autoplayWarning; "Session disconnected" ].
Proof. vm_compute. reflexivity. Qed.

(** ** Coordinate mapper *)

(** The two [switch] statements on the names of the hardware keys, as
    comparisons. *)
Lemma outbound_mapHardwareKey k :
  InternalAPIMapper.mapHardwareKey (Some k) =
  Some (if String.eqb k "HOME" then "home"
        else if String.eqb k "VOLUME_UP" then "volumeUp"
        else if String.eqb k "VOLUME_DOWN" then "volumeDown"
        else k).
Proof.
  unfold InternalAPIMapper.mapHardwareKey.
  repeat (destruct k as [|[[] [] [] [] [] [] [] []] k]; try reflexivity).
Qed.

Lemma inbound_mapHardwareKey k :
  PublicAPIMapper.mapHardwareKey (Some k) =
  Some (if String.eqb k "home" then "HOME"
        else if String.eqb k "volumeUp" then "VOLUME_UP"
        else if String.eqb k "volumeDown" then "VOLUME_DOWN"
        else k).
Proof.
  unfold PublicAPIMapper.mapHardwareKey.
  repeat (destruct k as [|[[] [] [] [] [] [] [] []] k]; try reflexivity).
Qed.

Lemma mapHardwareKey_roundtrip k :
  public_key k ->
  PublicAPIMapper.mapHardwareKey (InternalAPIMapper.mapHardwareKey k) = k.
Proof.
  destruct k as [k|]; [|reflexivity]. unfold public_key, wireKeyNames.
  rewrite !not_elem_of_cons. intros (H1 & H2 & H3 & _).
  rewrite outbound_mapHardwareKey.
  destruct (String.eqb_spec k "HOME") as [->|N1]; [reflexivity|].
  destruct (String.eqb_spec k "VOLUME_UP") as [->|N2]; [reflexivity|].
  destruct (String.eqb_spec k "VOLUME_DOWN") as [->|N3]; [reflexivity|].
  rewrite inbound_mapHardwareKey.
  apply String.eqb_neq in H1, H2, H3. now rewrite H1, H2, H3.
Qed.

(** X13: the round trip of a keypress.  The outbound mapper accepts
    every keypress that has no position, coordinates or local position;
    on iOS the wire holds [shiftKey] as the number 1 or 0, on Android as
    the boolean it was given.  Mapped back, the key and the character
    are the ones given (the hardware keys [HOME], [VOLUME_UP] and
    [VOLUME_DOWN] go over the wire as [home], [volumeUp], [volumeDown]),
    and [shiftKey] is a boolean: [false] when none was given. *)
Theorem keypress_roundtrip `{Host} (this : MapperArgs)
    (key character : option string) (shiftKey : option bool) :
  public_key key -> public_key character ->
  exists wire,
    InternalAPIMapper.mapAction this (keypressOf key character shiftKey)
      = Ok wire /\
    Internal.key wire = InternalAPIMapper.mapHardwareKey key /\
    Internal.character wire = InternalAPIMapper.mapHardwareKey character /\
    Internal.shiftKey wire =
      match platform this with
      | ios => Some (Internal.ShiftNum
                       (if default false shiftKey then of_Z 1 else of_Z 0))
      | android => Internal.ShiftBool <$> shiftKey
      end /\
    let back := PublicAPIMapper.mapAction this wire in
    Public.type back = keypress /\
    Public.key back = key /\
    Public.character back = character /\
    Public.shiftKey back = Some (default false shiftKey).
Proof.
  intros Hkey Hcharacter. eexists. split; [reflexivity|].
  cbn [Internal.key Internal.character Internal.shiftKey Public.key
       Public.character Public.shiftKey keypressOf].
  split; [reflexivity|]. split; [reflexivity|]. split.
  - destruct (platform this); [|reflexivity].
    destruct shiftKey as [[]|]; reflexivity.
  - cbv zeta. unfold PublicAPIMapper.mapAction.
    cbn [Internal.type Internal.key Internal.character Internal.shiftKey
         Public.type Public.key Public.character Public.shiftKey].
    rewrite !mapHardwareKey_roundtrip by assumption.
    repeat split.
    destruct (platform this), shiftKey as [[]|]; reflexivity.
Qed.

Lemma keypress_roundtrip_witness :
  exists wire,
    InternalAPIMapper.mapAction (H:=exampleHost)
      {| platform := ios; screen := exampleScreen |}
      (keypressOf (Some "HOME") None (Some true)) = Ok wire /\
    Internal.key wire = Some "home" /\
    Internal.shiftKey wire = Some (Internal.ShiftNum (of_Z 1)) /\
    Public.key (PublicAPIMapper.mapAction
                  {| platform := ios; screen := exampleScreen |} wire)
      = Some "HOME".
Proof.
  destruct (keypress_roundtrip (H:=exampleHost)
              {| platform := ios; screen := exampleScreen |}
              (Some "HOME") None (Some true))
    as (wire & Hw & Hk & _ & Hs & _ & Hback & _).
  - unfold public_key, wireKeyNames. apply (bool_decide_unpack _).
    vm_compute. exact I.
  - exact I.
  - exists wire. repeat split; assumption.
Defined.




(** On Android the outbound mapper leaves the flags as they are, and the
    inbound mapper still reads them as ['1'] or ['0']: a flag that is
    [true] comes back as [false]. *)
Example element_roundtrip_android_flag :
  Public.attributes
    (PublicAPIMapper.mapElement
       {| platform := android; screen := exampleScreen |}
       (InternalAPIMapper.mapElement
          {| platform := android; screen := exampleScreen |} hiddenButton))
  = Some [("text", AStr "OK"); ("isHidden", ABool false)].
Proof. reflexivity. Qed.

(** On a number the check of the duration never throws: [NaN] is falsy
    and is not looked at. *)
Lemma duration_check (d : option num) (e : num -> jserror) :
  match d with
  | Some d =>
      if truthy d then throw_if (negb (Validator.isValidNumber d)) (e d)
      else Ok tt
  | None => Ok tt
  end = Ok tt.
Proof.
  destruct d as [[|s|q]|]; try reflexivity.
  simpl. destruct (negb (Qzero q)); reflexivity.
Qed.



(** A duration given as the text ["2s"] is rejected. *)
Example checkDuration_rejects_text :
  checkDuration (fun _ => "2s") (Some (Util.VStr "2s")) =
  Throw (new_OperationalError
           "Invalid duration: 2s. Value must be a number").
Proof. reflexivity. Qed.

Lemma within_bounds_Fin (x y bw bh : Q) :
  Validator.isCoordinatesWithinBounds {| cx := Fin x; cy := Fin y |}
    (Fin bw) (Fin bh) = true <->
  0 <= x <= bw /\ 0 <= y <= bh.
Proof.
  unfold Validator.isCoordinatesWithinBounds, gt, of_Z. cbn [cx cy].
  change (inject_Z 0) with 0.
  destruct (JsNum.lt (Fin x) (Fin 0)) eqn:E1;
    [apply lt_Fin in E1 | apply lt_Fin_false in E1];
  (destruct (JsNum.lt (Fin bw) (Fin x)) eqn:E2;
    [apply lt_Fin in E2 | apply lt_Fin_false in E2]);
  (destruct (JsNum.lt (Fin y) (Fin 0)) eqn:E3;
    [apply lt_Fin in E3 | apply lt_Fin_false in E3]);
  (destruct (JsNum.lt (Fin bh) (Fin y)) eqn:E4;
    [apply lt_Fin in E4 | apply lt_Fin_false in E4]);
  cbn [orb]; split; try discriminate; try lra; auto.
Qed.

(** X16: absolute coordinates.  A tap at coordinates is accepted
    exactly when they lie on the screen, from (0, 0) to (width - 1,
    height - 1) inclusive, in density-independent pixels; they go to the
    wire as they are on iOS and multiplied by the device pixel ratio on
    Android.  Coordinates off the screen are rejected with an
    [OperationalError] that names them and the bounds. *)
Theorem coordinates_must_be_on_screen `{Host} (this : MapperArgs)
    (x y w h : Q) :
  width (screen this) = Fin w -> height (screen this) = Fin h ->
  (0 <= x <= w - 1 /\ 0 <= y <= h - 1 ->
   exists wire,
     InternalAPIMapper.mapAction this (tapCoordinates (Fin x) (Fin y))
       = Ok wire /\
     Internal.coordinates wire =
       Some (match platform this with
             | ios => {| cx := Fin x; cy := Fin y |}
             | android =>
                 {| cx := (Fin x * ratio_or_1 (screen this))%num;
                    cy := (Fin y * ratio_or_1 (screen this))%num |}
             end)) /\
  (~ (0 <= x <= w - 1 /\ 0 <= y <= h - 1) ->
   exists e,
     InternalAPIMapper.mapAction this (tapCoordinates (Fin x) (Fin y))
       = Throw e /\
     instanceof e OperationalError = true /\
     isOperational e = Some true /\
     message e =
       "Invalid coordinates: (" +:+ String_of_num (Fin x) +:+ ", " +:+
       String_of_num (Fin y) +:+ ") exceed screen bounds (" +:+
       String_of_num (Fin (w - 1)) +:+ ", " +:+
       String_of_num (Fin (h - 1)) +:+ ")").
Proof.
  intros Hw Hh.
  assert (Hbw : (width (screen this) - of_Z 1)%num = Fin (w - 1)).
  { rewrite Hw. reflexivity. }
  assert (Hbh : (height (screen this) - of_Z 1)%num = Fin (h - 1)).
  { rewrite Hh. reflexivity. }
  unfold InternalAPIMapper.mapAction, tapCoordinates,
    InternalAPIMapper.mapCoordinates.
  cbn [Public.type Public.element Public.position Public.coordinates
       Public.localPosition Public.duration Public.moves Public.key
       Public.character Public.shiftKey cx cy fmap option_fmap option_map
       Validator.isValidNumber isNaN negb orb throw_if cbind].
  rewrite Hbw, Hbh. split.
  - intros Hin. apply within_bounds_Fin in Hin. rewrite Hin.
    cbn [negb throw_if cbind]. eexists. split; [reflexivity|].
    cbn [Internal.coordinates]. unfold InternalAPIMapper.dipToPixel.
    destruct (platform this); reflexivity.
  - intros Hout.
    destruct (Validator.isCoordinatesWithinBounds _ _ _) eqn:Ein.
    + apply within_bounds_Fin in Ein. contradiction.
    + cbn [negb throw_if cbind]. eexists. split; [reflexivity|].
      repeat split.
Qed.

Lemma coordinates_must_be_on_screen_witness :
  (exists wire,
     InternalAPIMapper.mapAction (H:=exampleHost)
       {| platform := android; screen := retinaScreen |}
       (tapCoordinates (Fin 100) (Fin 0)) = Ok wire /\
     Internal.coordinates wire =
       Some {| cx := (Fin 100 * of_Z 2)%num; cy := (Fin 0 * of_Z 2)%num |}) /\
  (exists e,
     InternalAPIMapper.mapAction (H:=exampleHost)
       {| platform := android; screen := retinaScreen |}
       (tapCoordinates (Fin 101) (Fin 0)) = Throw e /\
     instanceof e OperationalError = true).
Proof.
  split.
  - destruct (coordinates_must_be_on_screen (H:=exampleHost)
                {| platform := android; screen := retinaScreen |}
                100 0 101 101 eq_refl eq_refl) as [Hin _].
    apply Hin. split; split; lra.
  - destruct (coordinates_must_be_on_screen (H:=exampleHost)
                {| platform := android; screen := retinaScreen |}
                101 0 101 101 eq_refl eq_refl) as [_ Hout].
    destruct Hout as (e & He & Hi & _); [intros [[_ Hx] _]; lra|].
    exists e. split; assumption.
Defined.

(** X17: the local position of an action on an element.  When none is
    given, the mapper sends the centre of the element, (0.5, 0.5); when
    one is given in numbers, the mapper sends it as it is, and it does
    not check that it lies within the element: the outcome of the
    mapping is the one without a local position, but for that field. *)
Theorem localPosition_defaults_to_centre `{Host} (this : MapperArgs)
    (action : Public.Action) (element : Public.Element) :
  Public.type action = tap \/ Public.type action = swipe ->
  Public.element action = Some element ->
  (forall wire,
     InternalAPIMapper.mapAction this (with_localPosition None action)
       = Ok wire ->
     Internal.localPosition wire =
       Some {| Internal.px := Fin (1 # 2); Internal.py := Fin (1 # 2) |}) /\
  (forall x y,
     isNaN x = false -> isNaN y = false ->
     InternalAPIMapper.mapAction this
       (with_localPosition
          (Some {| Public.px := PNum x; Public.py := PNum y |}) action) =
     match InternalAPIMapper.mapAction this
             (with_localPosition None action) with
     | Ok wire =>
         Ok (wire_with_localPosition
               (Some {| Internal.px := x; Internal.py := y |}) wire)
     | Throw e => Throw e
     end).
Proof.
  intros Htype Helement.
  unfold InternalAPIMapper.mapAction, with_localPosition.
  cbn [Public.type Public.element Public.position Public.coordinates
       Public.localPosition Public.duration Public.moves Public.key
       Public.character Public.shiftKey].
  rewrite Helement. cbn [fmap option_fmap option_map].
  destruct (match Public.position action with
            | Some position => _
            | None => _
            end) as [coordinates|e].
  2:{ split; [discriminate | reflexivity]. }
  cbn [cbind]. split.
  - intros wire. rewrite duration_check. cbn [cbind].
    destruct Htype as [-> | ->].
    + intros [= <-]. reflexivity.
    + destruct (InternalAPIMapper.mapMoves this (Public.moves action));
        cbn [cbind]; [|discriminate].
      intros [= <-]. reflexivity.
  - intros x y Hx Hy. unfold InternalAPIMapper.mapLocalPosition.
    cbn [Public.px Public.py parsePositionValue cbind
         Validator.isValidNumber].
    unfold Validator.isValidNumber at 1 2. rewrite Hx, Hy.
    cbn [negb orb throw_if cbind].
    rewrite !duration_check. cbn [cbind].
    destruct Htype as [-> | ->]; [reflexivity|].
    destruct (InternalAPIMapper.mapMoves this (Public.moves action));
      reflexivity.
Qed.

Lemma localPosition_defaults_to_centre_witness :
  exists wire,
    InternalAPIMapper.mapAction (H:=exampleHost)
      {| platform := ios; screen := exampleScreen |}
      (tapElement okButton
         (Some {| Public.px := PNum (of_Z 3);
                  Public.py := PNum (of_Z (-1)) |})) = Ok wire /\
    Internal.localPosition wire =
      Some {| Internal.px := of_Z 3; Internal.py := of_Z (-1) |}.
Proof.
  destruct (localPosition_defaults_to_centre (H:=exampleHost)
              {| platform := ios; screen := exampleScreen |}
              (tapElement okButton None) okButton
              (or_introl eq_refl) eq_refl) as [_ Hgiven].
  specialize (Hgiven (of_Z 3) (of_Z (-1)) eq_refl eq_refl).
  eexists. split; [exact Hgiven | reflexivity].
Defined.

(** X18: the moves of a swipe are offsets: unlike the position they
    are not checked against the unit square.  Every move that is given in
    numbers is scaled by the bounds the position is scaled by, keeps its
    time, and stays in its place in the list. *)
Theorem swipe_moves_are_not_range_checked `{Host} (this : MapperArgs)
    (x y : Q) (moves : list (num * num * num)) :
  0 <= x <= 1 -> 0 <= y <= 1 ->
  let bounds := InternalAPIMapper.positionBounds this in
  exists wire,
    InternalAPIMapper.mapAction this
      (swipeAt {| Public.px := PNum (Fin x); Public.py := PNum (Fin y) |}
               ((fun '(mx, my, t) => moveTo mx my t) <$> moves)) = Ok wire /\
    Internal.coordinates wire =
      Some {| cx := (Fin x * bounds.1)%num; cy := (Fin y * bounds.2)%num |} /\
    Internal.moves wire =
      (fun '(mx, my, t) =>
         {| Internal.mx := (mx * bounds.1)%num;
            Internal.my := (my * bounds.2)%num;
            Internal.mt := t |}) <$> moves.
Proof.
  intros Hx Hy bounds.
  assert (Hmoves :
    InternalAPIMapper.mapMoves this
      ((fun '(mx, my, t) => moveTo mx my t) <$> moves) =
    Ok ((fun '(mx, my, t) =>
           {| Internal.mx := (mx * bounds.1)%num;
              Internal.my := (my * bounds.2)%num;
              Internal.mt := t |}) <$> moves)).
  { induction moves as [|[[mx my] t] moves IH]; [reflexivity|].
    rewrite !fmap_cons. cbn [InternalAPIMapper.mapMoves].
    rewrite IH. reflexivity. }
  unfold InternalAPIMapper.mapAction, swipeAt.
  cbn [Public.type Public.element Public.position Public.coordinates
       Public.localPosition Public.duration Public.moves Public.key
       Public.character Public.shiftKey fmap option_fmap option_map].
  rewrite (mapPosition_in_range this x y Hx Hy). cbn [cbind].
  rewrite Hmoves. cbn [cbind].
  eexists. split; [reflexivity|]. split; reflexivity.
Qed.

Lemma swipe_moves_are_not_range_checked_witness :
  exists wire,
    InternalAPIMapper.mapAction (H:=exampleHost)
      {| platform := ios; screen := retinaScreen |}
      (swipeAt {| Public.px := PNum (Fin (1 # 2));
                  Public.py := PNum (Fin (1 # 2)) |}
               [moveTo (of_Z 0) (of_Z 0) (of_Z 0);
                moveTo (of_Z 0) (Fin (- (1 # 2))) (Fin (1 # 2))]) = Ok wire /\
    Internal.moves wire =
      [ {| Internal.mx := (of_Z 0 * of_Z 100)%num;
           Internal.my := (of_Z 0 * of_Z 100)%num;
           Internal.mt := of_Z 0 |};
        {| Internal.mx := (of_Z 0 * of_Z 100)%num;
           Internal.my := (Fin (- (1 # 2)) * of_Z 100)%num;
           Internal.mt := Fin (1 # 2) |} ].
Proof.
  destruct (swipe_moves_are_not_range_checked (H:=exampleHost)
              {| platform := ios; screen := retinaScreen |}
              (1 # 2) (1 # 2)
              [ (of_Z 0, of_Z 0, of_Z 0);
                (of_Z 0, Fin (- (1 # 2)), Fin (1 # 2)) ])
    as (wire & Hw & _ & Hm); [split; lra | split; lra |].
  exists wire. split; [exact Hw|]. rewrite Hm. vm_compute. reflexivity.
Defined.

(** ** Gesture path builder: the shape of the path *)

Local Abbreviation of_nat := (fun n : nat => of_Z (Z.of_nat n)).

Local Abbreviation point := pathPoint.

Lemma fold_steps_no_wait sd k i isLastPair lower upper steps :
  SwipeGesture.has_wait lower = None ->
  forall res,
    fold_left
      (SwipeGesture.step_body sd (of_nat k) i isLastPair lower upper)
      steps (res, of_Z 0) =
    (res ++ (point sd k i lower upper <$>
             List.filter (fun s => isLastPair || negb (s =? k)%nat) steps),
     of_Z 0).
Proof.
  intros Hw. induction steps as [|s steps IH]; intros res.
  - simpl. now rewrite app_nil_r.
  - cbn [fold_left List.filter].
    assert (Hstep :
      SwipeGesture.step_body sd (of_nat k) i isLastPair lower upper
        (res, of_Z 0) s =
      if isLastPair || negb (s =? k)%nat
      then (res ++ [point sd k i lower upper s], of_Z 0)
      else (res, of_Z 0)).
    { unfold SwipeGesture.step_body.
      assert (Heq : strict_eq (of_nat s) (of_nat k) = (s =? k)%nat).
      { destruct (s =? k)%nat eqn:E.
        - apply Nat.eqb_eq in E. now apply of_nat_strict_eq.
        - apply Nat.eqb_neq in E.
          destruct (strict_eq _ _) eqn:E'; [|reflexivity].
          apply of_nat_strict_eq in E'. contradiction. }
      rewrite Heq, Hw.
      destruct isLastPair, (s =? k)%nat; cbn [negb andb orb];
        try reflexivity; destruct (s =? 0)%nat; reflexivity. }
    rewrite Hstep.
    destruct (isLastPair || negb (s =? k)%nat).
    + rewrite IH, fmap_cons, <- app_assoc. reflexivity.
    + apply IH.
Qed.

Lemma filter_steps (isLastPair : bool) k :
  List.filter (fun s => isLastPair || negb (s =? k)%nat) (seq 0 (S k)) =
  seq 0 (if isLastPair then S k else k).
Proof.
  rewrite seq_S, List.filter_app. cbn [List.filter Nat.add].
  rewrite Nat.eqb_refl. cbn [negb].
  assert (Hall : List.filter
                   (fun s => isLastPair || negb (s =? k)%nat) (seq 0 k)
                 = seq 0 k).
  { apply forallb_filter_id. apply forallb_forall. intros s Hs.
    apply in_seq in Hs.
    assert (E : (s =? k)%nat = false) by (apply Nat.eqb_neq; lia).
    rewrite E. now rewrite orb_true_r. }
  rewrite Hall. destruct isLastPair; cbn [orb].
  - now rewrite seq_S.
  - now rewrite app_nil_r.
Qed.

Lemma iterations_of_nat k :
  SwipeGesture.iterations (of_nat k) = Some (S k).
Proof.
  unfold SwipeGesture.iterations, of_Z.
  assert (H0 : Qle_bool 0 (inject_Z (Z.of_nat k)) = true).
  { apply Qle_bool_iff. change 0 with (inject_Z 0). rewrite <- Zle_Qle. lia. }
  rewrite H0, Qfloor_Z, Nat2Z.id. reflexivity.
Qed.

Lemma segments_cons sd sps n i lower upper rest a :
  SwipeGesture.segments sd sps n i (lower :: upper :: rest) a =
  match SwipeGesture.iterations sps with
  | None => SwipeGesture.Loops
  | Some k =>
      let a1 :=
        fold_left
          (SwipeGesture.step_body sd sps i (S i =? n)%nat lower upper)
          (seq 0 k) a in
      match (if (S i =? n)%nat then SwipeGesture.has_wait upper else None)
      with
      | Some w =>
          match last a1.1 with
          | Some lastResult =>
              SwipeGesture.segments sd sps n (S i) (upper :: rest)
                (a1.1 ++ [held w lastResult], a1.2)
          | None =>
              SwipeGesture.Thrown
                {| cls := TypeError;
                   message := "Cannot read properties of undefined";
                   isOperational := None; errorId := None;
                   playback := None |}
          end
      | None => SwipeGesture.segments sd sps n (S i) (upper :: rest) a1
      end
  end.
Proof. reflexivity. Qed.

Lemma segments_path sd k n ms : forall i res,
  (1 <= k)%nat ->
  (i + length ms = S n)%nat ->
  waits_only_at_end ms ->
  SwipeGesture.segments sd (of_nat k) n i ms (res, of_Z 0) =
  SwipeGesture.Built
    (res ++ path sd k n i ms ++
     match ms with
     | _ :: _ :: _ => trailing ms (res ++ path sd k n i ms)
     | _ => []
     end).
Proof.
  induction ms as [|lower ms IH]; intros i res Hk Hlen Hw.
  - simpl. now rewrite app_nil_r.
  - destruct ms as [|upper rest].
    + simpl. now rewrite app_nil_r.
    + rewrite segments_cons. cbn [path].
      destruct Hw as [Hlower Hw].
      rewrite iterations_of_nat. cbv zeta.
      rewrite (fold_steps_no_wait _ _ _ _ _ _ _ Hlower), filter_steps.
      cbn [fst snd].
      set (block := point sd k i lower upper
                      <$> seq 0 (if (S i =? n)%nat then S k else k)).
      destruct (S i =? n)%nat eqn:Elast.
      * (* the last pair: [rest] is empty *)
        apply Nat.eqb_eq in Elast. simpl in Hlen.
        destruct rest as [|m rest]; [|simpl in Hlen; lia].
        cbn [path]. unfold trailing.
        cbn [last mbind option_bind]. rewrite !app_nil_r.
        destruct (SwipeGesture.has_wait upper) as [w|] eqn:Ew.
        -- assert (Hlast : exists m, last (res ++ block) = Some m).
           { subst block. rewrite seq_S, fmap_app, app_assoc. simpl.
             rewrite last_snoc. eauto. }
           destruct Hlast as (m & Hm). rewrite Hm.
           cbn [SwipeGesture.segments fst].
           now rewrite <- app_assoc.
        -- cbn [SwipeGesture.segments fst]. now rewrite app_nil_r.
      * apply Nat.eqb_neq in Elast.
        rewrite (IH (S i) (res ++ block) Hk); [| simpl in *; lia | exact Hw].
        destruct rest as [|m rest]; [simpl in Hlen; lia|].
        f_equal.
        change (trailing (lower :: upper :: m :: rest))
          with (trailing (upper :: m :: rest)).
        set (P := path sd k n (S i) (upper :: m :: rest)).
        rewrite <- !(app_assoc res block), <- (app_assoc block P).
        reflexivity.
Qed.

Lemma path_cons sd k n i lower upper rest :
  path sd k n i (lower :: upper :: rest) =
  (pathPoint sd k i lower upper
     <$> seq 0 (if (S i =? n)%nat then S k else k)) ++
  path sd k n (S i) (upper :: rest).
Proof. reflexivity. Qed.

Lemma path_length sd k n ms : forall i,
  (i + length ms = S n)%nat -> (i < n)%nat ->
  length (path sd k n i ms) = ((n - i) * k + 1)%nat.
Proof.
  induction ms as [|lower ms IH]; intros i Hlen Hi; [simpl in Hlen; lia|].
  destruct ms as [|upper rest]; [simpl in Hlen; lia|].
  rewrite path_cons, length_app, length_fmap, length_seq.
  destruct (S i =? n)%nat eqn:Elast.
  - apply Nat.eqb_eq in Elast. simpl in Hlen.
    destruct rest as [|m rest]; [|simpl in Hlen; lia].
    simpl. replace (n - i)%nat with 1%nat by lia. lia.
  - apply Nat.eqb_neq in Elast.
    rewrite (IH (S i)); [|simpl in *; lia | lia].
    replace (n - i)%nat with (S (n - S i)) by lia. lia.
Qed.

(** The move at [step] of the segment [i'] is in its place. *)
Lemma path_lookup sd k n ms : forall i i' step,
  (i + length ms = S n)%nat -> (i <= i' < n)%nat ->
  (step < k \/ (S i' = n /\ step = k))%nat ->
  exists lower upper,
    ms !! (i' - i)%nat = Some lower /\
    ms !! (S i' - i)%nat = Some upper /\
    path sd k n i ms !! ((i' - i) * k + step)%nat =
      Some (pathPoint sd k i' lower upper step).
Proof.
  induction ms as [|lower ms IH]; intros i i' step Hlen Hi Hstep;
    [simpl in Hlen; lia|].
  destruct ms as [|upper rest]; [simpl in Hlen; lia|].
  rewrite path_cons.
  destruct (decide (i' = i)) as [->|Hne].
  - exists lower, upper. rewrite Nat.sub_diag.
    replace (S i - i)%nat with 1%nat by lia.
    split; [reflexivity|]. split; [reflexivity|].
    rewrite Nat.mul_0_l, Nat.add_0_l.
    rewrite lookup_app_l.
    + rewrite list_lookup_fmap, lookup_seq_lt; [reflexivity|].
      destruct Hstep as [Hs | [-> ->]]; [|rewrite Nat.eqb_refl; lia].
      destruct (S i =? n)%nat; lia.
    + rewrite length_fmap, length_seq.
      destruct Hstep as [Hs | [-> ->]]; [|rewrite Nat.eqb_refl; lia].
      destruct (S i =? n)%nat; lia.
  - assert (Elast : (S i =? n)%nat = false) by (apply Nat.eqb_neq; lia).
    rewrite Elast.
    destruct (IH (S i) i' step) as (l & u & Hl & Hu & Hp);
      [simpl in *; lia | lia | exact Hstep |].
    exists l, u.
    replace (i' - i)%nat with (S (i' - S i)) by lia.
    replace (S i' - i)%nat with (S (S i' - S i)) by lia.
    split; [exact Hl|]. split; [exact Hu|].
    replace (S (i' - S i) * k + step)%nat
      with (k + ((i' - S i) * k + step))%nat by (simpl; lia).
    rewrite lookup_app_r.
    2:{ rewrite length_fmap, length_seq. apply Nat.le_add_r. }
    rewrite length_fmap, length_seq.
    replace (k + ((i' - S i) * k + step) - k)%nat
      with ((i' - S i) * k + step)%nat
      by (generalize ((i' - S i) * k)%nat; intros; lia).
    exact Hp.
Qed.

Lemma inject_nat_nonzero k : (1 <= k)%nat -> ~ inject_Z (Z.of_nat k) == 0.
Proof.
  intros Hk E. unfold Qeq in E. simpl in E. lia.
Qed.

(** The time of the move at [step] of the segment [i]. *)
Lemma pathPoint_time (sd : Q) k i lower upper step :
  same (SwipeGesture.t (pathPoint (Fin sd) k i lower upper step))
       (Fin (inject_Z (Z.of_nat (i * k + step)) * sd / 1000)).
Proof.
  unfold pathPoint, of_Z. cbn [SwipeGesture.t JsNum.mul JsNum.add].
  rewrite div_Fin by discriminate. cbn [same].
  rewrite Nat2Z.inj_add, Nat2Z.inj_mul, inject_Z_plus, inject_Z_mult.
  change (inject_Z 0) with 0. change (inject_Z 1000) with 1000.
  field.
Qed.

(** In the exact arithmetic of the model, the move at the first and at
    the last step of a segment is at its two ends. *)
Lemma pathPoint_ends sd k i lower upper :
  (1 <= k)%nat -> finite_waypoint lower -> finite_waypoint upper ->
  (same (SwipeGesture.mx (pathPoint sd k i lower upper 0))
        (SwipeGesture.x lower) /\
   same (SwipeGesture.my (pathPoint sd k i lower upper 0))
        (SwipeGesture.y lower)) /\
  (same (SwipeGesture.mx (pathPoint sd k i lower upper k))
        (SwipeGesture.x upper) /\
   same (SwipeGesture.my (pathPoint sd k i lower upper k))
        (SwipeGesture.y upper)).
Proof.
  intros Hk (a & b & Ha & Hb) (c & d & Hc & Hd).
  pose proof (inject_nat_nonzero k Hk) as Hk0.
  unfold pathPoint, of_Z. cbn [SwipeGesture.mx SwipeGesture.my].
  rewrite Ha, Hb, Hc, Hd, !div_Fin by exact Hk0.
  cbn [JsNum.sub JsNum.opp JsNum.add JsNum.mul same].
  change (inject_Z (Z.of_nat 0)) with 0.
  repeat split; field; exact Hk0.
Qed.

Lemma build_unfold `{Host} (g : SwipeGesture.SwipeGesture) :
  SwipeGesture.build g =
  if strict_eq (stepsPerSegment g) (of_Z 0) then
    SwipeGesture.Thrown
      (new_Error
         ("Duration is too short for " +:+ pretty (segmentCount g) +:+
          " moves, please set duration to at least " +:+
          String_of_num
            (of_Z (Z.of_nat (segmentCount g)) * SwipeGesture.stepDuration g)
          +:+ "ms"))
  else SwipeGesture.segments (SwipeGesture.stepDuration g)
         (stepsPerSegment g) (segmentCount g) 0 (SwipeGesture.moves g)
         ([], of_Z 0).
Proof. reflexivity. Qed.

Lemma build_is_path `{Host} (g : SwipeGesture.SwipeGesture) (k : nat) :
  stepsPerSegment g = of_Z (Z.of_nat k) -> (1 <= k)%nat ->
  (1 <= segmentCount g)%nat ->
  waits_only_at_end (SwipeGesture.moves g) ->
  let r := path (SwipeGesture.stepDuration g) k (segmentCount g) 0
             (SwipeGesture.moves g) in
  SwipeGesture.build g =
  SwipeGesture.Built (r ++ trailing (SwipeGesture.moves g) r).
Proof.
  intros Hsps Hk Hn Hw r. rewrite build_unfold, Hsps.
  assert (Hz : strict_eq (of_Z (Z.of_nat k)) (of_Z 0) = false).
  { destruct (strict_eq _ _) eqn:E; [|reflexivity].
    apply (of_nat_strict_eq k 0) in E. lia. }
  rewrite Hz.
  rewrite (segments_path _ k (segmentCount g) _ 0 [] Hk); [| |exact Hw].
  - unfold segmentCount in Hn.
    destruct (SwipeGesture.moves g) as [|m0 [|m1 ms]] eqn:Em;
      [simpl in Hn; lia | simpl in Hn; lia |].
    reflexivity.
  - unfold segmentCount in *. lia.
Qed.

(** X19: the path of a gesture whose waypoints have no wait, built
    with [k] steps per segment, [k] being 1 or more.  The path has [k]
    moves for each of the [n] segments and one more at the end; and the
    move number [i * k + step] is the move that the inner loop computes
    at [step] of the segment from the waypoint [i] to the waypoint
    [i + 1]: the point [lower + step / k * (upper - lower)] at the time
    [((i * k + step) * stepDuration + 0) / 1000], for every step below
    [k], and for the step [k] of the last segment. *)
Theorem build_path_is_interpolated `{Host} (g : SwipeGesture.SwipeGesture)
    (k : nat) :
  let n := segmentCount g in
  stepsPerSegment g = of_Z (Z.of_nat k) ->
  (1 <= k)%nat -> (1 <= n)%nat ->
  Forall (fun m => SwipeGesture.has_wait m = None) (SwipeGesture.moves g) ->
  exists r,
    SwipeGesture.build g = SwipeGesture.Built r /\
    length r = (n * k + 1)%nat /\
    (forall i step lower upper,
       SwipeGesture.moves g !! i = Some lower ->
       SwipeGesture.moves g !! S i = Some upper ->
       (step < k \/ (S i = n /\ step = k))%nat ->
       r !! (i * k + step)%nat =
         Some (pathPoint (SwipeGesture.stepDuration g) k i lower upper step)).
Proof.
  intros n Hsps Hk Hn Hnowait.
  assert (Hlen : (0 + length (SwipeGesture.moves g) = S n)%nat).
  { unfold n, segmentCount in *. lia. }
  assert (Hw : waits_only_at_end (SwipeGesture.moves g)).
  { clear -Hnowait. induction Hnowait as [|m [|m' ms] Hm _ IH];
      simpl; auto. }
  assert (Htrail : forall r, trailing (SwipeGesture.moves g) r = []).
  { intros r. unfold trailing.
    destruct (last (SwipeGesture.moves g)) as [m|] eqn:El; [|reflexivity].
    cbn [mbind option_bind].
    apply last_Some_elem_of in El.
    rewrite Forall_forall in Hnowait. now rewrite (Hnowait m El). }
  exists (path (SwipeGesture.stepDuration g) k n 0 (SwipeGesture.moves g)).
  split; [|split].
  - rewrite (build_is_path g k Hsps Hk Hn Hw), Htrail.
    now rewrite app_nil_r.
  - rewrite (path_length _ _ _ _ 0 Hlen) by lia. f_equal. f_equal. lia.
  - intros i step lower upper Hlower Hupper Hstep.
    assert (Hi : (0 <= i < n)%nat).
    { apply lookup_lt_Some in Hupper. lia. }
    destruct (path_lookup (SwipeGesture.stepDuration g) k n
                (SwipeGesture.moves g) 0 i step Hlen Hi Hstep)
      as (l & u & Hl & Hu & Hp).
    rewrite Nat.sub_0_r in Hp, Hl, Hu.
    rewrite Hlower in Hl. rewrite Hupper in Hu.
    injection Hl as <-. injection Hu as <-. exact Hp.
Qed.

Lemma build_path_is_interpolated_witness :
  exists r,
    SwipeGesture.build (H:=exampleHost) cornerSwipe = SwipeGesture.Built r /\
    length r = 7%nat /\
    r !! 4%nat =
      Some {| SwipeGesture.mx := (of_Z 1 + of_Z 1 / of_Z 3 * (of_Z 1 - of_Z 1))%num;
              SwipeGesture.my := (of_Z 0 + of_Z 1 / of_Z 3 * (of_Z 1 - of_Z 0))%num;
              SwipeGesture.t :=
                (((of_Z 1 * of_Z 3 + of_Z 1) * Fin 16 + of_Z 0)
                 / of_Z 1000)%num |}.
Proof.
  destruct (build_path_is_interpolated (H:=exampleHost) cornerSwipe 3)
    as (r & Hr & Hlen & Hat).
  - vm_compute. reflexivity.
  - lia.
  - vm_compute. lia.
  - repeat constructor.
  - exists r. split; [exact Hr|]. split; [exact Hlen|].
    apply (Hat 1%nat 1%nat
             {| SwipeGesture.x := of_Z 1; SwipeGesture.y := of_Z 0;
                SwipeGesture.wait := None |}
             {| SwipeGesture.x := of_Z 1; SwipeGesture.y := of_Z 1;
                SwipeGesture.wait := None |});
      [reflexivity | reflexivity | left; lia].
Defined.

Lemma wait_last_cons d m m' ms :
  SwipeGesture.wait_last d (m :: m' :: ms) =
  m :: SwipeGesture.wait_last d (m' :: ms).
Proof. reflexivity. Qed.

Lemma wait_last_length d ms :
  length (SwipeGesture.wait_last d ms) = length ms.
Proof.
  induction ms as [|m ms IH]; [reflexivity|].
  destruct ms as [|m' ms]; [reflexivity|].
  rewrite wait_last_cons. cbn [length] in *. now rewrite IH.
Qed.

Lemma wait_last_head d m ms :
  exists m', SwipeGesture.wait_last d (m :: ms) =
             m' :: List.tl (SwipeGesture.wait_last d (m :: ms)) /\
             SwipeGesture.x m' = SwipeGesture.x m /\
             SwipeGesture.y m' = SwipeGesture.y m.
Proof.
  destruct ms as [|m1 ms].
  - eexists. split; [reflexivity|]. split; reflexivity.
  - exists m. split; [reflexivity|]. split; reflexivity.
Qed.

Lemma pathPoint_ext sd k i lower upper lower' upper' step :
  SwipeGesture.x lower' = SwipeGesture.x lower ->
  SwipeGesture.y lower' = SwipeGesture.y lower ->
  SwipeGesture.x upper' = SwipeGesture.x upper ->
  SwipeGesture.y upper' = SwipeGesture.y upper ->
  pathPoint sd k i lower' upper' step = pathPoint sd k i lower upper step.
Proof. intros H1 H2 H3 H4. unfold pathPoint. now rewrite H1, H2, H3, H4. Qed.

(** A wait changes no point of the path. *)
Lemma path_wait_last sd k n d ms : forall i,
  path sd k n i (SwipeGesture.wait_last d ms) = path sd k n i ms.
Proof.
  induction ms as [|m ms IH]; intros i; [reflexivity|].
  destruct ms as [|m1 ms]; [reflexivity|].
  rewrite wait_last_cons, path_cons.
  destruct (wait_last_head d m1 ms) as (m1' & Hcons & Hx & Hy).
  rewrite Hcons, path_cons, <- Hcons, IH.
  f_equal. apply list_fmap_ext. intros j step _.
  now apply pathPoint_ext.
Qed.

Lemma wait_last_waits d ms :
  Forall (fun m => SwipeGesture.wait m = None) ms ->
  waits_only_at_end (SwipeGesture.wait_last d ms) /\
  last (SwipeGesture.wait_last d ms) =
    SwipeGesture.add_wait d <$> last ms.
Proof.
  induction 1 as [|m ms Hm _ IH]; [now split|].
  destruct ms as [|m1 ms]; [now split|].
  rewrite wait_last_cons. destruct IH as [IHw IHl].
  destruct (SwipeGesture.wait_last d (m1 :: ms)) as [|m1' ms'] eqn:Ew.
  { pose proof (wait_last_length d (m1 :: ms)) as Hl.
    rewrite Ew in Hl. discriminate. }
  split.
  - split; [|exact IHw]. unfold SwipeGesture.has_wait. now rewrite Hm.
  - exact IHl.
Qed.

(** X20: a wait at the end of a gesture.  When a gesture without waits
    is built into a path, the gesture followed by [wait(d)], [d] being a
    number other than 0, is built into the same path and one more move,
    which holds the end point [d] ms longer. *)
Theorem trailing_wait_holds_end_point `{Host}
    (g : SwipeGesture.SwipeGesture) (k : nat) (d : num) :
  stepsPerSegment g = of_Z (Z.of_nat k) ->
  (1 <= k)%nat -> (1 <= segmentCount g)%nat ->
  Forall (fun m => SwipeGesture.wait m = None) (SwipeGesture.moves g) ->
  truthy (d + of_Z 0)%num = true ->
  exists r m,
    SwipeGesture.build g = SwipeGesture.Built r /\
    last r = Some m /\
    SwipeGesture.build (SwipeGesture.wait_ d g) =
      SwipeGesture.Built (r ++ [held (d + of_Z 0)%num m]).
Proof.
  intros Hsps Hk Hn Hnone Hd.
  set (r := path (SwipeGesture.stepDuration g) k (segmentCount g) 0
              (SwipeGesture.moves g)).
  assert (Hr : exists m, last r = Some m).
  { assert (Hlen : length r = (segmentCount g * k + 1)%nat).
    { unfold r. rewrite (path_length _ _ _ _ 0); unfold segmentCount in *;
        [f_equal; f_equal; lia | lia | lia]. }
    destruct (last r) as [m|] eqn:El; [eauto|].
    apply last_None in El. rewrite El in Hlen. simpl in Hlen. lia. }
  destruct Hr as (m & Hm). exists r, m.
  destruct (wait_last_waits d _ Hnone) as [Hw' Hlast'].
  split; [|split; [exact Hm|]].
  - rewrite (build_is_path g k Hsps Hk Hn).
    + fold r. unfold trailing.
      destruct (last (SwipeGesture.moves g)) as [m0|] eqn:El;
        [|now rewrite app_nil_r].
      apply last_Some_elem_of in El. rewrite Forall_forall in Hnone.
      cbn [mbind option_bind]. unfold SwipeGesture.has_wait.
      rewrite (Hnone m0 El). now rewrite app_nil_r.
    + clear -Hnone. induction Hnone as [|m0 [|m1 ms] Hm0 _ IH]; simpl; auto.
      split; [|exact IH]. unfold SwipeGesture.has_wait. now rewrite Hm0.
  - assert (Hcount : segmentCount (SwipeGesture.wait_ d g) = segmentCount g).
    { unfold segmentCount, SwipeGesture.wait_. cbn [SwipeGesture.moves].
      now rewrite wait_last_length. }
    assert (Hsps' : stepsPerSegment (SwipeGesture.wait_ d g)
                    = of_Z (Z.of_nat k)).
    { rewrite <- Hsps. unfold stepsPerSegment, durationOf.
      rewrite Hcount. reflexivity. }
    rewrite (build_is_path _ k Hsps' Hk); [| now rewrite Hcount | exact Hw'].
    rewrite Hcount. cbn [SwipeGesture.wait_ SwipeGesture.moves
                         SwipeGesture.stepDuration].
    rewrite path_wait_last. fold r. unfold trailing.
    rewrite Hlast', Hm.
    destruct (last (SwipeGesture.moves g)) as [m0|] eqn:El.
    + apply last_Some_elem_of in El. rewrite Forall_forall in Hnone.
      cbn [fmap option_fmap option_map mbind option_bind].
      unfold SwipeGesture.has_wait, SwipeGesture.add_wait.
      cbn [SwipeGesture.wait]. rewrite (Hnone m0 El). cbn [default].
      rewrite Hd. reflexivity.
    + apply last_None in El. unfold segmentCount in Hn.
      rewrite El in Hn. simpl in Hn. lia.
Qed.

Lemma trailing_wait_holds_end_point_witness :
  exists r m,
    SwipeGesture.build (H:=exampleHost) cornerSwipe = SwipeGesture.Built r /\
    last r = Some m /\
    SwipeGesture.build (H:=exampleHost)
      (SwipeGesture.wait_ (of_Z 250) cornerSwipe) =
      SwipeGesture.Built (r ++ [held (of_Z 250 + of_Z 0)%num m]).
Proof.
  apply (trailing_wait_holds_end_point (H:=exampleHost) cornerSwipe 3
           (of_Z 250)).
  - vm_compute. reflexivity.
  - lia.
  - vm_compute. lia.
  - repeat constructor.
  - reflexivity.
Defined.

(** X21: a gesture that has been given no waypoint has the start point
    only, and is built into the empty path, whatever its duration and
    step duration are: the test of the duration does not fail, because
    the steps per segment are the result of a division by 0. *)
Theorem build_without_waypoints `{Host} (duration stepDuration : option num) :
  SwipeGesture.build (SwipeGesture.new duration stepDuration) =
  SwipeGesture.Built [].
Proof.
  rewrite build_unfold.
  assert (Hz : strict_eq
                 (stepsPerSegment (SwipeGesture.new duration stepDuration))
                 (of_Z 0) = false).
  { unfold stepsPerSegment.
    change (segmentCount (SwipeGesture.new duration stepDuration))
      with 0%nat.
    generalize (floor (durationOf (SwipeGesture.new duration stepDuration)
                       / SwipeGesture.stepDuration
                           (SwipeGesture.new duration stepDuration))).
    intros [|negative|q]; try reflexivity.
    unfold of_Z. change (inject_Z (Z.of_nat 0)) with 0.
    cbn [JsNum.div]. change (Qzero 0) with true.
    cbv iota. destruct (Qzero q); reflexivity. }
  rewrite Hz. reflexivity.
Qed.

Section DirectionFacts.
Context `{Host}.

Lemma to_percent x y (g : SwipeGesture.SwipeGesture) :
  endsWithChar x "%" = true -> endsWithChar y "%" = true ->
  SwipeGesture.to x y g =
  Ok {| SwipeGesture.moves :=
          SwipeGesture.moves g ++
          [ {| SwipeGesture.x := (parseFloat x / of_Z 100)%num;
               SwipeGesture.y := (parseFloat y / of_Z 100)%num;
               SwipeGesture.wait := None |} ];
        SwipeGesture.duration := SwipeGesture.duration g;
        SwipeGesture.stepDuration := SwipeGesture.stepDuration g |}.
Proof.
  intros Hx Hy. unfold SwipeGesture.to. now rewrite Hx, Hy.
Qed.

Lemma negative_percent value :
  endsWithChar (Directions.negative value) "%" = true.
Proof.
  unfold Directions.negative.
  rewrite endsWithChar_app; [apply endsWithChar_percent|].
  apply append_nonempty_r. discriminate.
Qed.

Lemma positive_percent value :
  endsWithChar (Directions.positive value) "%" = true.
Proof. apply endsWithChar_percent. Qed.

(** X22: the four directions never fail, whatever distance they are
    given, not even for a distance that is no number: each adds one
    waypoint, on the vertical axis for [up] and [down] and on the
    horizontal axis for [left] and [right], and leaves the waypoints
    before it, the duration and the step duration as they are. *)
Theorem directions_never_fail (distance : option string)
    (g : SwipeGesture.SwipeGesture) :
  let added (on_vertical_axis : bool) (r : completion _) :=
    exists g' m,
      r = Ok g' /\
      SwipeGesture.moves g' = SwipeGesture.moves g ++ [m] /\
      same (if on_vertical_axis then SwipeGesture.x m else SwipeGesture.y m)
           (of_Z 0) /\
      SwipeGesture.wait m = None /\
      SwipeGesture.duration g' = SwipeGesture.duration g /\
      SwipeGesture.stepDuration g' = SwipeGesture.stepDuration g in
  added true (Directions.up distance g) /\
  added true (Directions.down distance g) /\
  added false (Directions.left distance g) /\
  added false (Directions.right distance g).
Proof.
  intros added.
  assert (Hzero : same (parseFloat "0%" / of_Z 100)%num (of_Z 0))
    by reflexivity.
  unfold added, Directions.up, Directions.down, Directions.left,
    Directions.right.
  repeat split.
  - rewrite to_percent by (reflexivity || apply negative_percent).
    eexists _, _. repeat split; exact Hzero.
  - rewrite to_percent by (reflexivity || apply positive_percent).
    eexists _, _. repeat split; exact Hzero.
  - rewrite to_percent by (reflexivity || apply negative_percent).
    eexists _, _. repeat split; exact Hzero.
  - rewrite to_percent by (reflexivity || apply positive_percent).
    eexists _, _. repeat split; exact Hzero.
Qed.

End DirectionFacts.

(** [up()] goes half a screen in the negative direction of the vertical
    axis; [up('-50%')], whose sign gives the string ['--50%'], goes to a
    point that is no number. *)
Example up_examples :
  (exists g y,
     Directions.up (H:=exampleHost) None (SwipeGesture.new None None)
       = Ok g /\
     SwipeGesture.y <$> last (SwipeGesture.moves g) = Some (Fin y) /\
     y == - (1 # 2)) /\
  (exists g,
     Directions.up (H:=exampleHost) (Some "-50%")
       (SwipeGesture.new None None) = Ok g /\
     SwipeGesture.y <$> last (SwipeGesture.moves g) = Some NaN).
Proof.
  split.
  - eexists _, _. split; [reflexivity|].
    split; [vm_compute; reflexivity | reflexivity].
  - eexists. split; [reflexivity|]. vm_compute. reflexivity.
Qed.

(** ** Action dispatcher: bounds *)

Lemma remainingTimeout_Fin T :
  10000 < T -> remainingTimeout (Fin T) = Fin (T + - inject_Z 10000).
Proof.
  intros HT. unfold remainingTimeout, MAX_APP_RECORDER_TIMEOUT, of_Z,
    JsNum.sub. cbn [opp add max].
  assert (Hlt : JsNum.lt (Fin (inject_Z 0)) (Fin (T + - inject_Z 10000))
                = true).
  { apply lt_Fin. change (inject_Z 0) with 0.
    change (inject_Z 10000) with 10000. lra. }
  now rewrite Hlt.
Qed.

Lemma prepare_timeout_valid `{Host} this action_ T noMap_ ma :
  prepare this action_ {| timeout := Some (Fin T); noMap := noMap_ |} = Ok ma ->
  0 <= T.
Proof.
  intros Hp. unfold prepare in Hp. cbn [timeout default] in Hp.
  destruct (config_record this); [|discriminate Hp].
  unfold Datatypes.id in Hp.
  destruct (JsNum.lt (Fin T) (of_Z 0)) eqn:E; [discriminate Hp|].
  apply lt_Fin_false in E. exact E.
Qed.

Lemma options_timeout_whole_seconds T :
  0 <= T ->
  whole_seconds_up_to_10 (round (attemptTimeout (Fin T) / of_Z 1000)%num).
Proof.
  intros HT. unfold attemptTimeout, MAX_APP_RECORDER_TIMEOUT, of_Z.
  cbn [JsNum.min].
  assert (Hmin : exists c, (if JsNum.lt (Fin (inject_Z 10000)) (Fin T)
                            then Fin (inject_Z 10000) else Fin T) = Fin c /\
                           0 <= c <= 10000).
  { destruct (JsNum.lt _ _) eqn:E.
    - exists (inject_Z 10000). split; [reflexivity|].
      change (inject_Z 10000) with 10000. lra.
    - apply lt_Fin_false in E. change (inject_Z 10000) with 10000 in E.
      exists T. split; [reflexivity | lra]. }
  destruct Hmin as (c & -> & Hc).
  rewrite div_Fin by discriminate. cbn [round].
  eexists. split; [reflexivity|].
  change (inject_Z 1000) with 1000.
  split.
  - apply Qfloor_nonneg.
    assert (0 <= c / 1000) by (apply Qle_shift_div_l; lra). lra.
  - assert (Hq : c / 1000 + (1 # 2) < inject_Z 11).
    { assert (c / 1000 <= 10) by (apply Qle_shift_div_r; lra).
      change (inject_Z 11) with 11. lra. }
    assert (Hf : (Qfloor (c / 1000 + (1 # 2)) < 11)%Z).
    { rewrite Zlt_Qlt. eapply Qle_lt_trans; [apply Qfloor_le | exact Hq]. }
    lia.
Qed.

Lemma attempts_bounded `{Host} fuel uuid this action_ noMap_ :
  forall (m : nat) (T : Q) w res w',
    (1 <= m)%nat -> T <= 10000 * inject_Z (Z.of_nat m) ->
    playAction_rec fuel uuid this action_
      {| timeout := Some (Fin T); noMap := noMap_ |} w = Some (res, w') ->
    exists ps,
      sent w' = sent w ++ ps /\ (length ps <= m)%nat /\
      Forall (fun p => whole_seconds_up_to_10 (options_timeout p)) ps.
Proof.
  induction fuel as [|fuel IH]; intros m T w res w' Hm HT; [discriminate|].
  cbn [playAction_rec timeout default noMap]. unfold Datatypes.id.
  destruct (prepare this action_ _) as [ma|e0] eqn:Ep.
  2:{ intros [= <- <-]. exists []. rewrite app_nil_r.
      split; [reflexivity|]. split; [simpl; lia | constructor]. }
  pose proof (prepare_timeout_valid _ _ _ _ _ Ep) as HT0.
  destruct (await_response _ _ _ _) as [[s rest] at_].
  set (payload := makePayload (uuid (drawn w)) ma (Fin T)).
  assert (Hp : whole_seconds_up_to_10 (options_timeout payload))
    by (apply options_timeout_whole_seconds; exact HT0).
  assert (Hone : forall r,
    Some (r, attempted w payload (Fin T) s rest at_) = Some (res, w') ->
    exists ps,
      sent w' = sent w ++ ps /\ (length ps <= m)%nat /\
      Forall (fun p => whole_seconds_up_to_10 (options_timeout p)) ps).
  { intros r [= _ <-]. exists [payload]. split; [reflexivity|].
    split; [simpl; lia|]. now constructor. }
  destruct s as [value|e|]; try apply Hone.
  destruct (gt (remainingTimeout (Fin T)) (of_Z 0)) eqn:Eg;
    [|apply Hone].
  destruct (negb (instanceof e ActionTimeoutError) &&
            negb (instanceof e ActionInternalError)) eqn:Er;
    cbn [andb]; rewrite ?Er; [|apply Hone].
  assert (HT1 : 10000 < T).
  { destruct (Qlt_le_dec 10000 T) as [Hlt|Hle]; [exact Hlt|].
    rewrite (remainingTimeout_none T Hle) in Eg. discriminate. }
  rewrite (remainingTimeout_Fin T HT1).
  intros Hrun.
  assert (Hm1 : (1 <= m - 1)%nat).
  { assert (2 <= m)%nat; [|lia].
    destruct (decide (m = 1%nat)) as [->|]; [|lia].
    change (inject_Z (Z.of_nat 1)) with 1 in HT. lra. }
  assert (HT2 : T + - inject_Z 10000 <= 10000 * inject_Z (Z.of_nat (m - 1))).
  { replace (Z.of_nat (m - 1)) with (Z.of_nat m + - (1))%Z by lia.
    rewrite inject_Z_plus.
    change (inject_Z (- (1))) with (- (1)).
    change (inject_Z 10000) with 10000. lra. }
  destruct (IH (m - 1)%nat _ _ _ _ Hm1 HT2 Hrun) as (ps & Hps & Hlen & Hall).
  exists (payload :: ps). cbn [attempted sent] in Hps.
  rewrite Hps, <- app_assoc. split; [reflexivity|].
  split; [simpl; lia | now constructor].
Qed.

(** X23: the attempts of a call.  A call with a timeout of at most [m]
    times 10000 ms, [m] being 1 or more, sends at most [m] requests,
    whatever the device answers; and the timeout that each request gives
    the device is a whole number of seconds from 0 to 10. *)
Theorem playAction_attempts_bounded `{Host} (uuid : nat -> string)
    (this : Session) (action_ : Public.Action) (noMap_ : bool)
    (events : timeline) (m : nat) (T : Q) res w' :
  (1 <= m)%nat -> T <= 10000 * inject_Z (Z.of_nat m) ->
  playAction uuid this action_ {| timeout := Some (Fin T); noMap := noMap_ |}
    (start events) = Some (res, w') ->
  (length (sent w') <= m)%nat /\
  Forall (fun p => whole_seconds_up_to_10 (options_timeout p)) (sent w').
Proof.
  intros Hm HT Hrun.
  destruct (attempts_bounded _ _ _ _ _ m T _ _ _ Hm HT Hrun)
    as (ps & Hps & Hlen & Hall).
  cbn [start sent] in Hps. rewrite Hps. cbn [app]. split; assumption.
Qed.

Lemma playAction_attempts_bounded_witness :
  exists res w',
    playAction (H:=exampleHost) exampleUuid exampleSession tapOkButton
      {| timeout := Some (Fin 25000); noMap := false |}
      (start threeNotFound) = Some (res, w') /\
    (length (sent w') <= 3)%nat /\
    Forall (fun p => whole_seconds_up_to_10 (options_timeout p)) (sent w').
Proof.
  destruct (playAction_total (H:=exampleHost) exampleUuid exampleSession
              tapOkButton {| timeout := Some (Fin 25000); noMap := false |}
              (start threeNotFound)) as [[res w'] Hrun].
  exists res, w'. split; [exact Hrun|].
  apply (playAction_attempts_bounded (H:=exampleHost) exampleUuid
           exampleSession tapOkButton false threeNotFound 3%nat 25000 res w');
    [lia | vm_compute; discriminate | exact Hrun].
Defined.

Lemma total_delay_app ts1 ts2 :
  total_delay (ts1 ++ ts2) == total_delay ts1 + total_delay ts2.
Proof.
  induction ts1 as [|t ts1 IH]; simpl; [ring|].
  destruct t; rewrite IH; ring.
Qed.

Lemma timer_due_total_delay now_ d :
  timer_due now_ d == now_ + total_delay [d].
Proof. destruct d; simpl; ring. Qed.

(** ** Action dispatcher: which errors are retried, which are thrown *)

Lemma deliver_rejected `{Host} payload_id ev e :
  deliver payload_id ev = Some (Rejected e) ->
  instanceof e ActionError = true /\ isOperational e = Some true /\
  exists error, ev = playbackError error /\
                errorId e = Some (Public.errorId error).
Proof.
  destruct ev as [value|error]; cbn [deliver].
  - unfold handleSuccess. destruct (Public.res_playback value);
      [|discriminate]. destruct (String.eqb _ _); discriminate.
  - unfold handleError.
    destruct (Public.err_playback error) as [pb|] eqn:Epb; [|discriminate].
    destruct (String.eqb _ _); [|discriminate].
    intros [= Hc]. revert Hc.
    unfold classify, new_ActionInternalError,
      new_ActionElementNotFoundError, new_ActionAmbiguousElementError,
      new_ActionInvalidArgumentError.
    rewrite Epb. simpl.
    repeat (destruct (String.eqb (Public.errorId error) _);
            [intros [= <-]; repeat split; eauto|]).
    destruct (String.eqb (Public.errorId error) "invalidArgument").
    + destruct (includes _ _); intros [= <-]; repeat split; eauto.
    + intros [= <-]; repeat split; eauto.
Qed.

Lemma await_response_rejected `{Host} payload_id due te inbox e rest at_ :
  await_response payload_id due te inbox = (Rejected e, rest, at_) ->
  e = te \/
  (instanceof e ActionError = true /\ isOperational e = Some true /\
   exists error, errorId e = Some (Public.errorId error)).
Proof.
  intros Hr. apply await_response_spec in Hr.
  destruct Hr as [(pre & ev & _ & _ & _ & Hd) | (pre & _ & _ & [= ->] & _)];
    [right | now left].
  destruct (deliver_rejected _ _ _ Hd) as (Ha & Ho & error & _ & Hid).
  eauto.
Qed.

Lemma retried_rec `{Host} fuel uuid this action_ :
  forall options w res w',
    playAction_rec fuel uuid this action_ options w = Some (res, w') ->
    forall i : nat,
      (length (sent w) + S i < length (sent w'))%nat ->
      exists e,
        settlements w' !! (length (settlements w) + i)%nat
          = Some (Rejected e) /\
        instanceof e ActionError = true /\
        instanceof e ActionInternalError = false /\
        instanceof e ActionTimeoutError = false /\
        gt (budget (default (of_Z 10000) (timeout options)) (S i)) (of_Z 0)
          = true.
Proof.
  induction fuel as [|fuel IH]; intros options w res w'; [discriminate|].
  cbn [playAction_rec].
  destruct (prepare this action_ options) as [ma|e0].
  2:{ intros [= <- <-] i Hi. lia. }
  destruct (await_response _ _ _ _) as [[s rest] at_] eqn:Ea.
  set (T := default (of_Z 10000) (timeout options)) in *.
  set (payload := makePayload (uuid (drawn w)) ma T) in *.
  assert (Hone : forall r,
    Some (r, attempted w payload T s rest at_) = Some (res, w') ->
    forall i : nat,
      (length (sent w) + S i < length (sent w'))%nat ->
      exists e,
        settlements w' !! (length (settlements w) + i)%nat
          = Some (Rejected e) /\
        instanceof e ActionError = true /\
        instanceof e ActionInternalError = false /\
        instanceof e ActionTimeoutError = false /\
        gt (budget T (S i)) (of_Z 0) = true).
  { intros r [= _ <-] i Hi. cbn [attempted sent] in Hi.
    rewrite length_app in Hi. simpl in Hi. lia. }
  destruct s as [value|e|]; try apply Hone.
  destruct (gt (remainingTimeout T) (of_Z 0)) eqn:Eg; [|apply Hone].
  destruct (instanceof e ActionTimeoutError) eqn:Et; [apply Hone|].
  destruct (instanceof e ActionInternalError) eqn:Ei; [apply Hone|].
  cbn [andb negb]. intros Hrun i Hi.
  destruct i as [|i].
  - exists e.
    destruct (playAction_rec_extends _ _ _ _ _ _ _ _ Hrun)
      as (ps & ts & ss & _ & _ & Hss & _).
    cbn [attempted settlements] in Hss.
    rewrite Hss, Nat.add_0_r, <- app_assoc.
    split; [apply list_lookup_middle; reflexivity|].
    split; [|repeat split; assumption].
    destruct (await_response_rejected _ _ _ _ _ _ _ Ea) as [-> | [Ha _]];
      [|exact Ha].
    rewrite hardTimeoutError_instanceof in Et. discriminate.
  - destruct (IH _ _ _ _ Hrun i) as (e' & He' & Ha & Hi' & Ht & Hb).
    + cbn [attempted sent]. rewrite length_app. simpl. lia.
    + exists e'. cbn [attempted settlements] in He'.
      rewrite length_app in He'. simpl in He'.
      replace (length (settlements w) + S i)%nat
        with (length (settlements w) + 1 + i)%nat by lia.
      split; [exact He'|]. repeat split; try assumption.
      cbn [timeout default] in Hb. unfold Datatypes.id in Hb.
      unfold budget in *. rewrite Nat.iter_succ_r. exact Hb.
Qed.

(** X25: what is retried.  In every run, each attempt but the last was
    rejected on an error response of the device: its error is an
    [ActionError] that is neither an [ActionInternalError] nor the
    [ActionTimeoutError] of the hard timer, and the timeout of the call
    exceeded 10000 ms for each attempt made before. *)
Theorem only_device_errors_are_retried `{Host} (uuid : nat -> string)
    (this : Session) (action_ : Public.Action) (options : PlayActionOptions)
    (events : timeline) res w' (i : nat) :
  playAction uuid this action_ options (start events) = Some (res, w') ->
  (S i < length (sent w'))%nat ->
  exists e,
    settlements w' !! i = Some (Rejected e) /\
    instanceof e ActionError = true /\
    instanceof e ActionInternalError = false /\
    instanceof e ActionTimeoutError = false /\
    gt (budget (default (of_Z 10000) (timeout options)) (S i)) (of_Z 0) = true.
Proof.
  intros Hrun Hi.
  apply (retried_rec _ _ _ _ _ _ _ _ Hrun i). cbn [start sent length].
  lia.
Qed.

Lemma only_device_errors_are_retried_witness :
  exists res w' e,
    playAction (H:=exampleHost) exampleUuid exampleSession tapOkButton
      {| timeout := Some (of_Z 25000); noMap := false |}
      (start threeNotFound) = Some (res, w') /\
    settlements w' !! 1%nat = Some (Rejected e) /\
    instanceof e ActionError = true /\
    instanceof e ActionTimeoutError = false.
Proof.
  destruct (playAction_total (H:=exampleHost) exampleUuid exampleSession
              tapOkButton {| timeout := Some (of_Z 25000); noMap := false |}
              (start threeNotFound)) as [[res w'] Hrun].
  destruct (only_device_errors_are_retried (H:=exampleHost) exampleUuid
              exampleSession tapOkButton
              {| timeout := Some (of_Z 25000); noMap := false |}
              threeNotFound res w' 1%nat Hrun)
    as (e & He & Ha & _ & Ht & _).
  - pose proof Hrun as Hrun'. vm_compute in Hrun'.
    injection Hrun' as _ <-. simpl. lia.
  - exists res, w', e. repeat split; assumption.
Defined.

(** X26: the checks come before anything is sent.  In every run, nothing
    is sent exactly when the checks or the mapping of the action throw:
    the error then goes to the caller as it is, no request id is drawn
    and no timer is set.  A session whose configuration does not enable
    the recorder is such a case, whatever the action and the options. *)
Theorem failed_checks_send_nothing `{Host} (uuid : nat -> string)
    (this : Session) (action_ : Public.Action) (options : PlayActionOptions)
    (events : timeline) res w' :
  playAction uuid this action_ options (start events) = Some (res, w') ->
  (sent w' = [] <->
   exists e, prepare this action_ options = Throw e /\
             res = Threw e /\ w' = start events) /\
  (config_record this = false ->
   res = Threw (new_RecorderRequiredError "playAction()") /\
   w' = start events).
Proof.
  intros Hrun. pose proof Hrun as Hstep.
  apply playAction_rec_step in Hstep. cbv zeta in Hstep.
  destruct Hstep as [(e & Hp & -> & ->) | (ma & s & rest & at_ & Hp & _ & Hs)].
  - split.
    + split; [intros _; eauto | reflexivity].
    + intros Hrec. unfold prepare in Hp. rewrite Hrec in Hp.
      injection Hp as <-. now split.
  - assert (Hsent : sent w' <> []).
    { assert (exists p ps, sent w' = p :: ps) as (p & ps & ->);
        [|discriminate].
      destruct s as [value|e|].
      - destruct Hs as [_ ->]. eexists _, []. reflexivity.
      - destruct (_ && _ && _).
        + destruct Hs as (fuel' & Hrec).
          apply playAction_rec_extends in Hrec as (ps & ? & ? & -> & _).
          eexists _, ps. reflexivity.
        + destruct Hs as [_ ->]. eexists _, []. reflexivity.
      - destruct Hs as [_ ->]. eexists _, []. reflexivity. }
    split.
    + split; [intros Hnil; contradiction|].
      intros (e & Hp' & _). rewrite Hp in Hp'. discriminate.
    + intros Hrec. unfold prepare in Hp. rewrite Hrec in Hp. discriminate.
Qed.

Lemma failed_checks_send_nothing_witness :
  exists res w' e,
    playAction (H:=exampleHost) exampleUuid exampleSession
      (tapElement misplacedText None) {| timeout := None; noMap := false |}
      (start threeNotFound) = Some (res, w') /\
    res = Threw e /\ cls e = Error /\ sent w' = [].
Proof.
  destruct (playAction_total (H:=exampleHost) exampleUuid exampleSession
              (tapElement misplacedText None) {| timeout := None; noMap := false |}
              (start threeNotFound)) as [[res w'] Hrun].
  destruct (failed_checks_send_nothing (H:=exampleHost) exampleUuid
              exampleSession (tapElement misplacedText None)
              {| timeout := None; noMap := false |} threeNotFound res w' Hrun)
    as [[_ Hnothing] _].
  pose proof Hrun as Hrun'. vm_compute in Hrun'.
  injection Hrun' as Hres Hw.
  eexists res, w', _. split; [exact Hrun|].
  split; [symmetry; exact Hres|]. split; [reflexivity|].
  apply Hnothing. eexists. split; [vm_compute; reflexivity|].
  split; [symmetry; exact Hres | symmetry; exact Hw].
Defined.

(** ** The logs of a session *)

Section LogFacts.
Import SessionEngine SessionLogs.
Context {V : Type}.
Context (mapEventValue : string -> V -> V).
Context (withAdbCommand : V -> V).
Context (percentage timestamp : V -> num).
Context `{Host}.

Local Abbreviation handleSocketEvent :=
  (SessionEngine.handleSocketEvent mapEventValue withAdbCommand).
Local Abbreviation deliver :=
  (SessionEngine.deliver mapEventValue withAdbCommand percentage timestamp).
Local Abbreviation handlePixelsChanged :=
  (SessionEngine.handlePixelsChanged percentage timestamp).
Local Abbreviation step :=
  (SessionEngine.step mapEventValue withAdbCommand percentage timestamp).
Local Abbreviation run :=
  (SessionEngine.run mapEventValue withAdbCommand percentage timestamp).

Lemma elem_of_remove_first_ne {A} `{EqDecision A} (x y : A) l :
  x <> y -> x ∈ l -> x ∈ remove_first y l.
Proof.
  intros Hne. induction l as [|z l IH]; simpl; [easy|].
  intros Hin. apply elem_of_cons in Hin as [-> | Hin].
  - destruct (decide (y = z)); [congruence | left].
  - destruct (decide (y = z)); [exact Hin | right; now apply IH].
Qed.

Lemma elem_of_remove_last_ne {A} `{EqDecision A} (x y : A) l :
  x <> y -> x ∈ l -> x ∈ remove_last y l.
Proof.
  intros Hne Hin. unfold remove_last. apply elem_of_reverse.
  apply elem_of_remove_first_ne; [exact Hne | now apply elem_of_reverse].
Qed.

Lemma mapped_name type value name value' :
  mapAppetizerEvent mapEventValue type value = Mapped name value' ->
  name <> "deleteEvent" /\ name <> "disconnect".
Proof.
  unfold mapAppetizerEvent.
  destruct (String.eqb type "deleteEvent"); [discriminate|].
  destruct (assoc type publicNames) as [n|] eqn:E; [|discriminate].
  intros [= <- _]. simpl in E.
  repeat (destruct (String.eqb type _);
          [injection E as <-; split; discriminate|]).
  discriminate E.
Qed.

Lemma not_mapped_name type value :
  mapAppetizerEvent mapEventValue type value = NotMapped ->
  type <> "deleteEvent".
Proof.
  unfold mapAppetizerEvent. intros Hm ->. discriminate Hm.
Qed.

(** What [emit] does to the session that emits. *)
Lemma emit_logs id name (value : V) sys s :
  sessions sys !! id = Some s ->
  exists s',
    sessions (emit id name value sys) !! id = Some s' /\
    invocations s' = invocations s /\
    emitted s' = emitted s ++ [Named name value; Star name value] /\
    ((name <> "disconnect" /\ warnings s' = warnings s /\
      star (emit id name value sys) = star sys) \/
     (name = "disconnect" /\
      star (emit id name value sys) = remove_last id (star sys) /\
      (warnings s' = warnings s \/
       exists m, m ∈ disconnectWarnings /\
                 warnings s' = warnings s ++ [m]))).
Proof.
  intros Hs. unfold emit, on_disconnect.
  destruct (String.eqb name "disconnect") eqn:E.
  - apply String.eqb_eq in E. simpl. rewrite !lookup_alter_eq, Hs. simpl.
    eexists. split; [reflexivity|]. simpl.
    split; [reflexivity|]. split; [now rewrite <- app_assoc|].
    right. split; [exact E|]. split; [reflexivity|].
    destruct (isEndingManually s); [now left | right].
    destruct (countdownWarning s); eexists; (split; [|reflexivity]);
      unfold disconnectWarnings;
      rewrite !elem_of_cons; tauto.
  - apply String.eqb_neq in E. simpl. rewrite !lookup_alter_eq, Hs. simpl.
    eexists. split; [reflexivity|]. simpl.
    split; [reflexivity|]. split; [now rewrite <- app_assoc|].
    left. now repeat split.
Qed.

(** What the socket handler of a session does to its logs. *)
Lemma handleSocketEvent_logs id type value sys s :
  sessions sys !! id = Some s ->
  let sys' := handleSocketEvent id type value sys in
  exists s',
    sessions sys' !! id = Some s' /\
    invocations s' = S (invocations s) /\
    ((emitted s' = emitted s /\ warnings s' = warnings s /\
      star sys' = star sys) \/
     exists name value',
       name <> "deleteEvent" /\
       emitted s' = emitted s ++ [Named name value'; Star name value'] /\
       ((name <> "disconnect" /\ warnings s' = warnings s /\
         star sys' = star sys) \/
        (name = "disconnect" /\ star sys' = remove_last id (star sys) /\
         (warnings s' = warnings s \/
          exists m, m ∈ disconnectWarnings /\
                    warnings s' = warnings s ++ [m])))).
Proof.
  intros Hs sys'. subst sys'. unfold SessionEngine.handleSocketEvent.
  rewrite Hs.
  set (sys1 := update_session id (applyEvent withAdbCommand type value) sys).
  assert (Hs1 : sessions sys1 !! id
                = Some (applyEvent withAdbCommand type value s)).
  { subst sys1. simpl. now rewrite lookup_alter_eq, Hs. }
  destruct (mapAppetizerEvent mapEventValue type value)
    as [name value'| |] eqn:Em.
  - destruct (emit_logs id name value' sys1 _ Hs1)
      as (s' & Hs' & Hinv & Hem & Hw).
    exists s'. split; [exact Hs'|]. split; [exact Hinv|].
    right. exists name, value'.
    split; [apply (mapped_name _ _ _ _ Em)|]. split; [exact Hem | exact Hw].
  - eexists. split; [exact Hs1|]. split; [reflexivity|]. left.
    now repeat split.
  - destruct (emit_logs id type value sys1 _ Hs1)
      as (s' & Hs' & Hinv & Hem & Hw).
    exists s'. split; [exact Hs'|]. split; [exact Hinv|].
    right. exists type, value.
    split; [apply (not_mapped_name _ _ Em)|]. split; [exact Hem | exact Hw].
Qed.

Lemma pairs_snoc (events : list (string * V)) name value :
  pairs (events ++ [(name, value)]) =
  pairs events ++ [Named name value; Star name value].
Proof. unfold pairs. rewrite flat_map_app. reflexivity. Qed.

Lemma logs_of_weaken (L L' : Prop) (s s' : @Session V) events :
  handlerView s' = handlerView s -> (L' -> L) ->
  logs_of L s events -> logs_of L' s' events.
Proof.
  intros Hv HL (A1 & A2 & A3 & A4 & A5). unfold handlerView in Hv.
  injection Hv as _ _ _ _ _ He Hw Hi. unfold logs_of.
  rewrite He, Hw, Hi. repeat split; try assumption; now apply A5, HL.
Qed.

Lemma keeps_views_logs (sys sys' : @System V) :
  keeps_views sys sys' -> logs_in_order sys -> logs_in_order sys'.
Proof.
  intros (A1 & _ & _ & A4) HP sid s' Hs'. specialize (A4 sid).
  rewrite Hs' in A4.
  destruct (sessions sys !! sid) as [s|] eqn:Es; [|discriminate A4].
  assert (Hv : handlerView s' = handlerView s)
    by (apply (inj Some); exact A4).
  destruct (HP sid s Es) as (events & Hl). exists events.
  apply (logs_of_weaken (sid ∈ star sys) _ s s'); [exact Hv | | exact Hl].
  now rewrite A1.
Qed.

Lemma handleSocketEvent_logs_in_order id type value sys :
  well_formed sys -> id ∈ star sys -> logs_in_order sys ->
  logs_in_order (handleSocketEvent id type value sys).
Proof.
  intros Hw Hid HP sid s' Hs'.
  destruct (handleSocketEvent_frames mapEventValue withAdbCommand
              id type value sys) as (A1 & _ & A3 & _).
  destruct (decide (sid = id)) as [->|Hne].
  2:{ rewrite A3 in Hs' by exact Hne.
      destruct (HP sid s' Hs') as (events & Hl). exists events.
      apply (logs_of_weaken (sid ∈ star sys) _ s' s');
        [reflexivity | apply A1 | exact Hl]. }
  destruct Hw as (Hnd & Hex & _).
  destruct (Hex id Hid) as [s Hs].
  destruct (HP id s Hs) as (events & B1 & B2 & B3 & _ & B5).
  destruct (B5 Hid) as [Hnone Hnod].
  destruct (handleSocketEvent_logs id type value sys s Hs)
    as (s1 & Hs1 & Hinv & Hcases).
  rewrite Hs1 in Hs'. injection Hs' as <-.
  destruct Hcases as [(He & Hwarn & _) |
                      (name & value' & Hdel & He & Hcases)].
  - exists events. unfold logs_of. rewrite He, Hwarn, Hinv, Hnone.
    repeat split; try assumption; [lia | now left].
  - exists (events ++ [(name, value')]). unfold logs_of.
    rewrite He, B1, pairs_snoc, Hinv, length_app. simpl.
    split; [reflexivity|].
    split; [apply Forall_app; split; [exact B2 | now constructor]|].
    split; [lia|].
    destruct Hcases as [(Hnd' & Hwarn & _) | (-> & Hstar & Hwarn)].
    + rewrite Hwarn, Hnone. split; [now left|]. intros _.
      split; [reflexivity|].
      apply Forall_app; split; [exact Hnod | now constructor].
    + split.
      * destruct Hwarn as [-> | (m & Hm & ->)]; rewrite Hnone;
          [now left | right; exists m; now split].
      * rewrite Hstar. intros Hin. exfalso. revert Hin.
        now apply not_elem_of_remove_last.
Qed.

Lemma socket_handlers_logs type value l sys :
  well_formed sys -> NoDup l -> (forall x, x ∈ l -> x ∈ star sys) ->
  logs_in_order sys ->
  logs_in_order
    (fold_left (fun sys id => handleSocketEvent id type value sys) l sys).
Proof.
  revert sys. induction l as [|id l IH]; intros sys Hw Hnd Hl HP;
    [exact HP|].
  apply NoDup_cons in Hnd as [Hid Hnd]. simpl.
  pose proof (handleSocketEvent_frames mapEventValue withAdbCommand
                id type value sys) as Hf.
  assert (Hin : id ∈ star sys) by (apply Hl; now left).
  apply IH.
  - eapply frames_well_formed; [exact Hf | exact Hw].
  - exact Hnd.
  - intros x Hx.
    assert (Hne : x <> id) by (intros ->; contradiction).
    assert (Hxs : x ∈ star sys) by (apply Hl; now right).
    destruct Hw as (_ & Hex & _). destruct (Hex id Hin) as [s Hs].
    destruct (handleSocketEvent_logs id type value sys s Hs)
      as (s1 & _ & _ & Hcases).
    destruct Hcases as [(_ & _ & ->) | (name & value' & _ & _ & Hcases)];
      [exact Hxs|].
    destruct Hcases as [(_ & _ & ->) | (_ & -> & _)]; [exact Hxs|].
    now apply elem_of_remove_last_ne.
  - now apply handleSocketEvent_logs_in_order.
Qed.

Lemma deliver_logs type value sys :
  well_formed sys -> logs_in_order sys ->
  logs_in_order (deliver type value sys).
Proof.
  intros Hw HP. unfold SessionEngine.deliver.
  pose proof (pixel_listeners_keep_views percentage timestamp value
                (pixelsChanged sys) sys []) as Hk.
  destruct (if String.eqb type "pixelsChanged" then _ else _)
    as [sys1 resolved] eqn:E.
  assert (Hk1 : keeps_views sys sys1).
  { destruct (String.eqb type "pixelsChanged").
    - rewrite E in Hk. exact Hk.
    - injection E as <- <-. apply keeps_views_refl. }
  eapply keeps_views_logs; [apply (finishes_keep_views mapEventValue)|].
  pose proof (keeps_views_well_formed _ _ Hk1 Hw) as Hw1.
  destruct Hw1 as (Hnd & Hw1).
  apply (socket_handlers_logs type value (star sys1) sys1);
    [exact (conj Hnd Hw1) | exact Hnd | tauto |].
  eapply keeps_views_logs; [exact Hk1 | exact HP].
Qed.

Lemma newSession_logs device_ (sys : @System V) :
  well_formed sys -> logs_in_order sys ->
  logs_in_order (newSession device_ sys).
Proof.
  intros (_ & _ & Hlt) HP sid s'. simpl.
  destruct (decide (sid = nextSession sys)) as [->|Hne].
  - rewrite lookup_insert_eq. intros [= <-]. exists []. unfold logs_of.
    simpl. split; [reflexivity|]. split; [constructor|]. split; [lia|].
    split; [now left|]. intros _. split; [reflexivity | constructor].
  - rewrite lookup_insert_ne by congruence. intros Hs.
    destruct (HP sid s' Hs) as (events & Hl). exists events.
    apply (logs_of_weaken (sid ∈ star sys) _ s' s');
      [reflexivity | | exact Hl].
    rewrite elem_of_app, list_elem_of_singleton. tauto.
Qed.

Lemma step_logs sys op :
  well_formed sys -> logs_in_order sys -> logs_in_order (step sys op).
Proof.
  intros Hw HP. destruct op as [d|type value|id|id options|id promise]; simpl.
  - now apply newSession_logs.
  - now apply deliver_logs.
  - eapply keeps_views_logs; [apply (end_keeps_views mapEventValue) | exact HP].
  - eapply keeps_views_logs; [apply (waitForAnimations_keeps_views mapEventValue) | exact HP].
  - eapply keeps_views_logs; [apply (timeoutFires_keeps_views mapEventValue) | exact HP].
Qed.

Lemma run_logs ops sys :
  well_formed sys -> logs_in_order sys -> logs_in_order (run ops sys).
Proof.
  revert sys. induction ops as [|op ops IH]; intros sys Hw HP; [exact HP|].
  simpl. apply IH.
  - now apply (step_well_formed mapEventValue withAdbCommand percentage
                 timestamp).
  - now apply step_logs.
Qed.

Lemma init_logs : logs_in_order (@init V).
Proof. intros sid s Hs. simpl in Hs. now rewrite lookup_empty in Hs. Qed.

(** X28: a session warns once at most.  Whatever happens on a channel,
    each session constructed on it has written no warning, or one: the
    warning that it was disconnected, or the warning that it has ended
    due to inactivity; and a session whose handler still listens to the
    socket has written none. *)
Theorem session_warns_at_most_once (ops : list Op) (sid : nat)
    (s : @Session V) :
  sessions (run ops init) !! sid = Some s ->
  (warnings s = [] \/
   warnings s = ["Session disconnected"] \/
   warnings s = ["Appetize session has ended due to inactivity"]) /\
  (sid ∈ star (run ops init) -> warnings s = []).
Proof.
  intros Hs.
  destruct (run_logs ops init (init_well_formed (V:=V)) init_logs sid s Hs)
    as (events & _ & _ & _ & Hw & Hl).
  split; [|intros Hin; now apply Hl].
  destruct Hw as [-> | (m & Hm & ->)]; [now left | right].
  unfold disconnectWarnings in Hm.
  apply elem_of_cons in Hm as [-> | Hm]; [now left | right].
  apply list_elem_of_singleton in Hm. now subst m.
Qed.

(** X29: events are emitted in pairs.  Whatever happens on a channel,
    what a session has emitted is a list of events, each emitted under
    its name and then under ['*'] with the same value; no [deleteEvent]
    is among them; there is at most one for each call of the socket
    handler of the session; and a session whose handler still listens to
    the socket has not emitted [disconnect]. *)
Theorem events_are_emitted_in_pairs (ops : list Op) (sid : nat)
    (s : @Session V) :
  sessions (run ops init) !! sid = Some s ->
  exists events : list (string * V),
    emitted s = pairs events /\
    Forall (fun '(name, _) => name <> "deleteEvent") events /\
    (length events <= invocations s)%nat /\
    (sid ∈ star (run ops init) ->
     Forall (fun '(name, _) => name <> "disconnect") events).
Proof.
  intros Hs.
  destruct (run_logs ops init (init_well_formed (V:=V)) init_logs sid s Hs)
    as (events & He & Hdel & Hlen & _ & Hl).
  exists events. repeat split; try assumption.
  intros Hin. now apply Hl.
Qed.

End LogFacts.

Lemma session_warns_at_most_once_witness :
  exists s,
    SessionEngine.sessions
      (exampleRun disconnectedTwice SessionEngine.init) !! 0%nat = Some s /\
    (SessionEngine.warnings s = [] \/
     SessionEngine.warnings s = ["Session disconnected"] \/
     SessionEngine.warnings s =
       ["Appetize session has ended due to inactivity"]) /\
    (0%nat ∈ SessionEngine.star
               (exampleRun disconnectedTwice SessionEngine.init) ->
     SessionEngine.warnings s = []).
Proof.
  destruct (SessionEngine.sessions
              (exampleRun disconnectedTwice SessionEngine.init) !! 0%nat)
    as [s|] eqn:Es; [|vm_compute in Es; discriminate Es].
  exists s. split; [reflexivity|].
  exact (session_warns_at_most_once (fun _ v => v) (fun v => v)
           examplePercentage exampleTimestamp (H:=exampleHost)
           disconnectedTwice 0%nat s Es).
Defined.

Example disconnectedTwice_logs :
  (fun s => (SessionEngine.warnings s, SessionEngine.emitted s,
             SessionEngine.invocations s)) <$>
    (SessionEngine.sessions
       (exampleRun disconnectedTwice SessionEngine.init) !! 0%nat) =
  Some (["Appetize session has ended due to inactivity"],
        SessionLogs.pairs [("inactivityWarning", NoPayload);
                           ("disconnect", NoPayload)],
        3%nat).
Proof. vm_compute. reflexivity. Qed.

Lemma events_are_emitted_in_pairs_witness :
  exists s (events : list (string * ExamplePayload)),
    SessionEngine.sessions
      (exampleRun disconnectedTwice SessionEngine.init) !! 0%nat = Some s /\
    SessionEngine.emitted s = SessionLogs.pairs events /\
    (length events <= SessionEngine.invocations s)%nat.
Proof.
  destruct (SessionEngine.sessions
              (exampleRun disconnectedTwice SessionEngine.init) !! 0%nat)
    as [s|] eqn:Es; [|vm_compute in Es; discriminate Es].
  destruct (events_are_emitted_in_pairs (fun _ v => v) (fun v => v)
              examplePercentage exampleTimestamp (H:=exampleHost)
              disconnectedTwice 0%nat s Es)
    as (events & He & _ & Hlen & _).
  exists s, events. split; [reflexivity|]. split; [exact He | exact Hlen].
Defined.

(** ** The listener of [waitForAnimations] *)

Section AnimationFacts.
Import SessionEngine Animations.
Context {V : Type} (percentage timestamp : V -> num).

Local Abbreviation pixelsChangedStep :=
  (SessionEngine.pixelsChangedStep percentage timestamp).
Local Abbreviation handled := (Animations.handled percentage timestamp).
Local Abbreviation resolves := (Animations.resolves percentage timestamp).
Local Abbreviation still := (Animations.still percentage).
Local Abbreviation long_enough := (Animations.long_enough timestamp).

Lemma pixelsChangedStep_constants value (w : Wait) :
  imageThreshold (pixelsChangedStep value w).1 = imageThreshold w /\
  imageThresholdDuration (pixelsChangedStep value w).1
    = imageThresholdDuration w.
Proof.
  unfold SessionEngine.pixelsChangedStep.
  destruct (le (percentage value) (imageThreshold w)); now split.
Qed.

Lemma handled_snoc events value (w : Wait) :
  handled (events ++ [value]) w = (pixelsChangedStep value (handled events w)).1.
Proof. unfold Animations.handled. now rewrite fold_left_app. Qed.

Lemma handled_constants events (w : Wait) :
  imageThreshold (handled events w) = imageThreshold w /\
  imageThresholdDuration (handled events w) = imageThresholdDuration w.
Proof.
  induction events as [|value events IH] using rev_ind; [now split|].
  rewrite handled_snoc.
  destruct (pixelsChangedStep_constants value (handled events w)) as [-> ->].
  exact IH.
Qed.

(** The time that the listener remembers is the time stamp of the first
    event of a run of still events that reaches to the last event. *)
Lemma handled_remembers options events l :
  lastTimeUnderThreshold (handled events (newWait options)) = Some l ->
  truthy l = true ->
  exists before first rest,
    events = before ++ first :: rest /\
    Forall (fun v => still options v = true) (first :: rest) /\
    timestamp first = l.
Proof.
  revert l. induction events as [|value events IH] using rev_ind;
    intros l; [discriminate|].
  rewrite handled_snoc.
  destruct (handled_constants events (newWait options)) as [Hthr _].
  unfold SessionEngine.pixelsChangedStep. rewrite Hthr.
  destruct (le (percentage value) (imageThreshold (newWait options)))
    eqn:Estill; [|discriminate].
  cbn [fst lastTimeUnderThreshold].
  destruct (lastTimeUnderThreshold (handled events (newWait options)))
    as [l0|] eqn:El0.
  - destruct (truthy l0) eqn:Et0.
    + intros [= <-] _.
      destruct (IH l0 eq_refl Et0) as (before & first & rest & -> & Hall & Hl).
      exists before, first, (rest ++ [value]).
      split; [now rewrite <- app_assoc|]. split; [|exact Hl].
      rewrite app_comm_cons. apply Forall_app. split; [exact Hall|].
      now constructor.
    + intros [= <-] _. exists events, value, [].
      split; [reflexivity|]. split; [now constructor | reflexivity].
  - intros [= <-] _. exists events, value, [].
    split; [reflexivity|]. split; [now constructor | reflexivity].
Qed.

(** After a run of still events that starts afresh, the listener
    remembers the time stamp of the first of them. *)
Lemma handled_still_run options before first rest :
  match lastTimeUnderThreshold (handled before (newWait options)) with
  | Some l => truthy l = false
  | None => True
  end ->
  Forall (fun v => still options v = true) (first :: rest) ->
  truthy (timestamp first) = true ->
  lastTimeUnderThreshold
    (handled (before ++ first :: rest) (newWait options))
  = Some (timestamp first).
Proof.
  intros Hfresh Hall Htruthy.
  induction rest as [|value rest IH] using rev_ind.
  - rewrite handled_snoc.
    destruct (handled_constants before (newWait options)) as [Hthr _].
    unfold SessionEngine.pixelsChangedStep. rewrite Hthr.
    apply Forall_cons in Hall as [Hfirst _].
    unfold Animations.still in Hfirst. rewrite Hfirst.
    cbn [fst lastTimeUnderThreshold].
    destruct (lastTimeUnderThreshold (handled before (newWait options)))
      as [l|]; [now rewrite Hfresh | reflexivity].
  - rewrite app_comm_cons in Hall. apply Forall_app in Hall as [Hall Hvalue].
    apply Forall_cons in Hvalue as [Hvalue _].
    rewrite app_comm_cons, app_assoc, handled_snoc.
    destruct (handled_constants (before ++ first :: rest) (newWait options))
      as [Hthr _].
    unfold SessionEngine.pixelsChangedStep. rewrite Hthr.
    unfold Animations.still in Hvalue. rewrite Hvalue.
    cbn [fst lastTimeUnderThreshold].
    now rewrite (IH Hall), Htruthy.
Qed.

Lemma resolves_remembered options events value :
  resolves options events value =
  match lastTimeUnderThreshold
          (handled (events ++ [value]) (newWait options)) with
  | Some l =>
      truthy l &&
      ge (timestamp value - l)%num (imageThresholdDuration (newWait options))
  | None => false
  end.
Proof.
  unfold Animations.resolves. rewrite handled_snoc.
  destruct (handled_constants events (newWait options)) as [Hthr Hdur].
  unfold SessionEngine.pixelsChangedStep. rewrite Hthr, Hdur.
  destruct (le (percentage value) (imageThreshold (newWait options)));
    reflexivity.
Qed.

(** X30: when [waitForAnimations] resolves.  The listener of a call
    resolves it on an event only at the end of a run of events that all
    report a change within the threshold, whose first time stamp is not
    falsy and lies at least the asked duration before the time stamp of
    the event; and it does resolve at the end of such a run when the run
    starts the sequence or follows an event that reports a change above
    the threshold. *)
Theorem waitForAnimations_resolves_after_still_run
    (options : WaitOptions) (events : list V) (value : V) :
  (resolves options events value = true ->
   exists before first rest,
     events ++ [value] = before ++ first :: rest /\
     Forall (fun v => still options v = true) (first :: rest) /\
     long_enough options first value = true) /\
  (forall before first rest,
     events ++ [value] = before ++ first :: rest ->
     before = [] \/ (exists b x, before = b ++ [x] /\ still options x = false) ->
     Forall (fun v => still options v = true) (first :: rest) ->
     long_enough options first value = true ->
     resolves options events value = true).
Proof.
  split.
  - rewrite resolves_remembered.
    destruct (lastTimeUnderThreshold _) as [l|] eqn:El; [|discriminate].
    intros Hr. apply andb_true_iff in Hr as [Ht Hge].
    destruct (handled_remembers options _ l El Ht)
      as (before & first & rest & Hsplit & Hall & <-).
    exists before, first, rest. split; [exact Hsplit|].
    split; [exact Hall|]. unfold Animations.long_enough.
    now rewrite Ht, Hge.
  - intros before first rest Hsplit Hfresh Hall Hlong.
    unfold Animations.long_enough in Hlong.
    apply andb_true_iff in Hlong as [Ht Hge].
    rewrite resolves_remembered, Hsplit.
    rewrite (handled_still_run options before first rest); [| |exact Hall|exact Ht].
    + now rewrite Ht, Hge.
    + destruct Hfresh as [-> | (b & x & -> & Hx)]; [exact I|].
      rewrite handled_snoc.
      destruct (handled_constants b (newWait options)) as [Hthr _].
      unfold SessionEngine.pixelsChangedStep. rewrite Hthr.
      unfold Animations.still in Hx. rewrite Hx. exact I.
Qed.

End AnimationFacts.

Example settling_resolves :
  Animations.resolves examplePercentage exampleTimestamp defaultWait
    settling (Pixels (of_Z 0) (of_Z 6000)) = true /\
  Animations.resolves examplePercentage exampleTimestamp defaultWait
    settling (Pixels (of_Z 0) (of_Z 5900)) = false /\
  Animations.resolves examplePercentage exampleTimestamp defaultWait
    [Pixels (of_Z 0) (of_Z 0)] (Pixels (of_Z 0) (of_Z 1000)) = false.
Proof. repeat split; vm_compute; reflexivity. Qed.

Lemma waitForAnimations_resolves_after_still_run_witness :
  Animations.resolves examplePercentage exampleTimestamp defaultWait
    settling (Pixels (of_Z 0) (of_Z 6000)) = true.
Proof.
  destruct (waitForAnimations_resolves_after_still_run examplePercentage
              exampleTimestamp defaultWait settling
              (Pixels (of_Z 0) (of_Z 6000))) as [_ Hresolves].
  apply (Hresolves [Pixels (Fin (1 # 2)) (of_Z 4000)]
           (Pixels (of_Z 0) (of_Z 5000))
           [Pixels (Fin (1 # 2000)) (of_Z 5600);
            Pixels (of_Z 0) (of_Z 6000)]).
  - reflexivity.
  - right. exists [], (Pixels (Fin (1 # 2)) (of_Z 4000)).
    split; reflexivity.
  - repeat constructor.
  - reflexivity.
Defined.


(** ** [playAction] on responses as they arrive *)

Section LiveFacts.
Import LiveDispatcher.
Context `{Host}.

Lemma live_await_response_spec payload_id due te inbox_ s rest at_ :
  await_response payload_id due te inbox_ = (s, rest, at_) ->
  at_ <= due /\
  ((s = Rejected te /\ exists pre, inbox_ = pre ++ rest) \/
   (exists pre ev,
      inbox_ = pre ++ (at_, ev) :: rest /\ deliver payload_id ev = Some s)).
Proof.
  revert s rest at_. induction inbox_ as [|[a ev] inbox_ IH];
    intros s rest at_.
  - simpl. intros [= <- <- <-]. split; [apply Qle_refl|].
    left. split; [reflexivity|]. now exists [].
  - simpl. destruct (Qle_bool due a) eqn:Ed.
    + intros [= <- <- <-]. split; [apply Qle_refl|].
      left. split; [reflexivity|]. now exists [].
    + apply Qle_bool_false in Ed.
      destruct (deliver payload_id ev) as [s'|] eqn:Edel.
      * intros [= <- <- <-]. split; [now apply Qlt_le_weak|].
        right. now exists [], ev.
      * intros Hrec. destruct (IH _ _ _ Hrec) as
          [Hle [(-> & pre & ->) | (pre & ev' & -> & Hd)]].
        -- split; [exact Hle|]. left. split; [reflexivity|].
           now exists ((a, ev) :: pre).
        -- split; [exact Hle|]. right. now exists ((a, ev) :: pre), ev'.
Qed.

(** The events that an attempt leaves are events that it found. *)
Lemma live_await_response_rest payload_id due te inbox_ s rest at_ :
  await_response payload_id due te inbox_ = (s, rest, at_) ->
  (forall x, x ∈ rest -> x ∈ inbox_) /\
  (s = Rejected te \/ (length rest < length inbox_)%nat).
Proof.
  intros Hr. apply live_await_response_spec in Hr as [_ Hr].
  destruct Hr as [(-> & pre & ->) | (pre & ev & -> & _)].
  - split; [|now left]. intros x Hx. apply elem_of_app. now right.
  - split.
    + intros x Hx. apply elem_of_app. right. now apply elem_of_cons; right.
    + right. rewrite length_app. simpl. lia.
Qed.

(** The constructor of the error raises exactly on a response that is
    not complete. *)
Lemma classify_pending error pb :
  raw_playback error = Some pb ->
  (classify error = Pending <-> complete error = false).
Proof.
  intros Hpb. unfold classify, complete, new_ActionInternalError,
    new_ActionElementNotFoundError, new_ActionAmbiguousElementError,
    new_ActionInvalidArgumentError.
  rewrite Hpb. cbn [mbind option_bind].
  destruct (errorId_is error "internalError"); [easy|].
  destruct (errorId_is error "notFound").
  { destruct (raw_action pb); cbn [mbind option_bind]; [|easy].
    rewrite bool_decide_eq_true_2 by eauto. easy. }
  destruct (errorId_is error "ambiguousMatch").
  { destruct (raw_matchedElements error); cbn [mbind option_bind]; [|easy].
    rewrite bool_decide_eq_true_2 by eauto. easy. }
  destruct (errorId_is error "invalidArgument"); [|easy].
  destruct (raw_message error) as [message|]; cbn [mbind option_bind];
    [|easy].
  destruct (includes message "outside the screen bounds");
    cbn [mbind option_bind]; [|easy].
  destruct (raw_action pb); cbn [mbind option_bind]; [|easy].
  rewrite bool_decide_eq_true_2 by eauto. easy.
Qed.

Lemma classify_rejected error e :
  classify error = Rejected e ->
  thrown_isOperational e = Some true /\
  instance_of e ActionError = true /\
  thrown_errorId e = raw_errorId error.
Proof.
  unfold classify, new_ActionInternalError,
    new_ActionElementNotFoundError, new_ActionAmbiguousElementError,
    new_ActionInvalidArgumentError.
  destruct (errorId_is error "internalError").
  { destruct (raw_playback error); cbn [mbind option_bind];
      [intros [= <-]; now repeat split | discriminate]. }
  destruct (errorId_is error "notFound").
  { destruct (raw_playback error) as [pb|]; cbn [mbind option_bind];
      [|discriminate].
    destruct (raw_action pb); cbn [mbind option_bind];
      [intros [= <-]; now repeat split | discriminate]. }
  destruct (errorId_is error "ambiguousMatch").
  { destruct (raw_matchedElements error); cbn [mbind option_bind];
      [intros [= <-]; now repeat split | discriminate]. }
  destruct (errorId_is error "invalidArgument");
    [|intros [= <-]; now repeat split].
  destruct (raw_message error) as [message|]; cbn [mbind option_bind];
    [|discriminate].
  destruct (includes message "outside the screen bounds");
    cbn [mbind option_bind]; [|intros [= <-]; now repeat split].
  destruct (raw_playback error) as [pb|]; cbn [mbind option_bind];
    [|discriminate].
  destruct (raw_action pb); cbn [mbind option_bind];
    [intros [= <-]; now repeat split | discriminate].
Qed.

(** What the promise of an attempt can settle with, and on what. *)
Lemma live_deliver payload_id ev s :
  deliver payload_id ev = Some s ->
  match s with
  | Resolved _ => True
  | Rejected e =>
      exists error, ev = playbackError error /\ classify error = Rejected e
  | Pending =>
      exists error pb,
        ev = playbackError error /\ complete error = false /\
        raw_playback error = Some pb /\ raw_id pb = Some payload_id
  end.
Proof.
  destruct ev as [value|error]; cbn [deliver].
  - unfold handleSuccess. destruct (Public.res_playback value);
      [|discriminate]. destruct (String.eqb _ _); [|discriminate].
    now intros [= <-].
  - unfold handleError.
    destruct (raw_playback error) as [pb|] eqn:Epb; [|discriminate].
    destruct (raw_id pb) as [id|] eqn:Eid; [|discriminate].
    destruct (String.eqb id payload_id) eqn:Eeq; [|discriminate].
    apply String.eqb_eq in Eeq. subst id.
    intros [= <-]. destruct (classify error) as [value|e|] eqn:Ec;
      [exact I | eauto |].
    exists error, pb. split; [reflexivity|].
    split; [now apply (classify_pending error pb Epb)|]. now split.
Qed.

Lemma timeout_error_instance payload action_ :
  instance_of (of_jserror (Dispatcher.hardTimeoutError payload action_))
    ActionTimeoutError = true.
Proof. reflexivity. Qed.

(** [playAction] is total: with more fuel than there are events to come
    the recursion ends. *)
Lemma live_playAction_rec_total fuel uuid read action_ options w :
  (length (inbox w) < fuel)%nat ->
  is_Some (playAction_rec fuel uuid read action_ options w).
Proof.
  revert options w. induction fuel as [|fuel IH]; intros options w Hf; [lia|].
  cbn [playAction_rec].
  destruct (Dispatcher.prepare _ action_ options) as [ma|e0]; [|eauto].
  destruct (await_response _ _ _ _) as [[s rest] at_] eqn:Ea.
  destruct s as [value|e|]; [eauto| |eauto].
  destruct (_ && negb (instance_of e ActionTimeoutError) && _) eqn:Er;
    [|eauto].
  apply IH. cbn [attempted inbox].
  destruct (live_await_response_rest _ _ _ _ _ _ _ Ea) as [_ [[= ->]|Hlt]];
    [|lia].
  rewrite timeout_error_instance in Er.
  rewrite andb_false_r in Er. discriminate.
Qed.

(** A run sets one timer for each request, and the time of its last
    event is within the sum of the timers. *)
Lemma live_ends_by_timers fuel uuid read action_ :
  forall options w res w',
    playAction_rec fuel uuid read action_ options w = Some (res, w') ->
    exists ps ts,
      sent w' = sent w ++ ps /\ timers w' = timers w ++ ts /\
      length ts = length ps /\
      now w' <= now w + total_delay ts.
Proof.
  induction fuel as [|fuel IH]; intros options w res w'; [discriminate|].
  cbn [playAction_rec].
  destruct (Dispatcher.prepare _ action_ options) as [ma|e0].
  2:{ intros [= <- <-]. exists [], []. rewrite !app_nil_r.
      repeat split. simpl. rewrite Qplus_0_r. apply Qle_refl. }
  destruct (await_response _ _ _ _) as [[s rest] at_] eqn:Ea.
  apply live_await_response_spec in Ea as [Ea _].
  rewrite timer_due_total_delay in Ea.
  set (T := default (of_Z 10000) (Dispatcher.timeout options)) in *.
  set (payload := Dispatcher.makePayload (uuid (drawn w)) ma T) in *.
  assert (Hone : forall r,
    Some (r, attempted w payload T s rest at_) = Some (res, w') ->
    exists ps ts,
      sent w' = sent w ++ ps /\ timers w' = timers w ++ ts /\
      length ts = length ps /\
      now w' <= now w + total_delay ts).
  { intros r [= _ <-].
    exists [payload], [Dispatcher.MAX_WAIT_FOR_RESPONSE T].
    repeat split. exact Ea. }
  destruct s as [value|e|]; try apply Hone.
  destruct (_ && _ && _); [|apply Hone].
  intros Hrun.
  destruct (IH _ _ _ _ Hrun) as (ps & ts & Hps & Hts & Hlen & Hnow).
  exists (payload :: ps), (Dispatcher.MAX_WAIT_FOR_RESPONSE T :: ts).
  cbn [attempted sent timers now] in Hps, Hts, Hnow.
  rewrite Hps, Hts, <- !app_assoc.
  split; [reflexivity|]. split; [reflexivity|].
  split; [simpl; now rewrite Hlen|].
  change (Dispatcher.MAX_WAIT_FOR_RESPONSE T :: ts)
    with ([Dispatcher.MAX_WAIT_FOR_RESPONSE T] ++ ts).
  rewrite total_delay_app. lra.
Qed.

(** A round that is entered with a timeout of at most 10 s is the last
    one. *)
Lemma live_last_round fuel uuid read action_ options w res w' :
  gt (Dispatcher.remainingTimeout
        (default (of_Z 10000) (Dispatcher.timeout options))) (of_Z 0)
    = false ->
  playAction_rec fuel uuid read action_ options w = Some (res, w') ->
  timers w' = timers w \/
  timers w' =
    timers w ++
    [Dispatcher.MAX_WAIT_FOR_RESPONSE
       (default (of_Z 10000) (Dispatcher.timeout options))].
Proof.
  intros Hlast. destruct fuel as [|fuel]; [discriminate|].
  cbn [playAction_rec].
  destruct (Dispatcher.prepare _ action_ options) as [ma|e0];
    [|intros [= _ <-]; now left].
  destruct (await_response _ _ _ _) as [[s rest] at_].
  rewrite Hlast. cbn [andb].
  destruct s; intros [= _ <-]; now right.
Qed.

(** A call hangs only on an error response to its last request that is
    not complete. *)
Lemma live_hangs fuel uuid read action_ :
  forall options w w',
    playAction_rec fuel uuid read action_ options w = Some (Hangs, w') ->
    exists at_ error p pb,
      (at_, playbackError error) ∈ inbox w /\ complete error = false /\
      last (sent w') = Some p /\ raw_playback error = Some pb /\
      raw_id pb = Some (Dispatcher.id p).
Proof.
  induction fuel as [|fuel IH]; intros options w w'; [discriminate|].
  cbn [playAction_rec].
  destruct (Dispatcher.prepare _ action_ options) as [ma|e0];
    [|discriminate].
  destruct (await_response _ _ _ _) as [[s rest] at_] eqn:Ea.
  pose proof (live_await_response_rest _ _ _ _ _ _ _ Ea) as [Hrest _].
  apply live_await_response_spec in Ea as [_ Ea].
  destruct s as [value|e|]; [discriminate | |].
  - destruct (_ && _ && _); [|discriminate].
    intros Hrun.
    destruct (IH _ _ _ Hrun) as (a & error & p & pb & Hin & Hrest').
    exists a, error, p, pb. split; [|exact Hrest'].
    apply Hrest. exact Hin.
  - intros [= <-].
    destruct Ea as [([=] & _) | (pre & ev & Hinbox & Hd)].
    apply live_deliver in Hd as (error & pb & -> & Hc & Hpb & Hid).
    eexists at_, error, _, pb. cbn [attempted sent].
    split; [rewrite Hinbox, elem_of_app; right; now left|].
    split; [exact Hc|]. split; [apply last_snoc|].
    split; [exact Hpb | exact Hid].
Qed.

(** X24: a call ends unless a handler raises.  Whatever the session,
    the action, the options and the events to come, [playAction] sets
    one hard timer for each request that it sends.  It hangs only when
    the device answers its last request with an error response that
    lacks what the constructor of the error reads: the handler has
    removed the listeners and the timer by then, and nothing settles the
    promise.  Otherwise it returns or throws, no later than the sum of
    the delays of its timers after its start: with the default timeout,
    within 20000 ms.  When every error response is complete the call
    does not hang. *)
Theorem playAction_ends_unless_a_handler_raises (uuid : nat -> string)
    (read : nat -> Dispatcher.Session) (action_ : Public.Action)
    (options : Dispatcher.PlayActionOptions) (events : timeline) :
  exists res w',
    playAction uuid read action_ options (start events) = Some (res, w') /\
    length (timers w') = length (sent w') /\
    (res = Hangs ->
     exists at_ error p pb,
       (at_, playbackError error) ∈ events /\ complete error = false /\
       last (sent w') = Some p /\ raw_playback error = Some pb /\
       raw_id pb = Some (Dispatcher.id p)) /\
    (res <> Hangs ->
     now w' <= total_delay (timers w') /\
     (Dispatcher.timeout options = None -> now w' <= 20000)) /\
    (complete_responses events -> res <> Hangs).
Proof.
  destruct (live_playAction_rec_total (S (length events)) uuid read action_
              options (start events)) as [[res w'] Hrun];
    [simpl; lia|].
  exists res, w'. split; [exact Hrun|].
  destruct (live_ends_by_timers _ _ _ _ _ _ _ _ Hrun)
    as (ps & ts & Hps & Hts & Hlen & Hnow).
  cbn [start sent timers now app] in Hps, Hts, Hnow.
  rewrite Qplus_0_l in Hnow.
  assert (Hhang : res = Hangs ->
    exists at_ error p pb,
      (at_, playbackError error) ∈ events /\ complete error = false /\
      last (sent w') = Some p /\ raw_playback error = Some pb /\
      raw_id pb = Some (Dispatcher.id p)).
  { intros ->. exact (live_hangs _ _ _ _ _ _ _ Hrun). }
  split; [now rewrite Hps, Hts|].
  split; [exact Hhang|]. split.
  - intros _. rewrite Hts. split; [exact Hnow|].
    intros Hdefault.
    assert (Hlast : gt (Dispatcher.remainingTimeout
                          (default (of_Z 10000) (Dispatcher.timeout options)))
                      (of_Z 0) = false).
    { rewrite Hdefault. apply (remainingTimeout_none 10000). apply Qle_refl. }
    assert (Hle : total_delay ts <= 20000).
    { destruct (live_last_round _ _ _ _ _ _ _ _ Hlast Hrun) as [Ht | Ht];
        rewrite Hts in Ht; cbn [start timers app] in Ht; rewrite Ht;
        [|rewrite Hdefault]; vm_compute; discriminate. }
    eapply Qle_trans; [exact Hnow | exact Hle].
  - intros Hcomplete ->.
    destruct (Hhang eq_refl) as (at_ & error & _ & _ & Hin & Hc & _).
    rewrite (Hcomplete at_ error Hin) in Hc. discriminate.
Qed.

(** On a session that is not changed during the call, what is thrown
    after a request is the error of its last attempt. *)
Lemma live_thrown fuel uuid read action_ :
  (forall k, read k = read 0%nat) ->
  forall options w e w' ma,
    playAction_rec fuel uuid read action_ options w = Some (Threw e, w') ->
    Dispatcher.prepare (read 0%nat) action_ options = Ok ma ->
    thrown_isOperational e = Some true /\
    instance_of e OperationalError = true /\
    (instance_of e ActionTimeoutError = true /\ thrown_errorId e = None \/
     instance_of e ActionError = true /\
     exists at_ error,
       (at_, playbackError error) ∈ inbox w /\
       thrown_errorId e = raw_errorId error).
Proof.
  intros Hread.
  induction fuel as [|fuel IH]; intros options w e w' ma; [discriminate|].
  cbn [playAction_rec]. rewrite (Hread (drawn w)).
  intros Hrun Hp. rewrite Hp in Hrun.
  destruct (await_response _ _ _ _) as [[s rest] at_] eqn:Ea.
  pose proof (live_await_response_rest _ _ _ _ _ _ _ Ea) as [Hrest _].
  apply live_await_response_spec in Ea as [_ Ea].
  assert (Hone : forall e1, s = Rejected e1 -> e = e1 ->
    thrown_isOperational e = Some true /\
    instance_of e OperationalError = true /\
    (instance_of e ActionTimeoutError = true /\ thrown_errorId e = None \/
     instance_of e ActionError = true /\
     exists at_ error,
       (at_, playbackError error) ∈ inbox w /\
       thrown_errorId e = raw_errorId error)).
  { intros e1 -> ->.
    destruct Ea as [([= ->] & _) | (pre & ev & Hinbox & Hd)].
    - split; [reflexivity|]. split; [reflexivity|]. left. now split.
    - apply live_deliver in Hd as (error & -> & Hc).
      apply classify_rejected in Hc as (Hop & Ha & Hid).
      split; [exact Hop|]. split.
      + unfold instance_of in *.
        destruct (thrown_cls e1); vm_compute in Ha |- *; congruence.
      + right. split; [exact Ha|]. exists at_, error.
        split; [|exact Hid]. rewrite Hinbox, elem_of_app. right. now left. }
  destruct s as [value|e1|]; try discriminate Hrun.
  destruct (gt (Dispatcher.remainingTimeout _) (of_Z 0)) eqn:Eg;
    [|injection Hrun as Heq _; now apply (Hone e1)].
  destruct (negb (instance_of e1 ActionTimeoutError) &&
            negb (instance_of e1 ActionInternalError)) eqn:Er;
    cbn [andb] in Hrun; rewrite Er in Hrun;
    [|injection Hrun as Heq _; now apply (Hone e1)].
  destruct (IH _ _ _ _ ma Hrun) as (Hop & Hinst & Hkind).
  { apply (prepare_retry _ _ _ _ _ Hp Eg). }
  split; [exact Hop|]. split; [exact Hinst|].
  destruct Hkind as [Hk | (Ha & a & error & Hin & Hid)]; [now left|].
  right. split; [exact Ha|]. exists a, error. split; [|exact Hid].
  apply Hrest. exact Hin.
Qed.

(** X27: the errors of a call that has sent a request.  On a session
    whose configuration and device are not changed during the call, an
    error that [playAction] throws after it has sent at least one
    request is operational ([isOperational] is [true] and it is an
    [OperationalError]): it is the [ActionTimeoutError] of the hard
    timer, which has no [errorId], or an [ActionError] that carries the
    [errorId] of an error response of the device. *)
Theorem errors_after_a_request_are_operational (uuid : nat -> string)
    (read : nat -> Dispatcher.Session) (action_ : Public.Action)
    (options : Dispatcher.PlayActionOptions) (events : timeline) e w' :
  (forall k, read k = read 0%nat) ->
  playAction uuid read action_ options (start events) = Some (Threw e, w') ->
  sent w' <> [] ->
  thrown_isOperational e = Some true /\
  instance_of e OperationalError = true /\
  (instance_of e ActionTimeoutError = true /\ thrown_errorId e = None \/
   instance_of e ActionError = true /\
   exists at_ error,
     (at_, playbackError error) ∈ events /\
     thrown_errorId e = raw_errorId error).
Proof.
  intros Hread Hrun Hsent.
  destruct (Dispatcher.prepare (read 0%nat) action_ options) as [ma|e0] eqn:Ep.
  - exact (live_thrown _ _ _ _ Hread _ _ _ _ ma Hrun Ep).
  - unfold playAction in Hrun. cbn [playAction_rec start drawn] in Hrun.
    rewrite Ep in Hrun. injection Hrun as _ <-. now contradiction Hsent.
Qed.

End LiveFacts.

(** A response that lacks the action of the request makes the call hang:
    the constructor of [ActionElementNotFoundError] raises after the
    timer of the attempt was cleared. *)
Example playAction_hangs_on_bare_notFound :
  exists w',
    LiveDispatcher.playAction (H:=exampleHost) exampleUuid
      (fun _ => exampleSession) tapOkButton
      {| timeout := None; noMap := false |}
      (LiveDispatcher.start
         [(100, LiveDispatcher.playbackError bareNotFound)])
    = Some (LiveDispatcher.Hangs, w') /\
    length (LiveDispatcher.sent w') = 1%nat.
Proof. eexists. split; [vm_compute; reflexivity | reflexivity]. Qed.

Lemma playAction_ends_unless_a_handler_raises_witness :
  exists res w',
    LiveDispatcher.playAction (H:=exampleHost) exampleUuid
      (fun _ => exampleSession) tapOkButton
      {| timeout := None; noMap := false |}
      (LiveDispatcher.start
         [(100, LiveDispatcher.playbackError wholeNotFound)])
    = Some (res, w') /\
    res <> LiveDispatcher.Hangs /\ LiveDispatcher.now w' <= 20000.
Proof.
  destruct (playAction_ends_unless_a_handler_raises (H:=exampleHost)
              exampleUuid (fun _ => exampleSession) tapOkButton
              {| timeout := None; noMap := false |}
              [(100, LiveDispatcher.playbackError wholeNotFound)])
    as (res & w' & Hrun & _ & _ & Hends & Hcomplete).
  assert (Hres : res <> LiveDispatcher.Hangs).
  { apply Hcomplete. intros at_ error Hin.
    apply list_elem_of_singleton in Hin. injection Hin as _ ->.
    reflexivity. }
  exists res, w'. split; [exact Hrun|]. split; [exact Hres|].
  apply (Hends Hres). reflexivity.
Defined.

Lemma errors_after_a_request_are_operational_witness :
  exists e w',
    LiveDispatcher.playAction (H:=exampleHost) exampleUuid
      (fun _ => exampleSession) tapOkButton
      {| timeout := None; noMap := false |}
      (LiveDispatcher.start
         [(100, LiveDispatcher.playbackError wholeNotFound)])
    = Some (LiveDispatcher.Threw e, w') /\
    LiveDispatcher.thrown_isOperational e = Some true /\
    LiveDispatcher.thrown_errorId e = Some "notFound".
Proof.
  assert (Hrun : exists e w',
    LiveDispatcher.playAction (H:=exampleHost) exampleUuid
      (fun _ => exampleSession) tapOkButton
      {| timeout := None; noMap := false |}
      (LiveDispatcher.start
         [(100, LiveDispatcher.playbackError wholeNotFound)])
    = Some (LiveDispatcher.Threw e, w') /\
    LiveDispatcher.sent w' <> [] /\
    LiveDispatcher.thrown_errorId e = Some "notFound").
  { eexists _, _. split; [vm_compute; reflexivity|].
    split; [discriminate | reflexivity]. }
  destruct Hrun as (e & w' & Hrun & Hsent & Hid).
  destruct (errors_after_a_request_are_operational (H:=exampleHost)
              exampleUuid (fun _ => exampleSession) tapOkButton
              {| timeout := None; noMap := false |}
              [(100, LiveDispatcher.playbackError wholeNotFound)] e w'
              (fun _ => eq_refl) Hrun Hsent) as (Hop & _).
  exists e, w'. repeat split; assumption.
Defined.

(** On a session whose device is replaced during the call, the mapping
    of a retry can throw: after a [notFound] response, a tap that was on
    the screen is off the smaller screen, and the call ends with the
    [OperationalError] of the mapper, which is neither of the two kinds
    of error above. *)
Example retry_on_a_changed_screen_throws_mapping_error :
  exists e w',
    LiveDispatcher.playAction (H:=exampleHost) exampleUuid
      shrinkingSession (tapCoordinates (of_Z 350) (of_Z 700))
      {| timeout := Some (of_Z 25000); noMap := false |}
      (LiveDispatcher.start
         [(100, LiveDispatcher.playbackError wholeNotFound)])
    = Some (LiveDispatcher.Threw e, w') /\
    length (LiveDispatcher.sent w') = 1%nat /\
    LiveDispatcher.thrown_cls e = OperationalError /\
    LiveDispatcher.instance_of e ActionError = false /\
    LiveDispatcher.instance_of e ActionTimeoutError = false.
Proof.
  eexists _, _. split; [vm_compute; reflexivity|]. repeat split.
Qed.
